(** * Moon OCR Reader: the dual-path recognition orchestrator

    A shallow embedding of the JavaScript sources

      - [src/ocr-engine.js]      (two revisions: the sequential engine and
                                  the concurrent one),
      - [src/image-utils.js]     ([getFileHash]),
      - [src/gemini-vision.js]   (the API key and the client; the tails of
                                  [geminiVisionRead] and
                                  [geminiMergeResults]),
      - [src/main.js]            (the gallery, [startOcr],
                                  [refineSingleResult], the AI toggle and
                                  the key dialog of [init], state),

    and the properties of the batch pipeline proved about it.

    JavaScript objects are finite maps from property names to values,
    object spread is a sequence of property writes, and objects that are
    mutated after they were stored somewhere live in an explicit heap.
    Asynchronous code is cut at its [await]s: every suspended activation
    of [startOcr] or [refineSingleResult] is a record in the state, and a
    scheduler action resumes one of them with the outcome of the awaited
    promise.  Between two such actions the user may edit the gallery:
    the loop of [startOcr] over [state.images] is an iterator on the
    array itself, which [addImages] and [removeImage] change in place
    and [clearAllImages] replaces. *)

From Stdlib Require Import QArith Ascii.
From stdpp Require Import gmap strings list fin_maps pretty.

Open Scope string_scope.
Open Scope list_scope.
Open Scope nat_scope.

(** ** JavaScript values and objects *)

#[warnings="-register-all"]
Inductive JsVal : Type :=
  | JsUndefined
  | JsNull
  | JsBool (b : bool)
  | JsNum (q : Q)
  | JsStr (s : string)
  | JsArr (l : list JsVal)
  | JsObj (l : list (string * JsVal)).

Abbreviation JsObject := (gmap string JsVal).

(** [!!v]: the truthiness used by [if], [&&], [||] and [?:]. *)
Definition truthy (v : JsVal) : bool :=
  match v with
  | JsUndefined | JsNull => false
  | JsBool b => b
  | JsNum q => negb (Qeq_bool q 0)
  | JsStr s => negb (String.eqb s "")
  | JsArr _ | JsObj _ => true
  end.

(** [o.k]: reading a missing property gives [undefined]. *)
Definition get (o : JsObject) (k : string) : JsVal :=
  default JsUndefined (o !! k).

(** [{ ...o, k1: v1, ..., kn: vn }] and [{ k1: v1, ..., ...o, ... }]:
    properties are written left to right, later writes win. *)
Definition setProps (kvs : list (string * JsVal)) (o : JsObject) : JsObject :=
  foldl (fun acc kv => <[kv.1 := kv.2]> acc) o kvs.

(** [{ ...a, ...b }] on top of [base]: every own property of [o] is
    written over [base]. *)
Definition spread (o base : JsObject) : JsObject := o ∪ base.

(** [s.includes(t)]. *)
Fixpoint prefixb (t s : string) : bool :=
  match t, s with
  | EmptyString, _ => true
  | String a t', String b s' => Ascii.eqb a b && prefixb t' s'
  | String _ _, EmptyString => false
  end.

Fixpoint includes (s t : string) : bool :=
  prefixb t s ||
  match s with
  | EmptyString => false
  | String _ s' => includes s' t
  end.

(** ** Files and images *)

Record File := mkFile {
  name : string;              (* file.name *)
  ftype : string;             (* file.type *)
  bytes : list Byte.byte      (* the contents, [await file.arrayBuffer()] *)
}.

(** An element of [state.images]: [{ id, file, url, name }]; the object
    URL is only used for rendering. *)
Record Image := mkImage {
  id : string;
  file : File
}.

(** ** image-utils.js: [getFileHash] *)

Definition hexDigit (n : N) : Ascii.ascii :=
  match n with
  | 0%N => "0" | 1%N => "1" | 2%N => "2" | 3%N => "3"
  | 4%N => "4" | 5%N => "5" | 6%N => "6" | 7%N => "7"
  | 8%N => "8" | 9%N => "9" | 10%N => "a" | 11%N => "b"
  | 12%N => "c" | 13%N => "d" | 14%N => "e" | _ => "f"
  end%char.

(** [b.toString(16)] for a byte. *)
Definition toString16 (b : Byte.byte) : string :=
  let n := Byte.to_N b in
  if (n <? 16)%N then String (hexDigit n) ""
  else String (hexDigit (n / 16)) (String (hexDigit (n mod 16)) "").

(** [s.padStart(n, '0')]. *)
Definition padStart0 (n : nat) (s : string) : string :=
  String.concat "" (replicate (n - String.length s) "0") +:+ s.

(** ** ocr-engine.js

    The repository holds two revisions of the engine.  [Sequential] is
    [src/ocr-engine.js] as named in the tree: jobs are awaited one after
    the other.  [Concurrent] is the revision that submits every job to
    the scheduler at once and collects them with [Promise.all]. *)

Inductive Revision := Sequential | Concurrent.

Record OcrEngine := mkEngine {
  scheduler : option (list string);  (* the scheduler's workers, each bound
                                        to the language it was created for *)
  isReady : bool;
  currentLang : string;
  workerCount : nat
}.

(** [constructor()]: [navigator.hardwareConcurrency] is a positive number
    or undefined. *)
Definition newOcrEngine (hardwareConcurrency : option nat) : OcrEngine :=
  {| scheduler := None;
     isReady := false;
     currentLang := "kor";
     workerCount :=
       match hardwareConcurrency with
       | Some (S n) => Nat.min (S n) 4
       | _ => 2
       end |}.

Definition terminate (e : OcrEngine) : OcrEngine :=
  {| scheduler := None; isReady := false;
     currentLang := currentLang e; workerCount := workerCount e |}.

(** Line 36 of either revision: the local [workerCount] of [initialize]. *)
Definition poolSize (rev : Revision) (e : OcrEngine) (lang : string) : nat :=
  match rev with
  | Sequential =>
      if includes lang "+" then 1 else Nat.min (workerCount e) 2
  | Concurrent =>
      if includes lang "+" then Nat.min (workerCount e) 2
      else Nat.min (workerCount e) 4
  end.

(** The fractions passed to [onProgress] while the workers are created. *)
Definition loadingProgress (n created : nat) : list Q :=
  map (fun i => Z.of_nat (i + 1) # Pos.of_nat (n + 1)) (seq 0 created).

(** [initialize(lang, onProgress)].  [failAt = Some k] means that
    [Tesseract.createWorker] rejects for the worker of index [k] (the
    language model cannot be loaded); the result is the engine, the
    progress reported, and whether the promise resolved. *)
Definition initialize (rev : Revision) (lang : string) (failAt : option nat)
    (e : OcrEngine) : OcrEngine * list Q * bool :=
  if isReady e && String.eqb (currentLang e) lang then (e, [], true)
  else
    let e1 := terminate e in
    let n := poolSize rev e1 lang in
    match failAt with
    | Some k =>
        if k <? n then
          ({| scheduler := Some (replicate k lang); isReady := false;
              currentLang := lang; workerCount := workerCount e1 |},
           0%Q :: loadingProgress n (k + 1), false)
        else
          ({| scheduler := Some (replicate n lang); isReady := true;
              currentLang := lang; workerCount := workerCount e1 |},
           0%Q :: loadingProgress n n ++ [1%Q], true)
    | None =>
        ({| scheduler := Some (replicate n lang); isReady := true;
            currentLang := lang; workerCount := workerCount e1 |},
         0%Q :: loadingProgress n n ++ [1%Q], true)
    end.

(** What [recognizeImage] computes from a settled scheduler job: the
    locals [text], [confidence], [lines], [words], [paragraphs], [blocks]
    of lines 69-81, after trimming and filtering. *)
Record Recognized := mkRecognized {
  d_text : string;
  d_confidence : Q;
  d_lines : list JsVal;
  d_words : nat;
  d_paragraphs : nat;
  d_blocks : list JsVal
}.

(** A scheduler job resolves with recognition data or rejects with an
    error whose [message] is given. *)
Inductive JobOutcome :=
  | JobResolved (d : Recognized)
  | JobRejected (message : string).

Definition numOfNat (n : nat) : JsVal := JsNum (inject_Z (Z.of_nat n)).

(** The object literal returned by [recognizeImage]. *)
Definition resultObject (d : Recognized) : JsObject :=
  setProps [("text", JsStr (d_text d));
            ("confidence", JsNum (d_confidence d));
            ("lines", JsArr (d_lines d));
            ("words", numOfNat (d_words d));
            ("paragraphs", numOfNat (d_paragraphs d));
            ("blocks", JsArr (d_blocks d))] ∅.

Definition notInitialized : string :=
  "OCR 엔진이 초기화되지 않았습니다. initialize()를 먼저 호출하세요.".

(** [recognizeImage(image)]: [inl] is the resolved value, [inr] the
    message of the error the promise rejects with. *)
Definition recognizeImage (e : OcrEngine) (o : JobOutcome) : JsObject + string :=
  if negb (isReady e) || negb (bool_decide (is_Some (scheduler e)))
  then inr notInitialized
  else match o with
       | JobResolved d => inl (resultObject d)
       | JobRejected m => inr m
       end.

(** An element of the [images] argument of [recognizeBatch]. *)
Record Job := mkJob { j_file : File; j_id : string }.

(** [{ id, filename: file.name, ...result, error: null }] *)
Definition successEntry (j : Job) (result : JsObject) : JsObject :=
  <["error" := JsNull]>
    (spread result
       (setProps [("id", JsStr (j_id j)); ("filename", JsStr (name (j_file j)))] ∅)).

(** [{ id, filename: file.name, text: '', confidence: 0, error: err.message }] *)
Definition failureEntry (j : Job) (message : string) : JsObject :=
  setProps [("id", JsStr (j_id j)); ("filename", JsStr (name (j_file j)));
            ("text", JsStr ""); ("confidence", JsNum 0);
            ("error", JsStr message)] ∅.

Definition batchEntry (j : Job) (r : JsObject + string) : JsObject :=
  match r with
  | inl result => successEntry j result
  | inr message => failureEntry j message
  end.

(** The second argument of [onImageComplete]: the result, or [null]. *)
Definition resultOrNull (r : JsObject + string) : option JsObject :=
  match r with inl result => Some result | inr _ => None end.

Section RecognizeBatch.

(** The caller's hooks act on a state of the caller's choice. *)
Context {S : Type}.
Variable onImageStart : string → nat → nat → S → S.
Variable onImageComplete : string → option JsObject → nat → nat → S → S.
Variable onProgress : Q → S → S.

Variable e : OcrEngine.
(** The outcome of the scheduler job submitted for the image of index [i]. *)
Variable outcome : nat → JobOutcome.

Definition fraction (a b : nat) : Q := Z.of_nat a # Pos.of_nat b.

(** Sequential revision, one turn of the [for] loop. *)
Definition seqTurn (total : nat) (acc : list JsObject * S) (ij : nat * Job)
    : list JsObject * S :=
  let '(results, s) := acc in
  let '(i, j) := ij in
  let s := onImageStart (j_id j) i total s in
  let s := onProgress (fraction i total) s in
  let r := recognizeImage e (outcome i) in
  let results := results ++ [batchEntry j r] in
  let s := onImageComplete (j_id j) (resultOrNull r) i total s in
  let s := onProgress (fraction (i + 1) total) s in
  (results, s).

Definition recognizeBatchSeq (images : list Job) (s : S) : list JsObject * S :=
  foldl (seqTurn (length images)) ([], s) (imap (fun i j => (i, j)) images).

(** Concurrent revision.  The callback of [images.map] runs for every job
    first; then the promises settle in some order, each running its
    [then] or [catch] handler. *)
Definition startAll (images : list Job) (s : S) : S :=
  foldl (fun s ij => onImageStart (j_id ij.2) ij.1 (length images) s) s
        (imap (fun i j => (i, j)) images).

(** The handler of job [i]: [completed++], then the two hooks. *)
Definition settle (images : list Job) (i : nat) (acc : nat * S) : nat * S :=
  let '(completed, s) := acc in
  match images !! i with
  | None => acc
  | Some j =>
      let completed := completed + 1 in
      let s := onProgress (fraction completed (length images)) s in
      let s := onImageComplete (j_id j)
                 (resultOrNull (recognizeImage e (outcome i))) i (length images) s in
      (completed, s)
  end.

(** [order] lists the jobs in the order in which they settle.
    [Promise.all] resolves once every job has settled, with the values in
    submission order; until then the caller stays suspended ([None]). *)
Definition recognizeBatchConc (images : list Job) (order : list nat) (s : S)
    : option (list JsObject) * S :=
  let s := startAll images s in
  let '(_, s) := foldl (fun acc i => settle images i acc) (0, s) order in
  (if bool_decide (order ≡ₚ seq 0 (length images))
   then Some (imap (fun i j => batchEntry j (recognizeImage e (outcome i))) images)
   else None, s).

End RecognizeBatch.

(** ** gemini-vision.js: what the two calls resolve with *)

(** [geminiVisionRead] rejects (no client, transport error) or reaches
    its last line with [response.text?.trim()] being a string or
    undefined. *)
Inductive VisionOutcome :=
  | VisionRejected
  | VisionResponse (trimmed : option string).

(** [return response.text?.trim() || '';] followed, in [startOcr], by
    [.catch(err => '')]. *)
Definition visionTextOf (o : VisionOutcome) : string :=
  match o with
  | VisionRejected => ""
  | VisionResponse (Some t) => if truthy (JsStr t) then t else ""
  | VisionResponse None => ""
  end.

Inductive MergeOutcome :=
  | MergeRejected
  | MergeResponse (trimmed : option string).

(** [return response.text?.trim() || ocrText;] *)
Definition mergedTextOf (trimmed : option string) (ocrText : JsVal) : JsVal :=
  match trimmed with
  | Some t => if truthy (JsStr t) then JsStr t else ocrText
  | None => ocrText
  end.

(** ** main.js: state *)

(** An element of [imagesToProcess]:
    [{ file: resizedFile, id, originalFile, hash, cacheKey }]. *)
Record ImgData := mkImgData {
  i_file : File;
  i_id : string;
  originalFile : File;
  hash : string;
  cacheKey : string
}.

(** The array that [for (const img of state.images)] walks.  The loop
    evaluates [state.images] once and walks that array object across its
    [await]s.  [removeImage] splices and [addImages] pushes onto the
    array [state.images] refers to, so the loop sees their effect as
    long as that is the array it walks ([Live]).  [clearAllImages]
    assigns a new array to [state.images]: the loop is left with the old
    one, which nothing can reach any more ([Detached]). *)
Inductive Walked :=
  | Live
  | Detached (arr : list Image).

(** The array iterator of the loop: the array and the index of the
    element it gives next. *)
Record ArrayIterator := mkIter {
  iterated : Walked;
  nextIndex : nat
}.

(** Where a suspended activation of [startOcr] waits. *)
Inductive Pc :=
  | AtInitialize
      (* await ocrEngine.initialize(...) *)
  | AtHash (img : Image) (it : ArrayIterator) (imagesToProcess : list ImgData)
           (cachedResults : list JsObject)
      (* await getFileHash(img.file), [img] the image [it] gave last *)
  | AtResize (img : Image) (hash cacheKey : string) (it : ArrayIterator)
             (imagesToProcess : list ImgData) (cachedResults : list JsObject)
      (* await resizeForOcr(img.file) *)
  | AtRecognizeBatch (imagesToProcess : list ImgData)
                     (visionPromises : gmap string File)
                     (unsettled : list nat) (completed : nat).
      (* await ocrEngine.recognizeBatch(...) *)

Record Frame := mkFrame {
  f_lang : string;            (* const lang *)
  f_useAI : bool;             (* const useAI *)
  f_pc : Pc;
  (* bookkeeping, not program state *)
  f_batch : nat;              (* the number of this batch *)
  f_images : list Image;      (* the images the loop has taken up *)
  f_failed : list string;     (* ids whose recognition job rejected *)
  f_dropped : list JsVal      (* ids of the entries [clearAllImages] took
                                 off the result list during the batch *)
}.

(** Where a suspended activation of [refineSingleResult] waits. *)
Inductive Stage :=
  | AwaitVision                        (* await visionPromise *)
  | AwaitMerge (ocrText : JsVal) (visionText : string).
      (* await geminiMergeResults(resultEntry.ocrText, visionText, lang) *)

Record Task := mkTask {
  t_entry : nat;              (* resultEntry, a reference into the heap *)
  t_lang : string;
  t_cacheKey : JsVal;         (* imgMeta?.cacheKey *)
  t_stage : Stage;
  t_batch : nat               (* bookkeeping: the batch that started it *)
}.

(** What an observer sees, in order. *)
Inductive Event :=
  | EvStart (batch : nat) (imgs : list Image) (lang : string) (useAI : bool)
      (* startOcr takes up a batch: the gallery as it is, language and mode *)
  | EvTake (batch : nat) (img : Image)
      (* the loop of the batch takes up [img]: getFileHash(img.file) *)
  | EvAppend (batch entry : nat) (cached : bool)
      (* appendSingleResult(entry) *)
  | EvStatus (batch entry : nat) (aiStatus : string)
      (* refineSingleResult assigns resultEntry.aiStatus *)
  | EvCacheSet (batch entry : nat) (key : string) (aiStatus : JsVal).
      (* resultCache.set(key, ...) for [entry], whose aiStatus is given *)

Record State := mkState {
  images : list Image;                 (* state.images *)
  results : list nat;                  (* state.results, heap references *)
  isProcessing : bool;                 (* state.isProcessing *)
  aiEnabled : bool;                    (* state.aiEnabled *)
  imageIdCounter : nat;
  resultCache : gmap string JsObject;
  ocrEngine : OcrEngine;
  heap : list JsObject;                (* the result entries ever created *)
  frames : list Frame;                 (* suspended startOcr activations *)
  tasks : list Task;                   (* suspended refineSingleResult's *)
  batches : nat;                       (* bookkeeping: batches started *)
  trace : list Event                   (* bookkeeping: the event log *)
}.

Definition initialState (hardwareConcurrency : option nat) : State :=
  {| images := []; results := []; isProcessing := false; aiEnabled := false;
     imageIdCounter := 0; resultCache := ∅;
     ocrEngine := newOcrEngine hardwareConcurrency;
     heap := []; frames := []; tasks := []; batches := 0; trace := [] |}.

Definition set_images v (s : State) : State :=
  mkState v (results s) (isProcessing s) (aiEnabled s) (imageIdCounter s)
    (resultCache s) (ocrEngine s) (heap s) (frames s) (tasks s) (batches s) (trace s).
Definition set_results v (s : State) : State :=
  mkState (images s) v (isProcessing s) (aiEnabled s) (imageIdCounter s)
    (resultCache s) (ocrEngine s) (heap s) (frames s) (tasks s) (batches s) (trace s).
Definition set_isProcessing v (s : State) : State :=
  mkState (images s) (results s) v (aiEnabled s) (imageIdCounter s)
    (resultCache s) (ocrEngine s) (heap s) (frames s) (tasks s) (batches s) (trace s).
Definition set_aiEnabled v (s : State) : State :=
  mkState (images s) (results s) (isProcessing s) v (imageIdCounter s)
    (resultCache s) (ocrEngine s) (heap s) (frames s) (tasks s) (batches s) (trace s).
Definition set_imageIdCounter v (s : State) : State :=
  mkState (images s) (results s) (isProcessing s) (aiEnabled s) v
    (resultCache s) (ocrEngine s) (heap s) (frames s) (tasks s) (batches s) (trace s).
Definition set_resultCache v (s : State) : State :=
  mkState (images s) (results s) (isProcessing s) (aiEnabled s) (imageIdCounter s)
    v (ocrEngine s) (heap s) (frames s) (tasks s) (batches s) (trace s).
Definition set_ocrEngine v (s : State) : State :=
  mkState (images s) (results s) (isProcessing s) (aiEnabled s) (imageIdCounter s)
    (resultCache s) v (heap s) (frames s) (tasks s) (batches s) (trace s).
Definition set_heap v (s : State) : State :=
  mkState (images s) (results s) (isProcessing s) (aiEnabled s) (imageIdCounter s)
    (resultCache s) (ocrEngine s) v (frames s) (tasks s) (batches s) (trace s).
Definition set_frames v (s : State) : State :=
  mkState (images s) (results s) (isProcessing s) (aiEnabled s) (imageIdCounter s)
    (resultCache s) (ocrEngine s) (heap s) v (tasks s) (batches s) (trace s).
Definition set_tasks v (s : State) : State :=
  mkState (images s) (results s) (isProcessing s) (aiEnabled s) (imageIdCounter s)
    (resultCache s) (ocrEngine s) (heap s) (frames s) v (batches s) (trace s).
Definition set_batches v (s : State) : State :=
  mkState (images s) (results s) (isProcessing s) (aiEnabled s) (imageIdCounter s)
    (resultCache s) (ocrEngine s) (heap s) (frames s) (tasks s) v (trace s).
Definition emit (ev : Event) (s : State) : State :=
  mkState (images s) (results s) (isProcessing s) (aiEnabled s) (imageIdCounter s)
    (resultCache s) (ocrEngine s) (heap s) (frames s) (tasks s) (batches s)
    (trace s ++ [ev]).

(** ** main.js: image management *)

Definition validTypes : list string :=
  ["image/png"; "image/jpeg"; "image/webp"; "image/bmp"; "image/gif"; "image/tiff"].

(** [`img-${n}`] *)
Definition imageId (n : nat) : string := "img-" +:+ pretty n.

(** One turn of the loop of [addImages]. *)
Definition addImage (s : State) (f : File) : State :=
  if bool_decide (ftype f ∈ validTypes) then
    let n := imageIdCounter s + 1 in
    set_images (images s ++ [mkImage (imageId n) f]) (set_imageIdCounter n s)
  else s.

Definition addImages (files : list File) (s : State) : State :=
  foldl addImage s files.

Definition removeImage (i : string) (s : State) : State :=
  match list_find (λ img, id img = i) (images s) with
  | Some (idx, _) => set_images (delete idx (images s)) s
  | None => s
  end.

(** ** main.js: the objects built by [startOcr] and [refineSingleResult] *)

(** [a || b] *)
Definition orElse (a b : JsVal) : JsVal := if truthy a then a else b.

(** [{ ...cached, id: img.id, filename: img.file.name }] *)
Definition cachedEntry (cached : JsObject) (img : Image) : JsObject :=
  setProps [("id", JsStr (id img)); ("filename", JsStr (name (file img)))]
           (spread cached ∅).

(** [imgMeta?.originalFile?.name] and [imgMeta?.cacheKey] *)
Definition metaName (imgMeta : option ImgData) : JsVal :=
  match imgMeta with Some m => JsStr (name (originalFile m)) | None => JsUndefined end.
Definition metaCacheKey (imgMeta : option ImgData) : JsVal :=
  match imgMeta with Some m => JsStr (cacheKey m) | None => JsUndefined end.

(** The [resultEntry] literal of [onImageComplete], lines 251-260. *)
Definition newResultEntry (i : string) (imgMeta : option ImgData)
    (result : JsObject) (useAI : bool) : JsObject :=
  setProps [("error", JsNull);
            ("ocrText", get result "text");
            ("visionText", JsNull);
            ("mergedText", JsNull);
            ("aiStatus", JsStr (if useAI then "pending" else "disabled"))]
    (spread result
       (setProps [("id", JsStr i);
                  ("filename", orElse (metaName imgMeta) (JsStr "unknown"))] ∅)).

(** The object cached at line 268. *)
Definition primaryCacheEntry (result : JsObject) : JsObject :=
  setProps [("text", get result "text");
            ("confidence", get result "confidence");
            ("lines", get result "lines");
            ("words", get result "words");
            ("paragraphs", get result "paragraphs");
            ("blocks", get result "blocks")] ∅.

(** The object cached at lines 332-343. *)
Definition mergedCacheEntry (mergedText : JsVal) (visionText : string)
    (resultEntry : JsObject) : JsObject :=
  setProps [("text", mergedText);
            ("ocrText", get resultEntry "ocrText");
            ("visionText", JsStr visionText);
            ("mergedText", mergedText);
            ("confidence", get resultEntry "confidence");
            ("lines", get resultEntry "lines");
            ("words", get resultEntry "words");
            ("paragraphs", get resultEntry "paragraphs");
            ("blocks", get resultEntry "blocks");
            ("aiStatus", JsStr "done")] ∅.

(** ** main.js: heap accesses *)

(** [entry.k], for the entry at reference [l]. *)
Definition field (l : nat) (k : string) (s : State) : JsVal :=
  match heap s !! l with
  | Some o => get o k
  | None => JsUndefined
  end.

(** [entry.k = v] *)
Definition assign (l : nat) (k : string) (v : JsVal) (s : State) : State :=
  set_heap (alter (<[k := v]>) l (heap s)) s.

(** What the result list holds, by id. *)
Definition resultIds (s : State) : list JsVal :=
  map (λ l, field l "id" s) (results s).

(** A fresh object; [state.results.push(entry)]; [appendSingleResult(entry)]. *)
Definition pushResult (b : nat) (cached : bool) (entry : JsObject) (s : State)
    : State :=
  let l := length (heap s) in
  emit (EvAppend b l cached)
    (set_results (results s ++ [l]) (set_heap (heap s ++ [entry]) s)).

(** ** main.js: [refineSingleResult] *)

Definition with_stage (st : Stage) (t : Task) : Task :=
  mkTask (t_entry t) (t_lang t) (t_cacheKey t) st (t_batch t).

(** Assigning the final [aiStatus] ends the activation. *)
Definition settleStatus (tk : nat) (t : Task) (status : string) (s : State)
    : State :=
  let s := assign (t_entry t) "aiStatus" (JsStr status) s in
  emit (EvStatus (t_batch t) (t_entry t) status)
       (set_tasks (delete tk (tasks s)) s).

(** From [await visionPromise] to the next [await] or the end. *)
Definition afterVision (tk : nat) (t : Task) (visionText : string) (s : State)
    : State :=
  let l := t_entry t in
  let s := assign l "visionText" (JsStr visionText) s in
  let ocrText := field l "ocrText" s in
  if truthy (JsStr visionText) && truthy ocrText then
    set_tasks (<[tk := with_stage (AwaitMerge ocrText visionText) t]> (tasks s)) s
  else if truthy (JsStr visionText) && negb (truthy ocrText) then
    let s := assign l "text" (JsStr visionText) s in
    let s := assign l "mergedText" (JsStr visionText) s in
    settleStatus tk t "done" s
  else
    settleStatus tk t "failed" s.

(** [if (cacheKey) resultCache.set(cacheKey, {...})] *)
Definition cacheMerged (t : Task) (mergedText : JsVal) (visionText : string)
    (s : State) : State :=
  match t_cacheKey t with
  | JsStr key =>
      if truthy (JsStr key) then
        match heap s !! t_entry t with
        | Some resultEntry =>
            emit (EvCacheSet (t_batch t) (t_entry t) key (get resultEntry "aiStatus"))
              (set_resultCache
                 (<[key := mergedCacheEntry mergedText visionText resultEntry]>
                    (resultCache s)) s)
        | None => s
        end
      else s
  | _ => s
  end.

(** From [await geminiMergeResults(...)] to the end; a rejection lands in
    the [catch]. *)
Definition afterMerge (tk : nat) (t : Task) (ocrText : JsVal)
    (visionText : string) (o : MergeOutcome) (s : State) : State :=
  let l := t_entry t in
  match o with
  | MergeResponse trimmed =>
      let mergedText := mergedTextOf trimmed ocrText in
      let s := assign l "mergedText" mergedText s in
      let s := assign l "text" mergedText s in
      let s := settleStatus tk t "done" s in
      cacheMerged t mergedText visionText s
  | MergeRejected => settleStatus tk t "failed" s
  end.

(** ** main.js: [startOcr] *)

(** The [onImageComplete] hook passed to [recognizeBatch], lines 236-271. *)
Definition onImageComplete (b : nat) (lang : string) (useAI : bool)
    (imagesToProcess : list ImgData) (visionPromises : gmap string File)
    (i : string) (result : option JsObject) (idx total : nat) (s : State)
    : State :=
  match result with
  | None => s
  | Some result =>
      let imgMeta := List.find (λ d, String.eqb (i_id d) i) imagesToProcess in
      let resultEntry := newResultEntry i imgMeta result useAI in
      let l := length (heap s) in
      let s := pushResult b false resultEntry s in
      if useAI && bool_decide (is_Some (visionPromises !! i)) then
        set_tasks (tasks s ++ [mkTask l lang (metaCacheKey imgMeta) AwaitVision b]) s
      else
        match imgMeta with
        | Some m =>
            emit (EvCacheSet b l (cacheKey m) (get resultEntry "aiStatus"))
              (set_resultCache
                 (<[cacheKey m := primaryCacheEntry result]> (resultCache s)) s)
        | None => s
        end
  end.

Definition with_pc (pc : Pc) (f : Frame) : Frame :=
  mkFrame (f_lang f) (f_useAI f) pc (f_batch f) (f_images f) (f_failed f)
    (f_dropped f).

Definition with_images (imgs : list Image) (f : Frame) : Frame :=
  mkFrame (f_lang f) (f_useAI f) (f_pc f) (f_batch f) imgs (f_failed f)
    (f_dropped f).

Definition with_failed (failed : list string) (f : Frame) : Frame :=
  mkFrame (f_lang f) (f_useAI f) (f_pc f) (f_batch f) (f_images f) failed
    (f_dropped f).

Definition with_dropped (dropped : list JsVal) (f : Frame) : Frame :=
  mkFrame (f_lang f) (f_useAI f) (f_pc f) (f_batch f) (f_images f) (f_failed f)
    dropped.

(** ** main.js: [clearAllImages] *)

(** The array behind a loop. *)
Definition walked (w : Walked) (s : State) : list Image :=
  match w with
  | Live => images s
  | Detached arr => arr
  end.

(** [state.images = []]: a loop that walks the array goes on with it. *)
Definition detached (arr : list Image) (it : ArrayIterator) : ArrayIterator :=
  match iterated it with
  | Live => mkIter (Detached arr) (nextIndex it)
  | Detached _ => it
  end.

Definition leftBehind (s : State) (f : Frame) : Frame :=
  with_dropped (f_dropped f ++ resultIds s)
    (with_pc
       match f_pc f with
       | AtHash img it itp cached => AtHash img (detached (images s) it) itp cached
       | AtResize img h key it itp cached =>
           AtResize img h key (detached (images s) it) itp cached
       | pc => pc
       end f).

Definition clearAllImages (s : State) : State :=
  set_results [] (set_images [] (set_frames (map (leftBehind s) (frames s)) s)).

(** The [finally] block: the activation returns. *)
Definition finish (k : nat) (s : State) : State :=
  set_frames (delete k (frames s)) (set_isProcessing false s).

(** The vision fan-out, lines 211-222. *)
Definition launchVision (useAI : bool) (imagesToProcess : list ImgData)
    : gmap string File :=
  if useAI then
    foldl (λ m d, <[i_id d := originalFile d]> m) ∅ imagesToProcess
  else ∅.

(** The loop of lines 188-196. *)
Definition pushAll (b : nat) (cachedResults : list JsObject) (s : State) : State :=
  foldl (λ s cached, pushResult b true cached s) s cachedResults.

(** Lines 188-276, from the end of the probing loop up to
    [await ocrEngine.recognizeBatch(...)], or to the end of the function
    when nothing is left to recognize. *)
Definition afterLoop (k : nat) (f : Frame) (imagesToProcess : list ImgData)
    (cachedResults : list JsObject) (s : State) : State :=
  let s := pushAll (f_batch f) cachedResults s in
  if bool_decide (0 < length imagesToProcess) then
    let visionPromises := launchVision (f_useAI f) imagesToProcess in
    set_frames
      (<[k := with_pc (AtRecognizeBatch imagesToProcess visionPromises
                         (seq 0 (length imagesToProcess)) 0) f]> (frames s)) s
  else finish k s.

(** The head of the probing loop, [for (const img of state.images)]:
    the iterator gives the element at its index, if the array as it is
    now has one, and the body runs up to [await getFileHash(img.file)];
    otherwise the loop is over. *)
Definition continueLoop (k : nat) (f : Frame) (it : ArrayIterator)
    (imagesToProcess : list ImgData) (cachedResults : list JsObject)
    (s : State) : State :=
  match walked (iterated it) s !! nextIndex it with
  | Some img =>
      emit (EvTake (f_batch f) img)
        (set_frames
           (<[k := with_images (f_images f ++ [img])
                     (with_pc (AtHash img (mkIter (iterated it) (nextIndex it + 1))
                                 imagesToProcess cachedResults) f)]>
              (frames s)) s)
  | None => afterLoop k f imagesToProcess cachedResults s
  end.

(** [startOcr()] up to its first [await]; [lang] is the value of the
    language selector and [geminiAvailable] what [isGeminiAvailable()]
    answers. *)
Definition startOcr (lang : string) (geminiAvailable : bool) (s : State) : State :=
  if bool_decide (length (images s) = 0) || isProcessing s then s
  else
    let s := set_results [] (set_isProcessing true s) in
    let useAI := aiEnabled s && geminiAvailable in
    let f := mkFrame lang useAI AtInitialize (batches s) [] [] [] in
    emit (EvStart (batches s) (images s) lang useAI)
      (set_batches (batches s + 1) (set_frames (frames s ++ [f]) s)).

(** [new File([blob], file.name, { type: 'image/jpeg' })], or the file
    itself when [resizeForOcr] does not resize. *)
Definition resizedFile (f : File) (resized : option (list Byte.byte)) : File :=
  match resized with
  | Some blob => mkFile (name f) "image/jpeg" blob
  | None => f
  end.

(** ** The event loop *)

Inductive Action :=
  (* user interface *)
  | AddImages (files : list File)
  | RemoveImage (i : string)
  | ClearAllImages
  | SetAiEnabled (checked : bool)
  | StartOcr (lang : string) (geminiAvailable : bool)
  (* promises settling; [k] is a suspended startOcr, [tk] a suspended
     refineSingleResult *)
  | InitializeSettled (k : nat) (failAt : option nat)
  | HashSettled (k : nat)
  | HashRejected (k : nat)
  | ResizeSettled (k : nat) (resized : option (list Byte.byte))
  | JobSettled (k : nat) (i : nat) (o : JobOutcome)
  | BatchSettled (k : nat)
  | VisionSettled (tk : nat) (o : VisionOutcome)
  | MergeSettled (tk : nat) (o : MergeOutcome).

Section Orchestrator.

(** [crypto.subtle.digest('SHA-256', buffer)] is a platform primitive. *)
Variable digest : list Byte.byte → list Byte.byte.
(** The revision of the engine the application is linked with. *)
Variable rev : Revision.

Definition getFileHash (f : File) : string :=
  String.concat "" (map (λ b, padStart0 2 (toString16 b)) (digest (bytes f))).

(** [`${hash}_${lang}_${useAI ? 'ai' : 'ocr'}`] *)
Definition cacheKeyOf (hash lang : string) (useAI : bool) : string :=
  hash +:+ "_" +:+ lang +:+ "_" +:+ (if useAI then "ai" else "ocr").

(** [startOcr] resumed after [await ocrEngine.initialize(...)]; a
    rejection goes through [catch] to [finally]. *)
Definition initializeSettled (k : nat) (f : Frame) (failAt : option nat)
    (s : State) : State :=
  let '(e, _, ok) := initialize rev (f_lang f) failAt (ocrEngine s) in
  let s := set_ocrEngine e s in
  if ok then continueLoop k f (mkIter Live 0) [] [] s else finish k s.

(** ... after [await getFileHash(img.file)], lines 175-181. *)
Definition hashSettled (k : nat) (f : Frame) (img : Image) (it : ArrayIterator)
    (imagesToProcess : list ImgData) (cachedResults : list JsObject)
    (s : State) : State :=
  let hash := getFileHash (file img) in
  let cacheKey := cacheKeyOf hash (f_lang f) (f_useAI f) in
  match resultCache s !! cacheKey with
  | Some cached =>
      continueLoop k f it imagesToProcess
        (cachedResults ++ [cachedEntry cached img]) s
  | None =>
      set_frames
        (<[k := with_pc (AtResize img hash cacheKey it
                           imagesToProcess cachedResults) f]> (frames s)) s
  end.

(** [await getFileHash(img.file)] rejects ([file.arrayBuffer()] or the
    digest fails): the [catch] block only reports the error, and the
    cache hits found so far are never shown. *)
Definition hashRejected (k : nat) (s : State) : State := finish k s.

(** ... after [await resizeForOcr(img.file)], line 183. *)
Definition resizeSettled (k : nat) (f : Frame) (img : Image)
    (hash cacheKey : string) (it : ArrayIterator)
    (imagesToProcess : list ImgData) (cachedResults : list JsObject)
    (resized : option (list Byte.byte)) (s : State) : State :=
  continueLoop k f it
    (imagesToProcess ++
       [mkImgData (resizedFile (file img) resized) (id img) (file img) hash cacheKey])
    cachedResults s.

(** The job of index [i] settles while [startOcr] awaits the batch: the
    engine's handler runs with the hooks of lines 227-275 ([onProgress]
    only moves the progress bar). *)
Definition jobSettled (k : nat) (f : Frame) (imagesToProcess : list ImgData)
    (visionPromises : gmap string File) (unsettled : list nat)
    (completed : nat) (i : nat) (o : JobOutcome) (s : State) : State :=
  let jobs := map (λ d, mkJob (i_file d) (i_id d)) imagesToProcess in
  let failed :=
    match imagesToProcess !! i, recognizeImage (ocrEngine s) o with
    | Some d, inr _ => f_failed f ++ [i_id d]
    | _, _ => f_failed f
    end in
  let '(completed, s) :=
    settle
      (onImageComplete (f_batch f) (f_lang f) (f_useAI f)
                       imagesToProcess visionPromises)
      (λ _ s, s)
      (ocrEngine s) (λ _, o) jobs i (completed, s) in
  set_frames
    (<[k := with_failed failed
              (with_pc (AtRecognizeBatch imagesToProcess visionPromises
                          (filter (λ j, j ≠ i) unsettled) completed) f)]>
       (frames s)) s.

(** One turn of the event loop.  [None]: the action is not enabled.  The
    user can edit the gallery at any time, also between two [await]s of
    a running batch: only the start button is disabled while a batch
    runs. *)
Definition step (a : Action) (s : State) : option State :=
  match a with
  | AddImages files => Some (addImages files s)
  | RemoveImage i => Some (removeImage i s)
  | ClearAllImages => Some (clearAllImages s)
  | SetAiEnabled checked => Some (set_aiEnabled checked s)
  | StartOcr lang geminiAvailable => Some (startOcr lang geminiAvailable s)
  | InitializeSettled k failAt =>
      f ← frames s !! k;
      match f_pc f with
      | AtInitialize => Some (initializeSettled k f failAt s)
      | _ => None
      end
  | HashSettled k =>
      f ← frames s !! k;
      match f_pc f with
      | AtHash img it imagesToProcess cachedResults =>
          Some (hashSettled k f img it imagesToProcess cachedResults s)
      | _ => None
      end
  | HashRejected k =>
      f ← frames s !! k;
      match f_pc f with
      | AtHash _ _ _ _ => Some (hashRejected k s)
      | _ => None
      end
  | ResizeSettled k resized =>
      f ← frames s !! k;
      match f_pc f with
      | AtResize img hash cacheKey it imagesToProcess cachedResults =>
          Some (resizeSettled k f img hash cacheKey it imagesToProcess
                  cachedResults resized s)
      | _ => None
      end
  | JobSettled k i o =>
      f ← frames s !! k;
      match f_pc f with
      | AtRecognizeBatch imagesToProcess visionPromises unsettled completed =>
          if bool_decide (i ∈ unsettled) then
            Some (jobSettled k f imagesToProcess visionPromises unsettled
                    completed i o s)
          else None
      | _ => None
      end
  | BatchSettled k =>
      f ← frames s !! k;
      match f_pc f with
      | AtRecognizeBatch _ _ [] _ => Some (finish k s)
      | _ => None
      end
  | VisionSettled tk o =>
      t ← tasks s !! tk;
      match t_stage t with
      | AwaitVision => Some (afterVision tk t (visionTextOf o) s)
      | _ => None
      end
  | MergeSettled tk o =>
      t ← tasks s !! tk;
      match t_stage t with
      | AwaitMerge ocrText visionText =>
          Some (afterMerge tk t ocrText visionText o s)
      | _ => None
      end
  end.

Fixpoint run (acts : list Action) (s : State) : option State :=
  match acts with
  | [] => Some s
  | a :: acts => s' ← step a s; run acts s'
  end.

(** The states the application can be in. *)
Definition reachable (s : State) : Prop :=
  ∃ hardwareConcurrency acts, run acts (initialState hardwareConcurrency) = Some s.

End Orchestrator.

(** ** Invariants of the event loop *)

(** At most one activation of [startOcr] is suspended, and
    [state.isProcessing] tells whether there is one. *)
Definition single_frame (s : State) : Prop :=
  (frames s = [] ∧ isProcessing s = false) ∨
  (∃ f, frames s = [f] ∧ isProcessing s = true).

(** The images a probing loop has still to take up, as things are. *)
Definition toWalk (s : State) (pc : Pc) : list Image :=
  match pc with
  | AtHash _ it _ _ | AtResize _ _ _ it _ _ =>
      drop (nextIndex it) (walked (iterated it) s)
  | _ => []
  end.

(** The id of [img] was drawn from the counter. *)
Definition fromCounter (s : State) (img : Image) : Prop :=
  ∃ n, 1 ≤ n ≤ imageIdCounter s ∧ id img = imageId n.

(** The ids in the gallery are pairwise different and drawn from the
    counter, and so are the ids of the images a batch has taken up or
    may still take up. *)
Definition frame_ids (s : State) (f : Frame) : Prop :=
  NoDup (map id (f_images f ++ toWalk s (f_pc f))) ∧
  Forall (fromCounter s) (f_images f ++ toWalk s (f_pc f)).

Definition ids_ok (s : State) : Prop :=
  NoDup (map id (images s)) ∧
  Forall (fromCounter s) (images s) ∧
  Forall (frame_ids s) (frames s).

(** What a suspended [refineSingleResult] knows about its entry. *)
Definition stage_ok (o : JsObject) (st : Stage) : Prop :=
  match st with
  | AwaitVision => True
  | AwaitMerge ocrText visionText =>
      ocrText = get o "ocrText" ∧ truthy ocrText = true ∧
      truthy (JsStr visionText) = true ∧ get o "visionText" = JsStr visionText
  end.

Definition task_ok (s : State) (t : Task) : Prop :=
  ∃ o, heap s !! t_entry t = Some o ∧
       get o "aiStatus" = JsStr "pending" ∧
       get o "text" = get o "ocrText" ∧
       stage_ok o (t_stage t).

(** References are valid, and no two refinements share an entry. *)
Definition heap_ok (s : State) : Prop :=
  Forall (λ l, l < length (heap s)) (results s) ∧
  NoDup (map t_entry (tasks s)) ∧
  Forall (task_ok s) (tasks s).

Definition ev_batch (ev : Event) : nat :=
  match ev with
  | EvStart b _ _ _ | EvTake b _ | EvAppend b _ _ | EvStatus b _ _
  | EvCacheSet b _ _ _ => b
  end.

(** The events of the probing phase of a batch. *)
Definition is_start (ev : Event) : Prop :=
  match ev with EvStart _ _ _ _ | EvTake _ _ => True | _ => False end.

(** The entries written to the cache, in order. *)
Definition writeLocs (t : list Event) : list nat :=
  omap (λ ev, match ev with EvCacheSet _ l _ _ => Some l | _ => None end) t.

(** Every logged event still describes its entry: the entry of a status
    or cache event is settled, no refinement is suspended on it, and its
    [aiStatus] is the logged one. *)
Definition event_ok (s : State) (ev : Event) : Prop :=
  match ev with
  | EvStart b _ _ _ | EvTake b _ => b < batches s
  | EvAppend b l _ => b < batches s ∧ l < length (heap s)
  | EvStatus b l st =>
      b < batches s ∧ l < length (heap s) ∧ (l ∉ map t_entry (tasks s)) ∧
      field l "aiStatus" s = JsStr st ∧ (st = "done" ∨ st = "failed")
  | EvCacheSet b l key st =>
      b < batches s ∧ l < length (heap s) ∧ (l ∉ map t_entry (tasks s)) ∧
      field l "aiStatus" s = st ∧ (st = JsStr "done" ∨ st = JsStr "disabled")
  end.

(** A cache write directly follows the event that settled its entry. *)
Definition write_follows (t : list Event) : Prop :=
  ∀ i b l key st,
    t !! i = Some (EvCacheSet b l key st) →
    ∃ j, i = S j ∧
         ((st = JsStr "done" ∧ t !! j = Some (EvStatus b l "done")) ∨
          (st = JsStr "disabled" ∧ t !! j = Some (EvAppend b l false))).

Definition trace_ok (s : State) : Prop :=
  Forall (event_ok s) (trace s) ∧
  NoDup (writeLocs (trace s)) ∧
  write_follows (trace s).

(** Has the activation reached [recognizeBatch]? *)
Definition probing (pc : Pc) : bool :=
  match pc with
  | AtRecognizeBatch _ _ _ _ => false
  | _ => true
  end.

(** Batch numbers are fresh; while a batch is still probing the cache
    nothing of it but its start has been logged and no refinement of it
    runs. *)
Definition frame_fresh (s : State) (f : Frame) : Prop :=
  f_batch f < batches s ∧
  (probing (f_pc f) = true →
   Forall (λ ev, is_start ev ∨ ev_batch ev ≠ f_batch f) (trace s) ∧
   Forall (λ t, t_batch t ≠ f_batch f) (tasks s)).

Definition batches_ok (s : State) : Prop :=
  Forall (frame_fresh s) (frames s) ∧
  Forall (λ t, t_batch t < batches s) (tasks s).

(** An event showing the result of a cache miss of batch [b]: the entry
    as recognized, or its refinement settling. *)
Definition is_miss (b : nat) (ev : Event) : Prop :=
  match ev with
  | EvAppend b' _ false => b' = b
  | EvStatus b' _ _ => b' = b
  | _ => False
  end.

(** In the log, the cache hits of a batch come before everything shown
    for its misses. *)
Definition hits_first (t : list Event) : Prop :=
  ∀ i j b l ev,
    t !! i = Some (EvAppend b l true) →
    t !! j = Some ev → is_miss b ev →
    i < j.

Definition idVals (imgs : list Image) : list JsVal :=
  map (λ img, JsStr (id img)) imgs.

Definition pendingIds (itp : list ImgData) (unsettled : list nat) : list JsVal :=
  omap (λ i, (λ d, JsStr (i_id d)) <$> itp !! i) unsettled.

(** Every image the batch has taken up is in exactly one place: being
    probed, waiting as a hit or as a miss, recognized (in the result
    list, unless [clearAllImages] has taken it off since), failed, or
    still with the engine. *)
Definition accounted (s : State) (f : Frame) : Prop :=
  match f_pc f with
  | AtInitialize =>
      results s = [] ∧ f_failed f = [] ∧ f_dropped f = [] ∧ f_images f = []
  | AtHash img _ itp cached | AtResize img _ _ _ itp cached =>
      results s = [] ∧ f_failed f = [] ∧ f_dropped f = [] ∧
      map (λ o, get o "id") cached ++ map (λ d, JsStr (i_id d)) itp ++
        [JsStr (id img)] ≡ₚ idVals (f_images f)
  | AtRecognizeBatch itp _ unsettled _ =>
      NoDup unsettled ∧ Forall (λ i, i < length itp) unsettled ∧
      resultIds s ++ map JsStr (f_failed f) ++ pendingIds itp unsettled ++
        f_dropped f ≡ₚ idVals (f_images f)
  end.

(** The entry that made the latest cache write under [key]. *)
Definition last_write (key : string) (t : list Event) : option nat :=
  last (omap (λ ev, match ev with
                    | EvCacheSet _ l key' _ =>
                        if decide (key' = key) then Some l else None
                    | _ => None
                    end) t).

(** The cache holds, under every key, the transcript of the entry that
    wrote it last. *)
Definition cache_ok (s : State) : Prop :=
  ∀ key,
    match last_write key (trace s) with
    | None => resultCache s !! key = None
    | Some l => ∃ c, resultCache s !! key = Some c ∧
                     get c "text" = field l "text" s
    end.

(** The vision fan-out covers the images handed to the engine. *)
Definition vision_ok (f : Frame) : Prop :=
  match f_pc f with
  | AtRecognizeBatch itp vp _ _ => vp = launchVision (f_useAI f) itp
  | _ => True
  end.

(** From [s] to [s']: batch numbers and the heap only grow, and an entry
    on which no refinement is suspended is left alone for good. *)
Definition extends (s s' : State) : Prop :=
  batches s ≤ batches s' ∧
  length (heap s) ≤ length (heap s') ∧
  ∀ l, l < length (heap s) → l ∉ map t_entry (tasks s) →
       (l ∉ map t_entry (tasks s')) ∧ heap s' !! l = heap s !! l.

Record Inv (s : State) : Prop := mkInv {
  inv_single : single_frame s;
  inv_ids : ids_ok s;
  inv_heap : heap_ok s;
  inv_trace : trace_ok s;
  inv_batches : batches_ok s;
  inv_hits : hits_first (trace s);
  inv_accounted : Forall (accounted s) (frames s);
  inv_vision : Forall vision_ok (frames s);
  inv_cache : cache_ok s
}.

(** Events other than cache writes. *)
Definition no_write (ev : Event) : Prop :=
  match ev with EvCacheSet _ _ _ _ => False | _ => True end.

(** Events showing a cache hit. *)
Definition is_hit (ev : Event) : Prop :=
  match ev with EvAppend _ _ true => True | _ => False end.

Section Origin.

Variable digest : list Byte.byte → list Byte.byte.

(** The key under which the outcome for [img] is cached by a batch run
    with language [lang] in mode [useAI]: it is made of the fingerprint
    of the file's bytes, the language and the mode. *)
Definition keyOf (img : Image) (lang : string) (useAI : bool) : string :=
  cacheKeyOf (getFileHash digest (file img)) lang useAI.

(** Entry [l] was made for image [img], which batch [b] took up, and
    that batch ran with [lang] and [useAI]. *)
Definition entry_of (s : State) (b l : nat) (img : Image) (lang : string)
    (useAI : bool) : Prop :=
  ∃ imgs, EvStart b imgs lang useAI ∈ trace s ∧ EvTake b img ∈ trace s ∧
          l < length (heap s) ∧ field l "id" s = JsStr (id img).

(** An element of [imagesToProcess] describes an image the batch took
    up. *)
Definition meta_ok (f : Frame) (d : ImgData) : Prop :=
  ∃ img, img ∈ f_images f ∧ i_id d = id img ∧ originalFile d = file img ∧
         hash d = getFileHash digest (file img) ∧
         cacheKey d = keyOf img (f_lang f) (f_useAI f).

(** What cache hit [o] is made of: an image the batch took up and an
    object that was cached under its key, by an entry with that text. *)
Definition hit_of (s : State) (b : nat) (lang : string) (useAI : bool)
    (o : JsObject) : Prop :=
  ∃ img cached b0 l0 st0,
    EvTake b img ∈ trace s ∧ o = cachedEntry cached img ∧
    EvCacheSet b0 l0 (keyOf img lang useAI) st0 ∈ trace s ∧
    get cached "text" = field l0 "text" s.

Definition frame_origin (s : State) (f : Frame) : Prop :=
  (∃ imgs, EvStart (f_batch f) imgs (f_lang f) (f_useAI f) ∈ trace s) ∧
  Forall (λ img, EvTake (f_batch f) img ∈ trace s) (f_images f) ∧
  match f_pc f with
  | AtInitialize => True
  | AtHash img _ itp cached =>
      Forall (meta_ok f) itp ∧ img ∈ f_images f ∧
      Forall (hit_of s (f_batch f) (f_lang f) (f_useAI f)) cached
  | AtResize img h key _ itp cached =>
      Forall (meta_ok f) itp ∧ img ∈ f_images f ∧
      Forall (hit_of s (f_batch f) (f_lang f) (f_useAI f)) cached ∧
      h = getFileHash digest (file img) ∧ key = keyOf img (f_lang f) (f_useAI f)
  | AtRecognizeBatch itp _ _ _ => Forall (meta_ok f) itp
  end.

(** An entry shown as a cache hit of batch [b] is a hit of that batch,
    and it is left as it was made. *)
Definition shown_origin (s : State) (ev : Event) : Prop :=
  match ev with
  | EvAppend b l true =>
      (l ∉ map t_entry (tasks s)) ∧
      ∃ o imgs lang useAI,
        heap s !! l = Some o ∧ EvStart b imgs lang useAI ∈ trace s ∧
        hit_of s b lang useAI o
  | _ => True
  end.

Definition task_origin (s : State) (t : Task) : Prop :=
  ∃ img, entry_of s (t_batch t) (t_entry t) img (t_lang t) true ∧
         t_cacheKey t = JsStr (keyOf img (t_lang t) true).

Definition write_origin (s : State) (ev : Event) : Prop :=
  match ev with
  | EvCacheSet b l key _ =>
      ∃ img lang useAI, entry_of s b l img lang useAI ∧ key = keyOf img lang useAI
  | _ => True
  end.

(** Every cache write is made under the key of the image its entry was
    made for. *)
Definition origin_ok (s : State) : Prop :=
  Forall (frame_origin s) (frames s) ∧
  Forall (task_origin s) (tasks s) ∧
  Forall (write_origin s) (trace s).

(** Every entry shown as a cache hit is one. *)
Definition hits_ok (s : State) : Prop :=
  Forall (shown_origin s) (trace s).

End Origin.

(** ** The engine: pool size and hooks *)

(** The engine after a sequence of [initialize(lang)] calls, each with
    its own failure point. *)
Definition engineAfter (rev : Revision) (hardwareConcurrency : option nat)
    (calls : list (string * option nat)) : OcrEngine :=
  foldl (λ e c, (initialize rev c.1 c.2 e).1.1)
        (newOcrEngine hardwareConcurrency) calls.

(** The pool of a ready engine is the one [initialize] made for the
    current language. *)
Definition engine_ok (rev : Revision) (hardwareConcurrency : option nat)
    (e : OcrEngine) : Prop :=
  workerCount e = workerCount (newOcrEngine hardwareConcurrency) ∧
  (isReady e = true →
   scheduler e = Some (replicate (poolSize rev e (currentLang e)) (currentLang e))).

(** The sentence of the specification about the pool size, for one
    revision of the engine: at most 4 workers, and exactly 1 for a
    multi-language profile. *)
Definition pool_size_as_specified (rev : Revision) : Prop :=
  ∀ hardwareConcurrency lang e' progress workers,
    initialize rev lang None (newOcrEngine hardwareConcurrency)
      = (e', progress, true) →
    scheduler e' = Some workers →
    length workers ≤ 4 ∧ (includes lang "+" = true → length workers = 1).

(** Hooks that only record that they were called. *)
Inductive Call :=
  | CallStart (i : string) (idx total : nat)
  | CallComplete (i : string) (result : option JsObject) (idx total : nat)
  | CallProgress (fraction : Q).

Definition logStart (i : string) (idx total : nat) (log : list Call) : list Call :=
  log ++ [CallStart i idx total].
Definition logComplete (i : string) (r : option JsObject) (idx total : nat)
    (log : list Call) : list Call :=
  log ++ [CallComplete i r idx total].
Definition logProgress (q : Q) (log : list Call) : list Call :=
  log ++ [CallProgress q].

(** The calls of [onImageComplete] in a log: job index, id and result. *)
Definition completions (log : list Call) : list (nat * string * option JsObject) :=
  omap (λ c, match c with
             | CallComplete i r idx _ => Some (idx, i, r)
             | _ => None
             end) log.

(** What [recognizeBatch] reports for the job of index [idx]. *)
Definition reported (e : OcrEngine) (outcome : nat → JobOutcome)
    (idx : nat) (j : Job) : nat * string * option JsObject :=
  (idx, j_id j, resultOrNull (recognizeImage e (outcome idx))).

(** From [s] to [s'] the log only grows and entries keep their [id]. *)
Definition grows (s s' : State) : Prop :=
  (∃ evs, trace s' = trace s ++ evs) ∧
  length (heap s) ≤ length (heap s') ∧
  ∀ l, l < length (heap s) → field l "id" s' = field l "id" s.

(** ** Sample histories *)

(** A stand-in for SHA-256 that, like it, tells different contents
    apart. *)
Definition sampleDigest (bs : list Byte.byte) : list Byte.byte := bs.

Definition pngFile (n : string) (b : list Byte.byte) : File :=
  mkFile n "image/png" b.

Definition pageA : File := pngFile "a.png" [Byte.x01].
Definition pageB : File := pngFile "b.png" [Byte.x02].
(** Another file with the contents of [pageA]. *)
Definition pageA' : File := pngFile "copy.png" [Byte.x01].

Definition readsABC : Recognized := mkRecognized "ABC" (875 # 10) [] 1 1 [].
Definition readsNothing : Recognized := mkRecognized "" 0 [] 0 0 [].

(** The state after a history, on a machine with eight logical
    processors. *)
Definition after (rev : Revision) (acts : list Action) : State :=
  default (initialState (Some 8))
          (run sampleDigest rev acts (initialState (Some 8))).

(** One page, primary-only mode, up to the start of recognition. *)
Definition onePageSubmitted : list Action :=
  [AddImages [pageA]; StartOcr "eng" false; InitializeSettled 0 None;
   HashSettled 0; ResizeSettled 0 None].

(** ... whose recognition job then rejects. *)
Definition onePageRejected : list Action :=
  onePageSubmitted ++ [JobSettled 0 0 (JobRejected "boom")].

(** ... or resolves. *)
Definition onePageRead : list Action :=
  onePageSubmitted ++ [JobSettled 0 0 (JobResolved readsABC); BatchSettled 0].

(** Two pages in primary-only mode; the first job rejects. *)
Definition twoPagesOneRejected : list Action :=
  [AddImages [pageA; pageB]; StartOcr "eng" false; InitializeSettled 0 None;
   HashSettled 0; ResizeSettled 0 None; HashSettled 0; ResizeSettled 0 None;
   JobSettled 0 1 (JobResolved readsABC); JobSettled 0 0 (JobRejected "boom")].

(** Two files with the same contents in one primary-only batch. *)
Definition twoCopies : list Action :=
  [AddImages [pageA; pageA']; StartOcr "eng" false; InitializeSettled 0 None;
   HashSettled 0; ResizeSettled 0 None; HashSettled 0; ResizeSettled 0 None;
   JobSettled 0 0 (JobResolved readsABC); JobSettled 0 1 (JobResolved readsABC);
   BatchSettled 0].

(** One page in AI mode, up to the start of recognition: the vision read
    of the page is under way. *)
Definition submittedForRefinement : list Action :=
  [AddImages [pageA]; SetAiEnabled true; StartOcr "eng" true;
   InitializeSettled 0 None; HashSettled 0; ResizeSettled 0 None].

(** ... up to the vision read of its entry; [d] is what the recognition
    job resolves with. *)
Definition refining (d : Recognized) : list Action :=
  submittedForRefinement ++ [JobSettled 0 0 (JobResolved d); BatchSettled 0].

(** ... or with a recognition job that rejects. *)
Definition recognitionFailed : list Action :=
  submittedForRefinement ++ [JobSettled 0 0 (JobRejected "boom"); BatchSettled 0].

(** ... whose vision read rejects. *)
Definition refinementFailed : list Action :=
  refining readsABC ++ [VisionSettled 0 VisionRejected].

(** ... after which the same page is submitted again, same language and
    mode, up to the cache probe. *)
Definition resubmittedAfterFailure : list Action :=
  refinementFailed ++ [StartOcr "eng" true; InitializeSettled 0 None].

(** ... or whose vision read and merge succeed. *)
Definition refined : list Action :=
  refining readsABC ++
  [VisionSettled 0 (VisionResponse (Some "ABD"));
   MergeSettled 0 (MergeResponse (Some "ABX"))].

(** A first batch reads [pageA]; then [pageB] is added and a second
    batch is started, up to the cache probe of [pageA]. *)
Definition secondBatchProbing : list Action :=
  onePageRead ++
  [AddImages [pageB]; StartOcr "eng" false; InitializeSettled 0 None].

(** ... and on to the end of the second batch. *)
Definition secondBatchDone : list Action :=
  secondBatchProbing ++
  [HashSettled 0; HashSettled 0; ResizeSettled 0 None;
   JobSettled 0 0 (JobResolved readsABC); BatchSettled 0].

(** An engine made ready for English, two jobs of which the first
    rejects, and the second job settling first. *)
Definition readyEngine (rev : Revision) : OcrEngine :=
  engineAfter rev (Some 8) [("eng", None)].
Definition twoJobs : list Job := [mkJob pageA "img-1"; mkJob pageB "img-2"].
Definition firstRejects (i : nat) : JobOutcome :=
  match i with
  | 0 => JobRejected "boom"
  | _ => JobResolved readsABC
  end.

(** A first batch reads [pageA]; the gallery is cleared, a copy of the
    file is added and a second batch is started, up to the cache probe. *)
Definition copyProbing : list Action :=
  onePageRead ++
  [ClearAllImages; AddImages [pageA']; StartOcr "eng" false;
   InitializeSettled 0 None].

Definition imageA : Image := mkImage "img-1" pageA.
Definition imageB : Image := mkImage "img-2" pageB.
Definition imageA' : Image := mkImage "img-2" pageA'.

(** The refinement started by [refining d]. *)
Definition refinementOfA : Task := mkTask 0 "eng" (JsStr "01_eng_ai") AwaitVision 0.

(** ** Strings as lists of characters *)

Abbreviation chars := String.list_ascii_of_string.

(** The digits [toString(16)] writes. *)
Definition hexDigits : list Ascii.ascii := chars "0123456789abcdef".

(** Reading two hex digits back as a byte; a string that is not made of
    pairs of the digits above is not a fingerprint. *)
Definition hexValue (c : Ascii.ascii) : option N :=
  (λ p, N.of_nat p.1) <$> list_find (λ d, d = c) hexDigits.

Fixpoint fromHex (s : string) : option (list Byte.byte) :=
  match s with
  | EmptyString => Some []
  | String _ EmptyString => None
  | String hi (String lo s') =>
      h ← hexValue hi; l ← hexValue lo;
      b ← Byte.of_N (16 * h + l);
      bs ← fromHex s'; Some (b :: bs)
  end.

(** ** What the hooks of [recognizeBatch] are called with *)

(** The fractions passed to [onProgress], in order. *)
Definition progressCalls (log : list Call) : list Q :=
  omap (λ c, match c with CallProgress q => Some q | _ => None end) log.

Definition isStart (c : Call) : bool :=
  match c with CallStart _ _ _ => true | _ => false end.

(** The calls made for job [i] by one turn of the sequential loop. *)
Definition turnCalls (e : OcrEngine) (outcome : nat → JobOutcome) (total : nat)
    (i : nat) (j : Job) : list Call :=
  [CallStart (j_id j) i total;
   CallProgress (fraction i total);
   CallComplete (j_id j) (resultOrNull (recognizeImage e (outcome i))) i total;
   CallProgress (fraction (i + 1) total)].

(** ** The event loop: kinds of actions *)

(** Only the three gallery operations touch the gallery. *)
Definition editsGallery (a : Action) : bool :=
  match a with
  | AddImages _ | RemoveImage _ | ClearAllImages => true
  | _ => false
  end.


(** ** More invariants of the event loop *)


(** A fingerprint computation that fails. *)
Definition rejectsHash (a : Action) : bool :=
  match a with
  | HashRejected _ => true
  | _ => false
  end.

(** [entry] is the element of index [n] of the list of cached results
    of a probing loop. *)
Definition onList (n : nat) (entry : JsObject) (pc : Pc) : Prop :=
  match pc with
  | AtHash _ _ _ cachedResults | AtResize _ _ _ _ _ cachedResults =>
      cachedResults !! n = Some entry
  | _ => False
  end.

(** What becomes of the object [entry] that batch [b] has put on its
    list of cached results at index [n]: it is still there, the loop
    being under way, or it is a result entry, shown as a cache hit of
    the batch and not to be refined. *)
Definition hit_kept (b n : nat) (entry : JsObject) (s : State) : Prop :=
  (∃ k f, frames s !! k = Some f ∧ f_batch f = b ∧ onList n entry (f_pc f)) ∨
  (∃ l, heap s !! l = Some entry ∧ (l ∉ map t_entry (tasks s)) ∧
        EvAppend b l true ∈ trace s).

(** A batch that runs while the gallery [imgs] is left alone walks it
    from its first image to its last, and nothing is taken off the
    result list. *)
Definition walksAll (imgs : list Image) (f : Frame) : Prop :=
  f_dropped f = [] ∧
  match f_pc f with
  | AtInitialize => f_images f = []
  | AtHash _ it _ _ | AtResize _ _ _ it _ _ =>
      iterated it = Live ∧ f_images f = take (nextIndex it) imgs
  | AtRecognizeBatch _ _ _ _ => f_images f = imgs
  end.

Definition undisturbed (imgs : list Image) (s : State) : Prop :=
  images s = imgs ∧ Forall (walksAll imgs) (frames s).




(** The entries shown by [appendSingleResult], and the entries whose
    refinement ended, in the order of the log. *)
Definition appendLocs (t : list Event) : list nat :=
  omap (λ ev, match ev with EvAppend _ l _ => Some l | _ => None end) t.
Definition statusLocs (t : list Event) : list nat :=
  omap (λ ev, match ev with EvStatus _ l _ => Some l | _ => None end) t.

(** While a batch is past [await ocrEngine.initialize(...)] the engine
    is ready for the language of the batch, and a ready engine has a
    scheduler. *)
Definition engine_ready (s : State) : Prop :=
  (isReady (ocrEngine s) = true → is_Some (scheduler (ocrEngine s))) ∧
  Forall (λ f, f_pc f ≠ AtInitialize →
               isReady (ocrEngine s) = true ∧ currentLang (ocrEngine s) = f_lang f)
         (frames s).

(** ** [String.prototype.trim]

    Strings are kept in UTF-8.  [trim] strips, from both ends, the
    WhiteSpace and LineTerminator code points of ECMAScript: TAB, LF,
    VT, FF, CR, SP, U+00A0, U+1680, U+2000 to U+200A, U+2028, U+2029,
    U+202F, U+205F, U+3000 and U+FEFF. *)

Definition whiteSpace : list (list Ascii.ascii) :=
  map (map Ascii.ascii_of_nat)
    [[9]; [10]; [11]; [12]; [13]; [32]; [194; 160]; [225; 154; 128];
     [226; 128; 128]; [226; 128; 129]; [226; 128; 130]; [226; 128; 131];
     [226; 128; 132]; [226; 128; 133]; [226; 128; 134]; [226; 128; 135];
     [226; 128; 136]; [226; 128; 137]; [226; 128; 138];
     [226; 128; 168]; [226; 128; 169]; [226; 128; 175]; [226; 129; 159];
     [227; 128; 128]; [239; 187; 191]].

(** Take one of the sequences [ws] off the front of [l]. *)
Fixpoint stripAny (ws : list (list Ascii.ascii)) (l : list Ascii.ascii)
    : option (list Ascii.ascii) :=
  match ws with
  | [] => None
  | w :: ws =>
      if bool_decide (w `prefix_of` l) then Some (drop (length w) l)
      else stripAny ws l
  end.

Fixpoint stripFront (ws : list (list Ascii.ascii)) (fuel : nat)
    (l : list Ascii.ascii) : list Ascii.ascii :=
  match fuel with
  | 0 => l
  | S fuel =>
      match stripAny ws l with
      | Some l' => stripFront ws fuel l'
      | None => l
      end
  end.

Definition trimStart (l : list Ascii.ascii) : list Ascii.ascii :=
  stripFront whiteSpace (length l) l.

Definition trimEnd (l : list Ascii.ascii) : list Ascii.ascii :=
  reverse (stripFront (map reverse whiteSpace) (length l) (reverse l)).

Definition trim (s : string) : string :=
  String.string_of_list_ascii (trimEnd (trimStart (chars s))).

(** ** gemini-vision.js: the API key and the client *)

(** [new GoogleGenAI({ apiKey })]; [serial] tells the client objects
    apart. *)
Record Client := mkClient {
  apiKey : string;
  serial : nat
}.

Record KeyState := mkKeyState {
  storedKey : option string;   (* localStorage.getItem(STORAGE_KEY), or null *)
  ai : option Client;          (* let ai *)
  cachedKey : option string;   (* let cachedKey *)
  made : nat                   (* bookkeeping: the clients constructed so far *)
}.

Definition placeholderKey : string := "YOUR_API_KEY_HERE".

Section GeminiKey.

(** [ENV_API_KEY = process.env.GEMINI_API_KEY], fixed when the bundle is
    built; it may be undefined. *)
Variable envKey : option string.

(** A page load: nothing is cached, whatever the storage holds. *)
Definition loaded (stored : option string) : KeyState :=
  mkKeyState stored None None 0.

(** The client, when there is one, was built with the cached key. *)
Definition client_ok (st : KeyState) : Prop :=
  match cachedKey st with
  | Some k => ∃ c, ai st = Some c ∧ apiKey c = k
  | None => True
  end.

(** The second and third line of [getApiKey]. *)
Definition envFallback : option string :=
  match envKey with
  | Some e =>
      if negb (String.eqb e "") && negb (String.eqb e placeholderKey)
      then Some e else None
  | None => None
  end.

Definition getApiKey (st : KeyState) : option string :=
  match storedKey st with
  | Some localKey =>
      if negb (String.eqb localKey "") && (0 <? String.length (trim localKey))
      then Some (trim localKey)
      else envFallback
  | None => envFallback
  end.

Definition setApiKey (key : string) (st : KeyState) : KeyState :=
  mkKeyState (Some (trim key)) None None (made st).

Definition clearApiKey (st : KeyState) : KeyState :=
  mkKeyState None None None (made st).

(** [getAI()]: the value returned and the state left. *)
Definition getAI (st : KeyState) : option Client * KeyState :=
  match getApiKey st with
  | None => (None, st)
  | Some key =>
      if String.eqb key "" then (None, st)
      else if bool_decide (cachedKey st ≠ Some key) then
        let c := mkClient key (made st) in
        (Some c, mkKeyState (storedKey st) (Some c) (Some key) (made st + 1))
      else (ai st, st)
  end.

(** [!!getApiKey()] *)
Definition isGeminiAvailable (st : KeyState) : bool :=
  match getApiKey st with
  | Some key => negb (String.eqb key "")
  | None => false
  end.

(** What happens to the key state: the user saves or deletes a key, or
    a vision or merge call asks for the client. *)
Inductive KeyOp :=
  | OpSet (key : string)
  | OpClear
  | OpGetAI.

Definition keyOp (op : KeyOp) (st : KeyState) : KeyState :=
  match op with
  | OpSet key => setApiKey key st
  | OpClear => clearApiKey st
  | OpGetAI => (getAI st).2
  end.

(** ** main.js: the AI toggle and the key dialog, from [init] *)

Record Settings := mkSettings {
  s_aiEnabled : bool;          (* state.aiEnabled *)
  s_keys : KeyState
}.

(** [init()]: the toggle is switched on when a key is available. *)
Definition initSettings (stored : option string) : Settings :=
  mkSettings (isGeminiAvailable (loaded stored)) (loaded stored).

Inductive SettingsEvent :=
  | Toggle (checked : bool)         (* the [change] handler of the toggle *)
  | SaveKey (input : string)        (* the [click] handler of btnSaveKey *)
  | DeleteKey                       (* the [click] handler of btnDeleteKey *)
  | UseClient.                      (* a vision or merge call: [getAI()] *)

Definition handle (ev : SettingsEvent) (st : Settings) : Settings :=
  match ev with
  | Toggle checked =>
      if checked && negb (isGeminiAvailable (s_keys st))
      then mkSettings false (s_keys st)
      else mkSettings checked (s_keys st)
  | SaveKey input =>
      let key := trim input in
      if String.eqb key "" then st
      else mkSettings true (setApiKey key (s_keys st))
  | DeleteKey => mkSettings false (clearApiKey (s_keys st))
  | UseClient => mkSettings (s_aiEnabled st) (getAI (s_keys st)).2
  end.

End GeminiKey.

(** ** ocr-engine.js: what [recognizeImage] makes of the scheduler's answer *)

(** An element of [result.data.lines]. *)
Record RawLine := mkRawLine {
  rl_text : string;
  rl_confidence : Q;
  rl_bbox : JsVal
}.

(** [result.data]; the four arrays may be missing. *)
Record RawData := mkRawData {
  rd_text : string;
  rd_confidence : Q;
  rd_blocks : option (list JsVal);
  rd_lines : option (list RawLine);
  rd_words : option (list JsVal);
  rd_paragraphs : option (list JsVal)
}.

(** [l => ({ text: l.text.trim(), confidence: l.confidence, bbox: l.bbox })] *)
Definition trimLine (l : RawLine) : RawLine :=
  mkRawLine (trim (rl_text l)) (rl_confidence l) (rl_bbox l).

Definition lineObject (l : RawLine) : JsVal :=
  JsObj [("text", JsStr (rl_text l)); ("confidence", JsNum (rl_confidence l));
         ("bbox", rl_bbox l)].

(** [(result.data.lines || []).map(...).filter(l => l.text.length > 0)] *)
Definition structuredLines (lines : option (list RawLine)) : list RawLine :=
  filter (λ l, 0 < String.length (rl_text l)) (map trimLine (default [] lines)).

(** Lines 69-90 of [recognizeImage]. *)
Definition recognized (rd : RawData) : Recognized :=
  {| d_text := trim (rd_text rd);
     d_confidence := rd_confidence rd;
     d_lines := map lineObject (structuredLines (rd_lines rd));
     d_words := length (default [] (rd_words rd));
     d_paragraphs := length (default [] (rd_paragraphs rd));
     d_blocks := default [] (rd_blocks rd) |}.

(** ** More sample histories *)

(** The refinement of [pageA] when the vision read has given [ABD]. *)
Definition visionRead : list Action :=
  refining readsABC ++ [VisionSettled 0 (VisionResponse (Some "ABD"))].
Definition mergeOfA : Task :=
  mkTask 0 "eng" (JsStr "01_eng_ai") (AwaitMerge (JsStr "ABC") "ABD") 0.

(** One page submitted, up to the initialization of the engine. *)
Definition onePageStarted : list Action :=
  [AddImages [pageA]; StartOcr "eng" false].
Definition startedFrame : Frame :=
  mkFrame "eng" false AtInitialize 0 [] [] [].

(** What the second batch of [secondBatchDone] does after the first. *)
Definition secondBatch : list Action :=
  [AddImages [pageB]; StartOcr "eng" false; InitializeSettled 0 None;
   HashSettled 0; HashSettled 0; ResizeSettled 0 None;
   JobSettled 0 0 (JobResolved readsABC); BatchSettled 0].

(** [pageA] as it is handed to the engine, the activation of [startOcr]
    that awaits its recognition, and the entry made when the job
    resolves with [readsABC] in primary-only mode. *)
Definition metaOfA (useAI : bool) : ImgData :=
  mkImgData pageA "img-1" pageA "01" (if useAI then "01_eng_ai" else "01_eng_ocr").
Definition recognizingFrame (useAI : bool) : Frame :=
  mkFrame "eng" useAI
    (AtRecognizeBatch [metaOfA useAI] (launchVision useAI [metaOfA useAI]) [0] 0)
    0 [imageA] [] [].
Definition entryOfA : JsObject :=
  newResultEntry "img-1" (Some (metaOfA false)) (resultObject readsABC) false.


(** The batch of [twoPagesOneRejected], apart from the upload, and the
    activation of [startOcr] that it leaves. *)
Definition twoPagesAdded : list Action := [AddImages [pageA; pageB]].
Definition twoPagesBatch : list Action :=
  [StartOcr "eng" false; InitializeSettled 0 None;
   HashSettled 0; ResizeSettled 0 None; HashSettled 0; ResizeSettled 0 None;
   JobSettled 0 1 (JobResolved readsABC); JobSettled 0 0 (JobRejected "boom")].
Definition metaOfB : ImgData := mkImgData pageB "img-2" pageB "02" "02_eng_ocr".
Definition settledFrame : Frame :=
  mkFrame "eng" false (AtRecognizeBatch [metaOfA false; metaOfB] ∅ [] 2)
    0 [imageA; imageB] ["img-1"] [].

(** The activation of [startOcr] probing the cache for the first image
    [img] of the gallery, in its second batch. *)
Definition probingFrame (useAI : bool) (img : Image) : Frame :=
  mkFrame "eng" useAI (AtHash img (mkIter Live 1) [] []) 1 [img] [] [].

(** Two pages; the gallery is cleared when the first job has resolved,
    then the second job resolves and the batch returns. *)
Definition firstPageRead : list Action :=
  [AddImages [pageA; pageB]; StartOcr "eng" false; InitializeSettled 0 None;
   HashSettled 0; ResizeSettled 0 None; HashSettled 0; ResizeSettled 0 None;
   JobSettled 0 0 (JobResolved readsABC)].
Definition clearedMidBatch : list Action :=
  firstPageRead ++
  [ClearAllImages; JobSettled 0 1 (JobResolved readsABC); BatchSettled 0].
Definition firstReadFrame : Frame :=
  mkFrame "eng" false (AtRecognizeBatch [metaOfA false; metaOfB] ∅ [1] 1)
    0 [imageA; imageB] [] [].

(** Two pages, up to the cache probe of the first. *)
Definition twoPagesProbing : list Action :=
  [AddImages [pageA; pageB]; StartOcr "eng" false; InitializeSettled 0 None].
Definition firstProbingFrame : Frame :=
  mkFrame "eng" false (AtHash imageA (mkIter Live 1) [] []) 0 [imageA] [] [].

(** ... the first page is removed while it is probed, and the batch
    goes on to its end. *)
Definition removedWhileProbing : list Action :=
  twoPagesProbing ++
  [RemoveImage "img-1"; HashSettled 0; ResizeSettled 0 None;
   JobSettled 0 0 (JobResolved readsABC); BatchSettled 0].

(** The second batch of [secondBatchProbing] finds [pageA] in the cache;
    then the fingerprint of [pageB] cannot be computed. *)
Definition secondPageProbing : list Action :=
  secondBatchProbing ++ [HashSettled 0].
Definition secondPageFrame : Frame :=
  mkFrame "eng" false
    (AtHash imageB (mkIter Live 2) []
       [cachedEntry (primaryCacheEntry (resultObject readsABC)) imageA])
    1 [imageA; imageB] [] [].
Definition fingerprintFailed : list Action :=
  secondPageProbing ++ [HashRejected 0].

(** * Proofs: the engine *)

Lemma poolSize_workerCount rev e e' lang :
  workerCount e' = workerCount e → poolSize rev e' lang = poolSize rev e lang.
Proof. unfold poolSize. by intros ->. Qed.

Lemma workerCount_bounds hc :
  1 ≤ workerCount (newOcrEngine hc) ≤ 4.
Proof. destruct hc as [[|n]|]; simpl; lia. Qed.

Lemma initialize_ok rev hc lang failAt e :
  engine_ok rev hc e → engine_ok rev hc (initialize rev lang failAt e).1.1.
Proof.
  intros [W P]. unfold initialize.
  destruct (isReady e && String.eqb (currentLang e) lang) eqn:G; simpl; [done|].
  destruct failAt as [k|]; [case_match|]; split; simpl; try done.
Qed.

Lemma engineAfter_ok rev hc calls : engine_ok rev hc (engineAfter rev hc calls).
Proof.
  unfold engineAfter.
  assert (engine_ok rev hc (newOcrEngine hc)) as H by (split; [done|by simpl]).
  revert H. generalize (newOcrEngine hc) as e.
  induction calls as [|c calls IH]; intros e H; simpl; [done|].
  apply IH. by apply initialize_ok.
Qed.

(** C5, as the code has it.  After any history of [initialize] calls, a
    call that succeeds leaves the engine ready for [lang] with a pool of
    [N] workers bound to [lang], where [N] is computed from the worker
    count the constructor derived from [navigator.hardwareConcurrency]
    (its minimum with 4, or 2 when it is unknown), so [1 ≤ N ≤ 4]; for a
    profile combining languages [N] is 1 in the sequential revision and
    the minimum of the worker count and 2 in the concurrent one; for a
    single language it is the minimum of the worker count and 2,
    respectively 4. *)
Theorem worker_pool_size rev hardwareConcurrency calls lang :
  let e := engineAfter rev hardwareConcurrency calls in
  let N := poolSize rev e lang in
  ∃ e' progress,
    initialize rev lang None e = (e', progress, true) ∧
    isReady e' = true ∧ currentLang e' = lang ∧
    scheduler e' = Some (replicate N lang) ∧
    workerCount e = match hardwareConcurrency with
                    | Some (S n) => Nat.min (S n) 4
                    | _ => 2
                    end ∧
    1 ≤ N ≤ 4 ∧
    N = match rev, includes lang "+" with
        | Sequential, true => 1
        | Sequential, false => Nat.min (workerCount e) 2
        | Concurrent, true => Nat.min (workerCount e) 2
        | Concurrent, false => Nat.min (workerCount e) 4
        end.
Proof.
  cbn zeta. destruct (engineAfter_ok rev hardwareConcurrency calls) as [W P].
  set (e := engineAfter rev hardwareConcurrency calls) in *.
  pose proof (workerCount_bounds hardwareConcurrency) as B. rewrite <- W in B.
  assert (1 ≤ poolSize rev e lang ≤ 4) as HN.
  { unfold poolSize. destruct rev; case_match; lia. }
  unfold initialize.
  destruct (isReady e && String.eqb (currentLang e) lang) eqn:G.
  - apply andb_true_iff in G as [G1 G2]. apply String.eqb_eq in G2.
    exists e, []. split_and!; try done; try lia;
      try (rewrite <- G2; by apply P);
      unfold poolSize; destruct rev; by destruct (includes lang "+").
  - eexists _, _. split; [reflexivity|]. simpl. split_and!; try done; try lia;
      unfold poolSize; destruct rev; by destruct (includes lang "+").
Qed.

(** C5 as stated fails on the concurrent revision: with eight logical
    processors and the profile [eng+kor] the pool has two workers. *)
Lemma pool_size_not_as_specified : ¬ pool_size_as_specified Concurrent.
Proof.
  intros H.
  destruct (H (Some 8) "eng+kor" _ _ ["eng+kor"; "eng+kor"] eq_refl eq_refl)
    as [_ H1].
  specialize (H1 eq_refl). simpl in H1. lia.
Qed.

(** ** [recognizeBatch] *)

Section Batch.

Context {St : Type}.
Variable onImageStart : string → nat → nat → St → St.
Variable onImageComplete : string → option JsObject → nat → nat → St → St.
Variable onProgress : Q → St → St.
Variable e : OcrEngine.
Variable outcome : nat → JobOutcome.

Lemma recognizeBatchSeq_results_from n k acc (images : list Job) (s : St) :
  (foldl (seqTurn onImageStart onImageComplete onProgress e outcome n) (acc, s)
     (imap (λ i j, (k + i, j)) images)).1 =
  acc ++ imap (λ i j, batchEntry j (recognizeImage e (outcome (k + i)))) images.
Proof.
  revert k acc s. induction images as [|j images IH]; intros k acc s; simpl.
  - by rewrite app_nil_r.
  - rewrite Nat.add_0_r.
    rewrite (imap_ext _ (λ i j0, (S k + i, j0)))
      by (intros; simpl; f_equal; lia).
    rewrite IH. rewrite <- app_assoc. simpl. do 2 f_equal.
    apply imap_ext. intros. simpl. do 3 f_equal. lia.
Qed.

Lemma recognizeBatchSeq_results (images : list Job) (s : St) :
  (recognizeBatchSeq onImageStart onImageComplete onProgress e outcome images s).1 =
  imap (λ i j, batchEntry j (recognizeImage e (outcome i))) images.
Proof.
  unfold recognizeBatchSeq.
  apply (recognizeBatchSeq_results_from (length images) 0 []).
Qed.

End Batch.

Lemma completions_app l1 l2 :
  completions (l1 ++ l2) = completions l1 ++ completions l2.
Proof. apply omap_app. Qed.

Lemma completions_seq_from e outcome n k acc (images : list Job) (log : list Call) :
  completions
    (foldl (seqTurn logStart logComplete logProgress e outcome n) (acc, log)
       (imap (λ i j, (k + i, j)) images)).2 =
  completions log ++ imap (λ i j, reported e outcome (k + i) j) images.
Proof.
  revert k acc log. induction images as [|j images IH]; intros k acc log; simpl.
  - by rewrite app_nil_r.
  - rewrite Nat.add_0_r.
    rewrite (imap_ext _ (λ i j0, (S k + i, j0)))
      by (intros; simpl; f_equal; lia).
    rewrite IH. unfold logProgress, logComplete, logStart.
    rewrite !completions_app. simpl. rewrite !app_nil_r, <- app_assoc. simpl.
    do 2 f_equal. apply imap_ext. intros. simpl. by rewrite Nat.add_succ_r.
Qed.

Lemma completions_startAll (images : list Job) log :
  completions (startAll logStart images log) = completions log.
Proof.
  unfold startAll. generalize (length images) as n.
  generalize (imap (λ i j, (i, j)) images) as l. intros l n. revert log.
  induction l as [|x l IH]; intros log; simpl; [done|].
  rewrite IH. unfold logStart. rewrite completions_app. simpl. by rewrite app_nil_r.
Qed.

Lemma completions_settle e outcome (images : list Job) order c log :
  completions
    (foldl (λ acc i, settle logComplete logProgress e outcome images i acc)
       (c, log) order).2 =
  completions log ++
  omap (λ i, reported e outcome i <$> images !! i) order.
Proof.
  revert c log. induction order as [|i order IH]; intros c log.
  - simpl. by rewrite app_nil_r.
  - cbn [foldl]. destruct (settle logComplete logProgress e outcome images i (c, log))
      as [c' log'] eqn:E.
    rewrite IH. unfold settle in E. cbn [omap list_omap].
    destruct (images !! i) as [j|]; simpl.
    + injection E as <- <-. unfold logProgress, logComplete.
      rewrite !completions_app. simpl. by rewrite !app_nil_r, <- app_assoc.
    + by injection E as <- <-.
Qed.

Lemma omap_lookup_seq {A B} (g : nat → A → B) (l : list A) k pre :
  length pre = k →
  omap (λ i, g i <$> (pre ++ l) !! i) (seq k (length l)) = imap (λ i, g (k + i)) l.
Proof.
  revert k pre. induction l as [|x l IH]; intros k pre Hk; simpl; [done|].
  specialize (IH (S k) (pre ++ [x])). rewrite <- app_assoc in IH.
  rewrite list_lookup_middle by done. simpl. rewrite Nat.add_0_r. f_equal.
  etrans; [apply IH; rewrite length_app; simpl; lia|].
  apply imap_ext. intros. simpl. f_equal. lia.
Qed.

Lemma recognizeImage_inl e o res :
  recognizeImage e o = inl res → ∃ d, res = resultObject d.
Proof.
  unfold recognizeImage. case_match; [done|]. destruct o; [|done].
  intros [= <-]. eauto.
Qed.

(** C7.  Whatever the jobs do, [recognizeBatch] resolves, in either
    revision and for every order in which the jobs settle, with one
    record per job, in submission order: for a job whose recognition
    fails, the record with its id and file name, the empty text,
    confidence 0 and the error message; for every other job the record
    made from its result.  The completion hook runs exactly once for
    every job, with the result or [null]. *)
Theorem per_job_failures_captured {St : Type}
    (onImageStart : string → nat → nat → St → St)
    (onImageComplete : string → option JsObject → nat → nat → St → St)
    (onProgress : Q → St → St)
    (e : OcrEngine) (outcome : nat → JobOutcome)
    (images : list Job) (order : list nat) (s : St) (log : list Call) :
  order ≡ₚ seq 0 (length images) →
  let results :=
    (recognizeBatchSeq onImageStart onImageComplete onProgress e outcome images s).1 in
  (recognizeBatchConc onImageStart onImageComplete onProgress e outcome images order s).1
    = Some results ∧
  length results = length images ∧
  (∀ i j, images !! i = Some j →
     ∃ entry,
       results !! i = Some entry ∧
       entry !! "id" = Some (JsStr (j_id j)) ∧
       match recognizeImage e (outcome i) with
       | inr message =>
           entry = failureEntry j message ∧
           entry !! "text" = Some (JsStr "") ∧
           entry !! "confidence" = Some (JsNum 0) ∧
           entry !! "error" = Some (JsStr message)
       | inl result =>
           entry = successEntry j result ∧
           entry !! "text" = result !! "text" ∧
           entry !! "error" = Some JsNull
       end) ∧
  completions
    (recognizeBatchSeq logStart logComplete logProgress e outcome images log).2
    = completions log ++ imap (reported e outcome) images ∧
  completions
    (recognizeBatchConc logStart logComplete logProgress e outcome images order log).2
    ≡ₚ completions log ++ imap (reported e outcome) images.
Proof.
  intros Hp. cbn zeta. rewrite recognizeBatchSeq_results. split_and!.
  - unfold recognizeBatchConc. destruct (foldl _ _ _). simpl.
    by rewrite bool_decide_eq_true_2.
  - by rewrite length_imap.
  - intros i j Hj. rewrite list_lookup_imap, Hj. simpl. eexists. split; [done|].
    destruct (recognizeImage e (outcome i)) as [result|message] eqn:Hr; simpl.
    + apply recognizeImage_inl in Hr as [d ->]. split_and!; try done.
    + split_and!; done.
  - unfold recognizeBatchSeq. apply (completions_seq_from e outcome _ 0 []).
  - unfold recognizeBatchConc.
    destruct (foldl _ _ order) as [c l] eqn:E. simpl.
    pose proof (completions_settle e outcome images order 0
                  (startAll logStart images log)) as H.
    rewrite E in H. simpl in H. rewrite H, completions_startAll.
    apply Permutation_app_head. rewrite Hp.
    pose proof (omap_lookup_seq (reported e outcome) images 0 [] eq_refl) as Hs.
    simpl in Hs. by rewrite Hs.
Qed.


(** * Fingerprints and cache keys *)

Lemma chars_app s1 s2 : chars (s1 +:+ s2) = chars s1 ++ chars s2.
Proof. induction s1 as [|a s1 IH]; simpl; [done|]. by rewrite IH. Qed.

Lemma chars_inj s1 s2 : chars s1 = chars s2 → s1 = s2.
Proof.
  intros E. rewrite <- (String.string_of_list_ascii_of_string s1),
    <- (String.string_of_list_ascii_of_string s2). by rewrite E.
Qed.

Lemma chars_length s : length (chars s) = String.length s.
Proof. induction s; simpl; auto. Qed.

Lemma concat_cons x l : String.concat "" (x :: l) = x +:+ String.concat "" l.
Proof.
  destruct l as [|y l]; simpl; [|done].
  apply chars_inj. by rewrite chars_app, app_nil_r.
Qed.

Lemma byte_hex b :
  padStart0 2 (toString16 b) =
  String (hexDigit (Byte.to_N b / 16)) (String (hexDigit (Byte.to_N b mod 16)) "").
Proof. by destruct b. Qed.

Lemma byte_hex_digits b :
  Forall (λ c, c ∈ hexDigits) (chars (padStart0 2 (toString16 b))).
Proof.
  destruct b; apply (bool_decide_unpack _); vm_compute; exact I.
Qed.

Lemma byte_fromHex b s :
  fromHex (padStart0 2 (toString16 b) +:+ s) = (b ::.) <$> fromHex s.
Proof.
  rewrite byte_hex.
  change (String ?a (String ?c "") +:+ s) with (String a (String c s)).
  cbn [fromHex].
  assert (hexValue (hexDigit (Byte.to_N b / 16)) = Some (Byte.to_N b / 16)%N ∧
          hexValue (hexDigit (Byte.to_N b mod 16)) = Some (Byte.to_N b mod 16)%N ∧
          Byte.of_N (16 * (Byte.to_N b / 16) + Byte.to_N b mod 16) = Some b)
    as (-> & -> & E) by (by destruct b).
  simpl. rewrite E. simpl. by destruct (fromHex s).
Qed.

Lemma getFileHash_cons digest f :
  getFileHash digest f =
  String.concat "" (map (λ b, padStart0 2 (toString16 b)) (digest (bytes f))).
Proof. done. Qed.

Lemma fromHex_getFileHash digest f :
  fromHex (getFileHash digest f) = Some (digest (bytes f)).
Proof.
  rewrite getFileHash_cons.
  induction (digest (bytes f)) as [|b l IH]; [done|].
  cbn [map]. rewrite concat_cons, byte_fromHex, IH. done.
Qed.

Lemma getFileHash_inj digest f f' :
  getFileHash digest f' = getFileHash digest f →
  digest (bytes f') = digest (bytes f).
Proof.
  intros E. apply (f_equal fromHex) in E.
  rewrite !fromHex_getFileHash in E. by injection E.
Qed.

Lemma getFileHash_hex digest f :
  Forall (λ c, c ∈ hexDigits) (chars (getFileHash digest f)).
Proof.
  rewrite getFileHash_cons.
  induction (digest (bytes f)) as [|b l IH]; [constructor|].
  cbn [map]. rewrite concat_cons, chars_app. apply Forall_app. split; [|done].
  apply byte_hex_digits.
Qed.

(** X1. The fingerprint of a file is the digest written in lowercase
    hexadecimal, two digits for every byte, leading zero included: it
    can be read back into the digest, so files whose digests differ
    never share a fingerprint. *)
Theorem fingerprint_is_hex digest f :
  String.length (getFileHash digest f) = 2 * length (digest (bytes f)) ∧
  Forall (λ c, c ∈ hexDigits) (chars (getFileHash digest f)) ∧
  fromHex (getFileHash digest f) = Some (digest (bytes f)) ∧
  ∀ f', getFileHash digest f' = getFileHash digest f ↔
        digest (bytes f') = digest (bytes f).
Proof.
  split_and!.
  - rewrite getFileHash_cons.
    induction (digest (bytes f)) as [|b l IH]; [done|].
    cbn [map]. rewrite concat_cons, <- chars_length, chars_app, length_app,
      !chars_length, IH, byte_hex. simpl. lia.
  - apply getFileHash_hex.
  - apply fromHex_getFileHash.
  - intros f'. split; [apply getFileHash_inj|].
    rewrite !getFileHash_cons. by intros ->.
Qed.

Lemma hex_no_underscore digest f :
  Forall (λ c, c ≠ "_"%char) (chars (getFileHash digest f)).
Proof.
  eapply Forall_impl; [apply getFileHash_hex|]. intros c Hc ->.
  revert Hc. apply (bool_decide_unpack _). by vm_compute.
Qed.

Lemma split_at_first {A} (x : A) (h1 h2 r1 r2 : list A) :
  Forall (λ c, c ≠ x) h1 → Forall (λ c, c ≠ x) h2 →
  h1 ++ x :: r1 = h2 ++ x :: r2 → h1 = h2 ∧ r1 = r2.
Proof.
  revert h2. induction h1 as [|a h1 IH]; intros [|b h2] F1 F2 E; simplify_eq/=.
  - done.
  - by apply Forall_cons in F2 as [? _].
  - by apply Forall_cons in F1 as [? _].
  - apply Forall_cons in F1 as [_ F1]. apply Forall_cons in F2 as [_ F2].
    destruct (IH _ F1 F2 H0) as [-> ->]. done.
Qed.

Lemma cacheKeyOf_chars h lang ai :
  chars (cacheKeyOf h lang ai) =
  chars h ++ "_"%char :: chars lang ++ "_"%char :: chars (if ai then "ai" else "ocr").
Proof. unfold cacheKeyOf. by rewrite !chars_app. Qed.

Lemma cacheKeyOf_inj h1 h2 lang1 lang2 ai1 ai2 :
  Forall (λ c, c ≠ "_"%char) (chars h1) → Forall (λ c, c ≠ "_"%char) (chars h2) →
  cacheKeyOf h1 lang1 ai1 = cacheKeyOf h2 lang2 ai2 →
  h1 = h2 ∧ lang1 = lang2 ∧ ai1 = ai2.
Proof.
  intros F1 F2 E. apply (f_equal chars) in E.
  rewrite !cacheKeyOf_chars in E.
  apply split_at_first in E as [Eh Er]; [|done..].
  apply chars_inj in Eh. split; [done|].
  assert (ai1 = ai2) as ->.
  { apply (f_equal last) in Er. rewrite !last_app in Er.
    by destruct ai1, ai2. }
  split; [|done]. apply chars_inj. by eapply app_inv_tail.
Qed.

(** X2. The cache key tells fingerprint, language and mode apart: two
    submissions get the same key only if their files have the same
    digest and they are run with the same language and in the same
    mode. *)
Theorem cacheKey_inj digest img1 img2 lang1 lang2 ai1 ai2 :
  keyOf digest img1 lang1 ai1 = keyOf digest img2 lang2 ai2 →
  digest (bytes (file img1)) = digest (bytes (file img2)) ∧
  lang1 = lang2 ∧ ai1 = ai2.
Proof.
  unfold keyOf. intros E.
  apply cacheKeyOf_inj in E as (Eh & -> & ->); try apply hex_no_underscore.
  by apply getFileHash_inj in Eh.
Qed.

(** * The engine: more about [initialize] *)

(** X3. Once [initialize(lang)] has succeeded, calling it again with the
    same language returns at once: the engine is left as it is, no
    worker is created (so nothing can fail) and no progress is
    reported. *)
Theorem initialize_reuses_pool rev lang failAt e e1 progress :
  initialize rev lang failAt e = (e1, progress, true) →
  isReady e1 = true ∧ currentLang e1 = lang ∧
  ∀ failAt', initialize rev lang failAt' e1 = (e1, [], true).
Proof.
  unfold initialize. intros H.
  assert (isReady e1 = true ∧ currentLang e1 = lang) as (R1 & L1).
  { destruct (isReady e && String.eqb (currentLang e) lang) eqn:G.
    - injection H as <- _. apply andb_true_iff in G as [? G].
      by apply String.eqb_eq in G.
    - destruct failAt as [k|]; [case_match|]; by simplify_eq. }
  split_and!; try done. intros failAt'.
  by rewrite R1, L1, String.eqb_refl.
Qed.

(** X4. When a worker cannot be created, [initialize] rejects and leaves
    the engine unusable but recoverable: it is not ready, its scheduler
    holds the workers made so far, every [recognizeImage] rejects with
    the not-initialized error, and a later [initialize] for the same
    language does not take the reuse shortcut but builds the whole pool
    anew. *)
Theorem initialize_failure rev lang k e :
  isReady e && String.eqb (currentLang e) lang = false →
  k < poolSize rev e lang →
  ∃ e' progress,
    initialize rev lang (Some k) e = (e', progress, false) ∧
    isReady e' = false ∧ currentLang e' = lang ∧
    scheduler e' = Some (replicate k lang) ∧
    (∀ o, recognizeImage e' o = inr notInitialized) ∧
    ∃ e'' progress',
      initialize rev lang None e' = (e'', progress', true) ∧
      isReady e'' = true ∧
      scheduler e'' = Some (replicate (poolSize rev e lang) lang).
Proof.
  intros G Hk. unfold initialize. rewrite G.
  assert (poolSize rev (terminate e) lang = poolSize rev e lang) as ->
    by by apply poolSize_workerCount.
  apply Nat.ltb_lt in Hk as Hk'. rewrite Hk'.
  eexists _, _. split; [reflexivity|]. simpl. split_and!; try done.
  eexists _, _. split; [reflexivity|]. simpl. done.
Qed.

Lemma loadingProgress_lookup n c m q :
  loadingProgress n c !! m = Some q →
  m < c ∧ q = (Z.of_nat (m + 1) # Pos.of_nat (n + 1)).
Proof.
  unfold loadingProgress. rewrite list_lookup_fmap.
  destruct (seq 0 c !! m) as [i|] eqn:E; [|done].
  apply lookup_seq in E as [-> ?]. simpl. by intros [= <-].
Qed.

Lemma den_of_nat n : Zpos (Pos.of_nat (n + 1)) = Z.of_nat (n + 1).
Proof.
  rewrite Nat.add_1_r, <- Pos.of_nat_succ, Zpos_P_of_succ_nat. lia.
Qed.

Lemma loading_lt n a b :
  a < b →
  (Z.of_nat (a + 1) # Pos.of_nat (n + 1) < Z.of_nat (b + 1) # Pos.of_nat (n + 1))%Q.
Proof. intros H. unfold Qlt. simpl. rewrite den_of_nat. nia. Qed.

Lemma loading_bounds n a :
  a < n → (0 < Z.of_nat (a + 1) # Pos.of_nat (n + 1) < 1)%Q.
Proof. intros H. unfold Qlt. simpl. rewrite den_of_nat. lia. Qed.

Lemma progress_increasing n c (tl : list Q) :
  c ≤ n → (tl = [] ∨ tl = [1%Q]) →
  ∀ i j p q, i < j →
    (0%Q :: loadingProgress n c ++ tl) !! i = Some p →
    (0%Q :: loadingProgress n c ++ tl) !! j = Some q →
    (p < q)%Q ∧ (0 <= p)%Q ∧ (q <= 1)%Q.
Proof.
  intros Hc Htl i j p q Hij Hi Hj.
  assert (∀ m x, (loadingProgress n c ++ tl) !! m = Some x →
            (m < c ∧ x = (Z.of_nat (m + 1) # Pos.of_nat (n + 1))) ∨
            (m = c ∧ x = 1%Q)) as L.
  { intros m x Hm. apply lookup_app_Some in Hm as [Hm|[Hl Hm]].
    - left. by apply loadingProgress_lookup in Hm.
    - right. unfold loadingProgress in *. rewrite length_map, length_seq in *.
      destruct Htl as [-> | ->]; [done|].
      destruct (m - c) as [|d] eqn:E; simpl in Hm; [|done].
      split; [lia|congruence]. }
  destruct j as [|j]; [lia|]. simpl in Hj. apply L in Hj.
  destruct i as [|i]; simpl in Hi.
  - injection Hi as <-. destruct Hj as [[Hj ->]|[_ ->]].
    + destruct (loading_bounds n j) as [? ?]; [lia|].
      split_and!; [done|apply Qle_refl|by apply Qlt_le_weak].
    + split_and!; done.
  - apply L in Hi. destruct Hi as [[Hi ->]|[Hi ->]]; [|lia].
    destruct (loading_bounds n i) as [? ?]; [lia|].
    destruct Hj as [[Hj ->]|[_ ->]].
    + destruct (loading_bounds n j) as [? ?]; [lia|].
      split_and!; [apply loading_lt; lia|by apply Qlt_le_weak..].
    + split_and!; [done|by apply Qlt_le_weak|apply Qle_refl].
Qed.

(** X5. The progress [initialize] reports: nothing when the pool is
    reused; otherwise 0 first, then the fraction [(i+1)/(n+1)] for every
    worker [i] it starts to create, [n] being the size of the pool,
    and 1 at the very end exactly when it succeeds.  It starts to
    create every worker of the pool when it succeeds, and the workers
    up to the one that cannot be created when it fails.  So what is
    reported is strictly increasing and stays between 0 and 1. *)
Theorem initialize_progress rev lang failAt e e' progress ok :
  initialize rev lang failAt e = (e', progress, ok) →
  (∀ i j p q, i < j → progress !! i = Some p → progress !! j = Some q →
              (p < q)%Q ∧ (0 <= p)%Q ∧ (q <= 1)%Q) ∧
  (progress = [] ↔ isReady e && String.eqb (currentLang e) lang = true) ∧
  (progress ≠ [] → head progress = Some 0%Q ∧
                   (ok = true ↔ last progress = Some 1%Q)) ∧
  (isReady e && String.eqb (currentLang e) lang = false →
   let n := poolSize rev e lang in
   let started := match failAt with
                  | Some k => Nat.min (k + 1) n
                  | None => n
                  end in
   progress = 0%Q :: map (λ i, Z.of_nat (i + 1) # Pos.of_nat (n + 1)) (seq 0 started)
                ++ (if ok then [1%Q] else []) ∧
   ok = match failAt with Some k => negb (k <? n) | None => true end ∧
   (ok = true → started = n)).
Proof.
  unfold initialize.
  destruct (isReady e && String.eqb (currentLang e) lang) eqn:G.
  { intros [= <- <- <-]. split_and!; try done. }
  assert (poolSize rev (terminate e) lang = poolSize rev e lang) as En
    by by apply poolSize_workerCount.
  rewrite En. set (n := poolSize rev e lang).
  assert (∀ c tl ok', c ≤ n → (tl = [] ∧ ok' = false ∨ tl = [1%Q] ∧ ok' = true) →
            (0%Q :: loadingProgress n c ++ tl) = progress → ok' = ok →
            (∀ i j p q, i < j → progress !! i = Some p → progress !! j = Some q →
               (p < q)%Q ∧ (0 <= p)%Q ∧ (q <= 1)%Q) ∧
            (progress = [] ↔ false = true) ∧
            (progress ≠ [] → head progress = Some 0%Q ∧
               (ok = true ↔ last progress = Some 1%Q))) as K.
  { intros c tl ok' Hc Htl <- <-. split_and!; try done.
    - apply progress_increasing; [done|]. destruct Htl as [[-> _]|[-> _]]; auto.
    - intros _. split; [done|].
      destruct Htl as [[-> ->]|[-> ->]].
      + rewrite app_nil_r. split; [done|]. intros Hl.
        change (0%Q :: loadingProgress n c) with ([0%Q] ++ loadingProgress n c) in Hl.
        apply last_Some in Hl as [l' Hl].
        assert (1%Q ∈ loadingProgress n c) as Hin1.
        { assert (1%Q ∈ [0%Q] ++ loadingProgress n c) as Hin
            by (rewrite Hl; set_solver).
          apply elem_of_app in Hin. destruct Hin as [Hin|Hin]; [|done].
          by apply list_elem_of_singleton in Hin. }
        apply list_elem_of_lookup_1 in Hin1 as [m Hm].
        apply loadingProgress_lookup in Hm as [Hm Hq].
        injection Hq as Hq1 Hq2. apply (f_equal Zpos) in Hq2.
        rewrite den_of_nat in Hq2. lia.
      + split; [|done]. intros _.
        change (0%Q :: loadingProgress n c ++ [1%Q])
          with ((0%Q :: loadingProgress n c) ++ [1%Q]).
        by rewrite last_snoc. }
  destruct failAt as [k|]; [destruct (k <? n) eqn:Hk|]; intros [= <- HP <-].
  - apply Nat.ltb_lt in Hk.
    destruct (K (k + 1) [] false) as (K1 & K2 & K3); auto; [lia|by rewrite app_nil_r|].
    split_and!; [done..|]. intros _. cbn zeta.
    rewrite Nat.min_l by lia. rewrite <- HP, app_nil_r. done.
  - apply Nat.ltb_ge in Hk.
    destruct (K n [1%Q] true) as (K1 & K2 & K3); auto.
    split_and!; [done..|]. intros _. cbn zeta.
    rewrite Nat.min_r by lia. by rewrite <- HP.
  - destruct (K n [1%Q] true) as (K1 & K2 & K3); auto.
    split_and!; [done..|]. intros _. cbn zeta. by rewrite <- HP.
Qed.

(** * The engine: the hooks of [recognizeBatch] *)

Lemma progressCalls_app l1 l2 :
  progressCalls (l1 ++ l2) = progressCalls l1 ++ progressCalls l2.
Proof. apply omap_app. Qed.

Lemma seq_log_from e outcome n k acc (images : list Job) (log : list Call) :
  (foldl (seqTurn logStart logComplete logProgress e outcome n) (acc, log)
     (imap (λ i j, (k + i, j)) images)).2 =
  log ++ concat (imap (λ i j, turnCalls e outcome n (k + i) j) images).
Proof.
  revert k acc log. induction images as [|j images IH]; intros k acc log; simpl.
  - by rewrite app_nil_r.
  - rewrite Nat.add_0_r.
    rewrite (imap_ext _ (λ i j0, (S k + i, j0)))
      by (intros; simpl; f_equal; lia).
    rewrite IH. unfold logProgress, logComplete, logStart, turnCalls.
    rewrite <- !app_assoc. simpl. do 6 f_equal.
    apply imap_ext. intros i x _. simpl.
    by replace (k + S i) with (S (k + i)) by lia.
Qed.

Lemma startAll_log (images : list Job) log :
  startAll logStart images log =
  log ++ imap (λ i j, CallStart (j_id j) i (length images)) images.
Proof.
  unfold startAll. generalize (length images) as n. intros n.
  change (imap (λ i j, (i, j)) images) with (imap (λ i j, (0 + i, j)) images).
  change (imap (λ i j, CallStart (j_id j) i n) images)
    with (imap (λ i j, CallStart (j_id j) (0 + i) n) images).
  generalize 0 as k. revert log.
  induction images as [|j images IH]; intros log k; simpl.
  - by rewrite app_nil_r.
  - rewrite Nat.add_0_r.
    rewrite (imap_ext _ (λ i j0, (S k + i, j0)))
      by (intros; simpl; f_equal; lia).
    rewrite IH. unfold logStart. rewrite <- app_assoc. simpl. do 2 f_equal.
    apply imap_ext. intros. simpl. by rewrite Nat.add_succ_r.
Qed.

Lemma settle_log e outcome (images : list Job) order c log :
  Forall (λ i, i < length images) order →
  ∃ rest,
    (foldl (λ acc i, settle logComplete logProgress e outcome images i acc)
       (c, log) order).2 = log ++ rest ∧
    Forall (λ x, isStart x = false) rest ∧
    progressCalls rest =
      map (λ k, fraction (c + k + 1) (length images)) (seq 0 (length order)).
Proof.
  revert c log. induction order as [|i order IH]; intros c log Hv.
  - exists []. simpl. by rewrite app_nil_r.
  - apply Forall_cons in Hv as [Hi Hv]. cbn [foldl].
    destruct (settle logComplete logProgress e outcome images i (c, log))
      as [c' log'] eqn:E.
    unfold settle in E. apply lookup_lt_is_Some_2 in Hi as [j Hj].
    rewrite Hj in E. injection E as <- <-.
    destruct (IH (c + 1)
      (logComplete (j_id j) (resultOrNull (recognizeImage e (outcome i))) i
         (length images) (logProgress (fraction (c + 1) (length images)) log)) Hv)
      as (rest & -> & Hs & Hp).
    eexists (_ :: _ :: rest). split_and!.
    + unfold logComplete, logProgress. by rewrite <- !app_assoc.
    + by repeat constructor.
    + simpl. rewrite Nat.add_0_r. f_equal. rewrite Hp, <- fmap_S_seq.
      rewrite <- list_fmap_compose. apply list_fmap_ext. intros _ k _. simpl.
      f_equal. lia.
Qed.

(** X6. The sequential revision handles one job at a time, in submission
    order: for job [i] it calls [onImageStart], reports [i/total],
    awaits the recognition, calls [onImageComplete] with the result or
    [null] and reports [(i+1)/total]; only then is the next job
    started.  An empty batch calls no hook. *)
Theorem sequential_hook_calls e outcome (images : list Job) (log : list Call) :
  (recognizeBatchSeq logStart logComplete logProgress e outcome images log).2 =
  log ++ concat (imap (turnCalls e outcome (length images)) images).
Proof.
  unfold recognizeBatchSeq.
  apply (seq_log_from e outcome (length images) 0 []).
Qed.

(** X7. The concurrent revision starts every job, in submission order,
    before any job completes; from then on no job is started, and
    whatever the order in which the jobs settle, the progress reported
    is [1/total], [2/total], ..., [total/total]: it counts the jobs
    that have settled. *)
Theorem concurrent_hook_calls e outcome (images : list Job) (order : list nat)
    (log : list Call) :
  order ≡ₚ seq 0 (length images) →
  ∃ rest,
    (recognizeBatchConc logStart logComplete logProgress e outcome images order log).2 =
      log ++ imap (λ i j, CallStart (j_id j) i (length images)) images ++ rest ∧
    Forall (λ c, isStart c = false) rest ∧
    progressCalls rest =
      map (λ k, fraction (k + 1) (length images)) (seq 0 (length images)).
Proof.
  intros Hp. unfold recognizeBatchConc.
  assert (Forall (λ i, i < length images) order) as Hv.
  { rewrite Hp. apply Forall_forall. intros i Hi%elem_of_seq. lia. }
  destruct (settle_log e outcome images order 0 (startAll logStart images log) Hv)
    as (rest & E & Hs & Hq).
  destruct (foldl _ _ order) as [c l]. simpl in *. subst l.
  exists rest. split_and!; [|done|].
  - by rewrite startAll_log, <- app_assoc.
  - rewrite Hq. apply Permutation_length in Hp. rewrite length_seq in Hp.
    by rewrite Hp.
Qed.

(** X8. [recognizeBatch] on an engine that is not ready does not throw:
    it resolves, in either revision, with one failure record per job,
    each carrying the not-initialized message, an empty text and
    confidence 0, and in either revision the completion hook is called
    once for every job, with [null]: in submission order by the
    sequential revision, in the order in which the jobs settle by the
    concurrent one. *)
Theorem recognizeBatch_not_ready e outcome (images : list Job) (order : list nat)
    (log : list Call) :
  isReady e = false ∨ scheduler e = None →
  order ≡ₚ seq 0 (length images) →
  let failed := map (λ j, failureEntry j notInitialized) images in
  (recognizeBatchSeq logStart logComplete logProgress e outcome images log).1
    = failed ∧
  (recognizeBatchConc logStart logComplete logProgress e outcome images order log).1
    = Some failed ∧
  completions
    (recognizeBatchSeq logStart logComplete logProgress e outcome images log).2
    = completions log ++ imap (λ i j, (i, j_id j, None)) images ∧
  completions
    (recognizeBatchConc logStart logComplete logProgress e outcome images order log).2
    = completions log ++
      omap (λ i, (λ j, (i, j_id j, None)) <$> images !! i) order ∧
  omap (λ i, (λ j : Job, (i, j_id j, @None JsObject)) <$> images !! i) order
    ≡ₚ imap (λ i j, (i, j_id j, None)) images.
Proof.
  intros He Hp. cbn zeta.
  assert (∀ o, recognizeImage e o = inr notInitialized) as Hr.
  { intros o. unfold recognizeImage. destruct He as [-> | ->]; [done|].
    by rewrite orb_true_r. }
  assert (imap (λ i j, batchEntry j (recognizeImage e (outcome i))) images
          = map (λ j, failureEntry j notInitialized) images) as Hm.
  { etrans; [|apply (imap_const (λ j, failureEntry j notInitialized))].
    apply imap_ext. intros i j _. simpl. by rewrite Hr. }
  split_and!.
  - by rewrite recognizeBatchSeq_results.
  - unfold recognizeBatchConc. destruct (foldl _ _ _). simpl.
    by rewrite bool_decide_eq_true_2, Hm.
  - unfold recognizeBatchSeq.
    rewrite (completions_seq_from e outcome _ 0 []). f_equal.
    apply imap_ext. intros i j _. unfold reported. simpl. by rewrite Hr.
  - unfold recognizeBatchConc.
    destruct (foldl _ _ order) as [c l] eqn:E. simpl.
    pose proof (completions_settle e outcome images order 0
                  (startAll logStart images log)) as H.
    rewrite E in H. simpl in H. rewrite H, completions_startAll. f_equal.
    clear -Hr. induction order as [|i order IH]; [done|].
    cbn [omap list_omap]. rewrite IH. destruct (images !! i); [|done].
    simpl. unfold reported. by rewrite Hr.
  - rewrite Hp.
    pose proof (omap_lookup_seq (λ i (j : Job), (i, j_id j, @None JsObject))
                  images 0 [] eq_refl) as Hs.
    simpl in Hs. by rewrite Hs.
Qed.

(** * [trim] *)

Lemma stripAny_Some ws l l' :
  stripAny ws l = Some l' → ∃ w, w ∈ ws ∧ l = w ++ l'.
Proof.
  induction ws as [|w ws IH]; simpl; [done|]. case_bool_decide as Hp.
  - intros [= <-]. exists w. split; [left|]. destruct Hp as [k ->].
    by rewrite drop_app_length.
  - intros (w' & ? & ?)%IH. exists w'. split; [by right|done].
Qed.

Lemma stripAny_None ws l :
  stripAny ws l = None ↔ ∀ w, w ∈ ws → ¬ w `prefix_of` l.
Proof.
  induction ws as [|w ws IH]; simpl.
  - split; [|done]. intros _ w Hw. by apply elem_of_nil in Hw.
  - case_bool_decide as Hp.
    + split; [done|]. intros H. destruct (H w); [left|done].
    + rewrite IH. split.
      * intros H w' [->|Hw']%elem_of_cons; auto.
      * intros H w' Hw'. apply H. by right.
Qed.

Lemma stripFront_stable ws n l : stripAny ws l = None → stripFront ws n l = l.
Proof. intros H. destruct n; simpl; [done|]. by rewrite H. Qed.

Lemma stripFront_suffix ws n l : stripFront ws n l `suffix_of` l.
Proof.
  revert l. induction n as [|n IH]; intros l; simpl; [done|].
  destruct (stripAny ws l) as [l'|] eqn:E; [|done].
  apply stripAny_Some in E as (w & _ & ->).
  etrans; [apply IH|]. by apply suffix_app_r.
Qed.

Lemma stripFront_done ws n l :
  Forall (λ w, w ≠ []) ws → length l ≤ n →
  stripAny ws (stripFront ws n l) = None.
Proof.
  intros Hne. revert l. induction n as [|n IH]; intros l Hl; simpl.
  - destruct l; [|simpl in Hl; lia]. apply stripAny_None.
    intros w Hw [k Hk]. rewrite Forall_forall in Hne. apply (Hne _ Hw).
    by destruct w.
  - destruct (stripAny ws l) as [l'|] eqn:E; [|done].
    apply IH. apply stripAny_Some in E as (w & Hw & ->).
    rewrite Forall_forall in Hne. specialize (Hne _ Hw).
    rewrite length_app in Hl. destruct w; [done|]. simpl in Hl. lia.
Qed.

Lemma whiteSpace_nonempty :
  Forall (λ w, w ≠ []) whiteSpace ∧ Forall (λ w, w ≠ []) (map reverse whiteSpace).
Proof. split; apply (bool_decide_unpack _); by vm_compute. Qed.

Lemma trimStart_done l : stripAny whiteSpace (trimStart l) = None.
Proof. apply stripFront_done; [apply whiteSpace_nonempty|done]. Qed.

Lemma trimEnd_done l :
  stripAny (map reverse whiteSpace) (reverse (trimEnd l)) = None.
Proof.
  unfold trimEnd. rewrite reverse_involutive.
  apply stripFront_done; [apply whiteSpace_nonempty|by rewrite length_reverse].
Qed.

Lemma trimEnd_prefix l : trimEnd l `prefix_of` l.
Proof.
  unfold trimEnd. rewrite <- (reverse_involutive l) at 3.
  apply suffix_prefix_reverse, stripFront_suffix.
Qed.

Lemma trimEnd_keeps_front l :
  stripAny whiteSpace l = None → stripAny whiteSpace (trimEnd l) = None.
Proof.
  rewrite !stripAny_None. intros H w Hw Hp. apply (H w Hw).
  etrans; [exact Hp|apply trimEnd_prefix].
Qed.

(** A string is trimmed when no white space is left at either end. *)
Lemma trimmed_fixed l :
  stripAny whiteSpace l = None →
  stripAny (map reverse whiteSpace) (reverse l) = None →
  trimEnd (trimStart l) = l.
Proof.
  intros H1 H2. unfold trimStart. rewrite stripFront_stable by done.
  unfold trimEnd. rewrite stripFront_stable by done. apply reverse_involutive.
Qed.

Lemma trim_chars s : chars (trim s) = trimEnd (trimStart (chars s)).
Proof. unfold trim. apply String.list_ascii_of_string_of_list_ascii. Qed.

Lemma trim_idemp s : trim (trim s) = trim s.
Proof.
  apply chars_inj. rewrite !trim_chars. apply trimmed_fixed.
  - apply trimEnd_keeps_front, trimStart_done.
  - apply trimEnd_done.
Qed.

(** * The API key and the client *)

Section GeminiKeyProofs.

Variable envKey : option string.

Local Abbreviation getApiKey := (getApiKey envKey).
Local Abbreviation getAI := (getAI envKey).
Local Abbreviation isGeminiAvailable := (isGeminiAvailable envKey).
Local Abbreviation envFallback := (envFallback envKey).
Local Abbreviation keyOp := (keyOp envKey).
Local Abbreviation handle := (handle envKey).
Local Abbreviation initSettings := (initSettings envKey).

Lemma length_0_empty s : (0 <? String.length s) = negb (String.eqb s "").
Proof. by destruct s. Qed.

Lemma getApiKey_stored st k :
  storedKey st = Some k →
  getApiKey st = if String.eqb (trim k) "" then envFallback else Some (trim k).
Proof.
  intros E. unfold getApiKey. rewrite E, length_0_empty.
  destruct (String.eqb k "") eqn:Ek; simpl.
  - apply String.eqb_eq in Ek as ->. by vm_compute.
  - by destruct (String.eqb (trim k) "").
Qed.

Lemma envFallback_nonempty k : envFallback = Some k → k ≠ "".
Proof.
  unfold envFallback. destruct envKey as [e|]; [|done].
  destruct (String.eqb e "") eqn:Ee; simpl; [done|].
  case_match; [|done]. intros [= <-]. by apply String.eqb_neq.
Qed.

Lemma getApiKey_nonempty st k : getApiKey st = Some k → k ≠ "".
Proof.
  destruct (storedKey st) as [l|] eqn:E.
  - rewrite (getApiKey_stored _ _ E).
    destruct (String.eqb (trim l) "") eqn:El; [apply envFallback_nonempty|].
    intros [= <-]. by apply String.eqb_neq.
  - unfold getApiKey. rewrite E. apply envFallback_nonempty.
Qed.

(** X21. A key that is saved is what is read back, trimmed; saving a
    blank key, like deleting the key, leaves the key of the build (if
    it is set and is not the placeholder).  Either way the client is
    dropped, so the next [getAI()] builds a new one with the key that is
    then current. *)
Theorem saved_key_is_read_back key st :
  getApiKey (setApiKey key st) =
    (if String.eqb (trim key) "" then envFallback else Some (trim key)) ∧
  getApiKey (clearApiKey st) = envFallback ∧
  (∀ st', st' = setApiKey key st ∨ st' = clearApiKey st →
     (getAI st').1 =
       (λ k, mkClient k (made st)) <$> getApiKey st').
Proof.
  split_and!.
  - rewrite (getApiKey_stored _ (trim key)) by done. by rewrite trim_idemp.
  - done.
  - intros st' Hst. unfold getAI.
    destruct (getApiKey st') as [k|] eqn:Ek; [|done].
    apply getApiKey_nonempty in Ek. apply String.eqb_neq in Ek. rewrite Ek.
    by destruct Hst as [-> | ->].
Qed.


Lemma getApiKey_getAI st : getApiKey (getAI st).2 = getApiKey st.
Proof. unfold getAI. by repeat case_match. Qed.

Lemma client_ok_op op st : client_ok st → client_ok (keyOp op st).
Proof.
  intros H. destruct op; simpl; try done.
  unfold getAI. repeat case_match; try done.
  unfold client_ok. simpl. eauto.
Qed.

Lemma client_ok_ops ops stored :
  client_ok (foldl (λ st op, keyOp op st) (loaded stored) ops).
Proof.
  assert (client_ok (loaded stored)) as H by exact I. revert H.
  generalize (loaded stored) as st.
  induction ops as [|op ops IH]; intros st H; simpl; [done|].
  by apply IH, client_ok_op.
Qed.

Lemma getApiKey_ext st st' :
  storedKey st' = storedKey st → getApiKey st' = getApiKey st.
Proof. unfold getApiKey. by intros ->. Qed.

Lemma getAI_cached st k c :
  getApiKey st = Some k → cachedKey st = Some k → ai st = Some c →
  getAI st = (Some c, st).
Proof.
  intros Ek Ec Ea. unfold getAI. rewrite Ek.
  apply getApiKey_nonempty, String.eqb_neq in Ek. rewrite Ek.
  rewrite bool_decide_eq_false_2 by (by intros ?). by rewrite Ea.
Qed.

Lemma getAI_cases st :
  client_ok st →
  match getApiKey st with
  | None => getAI st = (None, st)
  | Some k =>
      ∃ c st', getAI st = (Some c, st') ∧ apiKey c = k ∧
               getAI st' = (Some c, st')
  end.
Proof.
  intros H. destruct (getApiKey st) as [k|] eqn:Ek.
  2:{ unfold getAI. by rewrite Ek. }
  destruct (decide (cachedKey st = Some k)) as [Hc|Hc].
  - unfold client_ok in H. rewrite Hc in H. destruct H as (c & Ha & Hk).
    exists c, st. by rewrite (getAI_cached _ _ _ Ek Hc Ha).
  - exists (mkClient k (made st)),
      (mkKeyState (storedKey st) (Some (mkClient k (made st))) (Some k) (made st + 1)).
    split_and!; [|done|].
    + unfold getAI. rewrite Ek.
      apply getApiKey_nonempty, String.eqb_neq in Ek. rewrite Ek.
      by rewrite bool_decide_eq_true_2.
    + apply (getAI_cached _ k); [|done..]. by rewrite <- Ek.
Qed.

(** X22. The client is never stale.  After any sequence of saving and
    deleting keys and of calls of [getAI()], [getAI()] returns [null]
    exactly when no key is available, and otherwise a client built with
    the key that [getApiKey()] returns now; calling it again returns
    that same client and builds nothing. *)
Theorem client_never_stale ops stored :
  let st := foldl (λ st op, keyOp op st) (loaded stored) ops in
  ((getAI st).1 = None ↔ isGeminiAvailable st = false) ∧
  (∀ c, (getAI st).1 = Some c → getApiKey st = Some (apiKey c)) ∧
  getAI (getAI st).2 = getAI st.
Proof.
  cbn zeta. pose proof (client_ok_ops ops stored) as H.
  set (st := foldl _ _ ops) in *. clearbody st.
  apply getAI_cases in H. unfold isGeminiAvailable.
  destruct (getApiKey st) as [k|] eqn:Ek.
  - destruct H as (c & st' & -> & Hk & H2). simpl.
    apply getApiKey_nonempty, String.eqb_neq in Ek. rewrite Ek. simpl.
    split_and!; try done. intros c' [= <-]. by rewrite Hk.
  - rewrite H. simpl. split_and!; try done.
Qed.

Lemma available_set key st :
  trim key ≠ "" → isGeminiAvailable (setApiKey key st) = true.
Proof.
  intros Hk. unfold isGeminiAvailable.
  rewrite (getApiKey_stored _ (trim key)) by done. rewrite trim_idemp.
  apply String.eqb_neq in Hk. by rewrite Hk, Hk.
Qed.

Lemma available_getAI st : isGeminiAvailable (getAI st).2 = isGeminiAvailable st.
Proof. unfold isGeminiAvailable. by rewrite getApiKey_getAI. Qed.

(** X23. AI mode is never on without a key.  After [init] and any
    sequence of toggling, saving and deleting keys and of vision or
    merge calls, [state.aiEnabled] implies that a key is available, so
    that the mode [startOcr] computes is [state.aiEnabled] itself; and
    saving a key that is not blank switches AI mode on with that key,
    trimmed. *)
Theorem ai_mode_needs_key evs stored :
  let st := foldl (λ st ev, handle ev st) (initSettings stored) evs in
  (s_aiEnabled st = true → isGeminiAvailable (s_keys st) = true) ∧
  s_aiEnabled st && isGeminiAvailable (s_keys st) = s_aiEnabled st ∧
  ∀ input, trim input ≠ "" →
    s_aiEnabled (handle (SaveKey input) st) = true ∧
    getApiKey (s_keys (handle (SaveKey input) st)) = Some (trim input).
Proof.
  cbn zeta.
  assert (s_aiEnabled (initSettings stored) = true →
          isGeminiAvailable (s_keys (initSettings stored)) = true) as H by done.
  revert H. generalize (initSettings stored) as st.
  induction evs as [|ev evs IH]; intros st H; simpl.
  - split_and!; [done| |].
    + destruct (s_aiEnabled st); [by rewrite H|done].
    + intros input Hi. apply String.eqb_neq in Hi as Hi'. rewrite Hi'. simpl.
      split; [done|]. rewrite (getApiKey_stored _ (trim (trim input))) by done.
      by rewrite !trim_idemp, Hi'.
  - apply IH. destruct ev; simpl.
    + destruct checked; simpl; [|done].
      destruct (isGeminiAvailable (s_keys st)) eqn:Ha; simpl; [by rewrite Ha|done].
    + destruct (String.eqb (trim input) "") eqn:Ei; [done|]. simpl. intros _.
      apply available_set. rewrite trim_idemp. by apply String.eqb_neq.
    + done.
    + by rewrite available_getAI.
Qed.

End GeminiKeyProofs.

(** * The engine: the recognition result *)

(** X24. The result of [recognizeImage] is cleaned up: its text has no
    white space left at either end; its lines are the lines of the
    scheduler's answer, in their order, each with its text trimmed and
    its confidence and box as they were, and without the lines that are
    blank; the confidence is as it was; the word and paragraph counts
    are the lengths of the arrays and the blocks are the array of
    blocks, an array that is missing counting as empty; and these are
    the values of the properties of the object returned. *)
Theorem recognized_is_clean rd :
  trim (d_text (recognized rd)) = d_text (recognized rd) ∧
  d_lines (recognized rd) = map lineObject (structuredLines (rd_lines rd)) ∧
  Forall (λ l, rl_text l ≠ "" ∧ trim (rl_text l) = rl_text l)
         (structuredLines (rd_lines rd)) ∧
  structuredLines (rd_lines rd) `sublist_of` map trimLine (default [] (rd_lines rd)) ∧
  (∀ l, l ∈ default [] (rd_lines rd) → trim (rl_text l) ≠ "" →
        trimLine l ∈ structuredLines (rd_lines rd)) ∧
  (rd_lines rd = None → d_lines (recognized rd) = []) ∧
  (rd_words rd = None → d_words (recognized rd) = 0) ∧
  (rd_paragraphs rd = None → d_paragraphs (recognized rd) = 0) ∧
  (rd_blocks rd = None → d_blocks (recognized rd) = []) ∧
  (∀ ws, rd_words rd = Some ws → d_words (recognized rd) = length ws) ∧
  (∀ ps, rd_paragraphs rd = Some ps → d_paragraphs (recognized rd) = length ps) ∧
  (∀ bs, rd_blocks rd = Some bs → d_blocks (recognized rd) = bs) ∧
  d_text (recognized rd) = trim (rd_text rd) ∧
  d_confidence (recognized rd) = rd_confidence rd ∧
  resultObject (recognized rd) !! "text" = Some (JsStr (trim (rd_text rd))) ∧
  resultObject (recognized rd) !! "confidence" = Some (JsNum (rd_confidence rd)) ∧
  resultObject (recognized rd) !! "lines" =
    Some (JsArr (map lineObject (structuredLines (rd_lines rd)))) ∧
  resultObject (recognized rd) !! "words" =
    Some (numOfNat (length (default [] (rd_words rd)))) ∧
  resultObject (recognized rd) !! "paragraphs" =
    Some (numOfNat (length (default [] (rd_paragraphs rd)))) ∧
  resultObject (recognized rd) !! "blocks" = Some (JsArr (default [] (rd_blocks rd))).
Proof.
  split_and!;
    try (intros E; unfold recognized, structuredLines; simpl; by rewrite E);
    try (intros x E; unfold recognized; simpl; by rewrite E);
    try done.
  - apply trim_idemp.
  - unfold structuredLines. apply Forall_forall.
    intros l [Hl Hin]%list_elem_of_filter.
    apply list_elem_of_fmap in Hin as (l0 & -> & _). simpl in *. split.
    + intros E. rewrite E in Hl. simpl in Hl. lia.
    + apply trim_idemp.
  - apply sublist_filter.
  - intros l Hin Hne. unfold structuredLines. apply list_elem_of_filter. split.
    + simpl. destruct (trim (rl_text l)); [done|simpl; lia].
    + apply list_elem_of_fmap. eauto.
Qed.

(** * Proofs: the application *)

Section Proofs.

Variable digest : list Byte.byte → list Byte.byte.
Variable rev : Revision.

Local Abbreviation step := (step digest rev).
Local Abbreviation run := (run digest rev).
Local Abbreviation reachable := (reachable digest rev).
Local Abbreviation keyOf := (keyOf digest).
Local Abbreviation origin_ok := (origin_ok digest).
Local Abbreviation hits_ok := (hits_ok digest).

(** ** What each action does *)

Lemma step_inv a s s' :
  step a s = Some s' →
  match a with
  | AddImages files => s' = addImages files s
  | RemoveImage i => s' = removeImage i s
  | ClearAllImages => s' = clearAllImages s
  | SetAiEnabled c => s' = set_aiEnabled c s
  | StartOcr lang g => s' = startOcr lang g s
  | InitializeSettled k failAt =>
      ∃ f, frames s !! k = Some f ∧ f_pc f = AtInitialize ∧
           s' = initializeSettled rev k f failAt s
  | HashSettled k =>
      ∃ f img it itp cached,
        frames s !! k = Some f ∧ f_pc f = AtHash img it itp cached ∧
        s' = hashSettled digest k f img it itp cached s
  | HashRejected k =>
      ∃ f img it itp cached,
        frames s !! k = Some f ∧ f_pc f = AtHash img it itp cached ∧
        s' = finish k s
  | ResizeSettled k resized =>
      ∃ f img h key it itp cached,
        frames s !! k = Some f ∧ f_pc f = AtResize img h key it itp cached ∧
        s' = resizeSettled k f img h key it itp cached resized s
  | JobSettled k i o =>
      ∃ f itp vp unsettled completed,
        frames s !! k = Some f ∧
        f_pc f = AtRecognizeBatch itp vp unsettled completed ∧
        i ∈ unsettled ∧
        s' = jobSettled k f itp vp unsettled completed i o s
  | BatchSettled k =>
      ∃ f itp vp completed,
        frames s !! k = Some f ∧ f_pc f = AtRecognizeBatch itp vp [] completed ∧
        s' = finish k s
  | VisionSettled tk o =>
      ∃ t, tasks s !! tk = Some t ∧ t_stage t = AwaitVision ∧
           s' = afterVision tk t (visionTextOf o) s
  | MergeSettled tk o =>
      ∃ t ocr v, tasks s !! tk = Some t ∧ t_stage t = AwaitMerge ocr v ∧
                 s' = afterMerge tk t ocr v o s
  end.
Proof.
  destruct a; cbn -[initializeSettled hashSettled resizeSettled jobSettled
                    afterVision afterMerge finish]; intros H.
  1-5: by simplify_eq.
  1-6: destruct (frames s !! k) as [f|]; [|done];
       cbn -[initializeSettled hashSettled resizeSettled jobSettled finish] in H;
       destruct (f_pc f) as [|img it itp cached|img h key it itp cached
                             |itp vp [|u unsettled] completed] eqn:P;
       try done; try case_bool_decide; simplify_eq; eauto 12.
  1-2: destruct (tasks s !! tk) as [t|]; [|done];
       cbn -[afterVision afterMerge] in H;
       destruct (t_stage t) eqn:P; simplify_eq; eauto 12.
Qed.

(** ** Footprints of the helpers *)

Lemma state_eta s :
  s = mkState (images s) (results s) (isProcessing s) (aiEnabled s)
        (imageIdCounter s) (resultCache s) (ocrEngine s) (heap s) (frames s)
        (tasks s) (batches s) (trace s).
Proof. by destruct s. Qed.

Lemma pushAll_eq b cached s :
  pushAll b cached s =
  mkState (images s) (results s ++ seq (length (heap s)) (length cached))
    (isProcessing s) (aiEnabled s) (imageIdCounter s) (resultCache s)
    (ocrEngine s) (heap s ++ cached) (frames s) (tasks s) (batches s)
    (trace s ++ map (λ l, EvAppend b l true) (seq (length (heap s)) (length cached))).
Proof.
  unfold pushAll. revert s. induction cached as [|c cached IH]; intros s; simpl.
  - rewrite !app_nil_r. apply state_eta.
  - rewrite IH. unfold pushResult, emit, set_results, set_heap; simpl.
    rewrite length_app; simpl. rewrite Nat.add_1_r, <- !app_assoc. done.
Qed.

Lemma settle_job {S} (hc : string → option JsObject → nat → nat → S → S)
    hp e o (itp : list ImgData) i c (s : S) :
  settle hc hp e (λ _, o) (map (λ d, mkJob (i_file d) (i_id d)) itp) i (c, s) =
  match itp !! i with
  | Some d =>
      (c + 1,
       hc (i_id d) (resultOrNull (recognizeImage e o)) i (length itp)
          (hp (fraction (c + 1) (length itp)) s))
  | None => (c, s)
  end.
Proof.
  unfold settle. rewrite list_lookup_fmap, length_map.
  by destruct (itp !! i).
Qed.

Lemma jobSettled_eq k f itp vp unsettled c i o s :
  jobSettled k f itp vp unsettled c i o s =
  match itp !! i with
  | Some d =>
      let r := recognizeImage (ocrEngine s) o in
      let s1 := onImageComplete (f_batch f) (f_lang f) (f_useAI f) itp vp
                  (i_id d) (resultOrNull r) i (length itp) s in
      set_frames
        (<[k := with_failed
                  (match r with inl _ => f_failed f | inr _ => f_failed f ++ [i_id d] end)
                  (with_pc (AtRecognizeBatch itp vp (filter (λ j, j ≠ i) unsettled) (c + 1)) f)]>
           (frames s1)) s1
  | None =>
      set_frames
        (<[k := with_failed (f_failed f)
                  (with_pc (AtRecognizeBatch itp vp (filter (λ j, j ≠ i) unsettled) c) f)]>
           (frames s)) s
  end.
Proof.
  unfold jobSettled. rewrite settle_job. by destruct (itp !! i).
Qed.

Lemma leftBehind_eq s f :
  f_batch (leftBehind s f) = f_batch f ∧ f_lang (leftBehind s f) = f_lang f ∧
  f_useAI (leftBehind s f) = f_useAI f ∧ f_images (leftBehind s f) = f_images f ∧
  f_failed (leftBehind s f) = f_failed f ∧
  f_dropped (leftBehind s f) = f_dropped f ++ resultIds s.
Proof. done. Qed.

Lemma leftBehind_pc s f :
  f_pc (leftBehind s f) =
  match f_pc f with
  | AtHash img it itp cached => AtHash img (detached (images s) it) itp cached
  | AtResize img h key it itp cached =>
      AtResize img h key (detached (images s) it) itp cached
  | pc => pc
  end.
Proof. done. Qed.

Lemma leftBehind_probing s f :
  probing (f_pc (leftBehind s f)) = probing (f_pc f).
Proof. rewrite leftBehind_pc. by destruct (f_pc f). Qed.

(** ** At most one batch is in flight *)

Lemma single_frame_lookup s k f :
  single_frame s → frames s !! k = Some f →
  frames s = [f] ∧ k = 0 ∧ isProcessing s = true.
Proof.
  intros [[E _]|(f' & E & P)] H; rewrite E in H; [done|].
  destruct k as [|k]; simpl in H; [by simplify_eq|]. by destruct k.
Qed.

Lemma addImages_frames files s :
  frames (addImages files s) = frames s ∧
  isProcessing (addImages files s) = isProcessing s.
Proof.
  unfold addImages. revert s. induction files as [|x l IH]; intros s; simpl; [done|].
  destruct (IH (addImage s x)) as [-> ->]. unfold addImage. by case_bool_decide.
Qed.

Lemma onImageComplete_frames b lang u itp vp i r idx n s :
  frames (onImageComplete b lang u itp vp i r idx n s) = frames s ∧
  isProcessing (onImageComplete b lang u itp vp i r idx n s) = isProcessing s.
Proof. unfold onImageComplete. by repeat case_match. Qed.

Lemma afterLoop_single k f f0 itp cached s :
  single_frame s → frames s !! k = Some f0 →
  single_frame (afterLoop k f itp cached s).
Proof.
  intros I F. destruct (single_frame_lookup _ _ _ I F) as (E & -> & P).
  unfold afterLoop, finish. rewrite pushAll_eq.
  case_bool_decide; [right|left]; simpl; rewrite E; simpl; eauto.
Qed.

Lemma continueLoop_single k f f0 it itp cached s :
  single_frame s → frames s !! k = Some f0 →
  single_frame (continueLoop k f it itp cached s).
Proof.
  intros I F. unfold continueLoop. case_match; [|by eapply afterLoop_single].
  destruct (single_frame_lookup _ _ _ I F) as (E & -> & P).
  right. simpl. rewrite E. simpl. eauto.
Qed.

Lemma finish_single k f0 s :
  single_frame s → frames s !! k = Some f0 → single_frame (finish k s).
Proof.
  intros I F. destruct (single_frame_lookup _ _ _ I F) as (E & -> & P).
  left. unfold finish. simpl. by rewrite E.
Qed.

Lemma update_single k f f0 s s' :
  single_frame s → frames s !! k = Some f0 →
  frames s' = frames s → isProcessing s' = isProcessing s →
  single_frame (set_frames (<[k := f]> (frames s')) s').
Proof.
  intros I F E1 E2. destruct (single_frame_lookup _ _ _ I F) as (E & -> & P).
  right. simpl. rewrite E1, E2, E. simpl. eauto.
Qed.

Lemma single_frame_step a s s' :
  single_frame s → step a s = Some s' → single_frame s'.
Proof.
  intros I H. apply step_inv in H. destruct a.
  - subst. destruct (addImages_frames files s) as [E1 E2].
    unfold single_frame. by rewrite E1, E2.
  - subst. unfold removeImage. by repeat case_match.
  - subst. destruct I as [[E P]|(f & E & P)]; [left|right]; simpl; rewrite E; eauto.
  - by subst.
  - subst. unfold startOcr. case_match eqn:G; [done|].
    apply orb_false_iff in G as [_ P].
    destruct I as [[E _]|(f & E & P')]; [|congruence].
    right. simpl. rewrite E. simpl. eauto.
  - destruct H as (f & F & P & ->). unfold initializeSettled.
    destruct (initialize _ _ _ _) as [[e q] [|]].
    + by eapply continueLoop_single.
    + by eapply finish_single.
  - destruct H as (f & img & it & itp & cached & F & P & ->).
    unfold hashSettled. case_match.
    + by eapply continueLoop_single.
    + by eapply (update_single _ _ _ s s).
  - destruct H as (f & img & it & itp & cached & F & P & ->). by eapply finish_single.
  - destruct H as (f & img & h & key & it & itp & cached & F & P & ->).
    by eapply continueLoop_single.
  - destruct H as (f & itp & vp & unsettled & completed & F & P & Hi & ->).
    rewrite jobSettled_eq. case_match.
    + cbn zeta. eapply update_single; eauto; apply onImageComplete_frames.
    + by eapply (update_single _ _ _ s s).
  - destruct H as (f & itp & vp & completed & F & P & ->). by eapply finish_single.
  - destruct H as (t & T & P & ->). unfold afterVision, settleStatus.
    by repeat case_match.
  - destruct H as (t & ocr & v & T & P & ->).
    unfold afterMerge, cacheMerged, settleStatus. by repeat case_match.
Qed.

(** ** Objects and the heap *)

Lemma get_insert k v (o : JsObject) : get (<[k:=v]> o) k = v.
Proof. unfold get. by rewrite lookup_insert_eq. Qed.

Lemma get_insert_ne k k' v (o : JsObject) :
  k ≠ k' → get (<[k:=v]> o) k' = get o k'.
Proof. intros. unfold get. by rewrite lookup_insert_ne. Qed.

Lemma field_eq s l o k : heap s !! l = Some o → field l k s = get o k.
Proof. unfold field. by intros ->. Qed.

Lemma alter_lookup {A} (f : A → A) l o (h : list A) :
  h !! l = Some o → alter f l h = <[l := f o]> h.
Proof.
  intros H. apply list_eq. intros i. destruct (decide (i = l)) as [->|].
  - rewrite list_lookup_alter_eq, H, list_lookup_insert_eq; [done|].
    by eapply lookup_lt_Some.
  - by rewrite list_lookup_alter_ne, list_lookup_insert_ne.
Qed.

Lemma alter_insert {A} (f : A → A) l o (h : list A) :
  l < length h → alter f l (<[l:=o]> h) = <[l := f o]> h.
Proof.
  intros H. rewrite (alter_lookup f l o), list_insert_insert_eq; [done|].
  by rewrite list_lookup_insert_eq.
Qed.

Lemma afterVision_eq tk t v s o :
  heap s !! t_entry t = Some o →
  afterVision tk t v s =
  let l := t_entry t in
  let o1 := <["visionText" := JsStr v]> o in
  if truthy (JsStr v) && truthy (get o "ocrText") then
    set_tasks (<[tk := with_stage (AwaitMerge (get o "ocrText") v) t]> (tasks s))
      (set_heap (<[l := o1]> (heap s)) s)
  else if truthy (JsStr v) && negb (truthy (get o "ocrText")) then
    emit (EvStatus (t_batch t) l "done")
      (set_tasks (delete tk (tasks s))
         (set_heap
            (<[l := <["aiStatus" := JsStr "done"]>
                      (<["mergedText" := JsStr v]> (<["text" := JsStr v]> o1))]>
               (heap s)) s))
  else
    emit (EvStatus (t_batch t) l "failed")
      (set_tasks (delete tk (tasks s))
         (set_heap (<[l := <["aiStatus" := JsStr "failed"]> o1]> (heap s)) s)).
Proof.
  intros H. pose proof (lookup_lt_Some _ _ _ H) as Hl.
  unfold afterVision, settleStatus, assign, field. cbn.
  rewrite (alter_lookup _ _ _ _ H), list_lookup_insert_eq by done.
  rewrite get_insert_ne by done.
  repeat case_match; try done; by rewrite !alter_insert.
Qed.

Lemma afterMerge_eq tk t ocr v mo s o :
  heap s !! t_entry t = Some o →
  afterMerge tk t ocr v mo s =
  let l := t_entry t in
  match mo with
  | MergeResponse trimmed =>
      let m := mergedTextOf trimmed ocr in
      let o3 := <["aiStatus" := JsStr "done"]>
                  (<["text" := m]> (<["mergedText" := m]> o)) in
      let s3 := emit (EvStatus (t_batch t) l "done")
                  (set_tasks (delete tk (tasks s))
                     (set_heap (<[l := o3]> (heap s)) s)) in
      match t_cacheKey t with
      | JsStr key =>
          if truthy (JsStr key) then
            emit (EvCacheSet (t_batch t) l key (JsStr "done"))
              (set_resultCache (<[key := mergedCacheEntry m v o3]> (resultCache s)) s3)
          else s3
      | _ => s3
      end
  | MergeRejected =>
      emit (EvStatus (t_batch t) l "failed")
        (set_tasks (delete tk (tasks s))
           (set_heap (<[l := <["aiStatus" := JsStr "failed"]> o]> (heap s)) s))
  end.
Proof.
  intros H. pose proof (lookup_lt_Some _ _ _ H) as Hl.
  unfold afterMerge, cacheMerged, settleStatus, assign.
  destruct mo; cbn; rewrite (alter_lookup _ _ _ _ H); [done|].
  rewrite !alter_insert by done.
  rewrite list_lookup_insert_eq by done. rewrite get_insert.
  by repeat case_match.
Qed.

Lemma get_spread (r base : JsObject) k :
  get (spread r base) k = match r !! k with Some v => v | None => get base k end.
Proof.
  unfold get, spread. rewrite lookup_union.
  destruct (r !! k), (base !! k); done.
Qed.

Lemma newResultEntry_aiStatus i m r u :
  get (newResultEntry i m r u) "aiStatus" = JsStr (if u then "pending" else "disabled").
Proof. unfold newResultEntry. cbn. by rewrite get_insert. Qed.

Lemma newResultEntry_text i m r u :
  get (newResultEntry i m r u) "text" = get r "text" ∧
  get (newResultEntry i m r u) "ocrText" = get r "text".
Proof.
  unfold newResultEntry. cbn. split.
  - rewrite !get_insert_ne by done. rewrite get_spread.
    unfold get at 2. destruct (r !! "text"); [done|].
    by rewrite !get_insert_ne by done.
  - rewrite !get_insert_ne by done. by rewrite get_insert.
Qed.

Lemma addImages_eq files s :
  ∃ ns,
    addImages files s =
      set_images (images s ++ map (λ nf, mkImage (imageId nf.1) nf.2) ns)
        (set_imageIdCounter (imageIdCounter s + length ns) s) ∧
    fst <$> ns = seq (imageIdCounter s + 1) (length ns).
Proof.
  unfold addImages. revert s. induction files as [|f files IH]; intros s.
  - exists []. simpl. rewrite app_nil_r, Nat.add_0_r. split; [|done].
    by destruct s.
  - simpl. destruct (IH (addImage s f)) as (ns & E & Hns). rewrite E.
    unfold addImage in *. case_bool_decide.
    + exists ((imageIdCounter s + 1, f) :: ns). simpl in *.
      rewrite <- app_assoc. simpl. split.
      * unfold set_images, set_imageIdCounter; simpl. f_equal. lia.
      * f_equal. etrans; [exact Hns|]. f_equal. lia.
    + by exists ns.
Qed.

Lemma task_ok_ext s s' t :
  heap s' !! t_entry t = heap s !! t_entry t → task_ok s t → task_ok s' t.
Proof. intros E (o & H & ?). exists o. by rewrite E. Qed.

Lemma task_ok_lt s t : task_ok s t → t_entry t < length (heap s).
Proof. intros (o & H & _). by eapply lookup_lt_Some. Qed.

Lemma heap_ok_grow s s' extra :
  heap s' = heap s ++ extra → tasks s' = tasks s →
  results s' = results s ++ seq (length (heap s)) (length extra) →
  heap_ok s → heap_ok s'.
Proof.
  intros Eh Et Er (R & N & T). split_and!.
  - rewrite Er, Eh, length_app. apply Forall_app. split.
    + eapply Forall_impl; [exact R|]. simpl; intros; lia.
    + apply Forall_forall. intros l Hl%elem_of_seq. lia.
  - by rewrite Et.
  - rewrite Et. eapply Forall_impl; [exact T|]. intros t Ht.
    eapply task_ok_ext; [|done]. rewrite Eh.
    apply lookup_app_l. by apply task_ok_lt.
Qed.

Lemma heap_ok_same s s' :
  heap s' = heap s → tasks s' = tasks s →
  (results s' = results s ∨ results s' = []) →
  heap_ok s → heap_ok s'.
Proof.
  intros Eh Et Er (R & N & T). split_and!.
  - destruct Er as [->| ->]; [by rewrite Eh|constructor].
  - by rewrite Et.
  - rewrite Et. eapply Forall_impl; [exact T|]. intros t Ht.
    eapply task_ok_ext; [|done]. by rewrite Eh.
Qed.

Lemma heap_ok_continueLoop k f it itp cached s :
  heap_ok s → heap_ok (continueLoop k f it itp cached s).
Proof.
  intros H. unfold continueLoop. case_match.
  - eapply heap_ok_same; [..|exact H]; simpl; auto.
  - unfold afterLoop, finish. rewrite pushAll_eq.
    case_bool_decide; (eapply heap_ok_grow; [..|exact H]); simpl; done.
Qed.

Lemma delete_middle {A} (l : list A) i x :
  l !! i = Some x → l = take i l ++ x :: drop (S i) l ∧ delete i l = take i l ++ drop (S i) l.
Proof.
  intros H. split; [by rewrite take_drop_middle|apply delete_take_drop].
Qed.

Lemma others_distinct (ts : list Task) tk t t' :
  NoDup (map t_entry ts) → ts !! tk = Some t → t' ∈ delete tk ts →
  t_entry t' ≠ t_entry t.
Proof.
  intros N H Hin. destruct (delete_middle _ _ _ H) as [E1 E2].
  rewrite E2 in Hin. rewrite E1 in N.
  rewrite map_app in N. simpl in N.
  apply NoDup_app in N as (N1 & N2 & N3).
  apply NoDup_cons in N3 as [N3 N4].
  apply elem_of_app in Hin as [Hin|Hin]; intros E.
  - eapply N2; [by apply (list_elem_of_fmap_2 t_entry)|]. rewrite E. left.
  - apply N3. rewrite <- E. by apply (list_elem_of_fmap_2 t_entry).
Qed.

Lemma elem_of_insert_delete {A} (l : list A) i x y :
  y ∈ <[i:=x]> l → y = x ∨ y ∈ delete i l.
Proof.
  intros H. destruct (decide (i < length l)) as [Hi|Hi].
  - rewrite insert_take_drop in H by done. rewrite delete_take_drop.
    rewrite elem_of_app, elem_of_cons in H. rewrite elem_of_app. tauto.
  - rewrite list_insert_ge in H by lia. right.
    rewrite delete_take_drop, take_ge, drop_ge, app_nil_r by lia. done.
Qed.

Lemma NoDup_delete_entries (ts : list Task) tk :
  NoDup (map t_entry ts) → NoDup (map t_entry (delete tk ts)).
Proof.
  intros N. eapply sublist_NoDup; [exact N|].
  apply (fmap_sublist t_entry). apply sublist_delete.
Qed.

Lemma entries_insert (ts : list Task) tk t st :
  ts !! tk = Some t → map t_entry (<[tk := with_stage st t]> ts) = map t_entry ts.
Proof.
  intros H. change (map t_entry ?l) with (t_entry <$> l).
  rewrite list_fmap_insert. apply list_insert_id.
  by rewrite list_lookup_fmap, H.
Qed.

Lemma heap_ok_onImageComplete b lang u itp vp i r idx n s :
  heap_ok s → heap_ok (onImageComplete b lang u itp vp i r idx n s).
Proof.
  intros H. unfold onImageComplete. destruct r as [r|]; [|done].
  set (e := newResultEntry _ _ _ _).
  case_match eqn:G.
  - destruct H as (R & N & T). apply andb_true_iff in G as [-> _].
    split_and!; simpl.
    + rewrite length_app. apply Forall_app. split.
      * eapply Forall_impl; [exact R|]. simpl; intros; lia.
      * repeat constructor. simpl. lia.
    + rewrite map_app. simpl. apply NoDup_app. split_and!; [done| |apply NoDup_singleton].
      intros l Hl ->%list_elem_of_singleton.
      apply list_elem_of_fmap in Hl as (t & E & Ht).
      rewrite Forall_forall in T. apply T, task_ok_lt in Ht. lia.
    + apply Forall_app. split.
      * eapply Forall_impl; [exact T|]. intros t Ht.
        eapply task_ok_ext; [|done]. simpl.
        apply lookup_app_l. by apply task_ok_lt.
      * repeat constructor. exists e. simpl. split_and!; [|..|done].
        -- by rewrite list_lookup_middle.
        -- unfold e. by rewrite newResultEntry_aiStatus.
        -- unfold e. by destruct (newResultEntry_text i
                 (find (λ d : ImgData, (i_id d =? i)%string) itp) r true) as [-> ->].
  - case_match; (eapply (heap_ok_grow _ _ [e]); [..|exact H]); simpl; done.
Qed.

Lemma heap_ok_vision tk t v s :
  heap_ok s → tasks s !! tk = Some t → t_stage t = AwaitVision →
  heap_ok (afterVision tk t v s).
Proof.
  intros (R & N & T) Ht St.
  pose proof (proj1 (Forall_lookup _ _) T _ _ Ht) as (o & Ho & Hs & Htxt & _).
  pose proof (lookup_lt_Some _ _ _ Ho) as Hl.
  rewrite (afterVision_eq _ _ _ _ _ Ho). cbn zeta.
  assert (∀ o' t', t' ∈ delete tk (tasks s) →
            task_ok (set_heap (<[t_entry t:=o']> (heap s)) s) t') as Hothers.
  { intros o' t' Hin. eapply task_ok_ext.
    - simpl. apply list_lookup_insert_ne. symmetry.
      by eapply others_distinct.
    - rewrite Forall_forall in T. apply T. by eapply list_elem_of_delete_inv. }
  case_match eqn:G; [|case_match eqn:G'].
  - apply andb_true_iff in G as [G1 G2]. split_and!; simpl.
    + by rewrite length_insert.
    + by rewrite entries_insert.
    + apply Forall_forall. intros t' [->|Hin]%elem_of_insert_delete.
      * eexists. simpl. rewrite list_lookup_insert_eq by done.
        split_and!; [done|..]; rewrite ?get_insert_ne by done; try done.
        by rewrite get_insert.
      * apply (Hothers _ _ Hin).
  - split_and!; simpl.
    + by rewrite length_insert.
    + by apply NoDup_delete_entries.
    + apply Forall_forall. intros t' Hin. apply (Hothers _ _ Hin).
  - split_and!; simpl.
    + by rewrite length_insert.
    + by apply NoDup_delete_entries.
    + apply Forall_forall. intros t' Hin. apply (Hothers _ _ Hin).
Qed.

Lemma heap_ok_merge tk t ocr v mo s :
  heap_ok s → tasks s !! tk = Some t →
  heap_ok (afterMerge tk t ocr v mo s).
Proof.
  intros (R & N & T) Ht.
  pose proof (proj1 (Forall_lookup _ _) T _ _ Ht) as (o & Ho & Hs & Htxt & _).
  pose proof (lookup_lt_Some _ _ _ Ho) as Hl.
  rewrite (afterMerge_eq _ _ _ _ _ _ _ Ho). cbn zeta.
  assert (∀ o' t', t' ∈ delete tk (tasks s) →
            task_ok (set_heap (<[t_entry t:=o']> (heap s)) s) t') as Hothers.
  { intros o' t' Hin. eapply task_ok_ext.
    - simpl. apply list_lookup_insert_ne. symmetry.
      by eapply others_distinct.
    - rewrite Forall_forall in T. apply T. by eapply list_elem_of_delete_inv. }
  destruct mo; repeat case_match; (split_and!; simpl;
    [by rewrite length_insert|by apply NoDup_delete_entries|
     apply Forall_forall; intros t' Hin; apply (Hothers _ _ Hin)]).
Qed.

Lemma heap_ok_step a s s' :
  heap_ok s → step a s = Some s' → heap_ok s'.
Proof.
  intros I H. apply step_inv in H. destruct a.
  - subst. destruct (addImages_eq files s) as (ns & -> & _).
    eapply heap_ok_same; [..|exact I]; simpl; auto.
  - subst. unfold removeImage.
    by repeat case_match.
  - subst. eapply heap_ok_same; [..|exact I]; simpl; auto.
  - subst. eapply heap_ok_same; [..|exact I]; simpl; auto.
  - subst. unfold startOcr. case_match; [done|].
    eapply heap_ok_same; [..|exact I]; simpl; auto.
  - destruct H as (f & F & P & ->). unfold initializeSettled.
    destruct (initialize _ _ _ _) as [[e q] [|]].
    + apply heap_ok_continueLoop. eapply heap_ok_same; [..|exact I]; simpl; auto.
    + eapply heap_ok_same; [..|exact I]; simpl; auto.
  - destruct H as (f & img & it & itp & cached & F & P & ->).
    unfold hashSettled. case_match.
    + by apply heap_ok_continueLoop.
    + eapply heap_ok_same; [..|exact I]; simpl; auto.
  - destruct H as (f & img & it & itp & cached & F & P & ->).
    eapply heap_ok_same; [..|exact I]; simpl; auto.
  - destruct H as (f & img & h & key & it & itp & cached & F & P & ->).
    by apply heap_ok_continueLoop.
  - destruct H as (f & itp & vp & unsettled & completed & F & P & Hi & ->).
    rewrite jobSettled_eq. case_match.
    + cbn zeta. eapply heap_ok_same; [..|eapply heap_ok_onImageComplete, I]; simpl; auto.
    + eapply heap_ok_same; [..|exact I]; simpl; auto.
  - destruct H as (f & itp & vp & completed & F & P & ->).
    eapply heap_ok_same; [..|exact I]; simpl; auto.
  - destruct H as (t & T & P & ->). by apply heap_ok_vision.
  - destruct H as (t & ocr & v & T & P & ->). by apply heap_ok_merge.
Qed.


(** ** Image ids *)

Lemma imageId_inj n m : imageId n = imageId m → n = m.
Proof.
  unfold imageId. intros H. simpl in H. simplify_eq.
  by eapply (inj pretty).
Qed.

Ltac open_loop :=
  unfold continueLoop, afterLoop, finish; rewrite ?pushAll_eq.

Lemma sublist_Forall {A} (P : A → Prop) (k l : list A) :
  Forall P l → k `sublist_of` l → Forall P k.
Proof.
  intros H S. induction S as [|x k l S IH|x k l S IH].
  - done.
  - apply Forall_cons in H as [? ?]. constructor; auto.
  - apply Forall_cons in H as [? ?]. auto.
Qed.

Lemma drop_S_sublist {A} (l : list A) i : drop (S i) l `sublist_of` drop i l.
Proof.
  revert i. induction l as [|x l IH]; intros i; [by destruct i|].
  destruct i as [|i]; simpl; [by apply sublist_cons|apply IH].
Qed.

Lemma drop_delete_sublist {A} (l : list A) i p :
  drop i (delete p l) `sublist_of` drop i l.
Proof.
  revert i p. induction l as [|x l IH]; intros i p; [by destruct i, p|].
  destruct p as [|p], i as [|i]; simpl.
  - by apply sublist_cons.
  - apply drop_S_sublist.
  - apply sublist_skip. apply (IH 0).
  - apply IH.
Qed.

Lemma toWalk_sublist s s' pc i :
  images s' = delete i (images s) → toWalk s' pc `sublist_of` toWalk s pc.
Proof.
  intros E. destruct pc as [|img [[|arr] idx] itp c|img h key [[|arr] idx] itp c|];
    simpl; rewrite ?E; try done; apply drop_delete_sublist.
Qed.

Lemma toWalk_ext s s' pc :
  images s' = images s → toWalk s' pc = toWalk s pc.
Proof.
  intros E. destruct pc as [|img [[|arr] idx] itp c|img h key [[|arr] idx] itp c|];
    simpl; by rewrite ?E.
Qed.

Lemma toWalk_pushed s s' pc extra :
  images s' = images s ++ extra →
  ∃ more, more `sublist_of` extra ∧ toWalk s' pc = toWalk s pc ++ more.
Proof.
  intros E.
  assert (∀ w idx, ∃ more, more `sublist_of` extra ∧
            drop idx (walked w s') = drop idx (walked w s) ++ more) as G.
  { intros [|arr] idx; simpl.
    - rewrite E, drop_app. eexists. split; [apply sublist_drop|done].
    - exists []. rewrite app_nil_r. split; [apply sublist_nil_l|done]. }
  destruct pc as [|img [w idx] itp c|img h key [w idx] itp c|]; simpl; try apply G;
    (exists []; split; [apply sublist_nil_l|done]).
Qed.

Lemma toWalk_leftBehind s s' f :
  toWalk s' (f_pc (leftBehind s f)) = toWalk s (f_pc f).
Proof.
  unfold leftBehind.
  destruct (f_pc f) as [|img [[|arr] idx] itp c|img h key [[|arr] idx] itp c|]; done.
Qed.

Lemma fromCounter_mono s s' img :
  imageIdCounter s ≤ imageIdCounter s' → fromCounter s img → fromCounter s' img.
Proof. intros H (n & ? & ?). exists n. split; [lia|done]. Qed.

Lemma frame_ids_sub s s' f f' :
  f_images f' ++ toWalk s' (f_pc f') `sublist_of` f_images f ++ toWalk s (f_pc f) →
  imageIdCounter s ≤ imageIdCounter s' →
  frame_ids s f → frame_ids s' f'.
Proof.
  intros S C [N F]. split.
  - eapply sublist_NoDup; [exact N|]. by apply (fmap_sublist id).
  - eapply Forall_impl; [|intros img; by apply fromCounter_mono].
    by eapply sublist_Forall.
Qed.

Lemma frame_ids_same s s' f f' :
  f_images f' = f_images f → toWalk s' (f_pc f') = toWalk s (f_pc f) →
  imageIdCounter s ≤ imageIdCounter s' →
  frame_ids s f → frame_ids s' f'.
Proof. intros E1 E2. apply frame_ids_sub. by rewrite E1, E2. Qed.

Lemma ids_ok_same s s' :
  images s' = images s → imageIdCounter s' = imageIdCounter s →
  Forall (frame_ids s') (frames s') →
  ids_ok s → ids_ok s'.
Proof.
  intros E1 E2 E3 (N & C & F). unfold ids_ok. rewrite E1. split_and!; [done| |done].
  eapply Forall_impl; [exact C|]. intros img. apply fromCounter_mono. lia.
Qed.

Lemma frame_ids_of s k f : ids_ok s → frames s !! k = Some f → frame_ids s f.
Proof.
  intros (_ & _ & D) F. rewrite Forall_forall in D.
  by apply list_elem_of_lookup_2, D in F.
Qed.

(** The images added get ids that were never seen. *)
Lemma fresh_ids s old (ns : list (nat * File)) extra c :
  NoDup (map id old) → Forall (fromCounter s) old →
  fst <$> ns = seq (imageIdCounter s + 1) (length ns) →
  extra `sublist_of` map (λ nf, mkImage (imageId nf.1) nf.2) ns →
  c = imageIdCounter s + length ns →
  NoDup (map id (old ++ extra)) ∧
  Forall (λ img, ∃ n, 1 ≤ n ≤ c ∧ id img = imageId n) (old ++ extra).
Proof.
  intros N C Hns S ->.
  assert (Forall (λ img, ∃ n, imageIdCounter s < n ≤ imageIdCounter s + length ns ∧
                              id img = imageId n) extra) as Cx.
  { eapply sublist_Forall; [|exact S].
    apply Forall_forall. intros img Hx.
    apply list_elem_of_fmap in Hx as ([m f] & -> & Hx). simpl.
    apply (list_elem_of_fmap_2 fst) in Hx. rewrite Hns in Hx. simpl in Hx.
    apply elem_of_seq in Hx. exists m. split; [lia|done]. }
  split.
  - rewrite map_app. apply NoDup_app. split_and!; [done|..].
    + intros x Hx Hx'. apply list_elem_of_fmap in Hx as (img & -> & Hx).
      rewrite Forall_forall in C. destruct (C _ Hx) as (n & Hn & En).
      apply list_elem_of_fmap in Hx' as (img' & En' & Hx').
      rewrite Forall_forall in Cx. destruct (Cx _ Hx') as (m & Hm & Em).
      rewrite En, Em in En'. apply imageId_inj in En'. lia.
    + eapply sublist_NoDup; [|apply (fmap_sublist id), S].
      rewrite map_map. simpl.
      assert (map (λ x : nat * File, imageId x.1) ns = imageId <$> (fst <$> ns)) as ->.
      { by rewrite <- list_fmap_compose. }
      rewrite Hns. apply NoDup_fmap_2; [intros ??; apply imageId_inj|apply NoDup_seq].
  - apply Forall_app. split.
    + eapply Forall_impl; [exact C|]. simpl. intros img (n & ? & ?). exists n.
      split; [lia|done].
    + eapply Forall_impl; [exact Cx|]. simpl. intros img (n & ? & ?). exists n.
      split; [lia|done].
Qed.

Lemma walked_ext w s s' : images s' = images s → walked w s' = walked w s.
Proof. intros E. destruct w; simpl; by rewrite ?E. Qed.

Lemma ids_ok_continueLoop k f f0 it itp cached s :
  single_frame s → frames s !! k = Some f0 →
  NoDup (map id (f_images f ++ drop (nextIndex it) (walked (iterated it) s))) →
  Forall (fromCounter s) (f_images f ++ drop (nextIndex it) (walked (iterated it) s)) →
  ids_ok s → ids_ok (continueLoop k f it itp cached s).
Proof.
  intros I F N C H. destruct (single_frame_lookup _ _ _ I F) as (E' & -> & P).
  open_loop. case_match eqn:L; [|case_bool_decide];
    (eapply (ids_ok_same s); [done|done| |exact H]); simpl; rewrite ?E'; simpl;
    [| |by constructor]; (constructor; [|constructor]); unfold frame_ids; simpl.
  - rewrite (walked_ext _ s) by done.
    rewrite <- app_assoc. simpl. rewrite Nat.add_1_r, <- (drop_S _ _ _ L). done.
  - rewrite app_nil_r. split.
    + eapply sublist_NoDup; [exact N|]. apply (fmap_sublist id).
      by apply sublist_inserts_r.
    + eapply sublist_Forall; [exact C|]. by apply sublist_inserts_r.
Qed.

Lemma ids_ok_update k f f0 s s' :
  single_frame s → frames s !! k = Some f0 →
  f_images f = f_images f0 → toWalk s' (f_pc f) = toWalk s (f_pc f0) →
  images s' = images s → imageIdCounter s' = imageIdCounter s → frames s' = frames s →
  ids_ok s → ids_ok (set_frames (<[k:=f]> (frames s')) s').
Proof.
  intros I F E Ew E1 E2 E3 H. destruct (single_frame_lookup _ _ _ I F) as (E' & -> & P).
  pose proof (frame_ids_of _ _ _ H F) as Hf.
  eapply (ids_ok_same s); [done|done| |done]. simpl. rewrite E3, E'. simpl.
  constructor; [|constructor].
  eapply (frame_ids_same s _ f0 f); [done| |by simpl; rewrite E2|done].
  rewrite <- Ew. apply toWalk_ext. simpl. done.
Qed.

Lemma ids_ok_finish k f0 s :
  single_frame s → frames s !! k = Some f0 → ids_ok s → ids_ok (finish k s).
Proof.
  intros I F H. destruct (single_frame_lookup _ _ _ I F) as (E' & -> & P).
  eapply ids_ok_same; [..|exact H]; simpl; rewrite ?E'; simpl; by repeat constructor.
Qed.

Lemma onImageComplete_images b lang u itp vp i r idx n s :
  let s' := onImageComplete b lang u itp vp i r idx n s in
  images s' = images s ∧ imageIdCounter s' = imageIdCounter s ∧
  frames s' = frames s ∧ batches s' = batches s ∧ isProcessing s' = isProcessing s.
Proof. unfold onImageComplete. by repeat case_match. Qed.

Lemma ids_ok_step a s s' :
  single_frame s → Forall (accounted s) (frames s) → ids_ok s →
  step a s = Some s' → ids_ok s'.
Proof.
  intros I A J H. apply step_inv in H. destruct a.
  - subst. destruct (addImages_eq files s) as (ns & -> & Hns).
    destruct J as (N & C & F).
    destruct (fresh_ids s (images s) ns _ _ N C Hns (reflexivity _) eq_refl)
      as [N' C'].
    split_and!; simpl; [done|done|].
    eapply Forall_impl; [exact F|]. intros f [Nf Cf].
    destruct (toWalk_pushed s
                (set_images (images s ++ map (λ nf, mkImage (imageId nf.1) nf.2) ns)
                   (set_imageIdCounter (imageIdCounter s + length ns) s))
                (f_pc f) _ eq_refl) as (more & Hm & Ew).
    unfold frame_ids. rewrite Ew, app_assoc.
    by apply (fresh_ids s _ ns).
  - subst. unfold removeImage. case_match; [|done]. destruct p as [idx img].
    destruct J as (N & C & F). split_and!; simpl.
    + eapply sublist_NoDup; [exact N|]. apply (fmap_sublist id), sublist_delete.
    + apply Forall_forall. intros x Hx%list_elem_of_delete_inv.
      rewrite Forall_forall in C. by apply C.
    + eapply Forall_impl; [exact F|]. intros f.
      apply frame_ids_sub; [|done].
      apply sublist_app; [done|]. by apply (toWalk_sublist _ _ _ idx).
  - subst. destruct J as (N & C & F). split_and!; simpl; [constructor..|].
    apply Forall_fmap. eapply Forall_impl; [exact F|]. intros f Hf. simpl.
    eapply (frame_ids_sub s _ f); [|done|exact Hf].
    by rewrite (toWalk_leftBehind s).
  - subst. done.
  - subst. unfold startOcr. case_match eqn:G; [done|].
    eapply ids_ok_same; [..|exact J]; simpl; [done..|].
    destruct J as (_ & _ & J). apply Forall_app. split; [done|].
    repeat constructor.
  - destruct H as (f & F & P & ->). unfold initializeSettled.
    pose proof J as (N & C & _).
    assert (f_images f = []) as Ef.
    { rewrite Forall_forall in A. apply list_elem_of_lookup_2, A in F.
      unfold accounted in F. rewrite P in F. tauto. }
    destruct (initialize _ _ _ _) as [[e q] [|]].
    + eapply (ids_ok_continueLoop _ _ f); [exact I|exact F| | |exact J].
      all: simpl; by rewrite drop_0, Ef.
    + eapply (ids_ok_finish _ f); [exact I|exact F|exact J].
  - destruct H as (f & img & it & itp & cached & F & P & ->).
    pose proof (frame_ids_of _ _ _ J F) as [Nf Cf]. rewrite P in Nf, Cf. simpl in *.
    unfold hashSettled. case_match.
    + by eapply ids_ok_continueLoop.
    + eapply (ids_ok_update _ _ _ s s); eauto. simpl. by rewrite P.
  - destruct H as (f & img & it & itp & cached & F & P & ->). by eapply ids_ok_finish.
  - destruct H as (f & img & h & key & it & itp & cached & F & P & ->).
    pose proof (frame_ids_of _ _ _ J F) as [Nf Cf]. rewrite P in Nf, Cf. simpl in *.
    by eapply ids_ok_continueLoop.
  - destruct H as (f & itp & vp & unsettled & completed & F & P & Hi & ->).
    rewrite jobSettled_eq. case_match.
    + cbn zeta. eapply ids_ok_update; eauto; try apply onImageComplete_images.
      simpl. by rewrite P.
    + eapply (ids_ok_update _ _ _ s s); eauto. simpl. by rewrite P.
  - destruct H as (f & itp & vp & completed & F & P & ->). by eapply ids_ok_finish.
  - destruct H as (t & T & P & ->). unfold afterVision, settleStatus.
    by repeat case_match.
  - destruct H as (t & ocr & v & T & P & ->).
    unfold afterMerge, cacheMerged, settleStatus. by repeat case_match.
Qed.

(** ** Settled entries are left alone *)

Lemma extends_refl s : extends s s.
Proof. split_and!; [done..|]. auto. Qed.

Lemma extends_same s s' :
  batches s ≤ batches s' → heap s' = heap s → tasks s' = tasks s → extends s s'.
Proof. intros B H T. split_and!; [done|by rewrite H|]. intros. by rewrite H, T. Qed.

Lemma extends_grow s s' extra :
  batches s' = batches s → heap s' = heap s ++ extra → tasks s' = tasks s →
  extends s s'.
Proof.
  intros B H T. split_and!; [by rewrite B|rewrite H, length_app; lia|].
  intros. rewrite H, T. split; [done|]. by apply lookup_app_l.
Qed.

Lemma extends_continueLoop k f it itp cached s :
  extends s (continueLoop k f it itp cached s).
Proof.
  open_loop. case_match; [|case_bool_decide];
    first [by eapply (extends_grow _ _ cached) | by eapply extends_same].
Qed.

Lemma extends_onImageComplete b lang u itp vp i r idx n s :
  heap_ok s → extends s (onImageComplete b lang u itp vp i r idx n s).
Proof.
  intros (R & N & T). unfold onImageComplete. destruct r as [r|]; [|apply extends_refl].
  set (e := newResultEntry _ _ _ _).
  case_match; [|case_match; by eapply (extends_grow _ _ [e])].
  split_and!; simpl; [done|rewrite length_app; lia|].
  intros l Hl Hn. split; [|by apply lookup_app_l].
  rewrite map_app, not_elem_of_app. split; [done|]. simpl.
  rewrite list_elem_of_singleton. lia.
Qed.

Lemma extends_task s s' tk t o' :
  tasks s !! tk = Some t →
  batches s' = batches s →
  heap s' = <[t_entry t := o']> (heap s) →
  (tasks s' = delete tk (tasks s) ∨ ∃ st, tasks s' = <[tk := with_stage st t]> (tasks s)) →
  extends s s'.
Proof.
  intros Ht B H T. split_and!; [by rewrite B|by rewrite H, length_insert|].
  intros l Hl Hn. split.
  - intros Hin. apply Hn. destruct T as [T | [st T]]; rewrite T in Hin.
    + apply list_elem_of_fmap in Hin as (t' & -> & Hin).
      apply list_elem_of_fmap_2. by eapply list_elem_of_delete_inv.
    + by rewrite entries_insert in Hin.
  - rewrite H. apply list_lookup_insert_ne. intros <-. apply Hn.
    apply (list_elem_of_fmap_2' _ _ t); [|done]. by eapply list_elem_of_lookup_2.
Qed.

Lemma step_extends a s s' :
  heap_ok s → step a s = Some s' → extends s s'.
Proof.
  intros I H. apply step_inv in H. destruct a.
  - subst. destruct (addImages_eq files s) as (ns & -> & _).
    by apply extends_same.
  - subst. unfold removeImage. repeat case_match;
      first [apply extends_refl | by apply extends_same].
  - subst. by apply extends_same.
  - subst. by apply extends_same.
  - subst. unfold startOcr. case_match; [apply extends_refl|].
    apply extends_same; simpl; [lia|done..].
  - destruct H as (f & F & P & ->). unfold initializeSettled.
    destruct (initialize _ _ _ _) as [[e q] [|]].
    + apply (extends_continueLoop _ _ _ _ _ (set_ocrEngine e s)).
    + by apply extends_same.
  - destruct H as (f & img & it & itp & cached & F & P & ->).
    unfold hashSettled. case_match.
    + apply extends_continueLoop.
    + by apply extends_same.
  - destruct H as (f & img & it & itp & cached & F & P & ->). by apply extends_same.
  - destruct H as (f & img & h & key & it & itp & cached & F & P & ->).
    apply extends_continueLoop.
  - destruct H as (f & itp & vp & unsettled & completed & F & P & Hi & ->).
    rewrite jobSettled_eq. case_match; [|by apply extends_same].
    cbn zeta. 
    apply (extends_onImageComplete (f_batch f) (f_lang f) (f_useAI f) itp vp
             (i_id i0) (resultOrNull (recognizeImage (ocrEngine s) o)) i (length itp)) in I.
    destruct I as (B & L & S). split_and!; done.
  - destruct H as (f & itp & vp & completed & F & P & ->). by apply extends_same.
  - destruct H as (t & T & P & ->).
    destruct I as (R & N & Ts).
    pose proof (proj1 (Forall_lookup _ _) Ts _ _ T) as (o' & Ho & _).
    rewrite (afterVision_eq _ _ _ _ _ Ho). cbn zeta.
    repeat case_match; (eapply extends_task; [exact T|..]); simpl; eauto.
  - destruct H as (t & ocr & v & T & P & ->).
    destruct I as (R & N & Ts).
    pose proof (proj1 (Forall_lookup _ _) Ts _ _ T) as (o' & Ho & _).
    rewrite (afterMerge_eq _ _ _ _ _ _ _ Ho). cbn zeta.
    repeat case_match; (eapply extends_task; [exact T|..]); simpl; eauto.
Qed.

(** ** The event log *)

Lemma field_ext s s' l k : heap s' !! l = heap s !! l → field l k s' = field l k s.
Proof. unfold field. by intros ->. Qed.

Lemma event_ok_extends s s' ev : extends s s' → event_ok s ev → event_ok s' ev.
Proof.
  intros (B & L & S) H. destruct ev; simpl in *.
  - lia.
  - lia.
  - lia.
  - destruct H as (? & Hl & Hn & Hf & ?). destruct (S _ Hl Hn) as [? E].
    split_and!; try done; try lia. by rewrite (field_ext _ _ _ _ E).
  - destruct H as (? & Hl & Hn & Hf & ?). destruct (S _ Hl Hn) as [? E].
    split_and!; try done; try lia. by rewrite (field_ext _ _ _ _ E).
Qed.

Lemma writeLocs_elem t l :
  l ∈ writeLocs t → ∃ b key st, EvCacheSet b l key st ∈ t.
Proof.
  unfold writeLocs. intros (ev & Hin & E)%list_elem_of_omap.
  destruct ev; simplify_eq. eauto.
Qed.

Lemma writeLocs_settled s l :
  Forall (event_ok s) (trace s) → l ∈ writeLocs (trace s) →
  l < length (heap s) ∧ l ∉ map t_entry (tasks s).
Proof.
  intros H (b & key & st & Hin)%writeLocs_elem.
  rewrite Forall_forall in H. apply H in Hin. simpl in Hin. tauto.
Qed.

Lemma writeLocs_no_write evs : Forall no_write evs → writeLocs evs = [].
Proof.
  induction 1 as [|ev evs H _ IH]; [done|]. unfold writeLocs in *. simpl.
  by destruct ev.
Qed.

Lemma write_follows_app t evs :
  write_follows t → Forall no_write evs → write_follows (t ++ evs).
Proof.
  intros W N i b l key st H. apply lookup_app_Some in H as [H|[Hi H]].
  - destruct (W _ _ _ _ _ H) as (j & -> & Hj). exists j. split; [done|].
    destruct Hj as [[? Hj]|[? Hj]]; [left|right]; split; try done;
      by apply lookup_app_l_Some.
  - rewrite Forall_forall in N. apply list_elem_of_lookup_2, N in H. done.
Qed.

Lemma write_follows_pair t ev b l key st :
  write_follows t →
  (st = JsStr "done" ∧ ev = EvStatus b l "done") ∨
  (st = JsStr "disabled" ∧ ev = EvAppend b l false) →
  write_follows (t ++ [ev; EvCacheSet b l key st]).
Proof.
  intros W Hev i b' l' key' st' H. apply lookup_app_Some in H as [H|[Hi H]].
  - destruct (W _ _ _ _ _ H) as (j & -> & Hj). exists j. split; [done|].
    destruct Hj as [[? Hj]|[? Hj]]; [left|right]; split; try done;
      by apply lookup_app_l_Some.
  - destruct (i - length t) as [|[|n]] eqn:E; simpl in H.
    + simplify_eq. destruct Hev as [[_ ?]|[_ ?]]; done.
    + simplify_eq. exists (length t). split; [lia|].
      rewrite list_lookup_middle by done.
      destruct Hev as [[-> ->]|[-> ->]]; auto.
    + done.
Qed.

Lemma trace_ok_ext s s' evs :
  extends s s' → trace s' = trace s ++ evs → trace_ok s →
  Forall (event_ok s') evs →
  NoDup (writeLocs (trace s) ++ writeLocs evs) →
  write_follows (trace s ++ evs) →
  trace_ok s'.
Proof.
  intros X E (F & N & W) F' N' W'. unfold trace_ok. rewrite E.
  split_and!; [|by unfold writeLocs in *; rewrite omap_app|done].
  apply Forall_app. split; [|done].
  eapply Forall_impl; [exact F|]. intros ev. by apply event_ok_extends.
Qed.

Lemma trace_ok_quiet s s' evs :
  extends s s' → trace s' = trace s ++ evs → trace_ok s →
  Forall (event_ok s') evs → Forall no_write evs →
  trace_ok s'.
Proof.
  intros X E T F' N. eapply trace_ok_ext; eauto.
  - rewrite (writeLocs_no_write evs), app_nil_r by done. apply T.
  - apply write_follows_app; [apply T|done].
Qed.

Lemma trace_ok_same s s' :
  extends s s' → trace s' = trace s → trace_ok s → trace_ok s'.
Proof.
  intros X E T. apply (trace_ok_quiet s s' []); auto. by rewrite app_nil_r.
Qed.

(** What a turn of the loop head leaves: the loop is over and the hits
    are shown, or the next image is taken up. *)
Lemma continueLoop_trace k f it itp cached s :
  let s' := continueLoop k f it itp cached s in
  batches s' = batches s ∧ tasks s' = tasks s ∧ resultCache s' = resultCache s ∧
  ((walked (iterated it) s !! nextIndex it = None ∧
    heap s' = heap s ++ cached ∧
    trace s' = trace s ++ map (λ l, EvAppend (f_batch f) l true)
                            (seq (length (heap s)) (length cached))) ∨
   (∃ img, walked (iterated it) s !! nextIndex it = Some img ∧
           heap s' = heap s ∧ trace s' = trace s ++ [EvTake (f_batch f) img])).
Proof.
  open_loop. case_match; [|case_bool_decide]; simpl;
    (split_and!; [done..|]); [right|left|left]; eauto.
Qed.

Lemma trace_ok_continueLoop k f it itp cached s :
  f_batch f < batches s → trace_ok s →
  trace_ok (continueLoop k f it itp cached s).
Proof.
  intros B T. pose proof (extends_continueLoop k f it itp cached s) as X.
  destruct (continueLoop_trace k f it itp cached s) as (Bs & _ & _ & HH).
  cbn zeta in *. remember (continueLoop k f it itp cached s) as s' eqn:Es'. clear Es'.
  destruct HH as [(_ & H & E)|(img & _ & H & E)].
  - eapply trace_ok_quiet; [done..| |].
    + apply Forall_forall. intros ev (l & -> & Hl)%list_elem_of_fmap.
      apply elem_of_seq in Hl. simpl. rewrite Bs, H, length_app. lia.
    + apply Forall_forall. by intros ev (l & -> & Hl)%list_elem_of_fmap.
  - eapply trace_ok_quiet; [done..| |by repeat constructor].
    repeat constructor. simpl. by rewrite Bs.
Qed.

Lemma launchVision_lookup itp i d :
  itp !! i = Some d → is_Some (launchVision true itp !! i_id d).
Proof.
  unfold launchVision. intros H%list_elem_of_lookup_2.
  assert (∀ m : gmap string File,
    (d ∈ itp ∨ is_Some (m !! i_id d)) →
    is_Some (foldl (λ m d, <[i_id d := originalFile d]> m) m itp !! i_id d)) as G.
  { clear H. induction itp as [|d' itp IH]; intros m [Hin|Hm]; simpl.
    - by apply elem_of_nil in Hin.
    - done.
    - apply IH. apply elem_of_cons in Hin as [->|Hin]; [right|by left].
      by rewrite lookup_insert_eq.
    - apply IH. right. rewrite lookup_insert. by case_decide. }
  apply G. by left.
Qed.

Lemma frame_batch_lt s k f :
  batches_ok s → frames s !! k = Some f → f_batch f < batches s.
Proof.
  intros [B _] F. rewrite Forall_forall in B.
  by apply list_elem_of_lookup_2, B in F as [? _].
Qed.

Lemma frame_vision s k f itp vp u c :
  Forall vision_ok (frames s) → frames s !! k = Some f →
  f_pc f = AtRecognizeBatch itp vp u c → vp = launchVision (f_useAI f) itp.
Proof.
  intros V F P. rewrite Forall_forall in V. apply list_elem_of_lookup_2, V in F.
  unfold vision_ok in F. by rewrite P in F.
Qed.

Lemma entry_not_in_deleted (ts : list Task) tk t :
  NoDup (map t_entry ts) → ts !! tk = Some t →
  t_entry t ∉ map t_entry (delete tk ts).
Proof.
  intros N H (t' & E & Hin)%list_elem_of_fmap.
  by eapply others_distinct.
Qed.

Lemma task_batch_lt s tk t :
  batches_ok s → tasks s !! tk = Some t → t_batch t < batches s.
Proof.
  intros [_ B] F. rewrite Forall_forall in B.
  by apply list_elem_of_lookup_2, B in F.
Qed.

Lemma status_event_ok s s' tk t o' st :
  heap_ok s → batches_ok s → tasks s !! tk = Some t →
  batches s' = batches s →
  heap s' = <[t_entry t := o']> (heap s) →
  tasks s' = delete tk (tasks s) →
  get o' "aiStatus" = JsStr st → st = "done" ∨ st = "failed" →
  event_ok s' (EvStatus (t_batch t) (t_entry t) st).
Proof.
  intros (R & N & Ts) B T Eb Eh Et Hst Hor.
  pose proof (proj1 (Forall_lookup _ _) Ts _ _ T) as (o & Ho & _).
  pose proof (lookup_lt_Some _ _ _ Ho) as Hl.
  simpl. rewrite Eb, Eh, Et, length_insert. split_and!; [|done| | |done].
  - by eapply task_batch_lt.
  - by apply entry_not_in_deleted.
  - unfold field. rewrite Eh. by rewrite list_lookup_insert_eq.
Qed.

Lemma trace_ok_step a s s' :
  single_frame s → heap_ok s → batches_ok s → Forall vision_ok (frames s) →
  trace_ok s → step a s = Some s' → trace_ok s'.
Proof.
  intros I J B V T H. pose proof (step_extends _ _ _ J H) as X.
  apply step_inv in H. destruct a.
  - subst. eapply trace_ok_same; [done| |done].
    by destruct (addImages_eq files s) as (ns & -> & _).
  - subst. eapply trace_ok_same; [done| |done].
    unfold removeImage. by repeat case_match.
  - subst. by eapply trace_ok_same.
  - subst. by eapply trace_ok_same.
  - subst. unfold startOcr in *. case_match eqn:G; [done|].
    eapply (trace_ok_quiet _ _ [_]); [done|simpl; reflexivity|done| |by repeat constructor].
    apply Forall_cons; split; [|constructor]. simpl. lia.
  - destruct H as (f & F & P & ->). unfold initializeSettled in *.
    destruct (initialize _ _ _ _) as [[e q] [|]].
    + apply (trace_ok_continueLoop _ _ _ _ _ (set_ocrEngine e s)); [|done].
      by eapply frame_batch_lt.
    + by eapply trace_ok_same.
  - destruct H as (f & img & it & itp & cached & F & P & ->).
    unfold hashSettled in *. case_match.
    + apply trace_ok_continueLoop; [|done].
      by eapply frame_batch_lt.
    + by eapply trace_ok_same.
  - destruct H as (f & img & it & itp & cached & F & P & ->). by eapply trace_ok_same.
  - destruct H as (f & img & h & key & it & itp & cached & F & P & ->).
    apply trace_ok_continueLoop; [|done]. by eapply frame_batch_lt.
  - destruct H as (f & itp & vp & unsettled & completed & F & P & Hi & ->).
    assert (f_batch f < batches s) as Hb by by eapply frame_batch_lt.
    assert (vp = launchVision (f_useAI f) itp) as Hvp by by eapply frame_vision.
    rewrite jobSettled_eq in *. destruct (itp !! i) as [d|] eqn:D; [|by eapply trace_ok_same].
    cbn zeta in *. unfold onImageComplete in *.
    destruct (resultOrNull _) as [r|]; [|by eapply trace_ok_same].
    set (e := newResultEntry _ _ _ _) in *.
    assert (∀ l, l ∈ map t_entry (tasks s) → l < length (heap s)) as Hlt.
    { intros l (t & -> & Ht)%list_elem_of_fmap. destruct J as (_ & _ & J).
      rewrite Forall_forall in J. by apply task_ok_lt, J. }
    destruct (f_useAI f && _) eqn:G.
    + eapply (trace_ok_quiet _ _ [EvAppend (f_batch f) (length (heap s)) false]);
        [done|done|done| |by repeat constructor].
      repeat constructor; simpl; [done|]. rewrite length_app. simpl. lia.
    + assert (f_useAI f = false) as Hu.
      { destruct (f_useAI f) eqn:U; [|done]. simpl in G.
        apply bool_decide_eq_false in G. destruct G. subst vp.
        by eapply launchVision_lookup. }
      destruct (find _ _) as [m|] eqn:Fm.
      * eapply (trace_ok_ext _ _ [EvAppend (f_batch f) (length (heap s)) false;
                                   EvCacheSet (f_batch f) (length (heap s)) (cacheKey m)
                                     (get e "aiStatus")]); [done| |done|..].
        -- simpl. by rewrite <- app_assoc.
        -- assert (get e "aiStatus" = JsStr "disabled") as Est.
           { unfold e. by rewrite newResultEntry_aiStatus, Hu. }
           apply Forall_cons; split; [|apply Forall_cons; split; [|constructor]];
             simpl; rewrite ?length_app; simpl; split_and!; try lia; try done.
           ++ intros Hin%Hlt. lia.
           ++ unfold field. simpl. by rewrite list_lookup_middle.
           ++ by right.
        -- unfold writeLocs at 2. simpl. apply NoDup_app. split_and!; [apply T| |apply NoDup_singleton].
           intros l Hl ->%list_elem_of_singleton.
           apply writeLocs_settled in Hl as [Hl _]; [lia|apply T].
        -- apply write_follows_pair; [apply T|]. right. split; [|done].
           unfold e. by rewrite newResultEntry_aiStatus, Hu.
      * eapply (trace_ok_quiet _ _ [EvAppend (f_batch f) (length (heap s)) false]);
          [done|done|done| |by repeat constructor].
        repeat constructor; simpl; [done|]. rewrite length_app. simpl. lia.
  - destruct H as (f & itp & vp & completed & F & P & ->). by eapply trace_ok_same.
  - destruct H as (t & Ht & P & ->).
    pose proof J as (R & N & Ts).
    pose proof (proj1 (Forall_lookup _ _) Ts _ _ Ht) as (o' & Ho & _).
    rewrite (afterVision_eq _ _ _ _ _ Ho) in *. cbn zeta in *.
    repeat case_match; [by eapply trace_ok_same|..].
    + eapply (trace_ok_quiet _ _ [EvStatus (t_batch t) (t_entry t) "done"]);
        [done|done|done| |by repeat constructor].
      apply Forall_cons; split; [|constructor]. eapply status_event_ok; eauto. by rewrite get_insert.
    + eapply (trace_ok_quiet _ _ [EvStatus (t_batch t) (t_entry t) "failed"]);
        [done|done|done| |by repeat constructor].
      apply Forall_cons; split; [|constructor]. eapply status_event_ok; eauto. by rewrite get_insert.
  - destruct H as (t & ocr & v & Ht & P & ->).
    pose proof J as (R & N & Ts).
    pose proof (proj1 (Forall_lookup _ _) Ts _ _ Ht) as (o' & Ho & _).
    pose proof (lookup_lt_Some _ _ _ Ho) as Hl.
    rewrite (afterMerge_eq _ _ _ _ _ _ _ Ho) in *. cbn zeta in *.
    assert (∀ s1 st o1, batches s1 = batches s → 
              heap s1 = <[t_entry t := o1]> (heap s) →
              tasks s1 = delete tk (tasks s) →
              get o1 "aiStatus" = JsStr st → st = "done" ∨ st = "failed" →
              s1 = s1 →
              event_ok s1 (EvStatus (t_batch t) (t_entry t) st)) as Hev.
    { intros. eapply status_event_ok; eauto. }
    destruct o as [|trimmed].
    { eapply (trace_ok_quiet _ _ [EvStatus (t_batch t) (t_entry t) "failed"]);
        [done|done|done| |by repeat constructor].
      apply Forall_cons; split; [|constructor]. eapply Hev; eauto. by rewrite get_insert. }
    destruct (t_cacheKey t) as [| | | |key| |];
      try (eapply (trace_ok_quiet _ _ [EvStatus (t_batch t) (t_entry t) "done"]);
           [done|done|done| |by repeat constructor];
           apply Forall_cons; split; [|constructor]; eapply Hev; eauto; by rewrite get_insert).
    case_match;
      [|eapply (trace_ok_quiet _ _ [EvStatus (t_batch t) (t_entry t) "done"]);
           [done|done|done| |by repeat constructor];
           apply Forall_cons; split; [|constructor]; eapply Hev; eauto; by rewrite get_insert].
    eapply (trace_ok_ext _ _ [EvStatus (t_batch t) (t_entry t) "done";
                               EvCacheSet (t_batch t) (t_entry t) key (JsStr "done")]);
      [done| |done|..].
    + simpl. by rewrite <- app_assoc.
    + apply Forall_cons; split; [|apply Forall_cons; split; [|constructor]].
      * eapply Hev; simpl; eauto. by rewrite get_insert.
      * simpl. rewrite length_insert. split_and!; [by eapply task_batch_lt|done|..].
        -- by apply entry_not_in_deleted.
        -- unfold field. simpl. rewrite list_lookup_insert_eq by done. by rewrite get_insert.
        -- by left.
    + unfold writeLocs at 2. simpl. apply NoDup_app.
      split_and!; [apply T| |apply NoDup_singleton].
      intros l Hw ->%list_elem_of_singleton.
      apply writeLocs_settled in Hw as [_ Hw]; [|apply T]. apply Hw.
      apply (list_elem_of_fmap_2' _ _ t); [|done]. by eapply list_elem_of_lookup_2.
    + apply write_follows_pair; [apply T|]. by left.
Qed.


(** ** Batch numbers *)

Lemma event_batch_lt s ev : event_ok s ev → ev_batch ev < batches s.
Proof. destruct ev; simpl; tauto. Qed.

Lemma frame_fresh_more s s' f f' evs :
  frame_fresh s f → f_batch f' = f_batch f → batches s ≤ batches s' →
  (probing (f_pc f') = true →
   probing (f_pc f) = true ∧ trace s' = trace s ++ evs ∧ Forall is_start evs ∧
   tasks s' = tasks s) →
  frame_fresh s' f'.
Proof.
  intros [B Hp] E Hb H. split; [lia|]. intros P.
  destruct (H P) as (P' & -> & Hs & ->). rewrite E.
  destruct (Hp P') as [He Ht]. split; [|done].
  apply Forall_app. split; [done|].
  eapply Forall_impl; [exact Hs|]. by left.
Qed.

Lemma frame_fresh_keep s s' f f' :
  frame_fresh s f → f_batch f' = f_batch f → batches s ≤ batches s' →
  (probing (f_pc f') = true →
   probing (f_pc f) = true ∧ trace s' = trace s ∧ tasks s' = tasks s) →
  frame_fresh s' f'.
Proof.
  intros Hf E Hb H. apply (frame_fresh_more s s' f f' []); try done.
  intros P. destruct (H P) as (? & ? & ?). rewrite app_nil_r. by split_and!.
Qed.

Lemma batches_ok_continueLoop k f f0 it itp cached s :
  single_frame s → frames s !! k = Some f0 →
  f_batch f = f_batch f0 → probing (f_pc f0) = true →
  batches_ok s → batches_ok (continueLoop k f it itp cached s).
Proof.
  intros I F E P [B Bt]. destruct (single_frame_lookup _ _ _ I F) as (E' & -> & _).
  assert (frame_fresh s f0) as Hf0 by (rewrite E' in B; by inversion B).
  open_loop. case_match; [|case_bool_decide]; split; simpl; rewrite ?E'; simpl;
    try done; try (constructor; [|constructor]).
  - eapply (frame_fresh_more _ _ _ _ [_]); [exact Hf0|done|done|]. simpl.
    intros _. split_and!; [done|done| |done]. by repeat constructor.
  - eapply frame_fresh_keep; [exact Hf0|done|done|]. simpl. done.
Qed.

Lemma batches_ok_update k f f0 s :
  single_frame s → frames s !! k = Some f0 →
  f_batch f = f_batch f0 → (probing (f_pc f) = true → probing (f_pc f0) = true) →
  batches_ok s → batches_ok (set_frames (<[k := f]> (frames s)) s).
Proof.
  intros I F E P [B Bt]. destruct (single_frame_lookup _ _ _ I F) as (E' & -> & _).
  assert (frame_fresh s f0) as Hf0 by (rewrite E' in B; by inversion B).
  split; simpl; rewrite ?E'; simpl; [|done]. constructor; [|constructor].
  eapply frame_fresh_keep; [exact Hf0|done|done|]. simpl. auto.
Qed.

Lemma Forall_delete_list {A} (P : A → Prop) (l : list A) i :
  Forall P l → Forall P (delete i l).
Proof.
  rewrite !Forall_forall. intros H x Hx%list_elem_of_delete_inv. by apply H.
Qed.

Lemma batches_ok_finish k s : batches_ok s → batches_ok (finish k s).
Proof.
  intros [B Bt]. split; simpl; [|done].
  apply Forall_delete_list.
  eapply Forall_impl; [exact B|]. by intros f [? ?].
Qed.

Lemma batches_ok_task s s' tk t evs :
  batches_ok s → tasks s !! tk = Some t →
  batches s' = batches s → frames s' = frames s →
  trace s' = trace s ++ evs → Forall (λ ev, ev_batch ev = t_batch t) evs →
  (tasks s' = delete tk (tasks s) ∨ ∃ st, tasks s' = <[tk := with_stage st t]> (tasks s)) →
  batches_ok s'.
Proof.
  intros [B Bt] T Eb Ef Et Hev Hts.
  assert (∀ t', t' ∈ tasks s' → ∃ t0, t0 ∈ tasks s ∧ t_batch t' = t_batch t0) as Hsub.
  { intros t' Hin. destruct Hts as [E|[st E]]; rewrite E in Hin.
    - exists t'. split; [by eapply list_elem_of_delete_inv|done].
    - apply elem_of_insert_delete in Hin as [->|Hin].
      + exists t. split; [by eapply list_elem_of_lookup_2|done].
      + exists t'. split; [by eapply list_elem_of_delete_inv|done]. }
  split.
  - rewrite Ef. eapply Forall_impl; [exact B|]. intros f [Hb Hp].
    split; [by rewrite Eb|]. intros P. destruct (Hp P) as [He Ht]. split.
    + rewrite Et. apply Forall_app. split; [done|].
      eapply Forall_impl; [exact Hev|]. simpl. intros ev ->. right.
      rewrite Forall_forall in Ht. apply Ht. by eapply list_elem_of_lookup_2.
    + apply Forall_forall. intros t' (t0 & Hin & ->)%Hsub.
      rewrite Forall_forall in Ht. by apply Ht.
  - apply Forall_forall. intros t' (t0 & Hin & ->)%Hsub. rewrite Eb.
    rewrite Forall_forall in Bt. by apply Bt.
Qed.

Lemma batches_ok_step a s s' :
  single_frame s → heap_ok s → trace_ok s → batches_ok s →
  step a s = Some s' → batches_ok s'.
Proof.
  intros I J T B H. apply step_inv in H. destruct a.
  - subst. by destruct (addImages_eq files s) as (ns & -> & _).
  - subst. unfold removeImage. by repeat case_match.
  - subst. destruct B as [B Bt]. split; simpl; [|done].
    apply Forall_fmap. eapply Forall_impl; [exact B|]. intros f Hf. simpl.
    eapply frame_fresh_keep; [exact Hf|done|done|].
    rewrite leftBehind_probing. done.
  - by subst.
  - subst. unfold startOcr. case_match eqn:G; [done|].
    apply orb_false_iff in G as [_ P].
    destruct I as [[E _]|(f & E & P')]; [|congruence].
    destruct B as [B Bt]. destruct T as (Te & _).
    split; simpl; rewrite ?E; simpl.
    + constructor; [|constructor]. split; simpl; [lia|]. intros _. split.
      * apply Forall_app. split; [|by repeat constructor; left].
        eapply Forall_impl; [exact Te|]. intros ev Hev%event_batch_lt. right. lia.
      * eapply Forall_impl; [exact Bt|]. simpl. intros; lia.
    + eapply Forall_impl; [exact Bt|]. simpl. intros; lia.
  - destruct H as (f & F & P & ->). unfold initializeSettled.
    destruct (initialize _ _ _ _) as [[e q] [|]].
    + eapply (batches_ok_continueLoop _ _ f _ _ _ (set_ocrEngine e s)); eauto.
      by rewrite P.
    + by apply (batches_ok_finish _ (set_ocrEngine e s)).
  - destruct H as (f & img & it & itp & cached & F & P & ->).
    unfold hashSettled. case_match.
    + eapply batches_ok_continueLoop; eauto. by rewrite P.
    + eapply batches_ok_update; eauto. simpl. by rewrite P.
  - destruct H as (f & img & it & itp & cached & F & P & ->). by apply batches_ok_finish.
  - destruct H as (f & img & h & key & it & itp & cached & F & P & ->).
    eapply batches_ok_continueLoop; eauto. by rewrite P.
  - destruct H as (f & itp & vp & unsettled & completed & F & P & Hi & ->).
    pose proof (frame_batch_lt _ _ _ B F) as Hb.
    rewrite jobSettled_eq. case_match.
    + cbn zeta. destruct (single_frame_lookup _ _ _ I F) as (E' & -> & _).
      destruct B as [B Bt].
      destruct (onImageComplete_images (f_batch f) (f_lang f) (f_useAI f) itp vp
        (i_id i0) (resultOrNull (recognizeImage (ocrEngine s) o)) i (length itp) s)
        as (_ & _ & Ef & Eb & _).
      assert (Forall (λ t, t_batch t < batches s)
                (tasks (onImageComplete (f_batch f) (f_lang f) (f_useAI f) itp vp
        (i_id i0) (resultOrNull (recognizeImage (ocrEngine s) o)) i (length itp) s))) as Et.
      { unfold onImageComplete. repeat case_match; simpl; try done.
        apply Forall_app. split; [done|]. by repeat constructor. }
      cbn zeta in *. 
      remember (onImageComplete (f_batch f) (f_lang f) (f_useAI f) itp vp
        (i_id i0) (resultOrNull (recognizeImage (ocrEngine s) o)) i (length itp) s) as s1.
      clear Heqs1. 
      split; simpl; [rewrite Ef, E'; simpl|by rewrite Eb].
      constructor; [|constructor]. split; simpl; [by rewrite Eb|done].
    + eapply batches_ok_update; eauto. by simpl.
  - destruct H as (f & itp & vp & completed & F & P & ->). by apply batches_ok_finish.
  - destruct H as (t & Ht & P & ->).
    pose proof J as (R & N & Ts).
    pose proof (proj1 (Forall_lookup _ _) Ts _ _ Ht) as (o' & Ho & _).
    rewrite (afterVision_eq _ _ _ _ _ Ho) in *. cbn zeta in *.
    repeat case_match.
    + eapply (batches_ok_task _ _ _ _ []); eauto; simpl; eauto. by rewrite app_nil_r.
    + eapply (batches_ok_task _ _ _ _ [_]); eauto; simpl; eauto.
    + eapply (batches_ok_task _ _ _ _ [_]); eauto; simpl; eauto.
  - destruct H as (t & ocr & v & Ht & P & ->).
    pose proof J as (R & N & Ts).
    pose proof (proj1 (Forall_lookup _ _) Ts _ _ Ht) as (o' & Ho & _).
    rewrite (afterMerge_eq _ _ _ _ _ _ _ Ho) in *. cbn zeta in *.
    repeat case_match; try (eapply (batches_ok_task _ _ _ _ [_]); eauto; simpl; eauto; fail).
    eapply (batches_ok_task _ _ _ _ [_; _]); eauto; simpl; eauto.
    + by rewrite <- app_assoc.
    + by repeat constructor.
Qed.

(** ** The vision fan-out *)

Lemma vision_ok_continueLoop k f f0 it itp cached s :
  single_frame s → frames s !! k = Some f0 →
  Forall vision_ok (frames (continueLoop k f it itp cached s)).
Proof.
  intros I F. destruct (single_frame_lookup _ _ _ I F) as (E' & -> & _).
  open_loop. case_match; [|case_bool_decide]; simpl; rewrite E'; simpl;
    by repeat constructor.
Qed.

Lemma vision_ok_step a s s' :
  single_frame s → Forall vision_ok (frames s) →
  step a s = Some s' → Forall vision_ok (frames s').
Proof.
  intros I V H. apply step_inv in H. destruct a.
  - subst. by destruct (addImages_eq files s) as (ns & -> & _).
  - subst. unfold removeImage. by repeat case_match.
  - subst. simpl. apply Forall_fmap. eapply Forall_impl; [exact V|].
    intros f. unfold vision_ok. simpl. by destruct (f_pc f).
  - by subst.
  - subst. unfold startOcr. case_match eqn:G; [done|]. simpl.
    apply Forall_app. split; [done|]. by repeat constructor.
  - destruct H as (f & F & P & ->). unfold initializeSettled.
    destruct (initialize _ _ _ _) as [[e q] [|]].
    + by eapply (vision_ok_continueLoop _ _ _ _ _ _ (set_ocrEngine e s)).
    + simpl. by apply Forall_delete_list.
  - destruct H as (f & img & it & itp & cached & F & P & ->).
    unfold hashSettled. case_match.
    + by eapply vision_ok_continueLoop.
    + destruct (single_frame_lookup _ _ _ I F) as (E' & -> & _). simpl.
      rewrite E'. by repeat constructor.
  - destruct H as (f & img & it & itp & cached & F & P & ->).
    simpl. by apply Forall_delete_list.
  - destruct H as (f & img & h & key & it & itp & cached & F & P & ->).
    by eapply vision_ok_continueLoop.
  - destruct H as (f & itp & vp & unsettled & completed & F & P & Hi & ->).
    pose proof (frame_vision _ _ _ _ _ _ _ V F P) as Hvp.
    destruct (single_frame_lookup _ _ _ I F) as (E' & -> & _).
    rewrite jobSettled_eq. case_match; cbn zeta.
    + destruct (onImageComplete_images (f_batch f) (f_lang f) (f_useAI f) itp vp
        (i_id i0) (resultOrNull (recognizeImage (ocrEngine s) o)) i (length itp) s)
        as (_ & _ & Ef & _).
      cbn zeta in Ef. simpl. rewrite Ef, E'. by repeat constructor.
    + simpl. rewrite E'. by repeat constructor.
  - destruct H as (f & itp & vp & completed & F & P & ->).
    simpl. by apply Forall_delete_list.
  - destruct H as (t & T & P & ->). unfold afterVision, settleStatus.
    by repeat case_match.
  - destruct H as (t & ocr & v & T & P & ->).
    unfold afterMerge, cacheMerged, settleStatus. by repeat case_match.
Qed.

(** ** Cache hits are shown first *)

Lemma hits_first_app_other t evs :
  hits_first t → Forall (λ ev, ¬ is_hit ev) evs → hits_first (t ++ evs).
Proof.
  intros H N i j b l ev Hi Hj Hm.
  apply lookup_app_Some in Hi as [Hi|[_ Hi]].
  - apply lookup_app_Some in Hj as [Hj|[Hj _]].
    + by eapply H.
    + apply lookup_lt_Some in Hi. lia.
  - rewrite Forall_forall in N. apply list_elem_of_lookup_2, N in Hi. by destruct Hi.
Qed.

Lemma hits_first_app_hits t b ls :
  hits_first t → Forall (λ ev, is_start ev ∨ ev_batch ev ≠ b) t →
  hits_first (t ++ map (λ l, EvAppend b l true) ls).
Proof.
  intros H N i j b' l ev Hi Hj Hm.
  apply lookup_app_Some in Hj as [Hj|[_ Hj]].
  - apply lookup_app_Some in Hi as [Hi|[_ Hi]].
    + by eapply H.
    + apply list_elem_of_lookup_2, list_elem_of_fmap in Hi as (l' & Hi & _).
      simplify_eq. rewrite Forall_forall in N.
      apply list_elem_of_lookup_2, N in Hj.
      destruct ev as [| |? ? []| |]; simpl in *; try done; destruct Hj; try done; congruence.
  - apply list_elem_of_lookup_2, list_elem_of_fmap in Hj as (l' & -> & _). done.
Qed.

Ltac not_hits :=
  repeat (apply Forall_cons; split; [by intros []|]); by apply Forall_nil.

Ltac appended :=
  first [ exists []; rewrite app_nil_r; split; [done|not_hits]
        | eexists [_]; split; [done|not_hits]
        | eexists [_; _]; rewrite <- app_assoc; split; [done|not_hits] ].

Lemma onImageComplete_trace b lang u itp vp i r idx n s :
  ∃ evs, trace (onImageComplete b lang u itp vp i r idx n s) = trace s ++ evs ∧
         Forall (λ ev, ¬ is_hit ev) evs.
Proof. unfold onImageComplete. repeat case_match; simpl; appended. Qed.

Lemma afterVision_trace tk t v s :
  ∃ evs, trace (afterVision tk t v s) = trace s ++ evs ∧
         Forall (λ ev, ¬ is_hit ev) evs.
Proof. unfold afterVision, settleStatus. repeat case_match; simpl; appended. Qed.

Lemma afterMerge_trace tk t ocr v o s :
  ∃ evs, trace (afterMerge tk t ocr v o s) = trace s ++ evs ∧
         Forall (λ ev, ¬ is_hit ev) evs.
Proof.
  unfold afterMerge, cacheMerged, settleStatus. repeat case_match; simpl; appended.
Qed.

Lemma hits_first_continueLoop k f f0 it itp cached s :
  single_frame s → batches_ok s → frames s !! k = Some f0 →
  f_batch f = f_batch f0 → probing (f_pc f0) = true →
  hits_first (trace s) → hits_first (trace (continueLoop k f it itp cached s)).
Proof.
  intros I [B _] F E P H.
  destruct (continueLoop_trace k f it itp cached s)
    as (_ & _ & _ & [(_ & _ & ->)|(img & _ & _ & ->)]).
  - apply hits_first_app_hits; [done|].
    rewrite Forall_forall in B. apply list_elem_of_lookup_2, B in F as [_ F].
    rewrite E. by apply F.
  - apply hits_first_app_other; [done|]. not_hits.
Qed.

Lemma hits_first_step a s s' :
  single_frame s → batches_ok s → hits_first (trace s) →
  step a s = Some s' → hits_first (trace s').
Proof.
  intros I B T H. apply step_inv in H. destruct a.
  - subst. by destruct (addImages_eq files s) as (ns & -> & _).
  - subst. unfold removeImage. by repeat case_match.
  - by subst.
  - by subst.
  - subst. unfold startOcr. case_match; [done|]. simpl.
    apply hits_first_app_other; [done|not_hits].
  - destruct H as (f & F & P & ->). unfold initializeSettled.
    destruct (initialize _ _ _ _) as [[e q] [|]]; [|done].
    eapply (hits_first_continueLoop _ _ f _ _ _ (set_ocrEngine e s)); eauto.
    by rewrite P.
  - destruct H as (f & img & it & itp & cached & F & P & ->).
    unfold hashSettled. case_match; [|done].
    eapply hits_first_continueLoop; eauto. by rewrite P.
  - by destruct H as (f & img & it & itp & cached & F & P & ->).
  - destruct H as (f & img & h & key & it & itp & cached & F & P & ->).
    eapply hits_first_continueLoop; eauto. by rewrite P.
  - destruct H as (f & itp & vp & unsettled & completed & F & P & Hi & ->).
    rewrite jobSettled_eq. case_match; [|done]. cbn zeta. simpl.
    destruct (onImageComplete_trace (f_batch f) (f_lang f) (f_useAI f) itp vp
        (i_id i0) (resultOrNull (recognizeImage (ocrEngine s) o)) i (length itp) s)
      as (evs & -> & Hevs).
    by apply hits_first_app_other.
  - by destruct H as (f & itp & vp & completed & F & P & ->).
  - destruct H as (t & Ht & P & ->).
    destruct (afterVision_trace tk t (visionTextOf o) s) as (evs & -> & Hevs).
    by apply hits_first_app_other.
  - destruct H as (t & ocr & v & Ht & P & ->).
    destruct (afterMerge_trace tk t ocr v o s) as (evs & -> & Hevs).
    by apply hits_first_app_other.
Qed.


(** ** Every image is accounted for *)

Lemma accounted_ext s s' f :
  results s' = results s → resultIds s' = resultIds s →
  accounted s f → accounted s' f.
Proof.
  intros E1 E2. unfold accounted. rewrite E1, E2. done.
Qed.

Lemma resultIds_ext s s' :
  results s' = results s →
  (∀ l, l ∈ results s → field l "id" s' = field l "id" s) →
  resultIds s' = resultIds s.
Proof.
  intros E H. unfold resultIds. rewrite E. apply map_ext_in.
  intros l Hl. apply H. by apply list_elem_of_In.
Qed.

Lemma fields_of_pushed s' h c k :
  heap s' = h ++ c →
  map (λ l, field l k s') (seq (length h) (length c)) = map (λ o, get o k) c.
Proof.
  intros E. apply list_eq. intros i.
  change (map ?f ?l) with (f <$> l). rewrite !list_lookup_fmap.
  destruct (decide (i < length c)) as [Hi|Hi].
  - rewrite lookup_seq_lt by done. simpl. unfold field. rewrite E.
    rewrite lookup_app_r by lia. replace (length h + i - length h) with i by lia.
    destruct (lookup_lt_is_Some_2 c i Hi) as [o ->]. done.
  - rewrite lookup_seq_ge by lia. by rewrite lookup_ge_None_2 by lia.
Qed.

Lemma pendingIds_from pre itp :
  pendingIds (pre ++ itp) (seq (length pre) (length itp)) =
  map (λ d, JsStr (i_id d)) itp.
Proof.
  unfold pendingIds. revert pre. induction itp as [|d itp IH]; intros pre; [done|].
  simpl. rewrite list_lookup_middle by done. simpl. f_equal.
  specialize (IH (pre ++ [d])). rewrite <- app_assoc, length_app in IH. simpl in IH.
  by rewrite Nat.add_1_r in IH.
Qed.

Lemma pendingIds_all itp :
  pendingIds itp (seq 0 (length itp)) = map (λ d, JsStr (i_id d)) itp.
Proof. apply (pendingIds_from []). Qed.

Lemma pendingIds_remove itp unsettled i d :
  NoDup unsettled → i ∈ unsettled → itp !! i = Some d →
  pendingIds itp unsettled ≡ₚ
  JsStr (i_id d) :: pendingIds itp (filter (λ j, j ≠ i) unsettled).
Proof.
  unfold pendingIds. intros N Hi D.
  induction unsettled as [|j u IH]; [by apply elem_of_nil in Hi|].
  apply NoDup_cons in N as [Hj N]. rewrite filter_cons.
  destruct (decide (j = i)) as [->|Hne].
  - case_decide; [done|]. simpl. rewrite D. simpl.
    apply Permutation_skip.
    assert (filter (λ j, j ≠ i) u = u) as ->; [|done].
    clear IH N. induction u as [|x u IH]; [done|].
    rewrite filter_cons. apply not_elem_of_cons in Hj as [? ?].
    case_decide as Hd; [|destruct Hd; congruence]. f_equal. apply IH; [done|left].
  - apply elem_of_cons in Hi as [->|Hi]; [done|].
    case_decide; [|done]. simpl. destruct (itp !! j) as [d'|]; simpl.
    + rewrite (IH N Hi). apply Permutation_swap.
    + by apply IH.
Qed.

Lemma resultObject_no_id d : resultObject d !! "id" = None.
Proof. unfold resultObject. cbn. by rewrite !lookup_insert_ne by done. Qed.

Lemma newResultEntry_id i m d u :
  get (newResultEntry i m (resultObject d) u) "id" = JsStr i.
Proof.
  unfold newResultEntry. cbn -[resultObject].
  rewrite !get_insert_ne by done. rewrite get_spread, resultObject_no_id.
  rewrite get_insert_ne by done. by rewrite get_insert.
Qed.

Lemma cachedEntry_id c img : get (cachedEntry c img) "id" = JsStr (id img).
Proof.
  unfold cachedEntry. cbn. rewrite get_insert_ne by done. by rewrite get_insert.
Qed.

Lemma accounted_continueLoop k f f0 it itp cached s :
  single_frame s → frames s !! k = Some f0 →
  results s = [] → f_failed f = [] → f_dropped f = [] →
  map (λ o, get o "id") cached ++ map (λ d, JsStr (i_id d)) itp
    ≡ₚ idVals (f_images f) →
  let s' := continueLoop k f it itp cached s in
  Forall (accounted s') (frames s').
Proof.
  intros I F R Ff Fd Pm. destruct (single_frame_lookup _ _ _ I F) as (E' & -> & _).
  cbn zeta. open_loop. case_match; [|case_bool_decide]; simpl; rewrite E'; simpl.
  - constructor; [|constructor]. unfold accounted; simpl.
    split_and!; [done..|]. unfold idVals. rewrite map_app. simpl.
    rewrite app_assoc. by apply Permutation_app.
  - constructor; [|constructor]. unfold accounted; simpl.
    split_and!; [apply NoDup_seq| |].
    + apply Forall_forall. intros i Hi%elem_of_seq. lia.
    + rewrite Ff, Fd, pendingIds_all. simpl. unfold resultIds; simpl. rewrite R. simpl.
      erewrite fields_of_pushed by done. by rewrite app_nil_r.
  - constructor.
Qed.

Lemma accounted_frame s k f :
  Forall (accounted s) (frames s) → frames s !! k = Some f → accounted s f.
Proof.
  intros A F. rewrite Forall_forall in A. by apply list_elem_of_lookup_2, A in F.
Qed.

Lemma field_id_assigns s s' l o o' :
  heap s !! l = Some o → heap s' = <[l := o']> (heap s) →
  get o' "id" = get o "id" →
  ∀ l', field l' "id" s' = field l' "id" s.
Proof.
  intros Ho Eh Eid l'. unfold field. rewrite Eh.
  destruct (decide (l' = l)) as [->|].
  - rewrite list_lookup_insert_eq by (by eapply lookup_lt_Some). by rewrite Ho.
  - by rewrite list_lookup_insert_ne.
Qed.

Lemma accounted_task s s' l o o' :
  heap s !! l = Some o → heap s' = <[l := o']> (heap s) →
  get o' "id" = get o "id" →
  results s' = results s → frames s' = frames s →
  Forall (accounted s) (frames s) → Forall (accounted s') (frames s').
Proof.
  intros Ho Eh Eid Er Ef A. rewrite Ef.
  eapply Forall_impl; [exact A|]. intros f. apply accounted_ext; [done|].
  apply resultIds_ext; [done|]. intros. by eapply field_id_assigns.
Qed.

Lemma frames_nil s : single_frame s → isProcessing s = false → frames s = [].
Proof. intros [[? _]|(? & _ & ?)] P; [done|congruence]. Qed.

Lemma accounted_step a s s' :
  single_frame s → ids_ok s → heap_ok s → Forall (accounted s) (frames s) →
  step a s = Some s' → Forall (accounted s') (frames s').
Proof.
  intros I D J A H. apply step_inv in H. destruct a.
  - subst. destruct (addImages_eq files s) as (ns & -> & _). simpl.
    eapply Forall_impl; [exact A|]. intros f. by apply accounted_ext.
  - subst. unfold removeImage. case_match; [|done]. destruct p as [idx img]. simpl.
    eapply Forall_impl; [exact A|]. intros f. by apply accounted_ext.
  - subst. simpl. apply Forall_fmap. eapply Forall_impl; [exact A|].
    intros f. unfold accounted. simpl.
    destruct (f_pc f) as [|img it itp cached|img h key it itp cached
                          |itp vp unsettled completed]; simpl.
    + intros (R & ? & -> & ?). unfold resultIds. by rewrite R.
    + intros (R & ? & -> & ?). unfold resultIds. by rewrite R.
    + intros (R & ? & -> & ?). unfold resultIds. by rewrite R.
    + intros (? & ? & Pm). split_and!; [done..|].
      unfold resultIds at 1. simpl. rewrite <- Pm.
      rewrite (Permutation_app_comm (resultIds s)). by rewrite <- !app_assoc.
  - by subst.
  - subst. unfold startOcr. case_match eqn:G; [done|].
    apply orb_false_iff in G as [_ P]. simpl.
    rewrite (frames_nil _ I P). simpl. by repeat constructor.
  - destruct H as (f & F & P & ->). unfold initializeSettled.
    pose proof (accounted_frame _ _ _ A F) as Af. unfold accounted in Af.
    rewrite P in Af. destruct Af as (R & Ff & Fd & Fi).
    destruct (initialize _ _ _ _) as [[e q] [|]].
    + apply (accounted_continueLoop _ _ f _ _ _ (set_ocrEngine e s)); try done.
      by rewrite Fi.
    + destruct (single_frame_lookup _ _ _ I F) as (E' & -> & _).
      simpl. rewrite E'. constructor.
  - destruct H as (f & img & it & itp & cached & F & P & ->).
    pose proof (accounted_frame _ _ _ A F) as Af. unfold accounted in Af.
    rewrite P in Af. destruct Af as (R & Ff & Fd & Pm).
    unfold hashSettled. case_match.
    + eapply accounted_continueLoop; try done.
      rewrite map_app. simpl. rewrite cachedEntry_id. rewrite <- Pm.
      rewrite <- !app_assoc. apply Permutation_app_head. simpl.
      apply Permutation_cons_append.
    + destruct (single_frame_lookup _ _ _ I F) as (E' & -> & _).
      simpl. rewrite E'. simpl. constructor; [|constructor].
      unfold accounted. simpl. done.
  - destruct H as (f & img & it & itp & cached & F & P & ->).
    destruct (single_frame_lookup _ _ _ I F) as (E' & -> & _).
    simpl. rewrite E'. constructor.
  - destruct H as (f & img & h & key & it & itp & cached & F & P & ->).
    pose proof (accounted_frame _ _ _ A F) as Af. unfold accounted in Af.
    rewrite P in Af. destruct Af as (R & Ff & Fd & Pm).
    eapply accounted_continueLoop; try done.
    rewrite map_app. simpl. by rewrite <- Pm.
  - destruct H as (f & itp & vp & unsettled & completed & F & P & Hi & ->).
    pose proof (accounted_frame _ _ _ A F) as Af. unfold accounted in Af.
    rewrite P in Af. destruct Af as (N & L & Pm).
    destruct (single_frame_lookup _ _ _ I F) as (E' & -> & _).
    rewrite jobSettled_eq.
    assert (is_Some (itp !! i)) as [d Hd].
    { apply lookup_lt_is_Some_2. rewrite Forall_forall in L. by apply L. }
    rewrite Hd. cbn zeta.
    pose proof (pendingIds_remove _ _ _ _ N Hi Hd) as Hrem.
    assert (NoDup (filter (λ j, j ≠ i) unsettled)) as N' by by apply NoDup_filter.
    assert (Forall (λ i, i < length itp) (filter (λ j, j ≠ i) unsettled)) as L'.
    { apply Forall_forall. intros j [_ Hj]%list_elem_of_filter.
      rewrite Forall_forall in L. by apply L. }
    destruct (recognizeImage (ocrEngine s) o) as [res|msg] eqn:Hr; simpl.
    + apply recognizeImage_inl in Hr as [d0 ->].
      unfold onImageComplete.
      set (e := newResultEntry _ _ _ _).
      assert (get e "id" = JsStr (i_id d)) as He by apply newResultEntry_id.
      assert (∀ s1, frames s1 = frames s →
                results s1 = results s ++ [length (heap s)] →
                heap s1 = heap s ++ [e] →
                Forall (accounted (set_frames (<[0 := with_failed (f_failed f)
                  (with_pc (AtRecognizeBatch itp vp (filter (λ j, j ≠ i) unsettled)
                     (completed + 1)) f)]> (frames s1)) s1))
                  (frames (set_frames (<[0 := with_failed (f_failed f)
                  (with_pc (AtRecognizeBatch itp vp (filter (λ j, j ≠ i) unsettled)
                     (completed + 1)) f)]> (frames s1)) s1))) as G.
      { intros s1 Ef Er Eh. simpl. rewrite Ef, E'. simpl.
        constructor; [|constructor]. unfold accounted; simpl.
        split_and!; [done..|].
        assert (resultIds (set_frames
           [with_failed (f_failed f)
              (with_pc (AtRecognizeBatch itp vp (filter (λ j : nat, j ≠ i) unsettled)
                 (completed + 1)) f)] s1) = resultIds s ++ [JsStr (i_id d)]) as ->.
        { unfold resultIds; simpl. rewrite Er, map_app. simpl. f_equal.
          - apply map_ext_in. intros l Hl%list_elem_of_In. unfold field; simpl.
            rewrite Eh. rewrite lookup_app_l; [done|].
            destruct J as (J & _). rewrite Forall_forall in J. by apply J.
          - unfold field; simpl. rewrite Eh, list_lookup_middle by done. by rewrite He. }
        rewrite <- Pm, Hrem. rewrite <- !app_assoc. apply Permutation_app_head.
        simpl. rewrite Permutation_middle. done. }
      repeat case_match; by apply G.
    + simpl. rewrite E'. simpl. constructor; [|constructor].
      unfold accounted; simpl. split_and!; [done..|].
      unfold resultIds at 1; simpl. fold (resultIds s).
      rewrite <- Pm, Hrem, map_app. simpl. apply Permutation_app_head.
      rewrite <- app_assoc. apply Permutation_app_head. simpl. done.
  - destruct H as (f & itp & vp & completed & F & P & ->).
    destruct (single_frame_lookup _ _ _ I F) as (E' & -> & _).
    simpl. rewrite E'. constructor.
  - destruct H as (t & Ht & P & ->).
    pose proof J as (R & N & Ts).
    pose proof (proj1 (Forall_lookup _ _) Ts _ _ Ht) as (o' & Ho & _).
    rewrite (afterVision_eq _ _ _ _ _ Ho). cbn zeta.
    repeat case_match; (eapply accounted_task; [exact Ho|simpl; reflexivity| |done..]);
      by rewrite !get_insert_ne by done.
  - destruct H as (t & ocr & v & Ht & P & ->).
    pose proof J as (R & N & Ts).
    pose proof (proj1 (Forall_lookup _ _) Ts _ _ Ht) as (o' & Ho & _).
    rewrite (afterMerge_eq _ _ _ _ _ _ _ Ho). cbn zeta.
    repeat case_match; (eapply accounted_task; [exact Ho|simpl; reflexivity| |done..]);
      by rewrite !get_insert_ne by done.
Qed.

(** ** The cache holds settled transcripts *)

Lemma last_write_app_no_write key t evs :
  Forall no_write evs → last_write key (t ++ evs) = last_write key t.
Proof.
  intros N. unfold last_write. rewrite omap_app.
  assert (omap (λ ev, match ev with
                      | EvCacheSet _ l key' _ => if decide (key' = key) then Some l else None
                      | _ => None end) evs = []) as ->; [|by rewrite app_nil_r].
  induction N as [|ev evs H _ IH]; [done|].
  destruct ev; [exact IH|exact IH|exact IH|exact IH|destruct H].
Qed.

Lemma last_write_snoc key t b l key' st :
  last_write key (t ++ [EvCacheSet b l key' st]) =
  if decide (key' = key) then Some l else last_write key t.
Proof.
  unfold last_write. rewrite omap_app. simpl. case_decide.
  - by rewrite last_snoc.
  - by rewrite app_nil_r.
Qed.

Lemma last_write_elem key t l : last_write key t = Some l → l ∈ writeLocs t.
Proof.
  unfold last_write, writeLocs. intros H. apply last_Some_elem_of in H.
  apply list_elem_of_omap in H as (ev & Hin & E). apply list_elem_of_omap.
  exists ev. split; [done|]. destruct ev; try done. by case_decide.
Qed.

Lemma writer_field s s' key l k :
  extends s s' → trace_ok s → last_write key (trace s) = Some l →
  field l k s' = field l k s.
Proof.
  intros (_ & _ & X) (T & _) H%last_write_elem.
  apply writeLocs_settled in H as [Hl Hn]; [|done].
  apply field_ext. by apply X.
Qed.

Lemma cache_ok_quiet s s' evs :
  extends s s' → trace_ok s → resultCache s' = resultCache s →
  trace s' = trace s ++ evs → Forall no_write evs →
  cache_ok s → cache_ok s'.
Proof.
  intros X T Ec Et N C key. rewrite Et, Ec, last_write_app_no_write by done.
  specialize (C key). destruct (last_write key (trace s)) as [l|] eqn:L; [|done].
  destruct C as (c & ? & ?). exists c. split; [done|].
  by erewrite writer_field.
Qed.

Lemma cache_ok_same s s' :
  extends s s' → trace_ok s → resultCache s' = resultCache s →
  trace s' = trace s → cache_ok s → cache_ok s'.
Proof.
  intros X T Ec Et. apply (cache_ok_quiet s s' []); auto. by rewrite app_nil_r.
Qed.

Lemma cache_ok_write s s' ev b l key st c :
  extends s s' → trace_ok s → no_write ev →
  trace s' = trace s ++ [ev; EvCacheSet b l key st] →
  resultCache s' = <[key := c]> (resultCache s) →
  get c "text" = field l "text" s' →
  cache_ok s → cache_ok s'.
Proof.
  intros X T N Et Ec Hc C key'. rewrite Et, Ec.
  change [ev; EvCacheSet b l key st] with ([ev] ++ [EvCacheSet b l key st]).
  rewrite app_assoc, last_write_snoc.
  rewrite last_write_app_no_write by (by repeat constructor).
  case_decide as Hk.
  - subst key'. exists c. by rewrite lookup_insert_eq.
  - rewrite lookup_insert_ne by done.
    specialize (C key'). destruct (last_write key' (trace s)) as [l'|] eqn:L; [|done].
    destruct C as (c' & ? & ?). exists c'. split; [done|].
    by erewrite writer_field.
Qed.

Lemma cache_ok_continueLoop k f it itp cached s :
  trace_ok s → cache_ok s → cache_ok (continueLoop k f it itp cached s).
Proof.
  intros T C. pose proof (extends_continueLoop k f it itp cached s) as X.
  destruct (continueLoop_trace k f it itp cached s) as (_ & _ & Ec & HH).
  cbn zeta in *. remember (continueLoop k f it itp cached s) as s' eqn:Es'. clear Es'.
  destruct HH as [(_ & _ & E)|(img & _ & _ & E)].
  - eapply cache_ok_quiet; [done..| |done].
    apply Forall_forall. by intros ev (l & -> & Hl)%list_elem_of_fmap.
  - eapply cache_ok_quiet; [done..| |done]. by repeat constructor.
Qed.

Lemma mergedCacheEntry_text m v o : get (mergedCacheEntry m v o) "text" = m.
Proof.
  unfold mergedCacheEntry. cbn. rewrite !get_insert_ne by done. by rewrite get_insert.
Qed.

Lemma primaryCacheEntry_text r : get (primaryCacheEntry r) "text" = get r "text".
Proof.
  unfold primaryCacheEntry. cbn. rewrite !get_insert_ne by done. by rewrite get_insert.
Qed.

Lemma cache_ok_step a s s' :
  heap_ok s → trace_ok s → cache_ok s → step a s = Some s' → cache_ok s'.
Proof.
  intros J T C H. pose proof (step_extends _ _ _ J H) as X.
  apply step_inv in H. destruct a.
  - subst. eapply cache_ok_same; try done;
    by destruct (addImages_eq files s) as (ns & -> & _).
  - subst. eapply cache_ok_same; try done;
    unfold removeImage; by repeat case_match.
  - subst. by eapply cache_ok_same.
  - subst. by eapply cache_ok_same.
  - subst. unfold startOcr in *. case_match; [done|].
    eapply (cache_ok_quiet _ _ [_]); try done. by repeat constructor.
  - destruct H as (f & F & P & ->). unfold initializeSettled in *.
    destruct (initialize _ _ _ _) as [[e q] [|]].
    + by apply (cache_ok_continueLoop _ _ _ _ _ (set_ocrEngine e s)).
    + by eapply cache_ok_same.
  - destruct H as (f & img & it & itp & cached & F & P & ->).
    unfold hashSettled in *. case_match.
    + by apply cache_ok_continueLoop.
    + by eapply cache_ok_same.
  - destruct H as (f & img & it & itp & cached & F & P & ->). by eapply cache_ok_same.
  - destruct H as (f & img & h & key & it & itp & cached & F & P & ->).
    by apply cache_ok_continueLoop.
  - destruct H as (f & itp & vp & unsettled & completed & F & P & Hi & ->).
    rewrite jobSettled_eq in *. destruct (itp !! i) as [d|] eqn:D; [|by eapply cache_ok_same].
    cbn zeta in *. unfold onImageComplete in *.
    destruct (resultOrNull _) as [r|]; [|by eapply cache_ok_same].
    set (e := newResultEntry _ _ _ _) in *.
    destruct (f_useAI f && _) eqn:G.
    + eapply (cache_ok_quiet _ _ [_]); try done. by repeat constructor.
    + destruct (find _ _) as [m|] eqn:Fm.
      * eapply (cache_ok_write _ _ (EvAppend (f_batch f) (length (heap s)) false)
                  (f_batch f) (length (heap s)) (cacheKey m) _ (primaryCacheEntry r));
          [done|done|done| | | |done].
        -- simpl. by rewrite <- app_assoc.
        -- simpl. reflexivity.
        -- rewrite primaryCacheEntry_text. unfold field; simpl.
           rewrite list_lookup_middle by done.
           unfold e. by destruct (newResultEntry_text (i_id d) (Some m) r (f_useAI f)) as [-> _].
      * eapply (cache_ok_quiet _ _ [_]); try done. by repeat constructor.
  - destruct H as (f & itp & vp & completed & F & P & ->). by eapply cache_ok_same.
  - destruct H as (t & Ht & P & ->).
    pose proof J as (R & N & Ts).
    pose proof (proj1 (Forall_lookup _ _) Ts _ _ Ht) as (o' & Ho & _).
    rewrite (afterVision_eq _ _ _ _ _ Ho) in *. cbn zeta in *.
    repeat case_match; [by eapply cache_ok_same|..];
      (eapply (cache_ok_quiet _ _ [_]); try done; by repeat constructor).
  - destruct H as (t & ocr & v & Ht & P & ->).
    pose proof J as (R & N & Ts).
    pose proof (proj1 (Forall_lookup _ _) Ts _ _ Ht) as (o' & Ho & _).
    pose proof (lookup_lt_Some _ _ _ Ho) as Hl.
    rewrite (afterMerge_eq _ _ _ _ _ _ _ Ho) in *. cbn zeta in *.
    destruct o as [|trimmed];
      [eapply (cache_ok_quiet _ _ [_]); try done; by repeat constructor|].
    destruct (t_cacheKey t) as [| | | |key| |];
      try (eapply (cache_ok_quiet _ _ [_]); try done; by repeat constructor).
    case_match; [|eapply (cache_ok_quiet _ _ [_]); try done; by repeat constructor].
    eapply (cache_ok_write _ _ (EvStatus (t_batch t) (t_entry t) "done")
              (t_batch t) (t_entry t) key (JsStr "done") (mergedCacheEntry _ _ _));
      [done|done|done| | | |done].
    + simpl. by rewrite <- app_assoc.
    + simpl. reflexivity.
    + rewrite mergedCacheEntry_text. unfold field; simpl.
      rewrite list_lookup_insert_eq by done.
      rewrite get_insert_ne by done. by rewrite get_insert.
Qed.

(** ** The invariant holds in every reachable state *)

Lemma Inv_initial hc : Inv (initialState hc).
Proof.
  split; simpl.
  - by left.
  - split_and!; constructor.
  - split_and!; constructor.
  - split_and!; [constructor|constructor|]. by intros i ? ? ? ? ?.
  - split; constructor.
  - by intros i j ? ? ? ?.
  - constructor.
  - constructor.
  - by intros key.
Qed.

Lemma Inv_step a s s' : Inv s → step a s = Some s' → Inv s'.
Proof.
  intros [] H. split.
  - by eapply single_frame_step.
  - by eapply ids_ok_step.
  - by eapply heap_ok_step.
  - by eapply trace_ok_step.
  - by eapply batches_ok_step.
  - by eapply hits_first_step.
  - by eapply accounted_step.
  - by eapply vision_ok_step.
  - by eapply cache_ok_step.
Qed.

Lemma run_snoc acts a s :
  run (acts ++ [a]) s = run acts s ≫= step a.
Proof.
  revert s. induction acts as [|a' acts IH]; intros s; simpl.
  - by destruct (step a s).
  - destruct (step a' s); simpl; [apply IH|done].
Qed.

Lemma Inv_run acts s s' : Inv s → run acts s = Some s' → Inv s'.
Proof.
  revert s. induction acts as [|a acts IH]; intros s I H; simpl in H.
  - by simplify_eq.
  - destruct (step a s) as [s1|] eqn:E; [|done]. simpl in H.
    eapply IH; [|exact H]. by eapply Inv_step.
Qed.

Lemma reachable_Inv s : reachable s → Inv s.
Proof. intros (hc & acts & H). eapply Inv_run; [apply Inv_initial|exact H]. Qed.

Lemma reachable_step a s s' : reachable s → step a s = Some s' → reachable s'.
Proof.
  intros (hc & acts & H) Hs. exists hc, (acts ++ [a]).
  rewrite run_snoc, H. done.
Qed.


(** ** Where entries and cache writes come from *)


Lemma grows_refl s : grows s s.
Proof. split_and!; [exists []; by rewrite app_nil_r|done|done]. Qed.

Lemma grows_same s s' :
  trace s' = trace s → heap s' = heap s → grows s s'.
Proof.
  intros Et Eh. split_and!; [exists []; by rewrite app_nil_r|by rewrite Eh|].
  intros. apply field_ext. by rewrite Eh.
Qed.

Lemma grows_append s s' evs extra :
  trace s' = trace s ++ evs → heap s' = heap s ++ extra → grows s s'.
Proof.
  intros Et Eh. split_and!; [by exists evs|rewrite Eh, length_app; lia|].
  intros. apply field_ext. rewrite Eh. by apply lookup_app_l.
Qed.

Lemma grows_task s s' evs l o o' :
  trace s' = trace s ++ evs → heap s !! l = Some o →
  heap s' = <[l := o']> (heap s) → get o' "id" = get o "id" → grows s s'.
Proof.
  intros Et Ho Eh Eid. split_and!; [by exists evs|by rewrite Eh, length_insert|].
  intros. by eapply field_id_assigns.
Qed.

Lemma grows_continueLoop k f it itp cached s :
  grows s (continueLoop k f it itp cached s).
Proof.
  destruct (continueLoop_trace k f it itp cached s)
    as (_ & _ & _ & [(_ & Eh & Et)|(img & _ & Eh & Et)]).
  - by eapply grows_append.
  - eapply (grows_append _ _ _ []); [exact Et|by rewrite app_nil_r].
Qed.

Lemma grows_onImageComplete b lang u itp vp i r idx n s :
  grows s (onImageComplete b lang u itp vp i r idx n s).
Proof.
  destruct (onImageComplete_trace b lang u itp vp i r idx n s) as (evs & Et & _).
  unfold onImageComplete in *. destruct r as [r|]; [|apply grows_refl].
  repeat case_match; by eapply (grows_append _ _ _ [_]).
Qed.

Lemma step_grows a s s' : heap_ok s → step a s = Some s' → grows s s'.
Proof.
  intros J H. apply step_inv in H. destruct a.
  - subst. destruct (addImages_eq files s) as (ns & -> & _).
    by apply grows_same.
  - subst. unfold removeImage.
    repeat case_match; first [apply grows_refl|by apply grows_same].
  - subst. by apply grows_same.
  - subst. by apply grows_same.
  - subst. unfold startOcr. case_match; [apply grows_refl|].
    eapply (grows_append _ _ [_] []); simpl; [done|by rewrite app_nil_r].
  - destruct H as (f & F & P & ->). unfold initializeSettled.
    destruct (initialize _ _ _ _) as [[e q] [|]].
    + apply (grows_continueLoop _ _ _ _ _ (set_ocrEngine e s)).
    + by apply grows_same.
  - destruct H as (f & img & it & itp & cached & F & P & ->).
    unfold hashSettled. case_match; [apply grows_continueLoop|by apply grows_same].
  - destruct H as (f & img & it & itp & cached & F & P & ->). by apply grows_same.
  - destruct H as (f & img & h & key & it & itp & cached & F & P & ->).
    apply grows_continueLoop.
  - destruct H as (f & itp & vp & unsettled & completed & F & P & Hi & ->).
    rewrite jobSettled_eq. case_match; [|by apply grows_same]. cbn zeta.
    pose proof (grows_onImageComplete (f_batch f) (f_lang f) (f_useAI f) itp vp
      (i_id i0) (resultOrNull (recognizeImage (ocrEngine s) o)) i (length itp) s) as G.
    destruct G as (G1 & G2 & G3). split_and!; done.
  - destruct H as (f & itp & vp & completed & F & P & ->). by apply grows_same.
  - destruct H as (t & Ht & P & ->).
    pose proof J as (R & N & Ts).
    pose proof (proj1 (Forall_lookup _ _) Ts _ _ Ht) as (o' & Ho & _).
    destruct (afterVision_trace tk t (visionTextOf o) s) as (evs & Et & _).
    rewrite (afterVision_eq _ _ _ _ _ Ho) in *. cbn zeta in *.
    repeat case_match; (eapply grows_task; [exact Et|exact Ho|simpl; reflexivity|]);
      by rewrite !get_insert_ne by done.
  - destruct H as (t & ocr & v & Ht & P & ->).
    pose proof J as (R & N & Ts).
    pose proof (proj1 (Forall_lookup _ _) Ts _ _ Ht) as (o' & Ho & _).
    destruct (afterMerge_trace tk t ocr v o s) as (evs & Et & _).
    rewrite (afterMerge_eq _ _ _ _ _ _ _ Ho) in *. cbn zeta in *.
    repeat case_match; (eapply grows_task; [exact Et|exact Ho|simpl; reflexivity|]);
      by rewrite !get_insert_ne by done.
Qed.

Lemma entry_of_grows s s' b l img lang u :
  grows s s' → entry_of s b l img lang u → entry_of s' b l img lang u.
Proof.
  intros ([evs Et] & Hl & Hf) (imgs & Hs & Hi & Hlt & Hid).
  exists imgs. rewrite Et, !elem_of_app. split_and!; [by left|by left|lia|by rewrite Hf].
Qed.

Lemma meta_ok_ext f f' d :
  f_images f ⊆ f_images f' → f_lang f' = f_lang f → f_useAI f' = f_useAI f →
  meta_ok digest f d → meta_ok digest f' d.
Proof.
  intros E1 E2 E3 (img & Hi & H). exists img. rewrite E2, E3. split; [by apply E1|done].
Qed.

Lemma hit_of_grows s s' b lang u o :
  grows s s' → extends s s' → trace_ok s →
  hit_of digest s b lang u o → hit_of digest s' b lang u o.
Proof.
  intros ([evs Et] & _) (_ & _ & X) (Ev & _) (img & c & b0 & l0 & st0 & Ht & -> & Hw & Htxt).
  exists img, c, b0, l0, st0. rewrite Et, !elem_of_app. split_and!; [by left|done|by left|].
  rewrite Forall_forall in Ev. destruct (Ev _ Hw) as (_ & Hl & Hn & _).
  destruct (X _ Hl Hn) as [_ E]. by rewrite (field_ext _ _ _ _ E).
Qed.

Lemma hit_of_same s s' b lang u o :
  trace s' = trace s → heap s' = heap s →
  hit_of digest s b lang u o → hit_of digest s' b lang u o.
Proof.
  intros Et Eh (img & c & b0 & l0 & st0 & Ht & -> & Hw & Htxt).
  exists img, c, b0, l0, st0. rewrite Et. split_and!; [done..|].
  rewrite Htxt. symmetry. apply field_ext. by rewrite Eh.
Qed.

Lemma frame_origin_grows s s' f :
  grows s s' → extends s s' → trace_ok s →
  frame_origin digest s f → frame_origin digest s' f.
Proof.
  intros G X T ([imgs Hs] & Ht & Hpc). pose proof G as ([evs Et] & _).
  assert (∀ c, Forall (hit_of digest s (f_batch f) (f_lang f) (f_useAI f)) c →
               Forall (hit_of digest s' (f_batch f) (f_lang f) (f_useAI f)) c) as Hh.
  { intros c Hc. eapply Forall_impl; [exact Hc|]. intros o. by apply hit_of_grows. }
  split_and!.
  - exists imgs. rewrite Et. apply elem_of_app. by left.
  - eapply Forall_impl; [exact Ht|]. intros img Hi. simpl in *. rewrite Et.
    apply elem_of_app. by left.
  - destruct (f_pc f); [done|..|done].
    + destruct Hpc as (? & ? & ?). split_and!; auto.
    + destruct Hpc as (? & ? & ? & ? & ?). split_and!; auto.
Qed.

Lemma frame_origin_same s s' f :
  trace s' = trace s → heap s' = heap s →
  frame_origin digest s f → frame_origin digest s' f.
Proof.
  intros Et Eh ([imgs Hs] & Ht & Hpc).
  assert (∀ c, Forall (hit_of digest s (f_batch f) (f_lang f) (f_useAI f)) c →
               Forall (hit_of digest s' (f_batch f) (f_lang f) (f_useAI f)) c) as Hh.
  { intros c Hc. eapply Forall_impl; [exact Hc|]. intros o. by apply hit_of_same. }
  split_and!.
  - exists imgs. by rewrite Et.
  - by rewrite Et.
  - destruct (f_pc f); [done|..|done].
    + destruct Hpc as (? & ? & ?). split_and!; auto.
    + destruct Hpc as (? & ? & ? & ? & ?). split_and!; auto.
Qed.

Lemma frame_origin_leftBehind s s' f :
  trace s' = trace s → heap s' = heap s →
  frame_origin digest s f → frame_origin digest s' (leftBehind s f).
Proof.
  intros Et Eh H. apply (frame_origin_same s s') in H; [|done..].
  destruct H as (Hs & Ht & Hpc). unfold leftBehind.
  split_and!; [done|done|]. simpl. by destruct (f_pc f).
Qed.

Lemma origin_ok_intro s s' evs :
  grows s s' → trace s' = trace s ++ evs → origin_ok s →
  Forall (frame_origin digest s') (frames s') →
  Forall (λ t', (∃ t, t ∈ tasks s ∧ t_batch t' = t_batch t ∧
                      t_entry t' = t_entry t ∧ t_lang t' = t_lang t ∧
                      t_cacheKey t' = t_cacheKey t) ∨
                task_origin digest s' t') (tasks s') →
  Forall (write_origin digest s') evs →
  origin_ok s'.
Proof.
  intros G Et (F & T & W) F' T' W'. split_and!; [done| |].
  - eapply Forall_impl; [exact T'|]. intros t' [(t & Hin & E1 & E2 & E3 & E4)|H]; [|done].
    rewrite Forall_forall in T. destruct (T _ Hin) as (img & He & Hk).
    exists img. rewrite E1, E2, E3, E4. split; [|done]. by eapply entry_of_grows.
  - rewrite Et. apply Forall_app. split; [|done].
    eapply Forall_impl; [exact W|]. intros ev. destruct ev; simpl; try done.
    intros (img & lang & u & He & Hk). exists img, lang, u.
    split; [|done]. by eapply entry_of_grows.
Qed.

Lemma tasks_same_origin (ts : list Task) :
  Forall (λ t', (∃ t, t ∈ ts ∧ t_batch t' = t_batch t ∧
                      t_entry t' = t_entry t ∧ t_lang t' = t_lang t ∧
                      t_cacheKey t' = t_cacheKey t) ∨ False) ts.
Proof. apply Forall_forall. intros t Ht. left. by exists t. Qed.

Lemma origin_ok_frames s s' :
  grows s s' → trace s' = trace s → tasks s' = tasks s → origin_ok s →
  Forall (frame_origin digest s') (frames s') → origin_ok s'.
Proof.
  intros G Et Ets O F. eapply (origin_ok_intro s s' []); try done.
  - by rewrite app_nil_r.
  - rewrite Ets. eapply Forall_impl; [apply tasks_same_origin|].
    intros t [?|[]]. by left.
Qed.

Lemma frame_origin_continueLoop k f f0 it itp cached s :
  single_frame s → frames s !! k = Some f0 → trace_ok s →
  (∃ imgs, EvStart (f_batch f) imgs (f_lang f) (f_useAI f) ∈ trace s) →
  Forall (λ img, EvTake (f_batch f) img ∈ trace s) (f_images f) →
  Forall (meta_ok digest f) itp →
  Forall (hit_of digest s (f_batch f) (f_lang f) (f_useAI f)) cached →
  let s' := continueLoop k f it itp cached s in
  Forall (frame_origin digest s') (frames s').
Proof.
  intros I F T [imgs Hs] Ht Hm Hh. destruct (single_frame_lookup _ _ _ I F) as (E' & -> & _).
  cbn zeta. open_loop. case_match; [|case_bool_decide]; simpl; rewrite E'; simpl.
  - constructor; [|constructor]. split_and!; simpl.
    + exists imgs. apply elem_of_app. by left.
    + apply Forall_app. split.
      * eapply Forall_impl; [exact Ht|]. intros x Hx. simpl in *.
        apply elem_of_app. by left.
      * repeat constructor. apply elem_of_app. right. by apply list_elem_of_singleton.
    + split_and!.
      * eapply Forall_impl; [exact Hm|]. intros d.
        apply meta_ok_ext; simpl; [|done..]. intros x Hx. apply elem_of_app. by left.
      * apply elem_of_app. right. by apply list_elem_of_singleton.
      * eapply Forall_impl; [exact Hh|]. intros o.
        apply hit_of_grows; [|apply extends_same; done|done].
        eapply (grows_append _ _ [_] []); simpl; [done|by rewrite app_nil_r].
  - constructor; [|constructor]. split_and!; simpl.
    + exists imgs. apply elem_of_app. by left.
    + eapply Forall_impl; [exact Ht|]. intros x Hx. simpl in *.
      apply elem_of_app. by left.
    + done.
  - constructor.
Qed.

Lemma origin_ok_continueLoop k f f0 it itp cached s :
  single_frame s → frames s !! k = Some f0 → trace_ok s → origin_ok s →
  (∃ imgs, EvStart (f_batch f) imgs (f_lang f) (f_useAI f) ∈ trace s) →
  Forall (λ img, EvTake (f_batch f) img ∈ trace s) (f_images f) →
  Forall (meta_ok digest f) itp →
  Forall (hit_of digest s (f_batch f) (f_lang f) (f_useAI f)) cached →
  origin_ok (continueLoop k f it itp cached s).
Proof.
  intros I F T O Hs Ht Hm Hh.
  pose proof (frame_origin_continueLoop _ _ _ it _ _ _ I F T Hs Ht Hm Hh) as Fr.
  pose proof (grows_continueLoop k f it itp cached s) as G.
  destruct (continueLoop_trace k f it itp cached s) as (_ & Ets & _ & HH).
  cbn zeta in *. remember (continueLoop k f it itp cached s) as s' eqn:Es'. clear Es'.
  assert (Forall (λ t', (∃ t, t ∈ tasks s ∧ t_batch t' = t_batch t ∧
                      t_entry t' = t_entry t ∧ t_lang t' = t_lang t ∧
                      t_cacheKey t' = t_cacheKey t) ∨
                task_origin digest s' t') (tasks s')) as Hts.
  { rewrite Ets. eapply Forall_impl; [apply tasks_same_origin|].
    intros t [?|[]]. by left. }
  destruct HH as [(_ & _ & Et)|(img & _ & _ & Et)].
  - eapply origin_ok_intro; try done.
    apply Forall_forall. by intros ev (l & -> & _)%list_elem_of_fmap.
  - eapply origin_ok_intro; try done. by repeat constructor.
Qed.

Lemma frame_origin_of s k f :
  origin_ok s → frames s !! k = Some f → frame_origin digest s f.
Proof.
  intros (F & _) H. rewrite Forall_forall in F.
  by apply list_elem_of_lookup_2, F in H.
Qed.

Lemma find_by_id (itp : list ImgData) i d :
  itp !! i = Some d →
  ∃ m, find (λ d', String.eqb (i_id d') (i_id d)) itp = Some m ∧
       m ∈ itp ∧ i_id m = i_id d.
Proof.
  intros H. destruct (find _ itp) as [m|] eqn:Fm.
  - apply find_some in Fm as [Hin Heq]. exists m. split_and!; [done| |].
    + by apply list_elem_of_In.
    + by apply String.eqb_eq.
  - apply list_elem_of_lookup_2, list_elem_of_In in H.
    eapply find_none in Fm; [|exact H]. simpl in Fm.
    by rewrite String.eqb_refl in Fm.
Qed.

Lemma meta_key f (itp : list ImgData) d m img :
  NoDup (map id (f_images f)) → Forall (meta_ok digest f) itp →
  m ∈ itp → i_id m = i_id d → img ∈ f_images f → i_id d = id img →
  cacheKey m = keyOf img (f_lang f) (f_useAI f).
Proof.
  intros N M Hm Eid Hi Ed. rewrite Forall_forall in M.
  destruct (M _ Hm) as (img' & Hi' & Eid' & _ & _ & ->).
  assert (img' = img) as ->; [|done].
  apply list_elem_of_lookup_1 in Hi as [j Hj]. apply list_elem_of_lookup_1 in Hi' as [j' Hj'].
  assert (j' = j) as ->; [|congruence].
  eapply NoDup_lookup; [exact N|..].
  - change (map id ?l) with (id <$> l). rewrite list_lookup_fmap, Hj'. simpl. reflexivity.
  - change (map id ?l) with (id <$> l). rewrite list_lookup_fmap, Hj. simpl. congruence.
Qed.

Lemma keyOf_truthy img lang u : truthy (JsStr (keyOf img lang u)) = true.
Proof.
  unfold keyOf, cacheKeyOf. simpl.
  destruct (getFileHash digest (file img)); simpl; [done|done].
Qed.

Lemma last_write_is_Some key t b l st :
  EvCacheSet b l key st ∈ t → is_Some (last_write key t).
Proof.
  intros H. unfold last_write. apply last_is_Some.
  apply list_elem_of_split in H as (t1 & t2 & ->).
  rewrite omap_app. simpl. case_decide; [|done].
  by destruct (omap _ t1).
Qed.

Lemma last_write_event key t l :
  last_write key t = Some l → ∃ b st, EvCacheSet b l key st ∈ t.
Proof.
  unfold last_write. intros H%last_Some_elem_of.
  apply list_elem_of_omap in H as (ev & Hin & E).
  destruct ev; try done. case_decide; simplify_eq. eauto.
Qed.

(** A probe that finds an object under the key of the image found what
    was written there, by an entry with that text. *)
Lemma probe_hit s f img c :
  cache_ok s → EvTake (f_batch f) img ∈ trace s →
  resultCache s !! keyOf img (f_lang f) (f_useAI f) = Some c →
  hit_of digest s (f_batch f) (f_lang f) (f_useAI f) (cachedEntry c img).
Proof.
  intros C Ht Hc. specialize (C (keyOf img (f_lang f) (f_useAI f))).
  destruct (last_write _ _) as [l|] eqn:Hl; [|congruence].
  destruct C as (c' & Hc' & Htxt). simplify_eq.
  destruct (last_write_event _ _ _ Hl) as (b0 & st0 & Hw).
  by exists img, c', b0, l, st0.
Qed.

Lemma frame_taken s k f :
  ids_ok s → frames s !! k = Some f → NoDup (map id (f_images f)).
Proof.
  intros (_ & _ & D) F. rewrite Forall_forall in D.
  apply list_elem_of_lookup_2, D in F as [N _].
  rewrite map_app in N. by apply NoDup_app in N as [N _].
Qed.

Lemma origin_ok_step a s s' :
  Inv s → origin_ok s → step a s = Some s' → origin_ok s'.
Proof.
  intros [I D J T _ _ _ _ C] O H. pose proof (step_grows _ _ _ J H) as G.
  pose proof (step_extends _ _ _ J H) as X.
  apply step_inv in H. destruct a.
  - subst. destruct (addImages_frames files s) as [Ef _].
    destruct (addImages_eq files s) as (ns & E & _).
    eapply origin_ok_frames; try done; try (by rewrite E).
    rewrite Ef. destruct O as (F & _). eapply Forall_impl; [exact F|].
    intros f. apply frame_origin_same; by rewrite E.
  - subst.
    assert (frames (removeImage i s) = frames s ∧ trace (removeImage i s) = trace s ∧
            tasks (removeImage i s) = tasks s ∧ heap (removeImage i s) = heap s)
      as (Ef & Et & Ets & Eh).
    { unfold removeImage. by repeat case_match. }
    eapply origin_ok_frames; try done. rewrite Ef.
    destruct O as (F & _). eapply Forall_impl; [exact F|].
    intros f. by apply frame_origin_same.
  - subst. eapply origin_ok_frames; try done. simpl.
    destruct O as (F & _). apply Forall_fmap.
    eapply Forall_impl; [exact F|]. intros f. by apply frame_origin_leftBehind.
  - subst. eapply origin_ok_frames; try done. simpl.
    destruct O as (F & _). eapply Forall_impl; [exact F|].
    intros f. by apply frame_origin_same.
  - subst. unfold startOcr in *. case_match eqn:Gd; [done|].
    apply orb_false_iff in Gd as [_ P].
    eapply (origin_ok_intro _ _ [_]); [exact G|simpl; reflexivity|exact O|..].
    + simpl. rewrite (frames_nil _ I P). simpl. constructor; [|constructor].
      split_and!; simpl; [|done|done]. eexists. apply elem_of_app. right.
      by apply list_elem_of_singleton.
    + simpl. eapply Forall_impl; [apply tasks_same_origin|]. intros t [?|[]]. by left.
    + by repeat constructor.
  - destruct H as (f & F & P & ->). unfold initializeSettled in *.
    pose proof (frame_origin_of _ _ _ O F) as (Hs & Ht & _).
    destruct (initialize _ _ _ _) as [[e q] [|]].
    + eapply (origin_ok_continueLoop _ _ f _ _ _ (set_ocrEngine e s)); try done.
    + eapply origin_ok_frames; try done. simpl.
      destruct (single_frame_lookup _ _ _ I F) as (E' & -> & _). rewrite E'. constructor.
  - destruct H as (f & img & it & itp & cached & F & P & ->).
    pose proof (frame_origin_of _ _ _ O F) as (Hs & Ht & Hpc). rewrite P in Hpc.
    destruct Hpc as (Hm & Hi & Hh).
    unfold hashSettled in *. case_match eqn:Hc.
    + eapply origin_ok_continueLoop; try done.
      apply Forall_app. split; [done|]. constructor; [|constructor].
      apply probe_hit; [done| |done].
      rewrite Forall_forall in Ht. by apply Ht.
    + eapply origin_ok_frames; try done. simpl.
      destruct (single_frame_lookup _ _ _ I F) as (E' & -> & _). rewrite E'. simpl.
      constructor; [|constructor]. split_and!; simpl; try done.
  - destruct H as (f & img & it & itp & cached & F & P & ->).
    eapply origin_ok_frames; try done. simpl.
    destruct (single_frame_lookup _ _ _ I F) as (E' & -> & _). rewrite E'. constructor.
  - destruct H as (f & img & h & key & it & itp & cached & F & P & ->).
    pose proof (frame_origin_of _ _ _ O F) as (Hs & Ht & Hpc). rewrite P in Hpc.
    destruct Hpc as (Hm & Hi & Hh & -> & ->).
    eapply origin_ok_continueLoop; try done.
    apply Forall_app. split; [done|]. constructor; [|constructor].
    exists img. by split_and!.
  - destruct H as (f & itp & vp & unsettled & completed & F & P & Hi & ->).
    pose proof (frame_origin_of _ _ _ O F) as (Hs & Ht & Hpc). rewrite P in Hpc.
    pose proof (frame_taken _ _ _ D F) as Nf.
    destruct (single_frame_lookup _ _ _ I F) as (E' & -> & _).
    rewrite jobSettled_eq in *. destruct (itp !! i) as [d|] eqn:Hd; cbn zeta in *.
    2:{ eapply origin_ok_frames; try done. simpl. rewrite E'. simpl.
        constructor; [|constructor]. split_and!; simpl; done. }
    destruct (find_by_id _ _ _ Hd) as (m & Fm & Hmin & Hmid).
    pose proof Hpc as Hpc'. rewrite Forall_forall in Hpc'.
    destruct (Hpc' d) as (img & Himg & Eid & Eof & _ & Ekey);
      [by eapply list_elem_of_lookup_2|].
    pose proof (meta_key _ _ _ _ _ Nf Hpc Hmin Hmid Himg Eid) as Hkey.
    assert (EvTake (f_batch f) img ∈ trace s) as Htk.
    { rewrite Forall_forall in Ht. by apply Ht. }
    destruct Hs as [imgs Hs].
    destruct (onImageComplete_images (f_batch f) (f_lang f) (f_useAI f) itp vp
      (i_id d) (resultOrNull (recognizeImage (ocrEngine s) o)) 0 (length itp) s)
      as (_ & _ & Ef & _).
    destruct (recognizeImage (ocrEngine s) o) as [res|msg] eqn:Hr; simpl in *.
    2:{ eapply origin_ok_frames; try done. simpl. rewrite E'. simpl.
        constructor; [|constructor]. split_and!; simpl; eauto. }
    apply recognizeImage_inl in Hr as [d0 ->].
    unfold onImageComplete in *. rewrite Fm in *. simpl in *.
    set (e := newResultEntry _ _ _ _) in *.
    assert (get e "id" = JsStr (id img)) as He.
    { unfold e. by rewrite newResultEntry_id, Eid. }
    assert (∀ s1, (∃ evs, trace s1 = trace s ++ evs) →
                  heap s1 = heap s ++ [e] →
                  entry_of s1 (f_batch f) (length (heap s)) img (f_lang f) (f_useAI f)) as Hentry.
    { intros s1 [evs Et] Eh. exists imgs. rewrite Et, !elem_of_app. split_and!; [by left|by left| |].
      - rewrite Eh, length_app. simpl. lia.
      - unfold field. rewrite Eh, list_lookup_middle by done. done. }
    destruct (f_useAI f && _) eqn:Gu.
    + apply andb_true_iff in Gu as [Hu _].
      eapply (origin_ok_intro _ _ [_]); [exact G|simpl; reflexivity|exact O|..].
      * simpl. rewrite E'. simpl. constructor; [|constructor].
        split_and!; simpl; [exists imgs; rewrite !elem_of_app; auto| |done].
        eapply Forall_impl; [exact Ht|]. intros x Hx. simpl in *.
        rewrite !elem_of_app; auto.
      * simpl. apply Forall_app. split.
        -- eapply Forall_impl; [apply tasks_same_origin|]. intros t [?|[]]. by left.
        -- constructor; [|constructor]. right. exists img. simpl. split.
           ++ rewrite <- Hu. apply Hentry; simpl; eauto.
           ++ by rewrite Hkey, Hu.
      * by repeat constructor.
    + eapply (origin_ok_intro _ _ [_; _]); [exact G|simpl; by rewrite <- app_assoc|exact O|..].
      * simpl. rewrite E'. simpl. constructor; [|constructor].
        split_and!; simpl; [exists imgs; rewrite !elem_of_app; auto| |done].
        eapply Forall_impl; [exact Ht|]. intros x Hx. simpl in *.
        rewrite !elem_of_app; auto.
      * simpl. eapply Forall_impl; [apply tasks_same_origin|]. intros t [?|[]]. by left.
      * constructor; [done|]. constructor; [|constructor]. simpl.
        exists img, (f_lang f), (f_useAI f). split; [|done].
        apply Hentry; simpl; [|done]. eexists. by rewrite <- app_assoc.
  - destruct H as (f & itp & vp & completed & F & P & ->).
    eapply origin_ok_frames; try done. simpl.
    destruct (single_frame_lookup _ _ _ I F) as (E' & -> & _). rewrite E'. constructor.
  - destruct H as (t & Ht & P & ->).
    pose proof J as (R & N & Ts).
    pose proof (proj1 (Forall_lookup _ _) Ts _ _ Ht) as (o' & Ho & _).
    destruct (afterVision_trace tk t (visionTextOf o) s) as (evs & Et & _).
    assert (Forall (write_origin digest (afterVision tk t (visionTextOf o) s)) evs) as Hw.
    { revert Et. unfold afterVision, settleStatus. repeat case_match; simpl; intros Et.
      - assert (evs = []) as -> by (by apply (app_inv_head (trace s)); rewrite app_nil_r). constructor.
      - apply app_inv_head in Et. subst. by repeat constructor.
      - apply app_inv_head in Et. subst. by repeat constructor. }
    eapply origin_ok_intro; [exact G|exact Et|exact O| | |exact Hw].
    + destruct O as (Fo & _). 
      assert (frames (afterVision tk t (visionTextOf o) s) = frames s) as ->.
      { unfold afterVision, settleStatus. by repeat case_match. }
      eapply Forall_impl; [exact Fo|]. intros f. by apply frame_origin_grows.
    + apply Forall_forall. intros t' Hin. left.
      assert (t' ∈ delete tk (tasks s) ∨ (∃ st, t' = with_stage st t)) as [Hd|[st ->]].
      { revert Hin. unfold afterVision, settleStatus. repeat case_match; simpl; intros Hin; auto.
        apply elem_of_insert_delete in Hin as [->|?]; eauto. }
      * exists t'. split; [by eapply list_elem_of_delete_inv|done].
      * exists t. split; [by eapply list_elem_of_lookup_2|done].
  - destruct H as (t & ocr & v & Ht & P & ->).
    pose proof J as (R & N & Ts).
    pose proof (proj1 (Forall_lookup _ _) Ts _ _ Ht) as (o' & Ho & _).
    destruct O as (Fo & To & Wo).
    pose proof (proj1 (Forall_lookup _ _) To _ _ Ht) as (img & Hent & Hk).
    destruct (afterMerge_trace tk t ocr v o s) as (evs & Et & _).
    assert (Forall (write_origin digest (afterMerge tk t ocr v o s)) evs) as Hw.
    { assert (entry_of (afterMerge tk t ocr v o s) (t_batch t) (t_entry t) img (t_lang t) true)
        as Hent' by by eapply entry_of_grows.
      revert Et Hent'. unfold afterMerge, cacheMerged, settleStatus.
      rewrite Hk, keyOf_truthy.
      destruct o as [|trimmed]; simpl.
      - intros Et _. apply app_inv_head in Et. subst. by repeat constructor.
      - rewrite list_lookup_alter_eq. 
        rewrite !list_lookup_alter_eq. rewrite Ho. simpl.
        intros Et Hent'. rewrite <- app_assoc in Et. apply app_inv_head in Et. subst.
        constructor; [done|]. constructor; [|constructor]. simpl.
        exists img, (t_lang t), true. done. }
    eapply origin_ok_intro; [exact G|exact Et|by split_and!| | |exact Hw].
    + assert (frames (afterMerge tk t ocr v o s) = frames s) as ->.
      { unfold afterMerge, cacheMerged, settleStatus. by repeat case_match. }
      eapply Forall_impl; [exact Fo|]. intros f. by apply frame_origin_grows.
    + apply Forall_forall. intros t' Hin. left.
      assert (t' ∈ delete tk (tasks s)) as Hd.
      { revert Hin. unfold afterMerge, cacheMerged, settleStatus. by repeat case_match. }
      exists t'. split; [by eapply list_elem_of_delete_inv|done].
Qed.

Lemma origin_ok_initial hc : origin_ok (initialState hc).
Proof. split_and!; constructor. Qed.

(** ** Entries shown as cache hits *)

Lemma shown_origin_grows s s' ev :
  grows s s' → extends s s' → trace_ok s →
  shown_origin digest s ev → shown_origin digest s' ev.
Proof.
  intros G X T. destruct ev as [| |b l []| |]; simpl; try done.
  intros (Hn & o & imgs & lang & u & Ho & Hs & Hh).
  pose proof X as (_ & _ & X'). pose proof G as ([evs Et] & _).
  destruct (X' l) as [Hn' E]; [by eapply lookup_lt_Some|done|].
  split; [done|]. exists o, imgs, lang, u. split_and!.
  - by rewrite E.
  - rewrite Et. apply elem_of_app. by left.
  - by eapply hit_of_grows.
Qed.

Lemma hits_ok_more s s' evs :
  grows s s' → extends s s' → trace_ok s → trace s' = trace s ++ evs →
  Forall (shown_origin digest s') evs → hits_ok s → hits_ok s'.
Proof.
  intros G X T Et Hevs H. unfold hits_ok. rewrite Et. apply Forall_app. split; [|done].
  eapply Forall_impl; [exact H|]. intros ev. by apply shown_origin_grows.
Qed.

Lemma hits_ok_quiet s s' evs :
  grows s s' → extends s s' → trace_ok s → trace s' = trace s ++ evs →
  Forall (λ ev, ¬ is_hit ev) evs → hits_ok s → hits_ok s'.
Proof.
  intros G X T Et Hevs. apply (hits_ok_more s s' evs); try done.
  eapply Forall_impl; [exact Hevs|]. intros [| |b l []| |]; simpl; try done.
Qed.

Lemma hits_ok_same s s' :
  grows s s' → extends s s' → trace_ok s → trace s' = trace s →
  hits_ok s → hits_ok s'.
Proof.
  intros G X T Et. apply (hits_ok_quiet s s' []); try done.
  by rewrite app_nil_r.
Qed.

Lemma hits_ok_continueLoop k f it itp cached s :
  heap_ok s → trace_ok s →
  (∃ imgs, EvStart (f_batch f) imgs (f_lang f) (f_useAI f) ∈ trace s) →
  Forall (hit_of digest s (f_batch f) (f_lang f) (f_useAI f)) cached →
  hits_ok s → hits_ok (continueLoop k f it itp cached s).
Proof.
  intros J T [imgs Hs] Hh H.
  pose proof (grows_continueLoop k f it itp cached s) as G.
  pose proof (extends_continueLoop k f it itp cached s) as X.
  destruct (continueLoop_trace k f it itp cached s) as (_ & Ets & _ & HH).
  cbn zeta in *. remember (continueLoop k f it itp cached s) as s' eqn:Es'. clear Es'.
  destruct HH as [(_ & Eh & Et)|(img & _ & _ & Et)].
  - eapply hits_ok_more; try done.
    apply Forall_forall. intros ev (l & -> & Hl)%list_elem_of_fmap.
    apply elem_of_seq in Hl. simpl. split.
    + rewrite Ets. destruct J as (_ & _ & Ts). intros Hin.
      apply list_elem_of_fmap in Hin as (t & -> & Hin).
      rewrite Forall_forall in Ts. destruct (Ts _ Hin) as (o' & Ho' & _).
      apply lookup_lt_Some in Ho'. lia.
    + destruct (lookup_lt_is_Some_2 cached (l - length (heap s))) as [o Ho]; [lia|].
      exists o, imgs, (f_lang f), (f_useAI f). split_and!.
      * rewrite Eh, lookup_app_r by lia. done.
      * rewrite Et. apply elem_of_app. by left.
      * eapply hit_of_grows; try done.
        rewrite Forall_forall in Hh. by eapply Hh, list_elem_of_lookup_2.
  - eapply hits_ok_quiet; try done. not_hits.
Qed.

Lemma hits_ok_step a s s' :
  Inv s → origin_ok s → hits_ok s → step a s = Some s' → hits_ok s'.
Proof.
  intros [I D J T _ _ _ _ C] O Hk H. pose proof (step_grows _ _ _ J H) as G.
  pose proof (step_extends _ _ _ J H) as X.
  apply step_inv in H. destruct a.
  - subst. destruct (addImages_eq files s) as (ns & E & _).
    eapply hits_ok_same; try done. by rewrite E.
  - subst. eapply hits_ok_same; try done.
    unfold removeImage. by repeat case_match.
  - subst. by eapply hits_ok_same.
  - subst. by eapply hits_ok_same.
  - subst. unfold startOcr in *. case_match; [done|].
    eapply (hits_ok_quiet _ _ [_]); try done. not_hits.
  - destruct H as (f & F & P & ->). unfold initializeSettled in *.
    pose proof (frame_origin_of _ _ _ O F) as (Hs & Ht & _).
    destruct (initialize _ _ _ _) as [[e q] [|]].
    + by eapply (hits_ok_continueLoop _ _ _ _ _ (set_ocrEngine e s)).
    + by eapply hits_ok_same.
  - destruct H as (f & img & it & itp & cached & F & P & ->).
    pose proof (frame_origin_of _ _ _ O F) as (Hs & Ht & Hpc). rewrite P in Hpc.
    destruct Hpc as (Hm & Hi & Hh).
    unfold hashSettled in *. case_match eqn:Hc.
    + eapply hits_ok_continueLoop; try done.
      apply Forall_app. split; [done|]. constructor; [|constructor].
      apply probe_hit; [done| |done].
      rewrite Forall_forall in Ht. by apply Ht.
    + by eapply hits_ok_same.
  - destruct H as (f & img & it & itp & cached & F & P & ->).
    by eapply hits_ok_same.
  - destruct H as (f & img & h & key & it & itp & cached & F & P & ->).
    pose proof (frame_origin_of _ _ _ O F) as (Hs & Ht & Hpc). rewrite P in Hpc.
    destruct Hpc as (Hm & Hi & Hh & -> & ->).
    by eapply hits_ok_continueLoop.
  - destruct H as (f & itp & vp & unsettled & completed & F & P & Hi & ->).
    rewrite jobSettled_eq in *. destruct (itp !! i) as [d|] eqn:Hd; cbn zeta in *;
      [|by eapply hits_ok_same].
    destruct (onImageComplete_trace (f_batch f) (f_lang f) (f_useAI f) itp vp
        (i_id d) (resultOrNull (recognizeImage (ocrEngine s) o)) i (length itp) s)
      as (evs & Et & Hevs).
    by eapply hits_ok_quiet.
  - destruct H as (f & itp & vp & completed & F & P & ->).
    by eapply hits_ok_same.
  - destruct H as (t & Ht & P & ->).
    destruct (afterVision_trace tk t (visionTextOf o) s) as (evs & Et & Hevs).
    by eapply hits_ok_quiet.
  - destruct H as (t & ocr & v & Ht & P & ->).
    destruct (afterMerge_trace tk t ocr v o s) as (evs & Et & Hevs).
    by eapply hits_ok_quiet.
Qed.

Lemma reachable_origin_hits s : reachable s → origin_ok s ∧ hits_ok s.
Proof.
  intros (hc & acts & H).
  assert (∀ acts s0 s1, Inv s0 → origin_ok s0 ∧ hits_ok s0 → run acts s0 = Some s1 →
                         origin_ok s1 ∧ hits_ok s1) as G.
  { clear. induction acts as [|a acts IH]; intros s0 s1 I [O Hk] H; simpl in H.
    - by simplify_eq.
    - destruct (step a s0) as [s2|] eqn:E; [|done]. simpl in H.
      eapply IH; [| |exact H].
      + by eapply Inv_step.
      + split; [by eapply origin_ok_step|by eapply hits_ok_step]. }
  eapply G; [apply Inv_initial| |exact H].
  split; [apply origin_ok_initial|constructor].
Qed.

Lemma reachable_origin s : reachable s → origin_ok s.
Proof. intros H. by apply reachable_origin_hits. Qed.

Lemma reachable_hits s : reachable s → hits_ok s.
Proof. intros H. by apply reachable_origin_hits. Qed.

(** C10. Calling [startOcr] while a batch is in flight ([isProcessing])
    or with an empty gallery changes nothing at all: the state after the
    call is the state before it.  As a consequence at most one
    activation of [startOcr] is ever suspended, and [isProcessing] is
    true exactly while there is one. *)
Theorem startOcr_guarded s lang geminiAvailable :
  reachable s →
  ((images s = [] ∨ isProcessing s = true) →
   step (StartOcr lang geminiAvailable) s = Some s) ∧
  length (frames s) ≤ 1 ∧
  (isProcessing s = true ↔ frames s ≠ []).
Proof.
  intros R%reachable_Inv. split_and!.
  - intros G. simpl. unfold startOcr. f_equal.
    destruct G as [-> | ->]; simpl; [done|].
    by rewrite orb_true_r.
  - destruct (inv_single _ R) as [[-> _]|(f & -> & _)]; simpl; lia.
  - destruct (inv_single _ R) as [[-> ->]|(f & -> & ->)]; split; done.
Qed.

(** C8. In the log of any reachable state, every cache hit of a batch is
    shown before anything is shown for a cache miss of the same batch,
    be it the entry as recognized (which is final in primary-only mode)
    or the outcome of its refinement. *)
Theorem hits_before_misses s i j b l ev :
  reachable s →
  trace s !! i = Some (EvAppend b l true) →
  trace s !! j = Some ev →
  is_miss b ev →
  i < j.
Proof.
  intros R%reachable_Inv. apply (inv_hits _ R).
Qed.

Lemma continueLoop_ends k f f0 it itp cached s :
  single_frame s → results s = [] → frames s !! k = Some f0 →
  frames (continueLoop k f it itp cached s) = [] →
  walked (iterated it) s !! nextIndex it = None ∧ itp = [] ∧
  resultIds (continueLoop k f it itp cached s) = map (λ o, get o "id") cached ∧
  results (continueLoop k f it itp cached s) = seq (length (heap s)) (length cached).
Proof.
  intros I R F. destruct (single_frame_lookup _ _ _ I F) as (E' & -> & _).
  open_loop. case_match; [|case_bool_decide as Hl]; simpl; rewrite E'; simpl;
    try done.
  intros _. split_and!; [done|destruct itp; simpl in *; [done|lia]| |by rewrite R].
  unfold resultIds. simpl. rewrite R. simpl. by erewrite fields_of_pushed.
Qed.

Lemma idVals_NoDup imgs : NoDup (map id imgs) → NoDup (idVals imgs).
Proof.
  intros N. unfold idVals.
  assert (map (λ img, JsStr (id img)) imgs = JsStr <$> (map id imgs)) as ->.
  { by rewrite <- list_fmap_compose. }
  apply NoDup_fmap_2; [|done]. by intros ?? [=].
Qed.

Ltac same_frame F' :=
  match goal with
  | I : single_frame ?s, E : frames ?s = [_] |- _ =>
      let E2 := fresh in
      destruct (single_frame_lookup _ _ _ I F') as (E2 & -> & _);
      rewrite E in E2; simplify_eq
  end.

(** *** A batch during which the gallery is left alone *)

Lemma undisturbed_same imgs s s' :
  images s' = images s → frames s' = frames s →
  undisturbed imgs s → undisturbed imgs s'.
Proof. intros Ei Ef [? ?]. split; by rewrite ?Ei, ?Ef. Qed.

Lemma undisturbed_continueLoop k f f0 it itp cached s :
  single_frame s → frames s !! k = Some f0 →
  f_dropped f = [] → iterated it = Live →
  f_images f = take (nextIndex it) (images s) →
  undisturbed (images s) (continueLoop k f it itp cached s).
Proof.
  intros I F Fd Hl Ht. destruct (single_frame_lookup _ _ _ I F) as (E' & -> & _).
  open_loop. rewrite Hl. simpl. case_match eqn:Hi; [|case_bool_decide]; simpl;
    (split; [done|]); rewrite E'; simpl; repeat constructor; simpl; try done.
  - rewrite Ht, Nat.add_1_r. symmetry. by apply take_S_r.
  - rewrite Ht. apply take_ge. by apply lookup_ge_None.
Qed.

Lemma undisturbed_step imgs a s s' :
  single_frame s → undisturbed imgs s → editsGallery a = false →
  step a s = Some s' → undisturbed imgs s'.
Proof.
  intros I [Ei U] G H. apply step_inv in H. destruct a; try done.
  - subst. by split.
  - subst. unfold startOcr. case_match; [by split|]. split; [done|]. simpl.
    apply Forall_app. split; [done|]. by repeat constructor.
  - destruct H as (f & F & P & ->). unfold initializeSettled.
    pose proof (proj1 (Forall_lookup _ _) U _ _ F) as [Fd W]. rewrite P in W.
    destruct (single_frame_lookup _ _ _ I F) as (E' & -> & _).
    destruct (initialize _ _ _ _) as [[e q] [|]].
    + rewrite <- Ei.
      by apply (undisturbed_continueLoop 0 f f _ _ _ (set_ocrEngine e s)).
    + split; [done|]. simpl. rewrite E'. constructor.
  - destruct H as (f & img & it & itp & cached & F & P & ->).
    pose proof (proj1 (Forall_lookup _ _) U _ _ F) as [Fd W]. rewrite P in W.
    destruct W as [Hl Ht].
    destruct (single_frame_lookup _ _ _ I F) as (E' & -> & _).
    unfold hashSettled. case_match.
    + rewrite <- Ei. eapply undisturbed_continueLoop; try done. by rewrite Ei.
    + split; [done|]. simpl. rewrite E'. simpl. by repeat constructor.
  - destruct H as (f & img & it & itp & cached & F & P & ->).
    destruct (single_frame_lookup _ _ _ I F) as (E' & -> & _).
    split; [done|]. simpl. rewrite E'. constructor.
  - destruct H as (f & img & h & key & it & itp & cached & F & P & ->).
    pose proof (proj1 (Forall_lookup _ _) U _ _ F) as [Fd W]. rewrite P in W.
    destruct W as [Hl Ht]. unfold resizeSettled.
    rewrite <- Ei. eapply undisturbed_continueLoop; try done. by rewrite Ei.
  - destruct H as (f & itp & vp & unsettled & completed & F & P & Hi & ->).
    pose proof (proj1 (Forall_lookup _ _) U _ _ F) as [Fd W]. rewrite P in W.
    destruct (single_frame_lookup _ _ _ I F) as (E' & -> & _).
    rewrite jobSettled_eq. case_match; cbn zeta.
    + destruct (onImageComplete_images (f_batch f) (f_lang f) (f_useAI f) itp vp
        (i_id i0) (resultOrNull (recognizeImage (ocrEngine s) o)) i (length itp) s)
        as (Eim & _ & Ef & _). cbn zeta in *.
      split; simpl; [by rewrite Eim|]. rewrite Ef, E'. simpl. by repeat constructor.
    + split; [done|]. simpl. rewrite E'. simpl. by repeat constructor.
  - destruct H as (f & itp & vp & completed & F & P & ->).
    destruct (single_frame_lookup _ _ _ I F) as (E' & -> & _).
    split; [done|]. simpl. rewrite E'. constructor.
  - destruct H as (t & Ht & P & ->).
    apply (undisturbed_same imgs s); [| |by split];
      unfold afterVision, settleStatus; by repeat case_match.
  - destruct H as (t & ocr & v & Ht & P & ->).
    apply (undisturbed_same imgs s); [| |by split];
      unfold afterMerge, cacheMerged, settleStatus; by repeat case_match.
Qed.

Lemma undisturbed_run imgs acts s s' :
  Inv s → undisturbed imgs s → Forall (λ a, editsGallery a = false) acts →
  run acts s = Some s' → undisturbed imgs s'.
Proof.
  revert s. induction acts as [|a acts IH]; intros s I U G H; simpl in H.
  - by simplify_eq.
  - destruct (step a s) as [s1|] eqn:E; [|done]. simpl in H.
    apply Forall_cons in G as [Ga G].
    eapply IH; [| |exact G|exact H].
    + by eapply Inv_step.
    + eapply undisturbed_step; [apply I|done..].
Qed.

Lemma reachable_run acts s s' : reachable s → run acts s = Some s' → reachable s'.
Proof.
  revert s. induction acts as [|a acts IH]; intros s R H; simpl in H.
  - by simplify_eq.
  - destruct (step a s) as [s1|] eqn:E; [|done]. simpl in H.
    eapply IH; [|exact H]. by eapply reachable_step.
Qed.

(** C1, as the code has it.  Take the step by which a batch returns,
    its engine initialization having succeeded and no fingerprint
    computation having failed.  Of the images the probing loop took up,
    each has exactly one entry in the result list, unless its
    recognition job rejected ([f_failed]) or [clearAllImages] took its
    entry off the list while the batch was running ([f_dropped]); no id
    occurs twice.  If moreover the gallery was left alone since a state
    [s0] in which no batch was running, the loop took up every image of
    the gallery as it was: the entries and the images whose job rejected
    are the images of the batch, each once. *)
Theorem batch_results_exactly_once s0 acts s a s' k f :
  reachable s0 → isProcessing s0 = false →
  run acts s0 = Some s →
  frames s !! k = Some f →
  step a s = Some s' →
  frames s' = [] →
  (∀ k' failAt, a = InitializeSettled k' failAt →
     (initialize rev (f_lang f) failAt (ocrEngine s)).2 = true) →
  (∀ k', a ≠ HashRejected k') →
  (resultIds s' ++ map JsStr (f_failed f) ++ f_dropped f ≡ₚ idVals (f_images f) ∧
   NoDup (resultIds s') ∧
   Forall (λ img, EvTake (f_batch f) img ∈ trace s) (f_images f)) ∧
  (Forall (λ a, editsGallery a = false) acts →
   f_images f = images s0 ∧ f_dropped f = [] ∧
   resultIds s' ++ map JsStr (f_failed f) ≡ₚ idVals (images s0) ∧
   length (results s') + length (f_failed f) = length (images s0)).
Proof.
  intros R0 P0 Hrun F H E Hinit Hrej.
  pose proof (reachable_run _ _ _ R0 Hrun) as Rs.
  pose proof (reachable_origin _ Rs) as O.
  pose proof (reachable_Inv _ Rs) as R.
  destruct (single_frame_lookup _ _ _ (inv_single _ R) F) as (E' & -> & P).
  pose proof (inv_single _ R) as I.
  pose proof (accounted_frame _ _ _ (inv_accounted _ R) F) as A.
  assert (resultIds s' ++ map JsStr (f_failed f) ++ f_dropped f ≡ₚ idVals (f_images f) ∧
          (undisturbed (images s0) s → f_images f = images s0 ∧ f_dropped f = []))
    as [Pm Hu].
  { apply step_inv in H. destruct a.
    - subst. destruct (addImages_frames files s) as [Ef _]. congruence.
    - subst. assert (frames (removeImage i s) = frames s) as Ef.
      { unfold removeImage. by repeat case_match. }
      congruence.
    - subst. simpl in E. rewrite E' in E. done.
    - subst. simpl in E. congruence.
    - subst. unfold startOcr in E. rewrite P, orb_true_r in E. congruence.
    - destruct H as (f' & F' & P' & ->). same_frame F'.
      specialize (Hinit _ _ eq_refl). unfold initializeSettled in *.
      destruct (initialize _ _ _ _) as [[e q] ok]. destruct ok; [|by simpl in Hinit].
      unfold accounted in A. rewrite P' in A. destruct A as (Rs' & Ff & Fd & Fi).
      destruct (continueLoop_ends 0 f' f' (mkIter Live 0) [] []
                  (set_ocrEngine e s)) as (Ht & _ & -> & _); try done.
      simpl in Ht. rewrite Ff, Fd, Fi. split; [done|].
      intros [Ei _]. rewrite <- Ei. by destruct (images s).
    - destruct H as (f' & img & it & itp & cached & F' & P' & ->). same_frame F'.
      unfold accounted in A. rewrite P' in A. destruct A as (Rs' & Ff & Fd & Pm).
      unfold hashSettled in *. case_match.
      + destruct (continueLoop_ends 0 f' f' it itp
                    (cached ++ [cachedEntry g img]) s) as (Hn & -> & -> & _); try done.
        split.
        * rewrite Ff, Fd, <- Pm, map_app. simpl. rewrite cachedEntry_id, !app_nil_r. done.
        * intros [Ei U]. rewrite E' in U. apply Forall_cons in U as [[_ W] _].
          rewrite P' in W. destruct W as [Hl Ht]. rewrite Hl in Hn. simpl in Hn.
          split; [|done]. rewrite Ht, <- Ei. apply take_ge. by apply lookup_ge_None.
      + simpl in E. rewrite E' in E. done.
    - by destruct (Hrej k).
    - destruct H as (f' & img & h & key & it & itp & cached & F' & P' & ->). same_frame F'.
      unfold accounted in A. rewrite P' in A. destruct A as (Rs' & Ff & Fd & Pm).
      destruct (continueLoop_ends 0 f' f' it
        (itp ++ [mkImgData (resizedFile (file img) resized) (id img) (file img) h key])
        cached s) as (_ & Hn & _); try done.
      by destruct itp.
    - destruct H as (f' & itp & vp & unsettled & completed & F' & P' & Hi & ->).
      same_frame F'.
      rewrite jobSettled_eq in E. case_match; cbn zeta in E; simpl in E.
      + destruct (onImageComplete_images (f_batch f') (f_lang f') (f_useAI f') itp vp
          (i_id i0) (resultOrNull (recognizeImage (ocrEngine s) o)) i (length itp) s)
          as (_ & _ & Ef & _). cbn zeta in Ef. rewrite Ef, E' in E. done.
      + rewrite E' in E. done.
    - destruct H as (f' & itp & vp & completed & F' & P' & ->). same_frame F'.
      unfold accounted in A. rewrite P' in A. destruct A as (_ & _ & Pm).
      unfold pendingIds in Pm. simpl in Pm. split; [done|].
      intros [Ei U]. rewrite E' in U. apply Forall_cons in U as [[Fd W] _].
      by rewrite P' in W.
    - destruct H as (t & T & P' & ->).
      assert (frames (afterVision tk t (visionTextOf o) s) = frames s) as Ef.
      { unfold afterVision, settleStatus. by repeat case_match. }
      congruence.
    - destruct H as (t & ocr & v & T & P' & ->).
      assert (frames (afterMerge tk t ocr v o s) = frames s) as Ef.
      { unfold afterMerge, cacheMerged, settleStatus. by repeat case_match. }
      congruence. }
  assert (NoDup (resultIds s')) as Nd.
  { pose proof (frame_taken _ _ _ (inv_ids _ R) F) as N.
    apply idVals_NoDup in N. rewrite <- Pm in N. by apply NoDup_app in N as [? _]. }
  split; [split_and!; [done|done|]|].
  - by destruct (frame_origin_of _ _ _ O F) as (_ & Ht & _).
  - intros G.
    assert (undisturbed (images s0) s) as U.
    { eapply (undisturbed_run _ acts s0 s); [by apply reachable_Inv| |exact G|exact Hrun].
      split; [done|]. pose proof (reachable_Inv _ R0) as R0'.
      rewrite (frames_nil _ (inv_single _ R0') P0). constructor. }
    destruct (Hu U) as [Ei Fd]. rewrite Fd, app_nil_r, Ei in Pm.
    split_and!; [done..|].
    apply Permutation_length in Pm. unfold resultIds, idVals in Pm.
    rewrite length_app, !length_map in Pm. done.
Qed.


Lemma omap_NoDup_lookup {A B} (g : A → option B) (t : list A) i j x y l :
  NoDup (omap g t) → t !! i = Some x → t !! j = Some y →
  g x = Some l → g y = Some l → i = j.
Proof.
  revert i j. induction t as [|a t IH]; intros i j N Hi Hj Gx Gy; [done|].
  simpl in N. destruct i as [|i], j as [|j]; simpl in *; simplify_eq.
  - done.
  - rewrite Gx in N. apply NoDup_cons in N as [N _]. destruct N.
    apply list_elem_of_omap. exists y. split; [by eapply list_elem_of_lookup_2|done].
  - rewrite Gy in N. apply NoDup_cons in N as [N _]. destruct N.
    apply list_elem_of_omap. exists x. split; [by eapply list_elem_of_lookup_2|done].
  - f_equal. eapply IH; eauto. destruct (g a); [by apply NoDup_cons in N as [_ N]|done].
Qed.

Lemma event_ok_lookup s i ev :
  trace_ok s → trace s !! i = Some ev → event_ok s ev.
Proof.
  intros (T & _) H. rewrite Forall_forall in T. by apply list_elem_of_lookup_2, T in H.
Qed.

Lemma task_key s tk t :
  origin_ok s → tasks s !! tk = Some t →
  ∃ img, t_cacheKey t = JsStr (keyOf img (t_lang t) true) ∧
         entry_of s (t_batch t) (t_entry t) img (t_lang t) true.
Proof.
  intros (_ & T & _) H. rewrite Forall_forall in T.
  apply list_elem_of_lookup_2, T in H as (img & ? & ?). eauto.
Qed.

(** C2, as the code has it.  In every reachable state:
    - an entry is written to the cache at most once;
    - a cache write directly follows the event that settled its entry,
      which is the creation of the entry with status [disabled] or the
      end of its refinement with status [done]; the entry has kept that
      status, no refinement is suspended on it, and the key is the
      (fingerprint, language, mode) key of the image the entry was made
      for;
    - an entry whose refinement ended [failed] is never written;
    - when a recognition job resolves in primary-only mode the entry is
      written at once, and so it is when the merge call returns. *)
Theorem cache_write_discipline s :
  reachable s →
  (∀ i j b b' l key key' st st',
     trace s !! i = Some (EvCacheSet b l key st) →
     trace s !! j = Some (EvCacheSet b' l key' st') → i = j) ∧
  (∀ i b l key st,
     trace s !! i = Some (EvCacheSet b l key st) →
     (∃ j, i = S j ∧
           ((st = JsStr "done" ∧ trace s !! j = Some (EvStatus b l "done")) ∨
            (st = JsStr "disabled" ∧ trace s !! j = Some (EvAppend b l false)))) ∧
     field l "aiStatus" s = st ∧
     (l ∉ map t_entry (tasks s)) ∧
     ∃ img lang useAI,
       entry_of s b l img lang useAI ∧ key = keyOf img lang useAI) ∧
  (∀ j b l, trace s !! j = Some (EvStatus b l "failed") →
            l ∉ writeLocs (trace s)) ∧
  (∀ k f itp vp unsettled completed i o r,
     frames s !! k = Some f →
     f_pc f = AtRecognizeBatch itp vp unsettled completed →
     i ∈ unsettled → f_useAI f = false →
     recognizeImage (ocrEngine s) o = inl r →
     ∃ s' key,
       step (JobSettled k i o) s = Some s' ∧
       trace s' = trace s ++ [EvAppend (f_batch f) (length (heap s)) false;
                              EvCacheSet (f_batch f) (length (heap s)) key
                                (JsStr "disabled")]) ∧
  (∀ tk t ocr v trimmed,
     tasks s !! tk = Some t → t_stage t = AwaitMerge ocr v →
     ∃ s' key,
       step (MergeSettled tk (MergeResponse trimmed)) s = Some s' ∧
       trace s' = trace s ++ [EvStatus (t_batch t) (t_entry t) "done";
                              EvCacheSet (t_batch t) (t_entry t) key
                                (JsStr "done")]).
Proof.
  intros R. pose proof (reachable_origin _ R) as O.
  apply reachable_Inv in R. pose proof (inv_trace _ R) as T.
  destruct T as (Te & Tn & Tw). split_and!.
  - intros i j b b' l key key' st st' Hi Hj.
    by eapply (omap_NoDup_lookup _ _ _ _ _ _ l Tn Hi Hj).
  - intros i b l key st Hi. split_and!.
    + by eapply Tw.
    + pose proof (event_ok_lookup _ _ _ (inv_trace _ R) Hi) as Hev. simpl in Hev. tauto.
    + pose proof (event_ok_lookup _ _ _ (inv_trace _ R) Hi) as Hev. simpl in Hev. tauto.
    + destruct O as (_ & _ & W). rewrite Forall_forall in W.
      by apply list_elem_of_lookup_2, W in Hi.
  - intros j b l Hj Hw. apply writeLocs_elem in Hw as (b' & key & st & Hin).
    apply list_elem_of_lookup_1 in Hin as [i Hi].
    pose proof (event_ok_lookup _ _ _ (inv_trace _ R) Hi) as Hev.
    pose proof (event_ok_lookup _ _ _ (inv_trace _ R) Hj) as Hev'.
    simpl in *. destruct Hev as (_ & _ & _ & E1 & [-> | ->]), Hev' as (_ & _ & _ & E2 & _);
      rewrite E1 in E2; done.
  - intros k f itp vp unsettled completed i o r F P Hi Hu Hr.
    assert (is_Some (itp !! i)) as [d Hd].
    { pose proof (accounted_frame _ _ _ (inv_accounted _ R) F) as A.
      unfold accounted in A. rewrite P in A. destruct A as (_ & L & _).
      apply lookup_lt_is_Some_2. rewrite Forall_forall in L. by apply L. }
    destruct (find_by_id _ _ _ Hd) as (m & Fm & _).
    exists (jobSettled k f itp vp unsettled completed i o s), (cacheKey m). split.
    + cbn -[jobSettled]. rewrite F. cbn -[jobSettled]. rewrite P.
      by rewrite bool_decide_eq_true_2 by done.
    + rewrite jobSettled_eq, Hd. cbn zeta. rewrite Hr. simpl.
      unfold onImageComplete. rewrite Hu, Fm. cbn [andb resultOrNull].
      rewrite newResultEntry_aiStatus. simpl. by rewrite <- app_assoc.
  - intros tk t ocr v trimmed Ht Hst.
    destruct (task_key _ _ _ O Ht) as (img & Hk & _).
    pose proof (inv_heap _ R) as (_ & _ & Ts).
    pose proof (proj1 (Forall_lookup _ _) Ts _ _ Ht) as (o' & Ho & _).
    exists (afterMerge tk t ocr v (MergeResponse trimmed) s), (keyOf img (t_lang t) true).
    split.
    + cbn -[afterMerge]. rewrite Ht. cbn -[afterMerge]. by rewrite Hst.
    + rewrite (afterMerge_eq _ _ _ _ _ _ _ Ho). cbn zeta.
      rewrite Hk, keyOf_truthy. simpl. by rewrite <- app_assoc.
Qed.

Lemma task_entry s tk t :
  heap_ok s → tasks s !! tk = Some t →
  ∃ o, heap s !! t_entry t = Some o ∧
       get o "aiStatus" = JsStr "pending" ∧ get o "text" = get o "ocrText".
Proof.
  intros (_ & _ & Ts) Ht.
  pose proof (proj1 (Forall_lookup _ _) Ts _ _ Ht) as (o & ? & ? & ? & _). eauto.
Qed.

(** C3, as the code has it.  A refinement waiting for the vision
    transcript of an entry whose primary transcript is empty (the
    recognition job resolved, with an empty text), and receiving a
    non-empty vision transcript [v], ends at once: the entry's [text]
    and [mergedText] are [v] and its [aiStatus] is [done].  A
    recognition job that rejects is another matter: when it settles no
    entry is made and no refinement is started, so nothing is there to
    take the vision transcript of the image. *)
Theorem vision_adopted_when_primary_empty s :
  reachable s →
  (∀ tk t o v,
     tasks s !! tk = Some t →
     t_stage t = AwaitVision →
     field (t_entry t) "ocrText" s = JsStr "" →
     visionTextOf o = v → v ≠ "" →
     ∃ s', step (VisionSettled tk o) s = Some s' ∧
           field (t_entry t) "text" s' = JsStr v ∧
           field (t_entry t) "mergedText" s' = JsStr v ∧
           field (t_entry t) "aiStatus" s' = JsStr "done" ∧
           t_entry t ∉ map t_entry (tasks s')) ∧
  (∀ k f itp vp unsettled completed i o m,
     frames s !! k = Some f →
     f_pc f = AtRecognizeBatch itp vp unsettled completed →
     i ∈ unsettled →
     recognizeImage (ocrEngine s) o = inr m →
     ∃ s', step (JobSettled k i o) s = Some s' ∧
           heap s' = heap s ∧ results s' = results s ∧ tasks s' = tasks s ∧
           trace s' = trace s ∧ resultCache s' = resultCache s).
Proof.
  intros R%reachable_Inv. split.
  - intros tk t o v Ht Hst Hocr Hv Hne.
    destruct (task_entry _ _ _ (inv_heap _ R) Ht) as (e & He & _ & _).
    pose proof (lookup_lt_Some _ _ _ He) as Hl.
    exists (afterVision tk t v s). split.
    { cbn -[afterVision]. rewrite Ht. cbn -[afterVision]. by rewrite Hst, Hv. }
    rewrite (field_eq _ _ _ _ He) in Hocr.
    rewrite (afterVision_eq _ _ _ _ _ He). cbn zeta. rewrite Hocr.
    assert (truthy (JsStr v) = true) as ->.
    { simpl. destruct v; [done|done]. }
    simpl. unfold field. simpl. rewrite list_lookup_insert_eq by done.
    split_and!.
    + rewrite !get_insert_ne by done. by rewrite get_insert.
    + rewrite !get_insert_ne by done. by rewrite get_insert.
    + by rewrite get_insert.
    + apply entry_not_in_deleted; [apply (inv_heap _ R)|done].
  - intros k f itp vp unsettled completed i o m F P Hi Hr.
    exists (jobSettled k f itp vp unsettled completed i o s). split.
    + cbn -[jobSettled]. rewrite F. cbn -[jobSettled]. rewrite P.
      by rewrite bool_decide_eq_true_2 by done.
    + rewrite jobSettled_eq. destruct (itp !! i); cbn zeta; [|done].
      rewrite Hr. simpl. done.
Qed.

(** C6. A refinement of an entry whose primary transcript [p] is not
    empty, whose secondary path fails — the vision read rejects or gives
    nothing, or the merge call rejects — ends with the entry's [text]
    still [p], equal to its [ocrText], and its [aiStatus] [failed]. *)
Theorem primary_kept_when_secondary_fails s tk t p a :
  reachable s →
  tasks s !! tk = Some t →
  field (t_entry t) "ocrText" s = JsStr p → p ≠ "" →
  (t_stage t = AwaitVision ∧
     ∃ o, visionTextOf o = "" ∧ a = VisionSettled tk o) ∨
  (∃ ocr v, t_stage t = AwaitMerge ocr v ∧ a = MergeSettled tk MergeRejected) →
  ∃ s', step a s = Some s' ∧
        field (t_entry t) "text" s' = JsStr p ∧
        field (t_entry t) "ocrText" s' = JsStr p ∧
        field (t_entry t) "aiStatus" s' = JsStr "failed" ∧
        t_entry t ∉ map t_entry (tasks s').
Proof.
  intros R%reachable_Inv Ht Hocr Hne Hcase.
  destruct (task_entry _ _ _ (inv_heap _ R) Ht) as (e & He & _ & Htxt).
  pose proof (lookup_lt_Some _ _ _ He) as Hl.
  rewrite (field_eq _ _ _ _ He) in Hocr.
  destruct Hcase as [(Hst & o & Hv & ->)|(ocr & v & Hst & ->)].
  - exists (afterVision tk t "" s). split.
    { cbn -[afterVision]. rewrite Ht. cbn -[afterVision]. by rewrite Hst, Hv. }
    rewrite (afterVision_eq _ _ _ _ _ He). cbn zeta. simpl.
    unfold field. simpl. rewrite list_lookup_insert_eq by done.
    split_and!.
    + rewrite !get_insert_ne by done. congruence.
    + rewrite !get_insert_ne by done. congruence.
    + by rewrite get_insert.
    + apply entry_not_in_deleted; [apply (inv_heap _ R)|done].
  - exists (afterMerge tk t ocr v MergeRejected s). split.
    { cbn -[afterMerge]. rewrite Ht. cbn -[afterMerge]. by rewrite Hst. }
    rewrite (afterMerge_eq _ _ _ _ _ _ _ He). cbn zeta.
    unfold field. simpl. rewrite list_lookup_insert_eq by done.
    split_and!.
    + rewrite !get_insert_ne by done. congruence.
    + rewrite !get_insert_ne by done. congruence.
    + by rewrite get_insert.
    + apply entry_not_in_deleted; [apply (inv_heap _ R)|done].
Qed.

(** *** A cache hit on its way to the result list *)

Lemma hit_kept_shown b n entry s s' :
  heap_ok s → grows s s' → extends s s' →
  (∃ l, heap s !! l = Some entry ∧ (l ∉ map t_entry (tasks s)) ∧
        EvAppend b l true ∈ trace s) →
  hit_kept b n entry s'.
Proof.
  intros J ([evs Et] & _) (_ & _ & X) (l & Hl & Hn & Hin). right.
  destruct (X l) as [Hn' E]; [by eapply lookup_lt_Some|done|].
  exists l. split_and!; [by rewrite E|done|].
  rewrite Et. apply elem_of_app. by left.
Qed.

Lemma hit_kept_continueLoop n entry k f f0 it itp crs s :
  single_frame s → heap_ok s → frames s !! k = Some f0 →
  crs !! n = Some entry →
  hit_kept (f_batch f) n entry (continueLoop k f it itp crs s).
Proof.
  intros I J F Hn. destruct (single_frame_lookup _ _ _ I F) as (E' & -> & _).
  open_loop.
  case_match; [|assert ((heap s ++ crs) !! (length (heap s) + n) = Some entry) as Hl
                  by (by rewrite lookup_app_r, Nat.add_comm, Nat.add_sub by lia)].
  - left. exists 0. eexists. simpl. rewrite E'. simpl. split_and!; done.
  - right. exists (length (heap s) + n).
    apply lookup_lt_Some in Hn as Hlt.
    assert (length (heap s) + n ∉ map t_entry (tasks s)) as Ht.
    { destruct J as (_ & _ & Ts). intros (t & Et & Hin)%list_elem_of_fmap.
      rewrite Forall_forall in Ts. destruct (Ts _ Hin) as (o' & Ho' & _).
      apply lookup_lt_Some in Ho'. lia. }
    assert (EvAppend (f_batch f) (length (heap s) + n) true
              ∈ trace s ++ map (λ l, EvAppend (f_batch f) l true)
                             (seq (length (heap s)) (length crs))) as He.
    { apply elem_of_app. right. apply list_elem_of_fmap.
      exists (length (heap s) + n). split; [done|]. apply elem_of_seq. lia. }
    case_bool_decide; simpl; split_and!; done.
Qed.

Lemma hit_kept_step b n entry a s s' :
  Inv s → rejectsHash a = false → step a s = Some s' →
  hit_kept b n entry s → hit_kept b n entry s'.
Proof.
  intros [I D J T _ _ _ _ C] G H K.
  pose proof (step_grows _ _ _ J H) as Gr.
  pose proof (step_extends _ _ _ J H) as X.
  destruct K as [(k0 & f0 & F0 & <- & L)|K]; [|by eapply hit_kept_shown].
  destruct (single_frame_lookup _ _ _ I F0) as (E & -> & P).
  assert (∀ s1 f1, frames s1 = [f1] → f_batch f1 = f_batch f0 →
            onList n entry (f_pc f1) → hit_kept (f_batch f0) n entry s1) as Still.
  { intros s1 f1 E1 B1 L1. left. exists 0, f1. by rewrite E1. }
  apply step_inv in H. destruct a; try done.
  - subst. destruct (addImages_frames files s) as [Ef _].
    apply (Still _ f0); [by rewrite Ef|done..].
  - subst. apply (Still _ f0); [|done..].
    unfold removeImage. by repeat case_match.
  - subst. apply (Still _ (leftBehind s f0)); [by simpl; rewrite E|done|].
    rewrite leftBehind_pc. by destruct (f_pc f0).
  - subst. by apply (Still _ f0).
  - subst. unfold startOcr. rewrite P, orb_true_r. by apply (Still _ f0).
  - destruct H as (f & F & Pc & ->). same_frame F. by rewrite Pc in L.
  - destruct H as (f & img & it & itp & cached & F & Pc & ->). same_frame F.
    rewrite Pc in L. simpl in L. unfold hashSettled. case_match.
    + eapply hit_kept_continueLoop; try done. by apply lookup_app_l_Some.
    + eapply Still; [by simpl; rewrite E|done|done].
  - destruct H as (f & img & h & key & it & itp & cached & F & Pc & ->). same_frame F.
    rewrite Pc in L. simpl in L. by eapply hit_kept_continueLoop.
  - destruct H as (f & itp & vp & unsettled & completed & F & Pc & Hi & ->).
    same_frame F. by rewrite Pc in L.
  - destruct H as (f & itp & vp & completed & F & Pc & ->). same_frame F.
    by rewrite Pc in L.
  - destruct H as (t & Ht & Pt & ->). apply (Still _ f0); [|done..].
    rewrite <- E. unfold afterVision, settleStatus. by repeat case_match.
  - destruct H as (t & ocr & v & Ht & Pt & ->). apply (Still _ f0); [|done..].
    rewrite <- E. unfold afterMerge, cacheMerged, settleStatus. by repeat case_match.
Qed.

Lemma hit_kept_run b n entry acts s s' :
  Inv s → Forall (λ a, rejectsHash a = false) acts → run acts s = Some s' →
  hit_kept b n entry s → hit_kept b n entry s'.
Proof.
  revert s. induction acts as [|a acts IH]; intros s I G H K; simpl in H.
  - by simplify_eq.
  - destruct (step a s) as [s1|] eqn:E; [|done]. simpl in H.
    apply Forall_cons in G as [Ga G].
    eapply IH; [by eapply Inv_step|exact G|exact H|by eapply hit_kept_step].
Qed.

(** C9. A cache hit makes [{ ...cached, id, filename }]: the object put
    on the list of cached results carries the id and the file name of
    the image of the running batch, and every other property is the
    cached one.  The batch carries the list on to the next image; when
    the loop is over, the objects of the list are appended to the store
    and to the result list and shown, in the order of the list.
    Whatever happens next, short of a fingerprint that cannot be
    computed, the object is still on the list of the loop or it is the
    entry shown for the hit.  And every entry ever shown as a cache hit
    of a batch is such an object: it was made from an image [img0] that
    batch took up and from an object cached under the key of that
    image, it carries the id and the file name of [img0], and it has
    been left as it was made. *)
Theorem cache_hit_relabelled s k f img it itp cachedResults cached key :
  reachable s →
  frames s !! k = Some f →
  f_pc f = AtHash img it itp cachedResults →
  resultCache s !! keyOf img (f_lang f) (f_useAI f) = Some cached →
  key ≠ "id" → key ≠ "filename" →
  let entry := cachedEntry cached img in
  let shown := cachedResults ++ [entry] in
  let s' := continueLoop k f it itp shown s in
  step (HashSettled k) s = Some s' ∧
  entry !! "id" = Some (JsStr (id img)) ∧
  entry !! "filename" = Some (JsStr (name (file img))) ∧
  entry !! key = cached !! key ∧
  Forall (λ o, ∃ img0 cached0, o = cachedEntry cached0 img0 ∧
                               EvTake (f_batch f) img0 ∈ trace s) cachedResults ∧
  (∀ img', walked (iterated it) s !! nextIndex it = Some img' →
     heap s' = heap s ∧ results s' = results s ∧
     ∃ f', frames s' !! k = Some f' ∧
           f_pc f' = AtHash img' (mkIter (iterated it) (nextIndex it + 1)) itp shown) ∧
  (walked (iterated it) s !! nextIndex it = None →
     heap s' = heap s ++ shown ∧
     results s' = seq (length (heap s)) (length shown) ∧
     trace s' = trace s ++ map (λ l, EvAppend (f_batch f) l true)
                             (seq (length (heap s)) (length shown))) ∧
  (∀ acts s2,
     Forall (λ a, rejectsHash a = false) acts → run acts s' = Some s2 →
     hit_kept (f_batch f) (length cachedResults) entry s2) ∧
  (∀ acts s2 b l,
     run acts s' = Some s2 → EvAppend b l true ∈ trace s2 →
     ∃ img0 cached0 imgs lang useAI b0 l0 st0,
       heap s2 !! l = Some (cachedEntry cached0 img0) ∧
       (l ∉ map t_entry (tasks s2)) ∧
       EvStart b imgs lang useAI ∈ trace s2 ∧
       EvTake b img0 ∈ trace s2 ∧
       EvCacheSet b0 l0 (keyOf img0 lang useAI) st0 ∈ trace s2 ∧
       get cached0 "text" = field l0 "text" s2 ∧
       field l "id" s2 = JsStr (id img0) ∧
       field l "filename" s2 = JsStr (name (file img0))).
Proof.
  intros R F P Hc Hk1 Hk2. cbn zeta.
  assert (step (HashSettled k) s =
          Some (continueLoop k f it itp (cachedResults ++ [cachedEntry cached img]) s))
    as Hstep.
  { cbn -[hashSettled]. rewrite F. cbn -[hashSettled]. rewrite P.
    unfold hashSettled. unfold keyOf in Hc. by rewrite Hc. }
  pose proof (reachable_step _ _ _ R Hstep) as R'.
  pose proof (reachable_origin _ R) as O.
  apply reachable_Inv in R.
  destruct (single_frame_lookup _ _ _ (inv_single _ R) F) as (E' & -> & _).
  pose proof (accounted_frame _ _ _ (inv_accounted _ R) F) as A.
  unfold accounted in A. rewrite P in A. destruct A as (Rs & _).
  split_and!.
  - done.
  - unfold cachedEntry. cbn. rewrite lookup_insert_ne by done.
    by rewrite lookup_insert_eq.
  - unfold cachedEntry. cbn. by rewrite lookup_insert_eq.
  - unfold cachedEntry, spread. cbn. rewrite !lookup_insert_ne by done.
    rewrite lookup_union. destruct (cached !! key); by rewrite ?lookup_empty.
  - destruct (frame_origin_of _ _ _ O F) as (_ & _ & Hpc). rewrite P in Hpc.
    destruct Hpc as (_ & _ & Hpc). eapply Forall_impl; [exact Hpc|].
    intros o (img0 & c0 & b0 & l0 & st0 & Ht & -> & _). eauto.
  - intros img' Hi. unfold continueLoop. rewrite Hi. simpl. rewrite E'. simpl.
    split_and!; [done..|]. eexists. by split.
  - intros Hi. unfold continueLoop. rewrite Hi. open_loop.
    case_bool_decide; simpl; by rewrite Rs.
  - intros acts s2 G Hrun.
    eapply hit_kept_run; [by apply reachable_Inv|exact G|exact Hrun|].
    eapply hit_kept_continueLoop; [apply (inv_single _ R)|apply (inv_heap _ R)|done|].
    by rewrite list_lookup_middle.
  - intros acts s2 b l Hrun Hin.
    pose proof (reachable_hits _ (reachable_run _ _ _ R' Hrun)) as Hh.
    unfold hits_ok in Hh. rewrite Forall_forall in Hh.
    apply Hh in Hin. simpl in Hin.
    destruct Hin as (Hn & o & imgs & lang & u & Ho & Hs &
                     img0 & c0 & b0 & l0 & st0 & Ht & -> & Hw & Htxt).
    exists img0, c0, imgs, lang, u, b0, l0, st0. split_and!; try done.
    + unfold field. rewrite Ho. apply cachedEntry_id.
    + unfold field. rewrite Ho. unfold cachedEntry, get. cbn.
      by rewrite lookup_insert_eq.
Qed.

Lemma getFileHash_bytes f1 f2 :
  bytes f1 = bytes f2 → getFileHash digest f1 = getFileHash digest f2.
Proof. unfold getFileHash. by intros ->. Qed.

(** C4, as the code has it.  While a batch probes the cache for [img]:
    the key is a function of the bytes of the file, the language and
    the mode; if some entry was written under that key, the probe is a
    hit and the transcript shown is the one of the entry [l] that wrote
    last, an entry that is settled with status [done] or [disabled] and
    was made for an image with that key; if nothing was written under
    the key (in particular when every earlier refinement for these
    bytes failed) the probe is a miss and the image is processed
    again. *)
Theorem resubmission_replays_cached s k f img it itp cachedResults :
  reachable s →
  frames s !! k = Some f →
  f_pc f = AtHash img it itp cachedResults →
  let key := keyOf img (f_lang f) (f_useAI f) in
  (∀ img0, bytes (file img0) = bytes (file img) →
           keyOf img0 (f_lang f) (f_useAI f) = key) ∧
  (∀ b0 l0 st0,
     EvCacheSet b0 l0 key st0 ∈ trace s →
     ∃ l cached,
       last_write key (trace s) = Some l ∧
       resultCache s !! key = Some cached ∧
       step (HashSettled k) s =
         Some (continueLoop k f it itp
                 (cachedResults ++ [cachedEntry cached img]) s) ∧
       get (cachedEntry cached img) "text" = field l "text" s ∧
       (field l "aiStatus" s = JsStr "done" ∨
        field l "aiStatus" s = JsStr "disabled") ∧
       (l ∉ map t_entry (tasks s)) ∧
       ∃ b img1 lang1 useAI1,
         entry_of s b l img1 lang1 useAI1 ∧ keyOf img1 lang1 useAI1 = key) ∧
  ((∀ b0 l0 st0, EvCacheSet b0 l0 key st0 ∉ trace s) →
   step (HashSettled k) s =
     Some (set_frames
             (<[k := with_pc (AtResize img (getFileHash digest (file img)) key
                                it itp cachedResults) f]> (frames s)) s)).
Proof.
  intros R F P key. pose proof (reachable_origin _ R) as O.
  apply reachable_Inv in R.
  assert (step (HashSettled k) s =
          Some (hashSettled digest k f img it itp cachedResults s)) as Hstep.
  { cbn -[hashSettled]. rewrite F. cbn -[hashSettled]. by rewrite P. }
  split_and!.
  - intros img0 Hb. unfold key, keyOf. by rewrite (getFileHash_bytes _ _ Hb).
  - intros b0 l0 st0 Hin. destruct (last_write_is_Some _ _ _ _ _ Hin) as [l Hl].
    pose proof (inv_cache _ R key) as C. rewrite Hl in C. destruct C as (c & Hc & Htxt).
    exists l, c. split_and!; try done.
    + rewrite Hstep. unfold hashSettled. fold (keyOf img (f_lang f) (f_useAI f)).
      fold key. by rewrite Hc.
    + unfold cachedEntry. cbn. rewrite !get_insert_ne by done.
      rewrite get_spread. unfold get in Htxt at 1. unfold get at 1.
      destruct (c !! "text"); [done|]. simpl. rewrite <- Htxt. done.
    + destruct (last_write_event _ _ _ Hl) as (b & st & Hw).
      apply list_elem_of_lookup_1 in Hw as [i Hi].
      pose proof (event_ok_lookup _ _ _ (inv_trace _ R) Hi) as Hev. simpl in Hev.
      destruct Hev as (_ & _ & _ & <- & Hor). done.
    + destruct (last_write_event _ _ _ Hl) as (b & st & Hw).
      apply list_elem_of_lookup_1 in Hw as [i Hi].
      pose proof (event_ok_lookup _ _ _ (inv_trace _ R) Hi) as Hev. simpl in Hev. tauto.
    + destruct (last_write_event _ _ _ Hl) as (b & st & Hw).
      destruct O as (_ & _ & W). rewrite Forall_forall in W.
      apply W in Hw as (img1 & lang1 & u1 & He & Hk). simpl. eauto 10.
  - intros Hno. rewrite Hstep. unfold hashSettled.
    fold (keyOf img (f_lang f) (f_useAI f)). fold key.
    pose proof (inv_cache _ R key) as C.
    destruct (last_write key (trace s)) as [l|] eqn:Hl.
    + destruct (last_write_event _ _ _ Hl) as (b & st & Hw). by apply Hno in Hw.
    + by rewrite C.
Qed.


(** ** The gallery *)

Lemma addImage_other f s :
  results (addImage s f) = results s ∧ heap (addImage s f) = heap s ∧
  resultCache (addImage s f) = resultCache s ∧
  isProcessing (addImage s f) = isProcessing s.
Proof. unfold addImage. by case_bool_decide. Qed.

Lemma addImages_gallery files s :
  let accepted := filter (λ f, ftype f ∈ validTypes) files in
  images (addImages files s) =
    images s ++ imap (λ i f, mkImage (imageId (imageIdCounter s + 1 + i)) f) accepted ∧
  imageIdCounter (addImages files s) = imageIdCounter s + length accepted.
Proof.
  cbn zeta. unfold addImages. revert s.
  induction files as [|f files IH]; intros s; simpl.
  - rewrite app_nil_r. split; [done|lia].
  - destruct (IH (addImage s f)) as (-> & ->).
    rewrite filter_cons. unfold addImage.
    destruct (decide (ftype f ∈ validTypes)) as [Hv|Hv].
    + rewrite bool_decide_eq_true_2 by done. simpl.
      rewrite <- app_assoc. simpl. rewrite Nat.add_0_r.
      split; [|lia].
      do 2 f_equal. apply imap_ext. intros i x _. simpl. do 2 f_equal. lia.
    + rewrite bool_decide_eq_false_2 by done. done.
Qed.

Lemma addImages_other files s :
  results (addImages files s) = results s ∧
  resultCache (addImages files s) = resultCache s.
Proof.
  unfold addImages. revert s.
  induction files as [|f files IH]; intros s; simpl; [done|].
  destruct (IH (addImage s f)) as (-> & ->).
  by destruct (addImage_other f s) as (-> & _ & -> & _).
Qed.

(** X9. [addImages] takes the files of a supported type, in the order
    given, and skips the others; the accepted files get the next ids
    [img-(c+1)], [img-(c+2)], ... of the counter, which moves on by
    their number; results and cache are not touched. *)
Theorem addImages_accepts_supported files s :
  let accepted := filter (λ f, ftype f ∈ validTypes) files in
  images (addImages files s) =
    images s ++ imap (λ i f, mkImage (imageId (imageIdCounter s + 1 + i)) f) accepted ∧
  imageIdCounter (addImages files s) = imageIdCounter s + length accepted ∧
  results (addImages files s) = results s ∧
  resultCache (addImages files s) = resultCache s.
Proof.
  cbn zeta.
  destruct (addImages_gallery files s) as (-> & ->).
  destruct (addImages_other files s) as (-> & ->). done.
Qed.

Lemma filter_absent (l : list Image) i :
  i ∉ map id l → filter (λ img, id img ≠ i) l = l.
Proof.
  induction l as [|img l IH]; intros N; [done|].
  simpl in N. apply not_elem_of_cons in N as [? ?].
  rewrite filter_cons, decide_True by done. f_equal. auto.
Qed.

Lemma delete_found (l : list Image) i :
  NoDup (map id l) →
  match list_find (λ img, id img = i) l with
  | Some (idx, _) => delete idx l
  | None => l
  end = filter (λ img, id img ≠ i) l.
Proof.
  induction l as [|img l IH]; intros N; [done|].
  simpl in N. apply NoDup_cons in N as [Hn N].
  rewrite filter_cons. cbn [list_find]. destruct (decide (id img = i)) as [E|E].
  - rewrite decide_False by (by intros ?). simpl. subst i.
    symmetry. by apply filter_absent.
  - rewrite decide_True by done. specialize (IH N).
    destruct (list_find _ l) as [[idx x]|]; simpl; by f_equal.
Qed.

Lemma removeImage_filter s i :
  NoDup (map id (images s)) →
  removeImage i s = set_images (filter (λ img, id img ≠ i) (images s)) s.
Proof.
  intros N. unfold removeImage. pose proof (delete_found (images s) i N) as D.
  destruct (list_find _ (images s)) as [[idx x]|]; rewrite <- D; [done|].
  by destruct s.
Qed.

(** X10. [removeImage(id)] takes the image with that id out of the
    gallery and leaves the other images, in their order, and everything
    else (the result list and the cache included) as they are; an id
    that is not in the gallery changes nothing. *)
Theorem removeImage_removes s i :
  reachable s →
  removeImage i s = set_images (filter (λ img, id img ≠ i) (images s)) s ∧
  (i ∉ map id (images (removeImage i s))) ∧
  (i ∉ map id (images s) → removeImage i s = s).
Proof.
  intros R%reachable_Inv. destruct (inv_ids _ R) as (N & _ & _).
  pose proof (removeImage_filter s i N) as E.
  split_and!; [done| |].
  - rewrite E. simpl. intros (img & Ei & Hin%list_elem_of_filter)%list_elem_of_fmap.
    destruct Hin as [Hne _]. by apply Hne.
  - intros Hn. rewrite E, filter_absent by done. by destruct s.
Qed.

Lemma continueLoop_gallery k f it itp cached s :
  images (continueLoop k f it itp cached s) = images s ∧
  imageIdCounter (continueLoop k f it itp cached s) = imageIdCounter s.
Proof. open_loop. case_match; [done|]. by case_bool_decide. Qed.

Lemma step_gallery a s s' :
  step a s = Some s' → editsGallery a = false →
  images s' = images s ∧ imageIdCounter s' = imageIdCounter s.
Proof.
  intros H G. apply step_inv in H. destruct a; try done.
  - by subst.
  - subst. unfold startOcr. by case_match.
  - destruct H as (f & F & P & ->). unfold initializeSettled.
    destruct (initialize _ _ _ _) as [[e q] ok]. destruct ok; [|done].
    by destruct (continueLoop_gallery k f (mkIter Live 0) [] []
                   (set_ocrEngine e s)) as [-> ->].
  - destruct H as (f & img & it & itp & cached & F & P & ->).
    unfold hashSettled. case_match; [apply continueLoop_gallery|done].
  - by destruct H as (f & img & it & itp & cached & F & P & ->).
  - destruct H as (f & img & h & key & it & itp & cached & F & P & ->).
    apply continueLoop_gallery.
  - destruct H as (f & itp & vp & unsettled & completed & F & P & Hi & ->).
    rewrite jobSettled_eq. case_match; cbn zeta; simpl; [|done].
    by destruct (onImageComplete_images (f_batch f) (f_lang f) (f_useAI f) itp vp
      (i_id i0) (resultOrNull (recognizeImage (ocrEngine s) o)) i (length itp) s)
      as (-> & -> & _).
  - by destruct H as (f & itp & vp & completed & F & P & ->).
  - destruct H as (t & T & P & ->). unfold afterVision, settleStatus.
    by repeat case_match.
  - destruct H as (t & ocr & v & T & P & ->).
    unfold afterMerge, cacheMerged, settleStatus. by repeat case_match.
Qed.

(** X11. The ids in the gallery are pairwise different and were all
    drawn from the counter, and the counter never goes back: whatever
    happens next, an image of the gallery either was there before, or
    has an id beyond every id handed out so far.  So an id is never
    given to two images, not even after the first one was removed or
    the gallery was cleared. *)
Theorem image_ids_never_reused s a s' :
  reachable s → step a s = Some s' →
  NoDup (map id (images s)) ∧
  Forall (λ img, ∃ n, 1 ≤ n ≤ imageIdCounter s ∧ id img = imageId n) (images s) ∧
  imageIdCounter s ≤ imageIdCounter s' ∧
  Forall (λ img, img ∈ images s ∨
                 ∃ n, imageIdCounter s < n ≤ imageIdCounter s' ∧ id img = imageId n)
         (images s').
Proof.
  intros R H. pose proof (reachable_Inv _ R) as I.
  destruct (inv_ids _ I) as (N & B & _). split; [done|]. split; [done|].
  destruct (editsGallery a) eqn:G.
  - apply step_inv in H. destruct a; try done.
    + subst.
      destruct (addImages_gallery files s) as (-> & ->).
      split; [lia|]. apply Forall_app. split.
      * apply Forall_forall. auto.
      * apply Forall_forall. intros img Hin. right.
        apply list_elem_of_lookup_1 in Hin as [k Hk].
        rewrite list_lookup_imap in Hk.
        destruct (filter _ files !! k) as [f|] eqn:Ef; [|done].
        injection Hk as <-. apply lookup_lt_Some in Ef.
        exists (imageIdCounter s + 1 + k). split; [lia|done].
    + subst. rewrite (removeImage_filter s i N).
      simpl. split; [done|].
      apply Forall_forall. intros img Hin%list_elem_of_filter. left. tauto.
    + subst. simpl. split; [done|constructor].
  - destruct (step_gallery _ _ _ H G) as [-> ->]. split; [done|].
    apply Forall_forall. auto.
Qed.


(** ** Entries once settled, and the cache *)

Lemma settled_not_refined s l o :
  heap_ok s → heap s !! l = Some o → get o "aiStatus" ≠ JsStr "pending" →
  l ∉ map t_entry (tasks s).
Proof.
  intros (_ & _ & Ts) Hl Hp (t & -> & Hin)%list_elem_of_fmap.
  rewrite Forall_forall in Ts. destruct (Ts _ Hin) as (o' & Ho & Hs & _).
  congruence.
Qed.

Lemma frozen_run acts s s' l :
  Inv s → l < length (heap s) → l ∉ map t_entry (tasks s) →
  run acts s = Some s' →
  (l ∉ map t_entry (tasks s')) ∧ heap s' !! l = heap s !! l.
Proof.
  revert s. induction acts as [|a acts IH]; intros s I Hl Hn H; simpl in H.
  - by simplify_eq.
  - destruct (step a s) as [s1|] eqn:E; [|done]. simpl in H.
    destruct (step_extends _ _ _ (inv_heap _ I) E) as (_ & Hlen & Hx).
    destruct (Hx l Hl Hn) as [Hn1 Hh1].
    destruct (IH s1) as [? ?]; [by eapply Inv_step|lia|done|done|].
    split; [done|congruence].
Qed.

(** X12. The refinement status only moves forward.  An entry whose
    [aiStatus] is not [pending] (it is [done], [failed] or [disabled],
    or the entry came from the cache) is never written again: whatever
    happens afterwards, the entry keeps every one of its properties, and
    no refinement is ever started on it. *)
Theorem settled_entry_is_final s l o acts s' :
  reachable s →
  heap s !! l = Some o → get o "aiStatus" ≠ JsStr "pending" →
  run acts s = Some s' →
  heap s' !! l = Some o ∧ (l ∉ map t_entry (tasks s')).
Proof.
  intros R%reachable_Inv Hl Hp H.
  destruct (frozen_run acts s s' l R) as [? ?]; try done.
  - by eapply lookup_lt_Some.
  - by eapply settled_not_refined; [apply (inv_heap _ R)|..].
  - split; [congruence|done].
Qed.

Lemma continueLoop_cache k f it itp cached s :
  resultCache (continueLoop k f it itp cached s) = resultCache s.
Proof. open_loop. case_match; [done|]. by case_bool_decide. Qed.

Lemma step_cache a s s' key :
  step a s = Some s' →
  is_Some (resultCache s !! key) → is_Some (resultCache s' !! key).
Proof.
  intros H C. apply step_inv in H. destruct a.
  - subst. by destruct (addImages_other files s) as (_ & ->).
  - subst. unfold removeImage. by repeat case_match.
  - by subst.
  - by subst.
  - subst. unfold startOcr. by case_match.
  - destruct H as (f & F & P & ->). unfold initializeSettled.
    destruct (initialize _ _ _ _) as [[e q] ok]. destruct ok; [|done].
    by rewrite continueLoop_cache.
  - destruct H as (f & img & it & itp & cached & F & P & ->).
    unfold hashSettled. case_match; [by rewrite continueLoop_cache|done].
  - by destruct H as (f & img & it & itp & cached & F & P & ->).
  - destruct H as (f & img & h & key' & it & itp & cached & F & P & ->).
    unfold resizeSettled. by rewrite continueLoop_cache.
  - destruct H as (f & itp & vp & unsettled & completed & F & P & Hi & ->).
    rewrite jobSettled_eq. case_match; cbn zeta; simpl; [|done].
    unfold onImageComplete. repeat case_match; simpl; try done.
    apply lookup_insert_is_Some'. by right.
  - by destruct H as (f & itp & vp & completed & F & P & ->).
  - destruct H as (t & T & P & ->). unfold afterVision, settleStatus.
    by repeat case_match.
  - destruct H as (t & ocr & v & T & P & ->).
    unfold afterMerge, cacheMerged, settleStatus. repeat case_match; simpl; try done.
    apply lookup_insert_is_Some'. by right.
Qed.

(** X13. Nothing is ever taken out of the result cache: a key that has
    an entry keeps one, whatever happens afterwards, clearing the
    gallery included. *)
Theorem cache_never_evicts acts s s' key :
  run acts s = Some s' →
  is_Some (resultCache s !! key) → is_Some (resultCache s' !! key).
Proof.
  revert s. induction acts as [|a acts IH]; intros s H C; simpl in H.
  - by simplify_eq.
  - destruct (step a s) as [s1|] eqn:E; [|done]. simpl in H.
    eapply IH; [exact H|]. by eapply step_cache.
Qed.

(** X14. What the cache holds is sound.  Whenever the cache has an
    entry for an image, a language and a mode, that entry carries the
    transcript of a result entry [l] that was made, in a batch run with
    that very language and mode, for an image whose file has the same
    digest, and that is settled with status [done] or [disabled]. *)
Theorem cache_holds_same_content s img lang useAI cached :
  reachable s →
  resultCache s !! keyOf img lang useAI = Some cached →
  ∃ b l img1,
    entry_of s b l img1 lang useAI ∧
    digest (bytes (file img1)) = digest (bytes (file img)) ∧
    get cached "text" = field l "text" s ∧
    (field l "aiStatus" s = JsStr "done" ∨ field l "aiStatus" s = JsStr "disabled") ∧
    (l ∉ map t_entry (tasks s)).
Proof.
  intros R Hc. pose proof (reachable_origin _ R) as O.
  apply reachable_Inv in R.
  pose proof (inv_cache _ R (keyOf img lang useAI)) as C.
  destruct (last_write _ (trace s)) as [l|] eqn:Hl; [|congruence].
  destruct C as (c & Hc' & Htxt). rewrite Hc in Hc'. injection Hc' as <-.
  destruct (last_write_event _ _ _ Hl) as (b & st & Hw).
  destruct O as (_ & _ & W). rewrite Forall_forall in W.
  destruct (W _ Hw) as (img1 & lang1 & u1 & He & Hk).
  unfold keyOf in Hk.
  apply cacheKeyOf_inj in Hk as (Hd%getFileHash_inj & -> & ->);
    try apply hex_no_underscore.
  apply list_elem_of_lookup_1 in Hw as [i Hi].
  pose proof (event_ok_lookup _ _ _ (inv_trace _ R) Hi) as Hev. simpl in Hev.
  destruct Hev as (_ & _ & Hn & <- & Hor).
  exists b, l, img1. split_and!; done.
Qed.


(** ** The refinement of one entry *)

(** X15. When the merge call returns, the refinement ends at once: the
    entry's [text] and [mergedText] become the merged transcript, which
    is the trimmed response or, when the response is empty or missing,
    the primary transcript; [ocrText] and [visionText] still hold the
    two transcripts that were merged, the status is [done], and the
    cache gets, under the refinement's key, an entry with those same
    values. *)
Theorem merge_result_adopted s tk t ocr v trimmed :
  reachable s →
  tasks s !! tk = Some t → t_stage t = AwaitMerge ocr v →
  ∃ s' key m,
    step (MergeSettled tk (MergeResponse trimmed)) s = Some s' ∧
    m = match trimmed with
        | Some r => if String.eqb r "" then ocr else JsStr r
        | None => ocr
        end ∧
    field (t_entry t) "text" s' = m ∧
    field (t_entry t) "mergedText" s' = m ∧
    field (t_entry t) "ocrText" s' = ocr ∧
    field (t_entry t) "ocrText" s = ocr ∧
    field (t_entry t) "visionText" s' = JsStr v ∧
    field (t_entry t) "aiStatus" s' = JsStr "done" ∧
    (t_entry t ∉ map t_entry (tasks s')) ∧
    t_cacheKey t = JsStr key ∧
    ∃ c, resultCache s' !! key = Some c ∧
         get c "text" = m ∧ get c "mergedText" = m ∧ get c "ocrText" = ocr ∧
         get c "visionText" = JsStr v ∧ get c "aiStatus" = JsStr "done".
Proof.
  intros R Ht Hst. pose proof (reachable_origin _ R) as O.
  apply reachable_Inv in R.
  destruct (task_key _ _ _ O Ht) as (img & Hk & _).
  pose proof (inv_heap _ R) as (_ & Nd & Ts).
  pose proof (proj1 (Forall_lookup _ _) Ts _ _ Ht) as (e & He & _ & _ & Hso).
  rewrite Hst in Hso. simpl in Hso. destruct Hso as (Hocr & _ & _ & Hvis).
  pose proof (lookup_lt_Some _ _ _ He) as Hl.
  exists (afterMerge tk t ocr v (MergeResponse trimmed) s), (keyOf img (t_lang t) true),
    (mergedTextOf trimmed ocr).
  split. { cbn -[afterMerge]. rewrite Ht. cbn -[afterMerge]. by rewrite Hst. }
  split. { unfold mergedTextOf. destruct trimmed as [r|]; [|done]. simpl.
           by destruct (String.eqb r ""). }
  rewrite (afterMerge_eq _ _ _ _ _ _ _ He). cbn zeta.
  rewrite Hk, keyOf_truthy. unfold field. simpl.
  rewrite list_lookup_insert_eq by done. rewrite He.
  split_and!; try done.
  - rewrite get_insert_ne by done. by rewrite get_insert.
  - rewrite !get_insert_ne by done. by rewrite get_insert.
  - by rewrite !get_insert_ne by done.
  - by rewrite !get_insert_ne by done.
  - by rewrite get_insert.
  - by apply entry_not_in_deleted.
  - eexists. rewrite lookup_insert_eq. split; [done|].
    unfold mergedCacheEntry. cbn. split_and!.
    + rewrite !get_insert_ne by done. by rewrite get_insert.
    + rewrite !get_insert_ne by done. by rewrite get_insert.
    + rewrite !get_insert_ne by done. rewrite get_insert.
      by rewrite !get_insert_ne by done.
    + rewrite !get_insert_ne by done. by rewrite get_insert.
    + by rewrite get_insert.
Qed.

(** X16. When the vision read gives a transcript and the primary
    transcript is not empty either, the merge call is made with exactly
    these two transcripts, and until it returns nothing shows: the entry
    records the vision transcript, but its [text] is still the primary
    transcript and its status still [pending]; nothing is logged and
    nothing is cached. *)
Theorem both_transcripts_go_to_merge s tk t o p v :
  reachable s →
  tasks s !! tk = Some t → t_stage t = AwaitVision →
  field (t_entry t) "ocrText" s = JsStr p → p ≠ "" →
  visionTextOf o = v → v ≠ "" →
  ∃ s', step (VisionSettled tk o) s = Some s' ∧
        tasks s' = <[tk := with_stage (AwaitMerge (JsStr p) v) t]> (tasks s) ∧
        field (t_entry t) "visionText" s' = JsStr v ∧
        field (t_entry t) "text" s' = JsStr p ∧
        field (t_entry t) "ocrText" s' = JsStr p ∧
        field (t_entry t) "aiStatus" s' = JsStr "pending" ∧
        trace s' = trace s ∧ resultCache s' = resultCache s ∧
        results s' = results s.
Proof.
  intros R%reachable_Inv Ht Hst Hocr Hp Hv Hne.
  destruct (task_entry _ _ _ (inv_heap _ R) Ht) as (e & He & Hpend & Htxt).
  pose proof (lookup_lt_Some _ _ _ He) as Hl.
  exists (afterVision tk t v s). split.
  { cbn -[afterVision]. rewrite Ht. cbn -[afterVision]. by rewrite Hst, Hv. }
  rewrite (field_eq _ _ _ _ He) in Hocr.
  rewrite (afterVision_eq _ _ _ _ _ He). cbn zeta. rewrite Hocr.
  assert (truthy (JsStr v) = true) as -> by (simpl; by destruct v).
  assert (truthy (JsStr p) = true) as -> by (simpl; by destruct p).
  simpl. unfold field. simpl. rewrite list_lookup_insert_eq by done.
  split_and!; try done.
  - by rewrite get_insert.
  - rewrite get_insert_ne by done. congruence.
  - by rewrite get_insert_ne by done.
  - by rewrite get_insert_ne by done.
Qed.

(** X17. When the engine cannot be initialized the batch is given up
    cleanly: [startOcr] returns with [isProcessing] reset, the result
    list is empty, nothing was shown, cached or started, the gallery is
    as it was and the engine is not ready.  The next call of [startOcr]
    starts a batch again, on the gallery as it is then, if the gallery
    still holds an image; it does nothing if the gallery was emptied
    while the engine was being initialized. *)
Theorem failed_initialize_ends_batch s k f failAt lang geminiAvailable :
  reachable s →
  frames s !! k = Some f → f_pc f = AtInitialize →
  (initialize rev (f_lang f) failAt (ocrEngine s)).2 = false →
  ∃ s', step (InitializeSettled k failAt) s = Some s' ∧
        frames s' = [] ∧ isProcessing s' = false ∧
        results s' = [] ∧ heap s' = heap s ∧ trace s' = trace s ∧
        resultCache s' = resultCache s ∧ tasks s' = tasks s ∧
        images s' = images s ∧
        isReady (ocrEngine s') = false ∧
        (images s ≠ [] →
         ∃ f', frames (startOcr lang geminiAvailable s') = [f'] ∧
               f_pc f' = AtInitialize ∧ f_lang f' = lang ∧
               isProcessing (startOcr lang geminiAvailable s') = true ∧
               trace (startOcr lang geminiAvailable s') =
                 trace s ++ [EvStart (batches s) (images s) lang
                               (aiEnabled s && geminiAvailable)]) ∧
        (images s = [] → startOcr lang geminiAvailable s' = s').
Proof.
  intros R F P Hf. apply reachable_Inv in R.
  destruct (single_frame_lookup _ _ _ (inv_single _ R) F) as (E & -> & Hp).
  pose proof (accounted_frame _ _ _ (inv_accounted _ R) F) as A.
  unfold accounted in A. rewrite P in A. destruct A as [Hr _].
  exists (initializeSettled rev 0 f failAt s). split.
  { cbn -[initializeSettled]. rewrite F. cbn -[initializeSettled]. by rewrite P. }
  unfold initializeSettled.
  assert (isReady (initialize rev (f_lang f) failAt (ocrEngine s)).1.1 = false) as Hnr.
  { revert Hf. unfold initialize. repeat case_match; simpl; congruence. }
  destruct (initialize _ _ _ _) as [[e q] ok]. simpl in Hf, Hnr. subst ok.
  unfold finish. simpl. rewrite E. simpl. split_and!; try done.
  - intros Hi. unfold startOcr. simpl.
    rewrite bool_decide_eq_false_2 by (by destruct (images s)). simpl.
    eexists. split_and!; done.
  - intros Hi. unfold startOcr. simpl. by rewrite Hi.
Qed.

(** ** The entry made for a recognized image *)

Lemma resultObject_no_filename d : resultObject d !! "filename" = None.
Proof. unfold resultObject. cbn. by rewrite !lookup_insert_ne by done. Qed.

Lemma newResultEntry_fields i m d u :
  let e := newResultEntry i m (resultObject d) u in
  get e "filename" = orElse (metaName m) (JsStr "unknown") ∧
  get e "visionText" = JsNull ∧ get e "mergedText" = JsNull ∧
  get e "error" = JsNull.
Proof.
  cbn zeta. unfold newResultEntry. cbn -[resultObject]. split_and!.
  - rewrite !get_insert_ne by done. rewrite get_spread, resultObject_no_filename.
    by rewrite get_insert.
  - rewrite !get_insert_ne by done. by rewrite get_insert.
  - rewrite !get_insert_ne by done. by rewrite get_insert.
  - rewrite !get_insert_ne by done. by rewrite get_insert.
Qed.

(** X18. A recognition job that resolves makes exactly one entry, put
    last on the result list, for the image the job was submitted for:
    it carries the image's id and file name ([unknown] for an empty
    name), the recognized text as both [text] and [ocrText], and no
    vision or merged text yet.  In AI mode the entry is [pending] and
    one refinement is started on it, under the image's key, with
    nothing cached; in primary-only mode the entry is [disabled], no
    refinement is started, and the recognition result is cached at once
    under the image's key. *)
Theorem resolved_job_makes_entry s k f itp vp unsettled completed i o r :
  reachable s →
  frames s !! k = Some f →
  f_pc f = AtRecognizeBatch itp vp unsettled completed →
  i ∈ unsettled →
  recognizeImage (ocrEngine s) o = inl r →
  ∃ s' img d entry,
    step (JobSettled k i o) s = Some s' ∧
    img ∈ f_images f ∧ itp !! i = Some d ∧ i_id d = id img ∧
    heap s' = heap s ++ [entry] ∧
    results s' = results s ++ [length (heap s)] ∧
    get entry "id" = JsStr (id img) ∧
    get entry "filename" =
      (if String.eqb (name (file img)) "" then JsStr "unknown"
       else JsStr (name (file img))) ∧
    get entry "text" = get r "text" ∧ get entry "ocrText" = get r "text" ∧
    get entry "visionText" = JsNull ∧ get entry "mergedText" = JsNull ∧
    if f_useAI f then
      get entry "aiStatus" = JsStr "pending" ∧
      tasks s' = tasks s ++
        [mkTask (length (heap s)) (f_lang f) (JsStr (keyOf img (f_lang f) true))
           AwaitVision (f_batch f)] ∧
      resultCache s' = resultCache s
    else
      get entry "aiStatus" = JsStr "disabled" ∧
      tasks s' = tasks s ∧
      resultCache s' =
        <[keyOf img (f_lang f) false := primaryCacheEntry r]> (resultCache s).
Proof.
  intros R F P Hi Hr. pose proof (reachable_origin _ R) as O.
  apply reachable_Inv in R.
  destruct (single_frame_lookup _ _ _ (inv_single _ R) F) as (E & -> & Hp).
  assert (is_Some (itp !! i)) as [d Hd].
  { pose proof (accounted_frame _ _ _ (inv_accounted _ R) F) as A.
    unfold accounted in A. rewrite P in A. destruct A as (_ & L & _).
    apply lookup_lt_is_Some_2. rewrite Forall_forall in L. by apply L. }
  destruct (find_by_id _ _ _ Hd) as (m & Fm & Hm & Em).
  pose proof (frame_origin_of _ _ _ O F) as (_ & _ & Hmeta). rewrite P in Hmeta.
  rewrite Forall_forall in Hmeta.
  destruct (Hmeta _ Hm) as (img & Hin & Eid & Eof & _ & Ekey).
  pose proof (frame_vision _ _ _ _ _ _ _ (inv_vision _ R) F P) as Hvp.
  apply recognizeImage_inl in Hr as Hro. destruct Hro as [d0 ->].
  exists (jobSettled 0 f itp vp unsettled completed i o s), img, d,
    (newResultEntry (i_id d) (Some m) (resultObject d0) (f_useAI f)).
  split.
  { cbn -[jobSettled]. rewrite F. cbn -[jobSettled]. rewrite P.
    by rewrite bool_decide_eq_true_2 by done. }
  split; [done|]. split; [done|]. split; [congruence|].
  rewrite jobSettled_eq, Hd. cbn zeta. rewrite Hr. simpl.
  unfold onImageComplete. rewrite Fm.
  destruct (newResultEntry_fields (i_id d) (Some m) d0 (f_useAI f))
    as (Hfn & Hvt & Hmt & _).
  destruct (newResultEntry_text (i_id d) (Some m) (resultObject d0) (f_useAI f))
    as [Ht1 Ht2].
  pose proof (newResultEntry_id (i_id d) (Some m) d0 (f_useAI f)) as Hid.
  pose proof (newResultEntry_aiStatus (i_id d) (Some m) (resultObject d0) (f_useAI f))
    as Hst.
  assert (get (newResultEntry (i_id d) (Some m) (resultObject d0) (f_useAI f))
            "filename" =
          (if String.eqb (name (file img)) "" then JsStr "unknown"
           else JsStr (name (file img)))) as Hfn'.
  { rewrite Hfn. unfold orElse, metaName. simpl. rewrite Eof.
    by destruct (String.eqb (name (file img)) ""). }
  destruct (f_useAI f) eqn:Hu.
  - assert (is_Some (vp !! i_id d)) as Hv
      by (rewrite Hvp; by eapply launchVision_lookup).
    rewrite bool_decide_eq_true_2 by done. simpl.
    split_and!; try done; try congruence.
  - simpl. split_and!; try done; try congruence.
Qed.


(** ** Every batch comes to an end *)











(** ** Shown once, refined once *)

Lemma appendLocs_hits b n m :
  appendLocs (map (λ l, EvAppend b l true) (seq n m)) = seq n m.
Proof.
  revert n. induction m as [|m IH]; intros n; simpl; [done|]. by rewrite IH.
Qed.

Lemma statusLocs_hits b n m :
  statusLocs (map (λ l, EvAppend b l true) (seq n m)) = [].
Proof. revert n. induction m as [|m IH]; intros n; simpl; auto. Qed.

Ltac delta :=
  simpl; rewrite ?length_app, ?length_insert, <- ?app_assoc; simpl;
  first [ eexists; split; [reflexivity|]
        | exists []; rewrite app_nil_r; split; [reflexivity|] ];
  simpl; split_and!; eauto with lia.

(** What one turn of the event loop adds to the log and to the heap. *)
Lemma step_delta a s s' :
  Inv s → step a s = Some s' →
  ∃ evs,
    trace s' = trace s ++ evs ∧
    length (heap s') = length (heap s) + length (appendLocs evs) ∧
    appendLocs evs = seq (length (heap s)) (length (appendLocs evs)) ∧
    (statusLocs evs = [] ∨
     ∃ tk t, tasks s !! tk = Some t ∧ statusLocs evs = [t_entry t]).
Proof.
  intros I H.
  assert (∀ s1, trace s1 = trace s → heap s1 = heap s →
            ∃ evs, trace s1 = trace s ++ evs ∧
              length (heap s1) = length (heap s) + length (appendLocs evs) ∧
              appendLocs evs = seq (length (heap s)) (length (appendLocs evs)) ∧
              (statusLocs evs = [] ∨
               ∃ tk t, tasks s !! tk = Some t ∧ statusLocs evs = [t_entry t]))
    as Same.
  { intros s1 Et Eh. exists []. rewrite Et, Eh, app_nil_r. simpl. split_and!; auto. }
  assert (∀ k f it itp cached s0, trace s0 = trace s → heap s0 = heap s →
            ∃ evs, trace (continueLoop k f it itp cached s0) = trace s ++ evs ∧
              length (heap (continueLoop k f it itp cached s0))
                = length (heap s) + length (appendLocs evs) ∧
              appendLocs evs = seq (length (heap s)) (length (appendLocs evs)) ∧
              (statusLocs evs = [] ∨
               ∃ tk t, tasks s !! tk = Some t ∧ statusLocs evs = [t_entry t]))
    as Loop.
  { intros k f it itp cached s0 Et Eh.
    destruct (continueLoop_trace k f it itp cached s0)
      as (_ & _ & _ & [(_ & Hh & Ht)|(img & _ & Hh & Ht)]).
    - rewrite Ht, Hh, Et, Eh. eexists. split; [done|].
      rewrite appendLocs_hits, statusLocs_hits, length_app, length_seq. auto.
    - rewrite Ht, Hh, Et, Eh. eexists. split; [done|]. simpl. split_and!; auto. }
  apply step_inv in H. destruct a.
  - subst. destruct (addImages_eq files s) as (ns & -> & _).
    by apply Same.
  - subst. unfold removeImage. repeat case_match; by apply Same.
  - subst. by apply Same.
  - subst. by apply Same.
  - subst. unfold startOcr. case_match; [by apply Same|]. delta.
  - destruct H as (f & F & P & ->). unfold initializeSettled.
    destruct (initialize _ _ _ _) as [[e q] ok]. destruct ok.
    + by apply Loop.
    + by apply Same.
  - destruct H as (f & img & it & itp & cached & F & P & ->).
    unfold hashSettled. case_match; [by apply Loop|by apply Same].
  - destruct H as (f & img & it & itp & cached & F & P & ->). by apply Same.
  - destruct H as (f & img & h & key & it & itp & cached & F & P & ->).
    by apply Loop.
  - destruct H as (f & itp & vp & unsettled & completed & F & P & Hi & ->).
    rewrite jobSettled_eq. case_match; cbn zeta; simpl; [|by apply Same].
    unfold onImageComplete. destruct (resultOrNull _) as [r|]; [|by apply Same].
    repeat case_match; delta.
  - destruct H as (f & itp & vp & completed & F & P & ->). by apply Same.
  - destruct H as (t & T & P & ->).
    destruct (task_entry _ _ _ (inv_heap _ I) T) as (e & He & _).
    rewrite (afterVision_eq _ _ _ _ _ He). cbn zeta.
    repeat case_match; delta.
  - destruct H as (t & ocr & v & T & P & ->).
    destruct (task_entry _ _ _ (inv_heap _ I) T) as (e & He & _).
    rewrite (afterMerge_eq _ _ _ _ _ _ _ He). cbn zeta.
    repeat case_match; delta.
Qed.

Lemma appendLocs_app t1 t2 : appendLocs (t1 ++ t2) = appendLocs t1 ++ appendLocs t2.
Proof. apply omap_app. Qed.

Lemma statusLocs_app t1 t2 : statusLocs (t1 ++ t2) = statusLocs t1 ++ statusLocs t2.
Proof. apply omap_app. Qed.

Lemma statusLocs_settled s l :
  trace_ok s → l ∈ statusLocs (trace s) → l ∉ map t_entry (tasks s).
Proof.
  intros (T & _) Hl. apply list_elem_of_omap in Hl as (ev & Hin & Hev).
  rewrite Forall_forall in T. apply T in Hin.
  destruct ev; simplify_eq. simpl in Hin. tauto.
Qed.

Lemma shown_refined_step a s s' :
  Inv s → step a s = Some s' →
  appendLocs (trace s) = seq 0 (length (heap s)) ∧ NoDup (statusLocs (trace s)) →
  appendLocs (trace s') = seq 0 (length (heap s')) ∧ NoDup (statusLocs (trace s')).
Proof.
  intros I H [Ha Hs].
  destruct (step_delta _ _ _ I H) as (evs & -> & -> & Hevs & Hst).
  rewrite appendLocs_app, statusLocs_app, Ha, seq_app. split; [by rewrite Hevs at 1|].
  destruct Hst as [-> | (tk & t & T & ->)]; [by rewrite app_nil_r|].
  apply NoDup_app. split_and!; [done| |apply NoDup_singleton].
  intros l Hl ->%list_elem_of_singleton.
  apply (statusLocs_settled _ _ (inv_trace _ I)) in Hl. apply Hl.
  apply list_elem_of_fmap. exists t. split; [done|]. by eapply list_elem_of_lookup_2.
Qed.

(** X20. Every result entry ever made was shown exactly once, in the
    order of creation, and the refinement of an entry ends at most once:
    the log never holds two status updates for the same entry.  An entry
    whose refinement has ended carries the status that was logged,
    [done] or [failed], and no refinement is suspended on it. *)
Theorem shown_once_refined_once s :
  reachable s →
  appendLocs (trace s) = seq 0 (length (heap s)) ∧
  NoDup (statusLocs (trace s)) ∧
  ∀ i b l st, trace s !! i = Some (EvStatus b l st) →
    field l "aiStatus" s = JsStr st ∧ (st = "done" ∨ st = "failed") ∧
    (l ∉ map t_entry (tasks s)).
Proof.
  intros R.
  assert (appendLocs (trace s) = seq 0 (length (heap s)) ∧
          NoDup (statusLocs (trace s))) as [Ha Hs].
  { destruct R as (hc & acts & H).
    assert (∀ acts s0 s1, Inv s0 →
              appendLocs (trace s0) = seq 0 (length (heap s0)) ∧
              NoDup (statusLocs (trace s0)) →
              run acts s0 = Some s1 →
              appendLocs (trace s1) = seq 0 (length (heap s1)) ∧
              NoDup (statusLocs (trace s1))) as G.
    { clear. induction acts as [|a acts IH]; intros s0 s1 I J H; simpl in H.
      - by simplify_eq.
      - destruct (step a s0) as [s2|] eqn:E; [|done]. simpl in H.
        eapply IH; [by eapply Inv_step| |exact H]. by eapply shown_refined_step. }
    eapply G; [apply Inv_initial| |exact H]. simpl. split; [done|constructor]. }
  split_and!; [done|done|].
  intros i b l st Hi. apply reachable_Inv in R.
  pose proof (event_ok_lookup _ _ _ (inv_trace _ R) Hi) as Hev. simpl in Hev. tauto.
Qed.


(** ** The engine during a batch *)

Lemma continueLoop_engine k f it itp cached s :
  ocrEngine (continueLoop k f it itp cached s) = ocrEngine s.
Proof. open_loop. case_match; [done|]. by case_bool_decide. Qed.

Lemma initialize_ready lang failAt e e' q :
  (isReady e = true → is_Some (scheduler e)) →
  initialize rev lang failAt e = (e', q, true) →
  isReady e' = true ∧ currentLang e' = lang ∧ is_Some (scheduler e').
Proof.
  unfold initialize. intros He.
  destruct (isReady e && String.eqb (currentLang e) lang) eqn:G.
  - intros [= <- _]. apply andb_true_iff in G as [G1 G2].
    apply String.eqb_eq in G2. auto.
  - destruct failAt as [k|]; [case_match|]; intros [= <- _]; simpl; eauto.
Qed.

Lemma initialize_keeps_scheduler lang failAt e :
  (isReady e = true → is_Some (scheduler e)) →
  isReady (initialize rev lang failAt e).1.1 = true →
  is_Some (scheduler (initialize rev lang failAt e).1.1).
Proof.
  unfold initialize. intros He. repeat case_match; simpl; eauto.
Qed.

Lemma continueLoop_ready k f it itp cached s :
  Forall (λ f', f_pc f' ≠ AtInitialize →
                isReady (ocrEngine s) = true ∧ currentLang (ocrEngine s) = f_lang f')
         (frames s) →
  isReady (ocrEngine s) = true → currentLang (ocrEngine s) = f_lang f →
  Forall (λ f', f_pc f' ≠ AtInitialize →
                isReady (ocrEngine s) = true ∧ currentLang (ocrEngine s) = f_lang f')
         (frames (continueLoop k f it itp cached s)).
Proof.
  intros W Hr Hl. open_loop. case_match; [|case_bool_decide]; simpl.
  - by apply Forall_insert.
  - by apply Forall_insert.
  - by apply Forall_delete.
Qed.

Lemma engine_ready_step a s s' :
  Inv s → engine_ready s → step a s = Some s' → engine_ready s'.
Proof.
  intros I [He W] H. pose proof (inv_single _ I) as Sg.
  assert (∀ s1, ocrEngine s1 = ocrEngine s → frames s1 = frames s → engine_ready s1)
    as Same.
  { intros s1 Ee Ef. unfold engine_ready. by rewrite Ee, Ef. }
  assert (∀ k f it itp cached, frames s !! k = Some f → f_pc f ≠ AtInitialize →
            engine_ready (continueLoop k f it itp cached s)) as Loop.
  { intros k f it itp cached F P. rewrite Forall_forall in W.
    destruct (W f) as [Hr Hl]; [by eapply list_elem_of_lookup_2|done|].
    split; rewrite continueLoop_engine; [done|].
    apply continueLoop_ready; try done. by apply Forall_forall. }
  apply step_inv in H. destruct a.
  - subst. destruct (addImages_eq files s) as (ns & -> & _).
    by apply Same.
  - subst. unfold removeImage. repeat case_match; by apply Same.
  - subst. split; simpl; [done|]. apply Forall_fmap.
    eapply Forall_impl; [exact W|]. intros f Hf Hp. apply Hf.
    rewrite leftBehind_pc in Hp. by destruct (f_pc f).
  - subst. by apply Same.
  - subst. unfold startOcr. case_match; [done|]. split; [done|]. simpl.
    apply Forall_app. split; [done|]. by apply Forall_singleton.
  - destruct H as (f & F & P & ->).
    destruct (single_frame_lookup _ _ _ Sg F) as (E & -> & _).
    unfold initializeSettled.
    pose proof (initialize_keeps_scheduler (f_lang f) failAt _ He) as Hk.
    destruct (initialize _ _ _ _) as [[e q] ok] eqn:Ei. simpl in Hk. destruct ok.
    + destruct (initialize_ready _ _ _ _ _ He Ei) as (Hr & Hl & Hs).
      split; rewrite continueLoop_engine; simpl; [done|].
      apply (continueLoop_ready 0 f _ [] [] (set_ocrEngine e s)); simpl; try done.
      rewrite E. apply Forall_singleton. by rewrite P.
    + split; simpl; [done|]. rewrite E. simpl. constructor.
  - destruct H as (f & img & it & itp & cached & F & P & ->).
    unfold hashSettled. case_match.
    + apply Loop; [done|]. by rewrite P.
    + rewrite Forall_forall in W.
      destruct (W f) as [Hr Hl];
        [by eapply list_elem_of_lookup_2|by rewrite P|].
      split; simpl; [done|]. apply Forall_insert; [by apply Forall_forall|done].
  - destruct H as (f & img & it & itp & cached & F & P & ->).
    split; simpl; [done|]. by apply Forall_delete.
  - destruct H as (f & img & h & key & it & itp & cached & F & P & ->).
    apply Loop; [done|]. by rewrite P.
  - destruct H as (f & itp & vp & unsettled & completed & F & P & Hi & ->).
    rewrite Forall_forall in W.
    destruct (W f) as [Hr Hl]; [by eapply list_elem_of_lookup_2|by rewrite P|].
    rewrite jobSettled_eq. destruct (itp !! i) as [d|] eqn:Hd; cbn zeta.
    + destruct (onImageComplete_images (f_batch f) (f_lang f) (f_useAI f) itp vp
        (i_id d) (resultOrNull (recognizeImage (ocrEngine s) o)) i (length itp) s)
        as (_ & _ & Ef & _).
      assert (ocrEngine (onImageComplete (f_batch f) (f_lang f) (f_useAI f) itp vp
        (i_id d) (resultOrNull (recognizeImage (ocrEngine s) o)) i (length itp) s)
        = ocrEngine s) as Ee.
      { unfold onImageComplete. by repeat case_match. }
      cbn zeta in Ef. split; simpl; rewrite Ee; [done|]. rewrite Ef.
      apply Forall_insert; [by apply Forall_forall|done].
    + split; simpl; [done|]. apply Forall_insert; [by apply Forall_forall|done].
  - destruct H as (f & itp & vp & completed & F & P & ->).
    split; simpl; [done|]. by apply Forall_delete.
  - destruct H as (t & T & P & ->). apply Same.
    + unfold afterVision, settleStatus. by repeat case_match.
    + unfold afterVision, settleStatus. by repeat case_match.
  - destruct H as (t & ocr & v & T & P & ->). apply Same.
    + unfold afterMerge, cacheMerged, settleStatus. by repeat case_match.
    + unfold afterMerge, cacheMerged, settleStatus. by repeat case_match.
Qed.

Lemma reachable_engine_ready s : reachable s → engine_ready s.
Proof.
  intros (hc & acts & H).
  assert (∀ acts s0 s1, Inv s0 → engine_ready s0 → run acts s0 = Some s1 →
            engine_ready s1) as G.
  { clear. induction acts as [|a acts IH]; intros s0 s1 I W H; simpl in H.
    - by simplify_eq.
    - destruct (step a s0) as [s2|] eqn:E; [|done]. simpl in H.
      eapply IH; [by eapply Inv_step| |exact H]. by eapply engine_ready_step. }
  eapply G; [apply Inv_initial| |exact H]. split; simpl; [done|constructor].
Qed.

(** X25. A batch runs on a ready engine.  While [startOcr] is past the
    initialization (probing the cache, resizing, or awaiting the
    recognition) the engine is ready and bound to the language of the
    batch, so [recognizeImage] never rejects with the not-initialized
    error there: a job resolves with what the scheduler read and
    rejects only with the scheduler's own error. *)
Theorem batch_runs_on_ready_engine s k f :
  reachable s →
  frames s !! k = Some f → f_pc f ≠ AtInitialize →
  isReady (ocrEngine s) = true ∧
  currentLang (ocrEngine s) = f_lang f ∧
  (∃ workers, scheduler (ocrEngine s) = Some workers) ∧
  (∀ d, recognizeImage (ocrEngine s) (JobResolved d) = inl (resultObject d)) ∧
  (∀ m, recognizeImage (ocrEngine s) (JobRejected m) = inr m).
Proof.
  intros R F P. destruct (reachable_engine_ready _ R) as [He W].
  rewrite Forall_forall in W.
  destruct (W f) as [Hr Hl]; [by eapply list_elem_of_lookup_2|done|].
  destruct (He Hr) as [ws Hs].
  split_and!; try done; [by exists ws|..];
    intros; unfold recognizeImage; by rewrite Hr, Hs.
Qed.


(** ** The vision fan-out *)

Lemma launchVision_source itp i x :
  launchVision true itp !! i = Some x →
  ∃ d, d ∈ itp ∧ i_id d = i ∧ originalFile d = x.
Proof.
  unfold launchVision.
  assert (∀ m : gmap string File,
    foldl (λ m d, <[i_id d := originalFile d]> m) m itp !! i = Some x →
    (∃ d, d ∈ itp ∧ i_id d = i ∧ originalFile d = x) ∨ m !! i = Some x) as G.
  { induction itp as [|d itp IH]; intros m H; simpl in H; [by right|].
    destruct (IH _ H) as [(d' & ? & ? & ?)|Hm].
    - left. exists d'. split; [by right|done].
    - destruct (decide (i_id d = i)) as [E|E].
      + rewrite E, lookup_insert_eq in Hm. injection Hm as <-.
        left. exists d. split; [by left|done].
      + rewrite lookup_insert_ne in Hm by done. by right. }
  intros H. destruct (G _ H) as [?|Hm]; [done|]. by rewrite lookup_empty in Hm.
Qed.

(** X26. In AI mode the vision read is launched for exactly the images
    handed to the engine (the cache misses), each with the file as it
    was uploaded; in primary-only mode no vision read is launched. *)
Theorem vision_reads_original s k f itp vp unsettled completed :
  reachable s →
  frames s !! k = Some f →
  f_pc f = AtRecognizeBatch itp vp unsettled completed →
  (f_useAI f = false → vp = ∅) ∧
  (f_useAI f = true →
   (∀ d, d ∈ itp →
      ∃ img, img ∈ f_images f ∧ id img = i_id d ∧ vp !! i_id d = Some (file img)) ∧
   (∀ i x, vp !! i = Some x →
      ∃ img d, img ∈ f_images f ∧ d ∈ itp ∧ id img = i ∧ i_id d = i ∧
               x = file img)).
Proof.
  intros R F P. pose proof (reachable_origin _ R) as O.
  apply reachable_Inv in R.
  pose proof (frame_vision _ _ _ _ _ _ _ (inv_vision _ R) F P) as ->.
  pose proof (frame_origin_of _ _ _ O F) as (_ & _ & Hmeta). rewrite P in Hmeta.
  rewrite Forall_forall in Hmeta.
  pose proof (frame_taken _ _ _ (inv_ids _ R) F) as N.
  assert (∀ img img', img ∈ f_images f → img' ∈ f_images f → id img = id img' →
            img = img') as Inj.
  { intros img img' [j Hj]%list_elem_of_lookup_1 [j' Hj']%list_elem_of_lookup_1 E.
    assert (j = j') as ->; [|congruence].
    eapply NoDup_lookup; [exact N|..];
      change (map id ?l) with (id <$> l); rewrite list_lookup_fmap.
    - by rewrite Hj.
    - rewrite Hj'. simpl. by rewrite E. }
  split; [by intros ->|]. intros ->. split.
  - intros d Hd. destruct (Hmeta _ Hd) as (img & Hin & Eid & Eof & _).
    exists img. split; [done|]. split; [done|].
    apply list_elem_of_lookup_1 in Hd as [j Hj].
    destruct (launchVision_lookup _ _ _ Hj) as [x Hx]. rewrite Hx. f_equal.
    apply launchVision_source in Hx as (d' & Hd' & Eid' & <-).
    destruct (Hmeta _ Hd') as (img' & Hin' & Eid'' & Eof' & _).
    rewrite Eof'. f_equal. apply Inj; congruence.
  - intros i x Hx. apply launchVision_source in Hx as (d & Hd & <- & <-).
    destruct (Hmeta _ Hd) as (img & Hin & Eid & Eof & _).
    exists img, d. split_and!; done.
Qed.


(** ** The gallery edited while a batch runs *)

Lemma drop_delete_passed {A} (l : list A) j n :
  j < n → drop n (delete j l) = drop 1 (drop n l).
Proof.
  intros H. apply list_eq. intros m.
  rewrite drop_drop, !lookup_drop, list_lookup_delete_ge by lia.
  f_equal. lia.
Qed.

Lemma drop_delete_ahead {A} (l : list A) j n :
  n ≤ j → drop n (delete j l) = delete (j - n) (drop n l).
Proof.
  intros H. apply list_eq. intros m. rewrite lookup_drop.
  destruct (decide (m < j - n)) as [Hm|Hm].
  - rewrite !list_lookup_delete_lt by lia. by rewrite lookup_drop.
  - rewrite !list_lookup_delete_ge by lia. rewrite lookup_drop. f_equal. lia.
Qed.

(** X27. [clearAllImages] while a batch is running empties the gallery
    and the result list at once but does not stop the batch: the
    suspended [startOcr] stays as it is, and its loop goes on over the
    array it was walking, so the images it had not reached yet are
    still processed.  The entries made so far are off the result list
    for good ([f_dropped]); the store, the cache and the log are left
    alone. *)
Theorem clearAllImages_during_batch s k f :
  reachable s →
  frames s !! k = Some f →
  ∃ s' f',
    step ClearAllImages s = Some s' ∧
    images s' = [] ∧ results s' = [] ∧
    heap s' = heap s ∧ resultCache s' = resultCache s ∧ trace s' = trace s ∧
    tasks s' = tasks s ∧ isProcessing s' = true ∧
    frames s' = [f'] ∧
    f_lang f' = f_lang f ∧ f_useAI f' = f_useAI f ∧ f_batch f' = f_batch f ∧
    f_images f' = f_images f ∧ f_failed f' = f_failed f ∧
    f_dropped f' = f_dropped f ++ resultIds s ∧
    toWalk s' (f_pc f') = toWalk s (f_pc f) ∧
    match f_pc f, f_pc f' with
    | AtInitialize, AtInitialize => True
    | AtHash img it itp cached, AtHash img' it' itp' cached' =>
        img' = img ∧ nextIndex it' = nextIndex it ∧ itp' = itp ∧ cached' = cached
    | AtResize img h key it itp cached, AtResize img' h' key' it' itp' cached' =>
        img' = img ∧ h' = h ∧ key' = key ∧ nextIndex it' = nextIndex it ∧
        itp' = itp ∧ cached' = cached
    | AtRecognizeBatch itp vp unsettled completed, pc' =>
        pc' = AtRecognizeBatch itp vp unsettled completed
    | _, _ => False
    end.
Proof.
  intros R%reachable_Inv F.
  destruct (single_frame_lookup _ _ _ (inv_single _ R) F) as (E & -> & P).
  exists (clearAllImages s), (leftBehind s f).
  split; [done|]. unfold clearAllImages. simpl. rewrite E. simpl.
  split_and!; try done.
  - apply toWalk_leftBehind.
  - destruct (f_pc f) as [|img it itp cached|img h key it itp cached|itp vp u c];
      simpl; try done; unfold detached; by destruct (iterated it).
Qed.

(** X28. When the fingerprint of an image cannot be computed
    ([getFileHash] rejects), [startOcr] goes through its [catch] and
    [finally] blocks: the batch is over and [isProcessing] is reset,
    but the cache hits found so far are never shown.  The result list
    is empty, no entry was made, nothing was logged, cached or started,
    and no image of the batch is recognized. *)
Theorem fingerprint_failure_ends_batch s k f img it itp cachedResults :
  reachable s →
  frames s !! k = Some f →
  f_pc f = AtHash img it itp cachedResults →
  ∃ s', step (HashRejected k) s = Some s' ∧
        frames s' = [] ∧ isProcessing s' = false ∧
        results s' = [] ∧ heap s' = heap s ∧ trace s' = trace s ∧
        resultCache s' = resultCache s ∧ tasks s' = tasks s ∧
        images s' = images s ∧
        ∀ l, EvAppend (f_batch f) l true ∉ trace s'.
Proof.
  intros R%reachable_Inv F P.
  destruct (single_frame_lookup _ _ _ (inv_single _ R) F) as (E & -> & Hp).
  pose proof (accounted_frame _ _ _ (inv_accounted _ R) F) as A.
  unfold accounted in A. rewrite P in A. destruct A as (Rs & _).
  exists (finish 0 s). split.
  { cbn -[finish]. rewrite F. cbn -[finish]. by rewrite P. }
  unfold finish. simpl. rewrite E. simpl. split_and!; try done.
  intros l Hin.
  destruct (inv_batches _ R) as [B _]. rewrite E in B.
  apply Forall_cons in B as [[_ B] _]. rewrite P in B.
  destruct (B eq_refl) as [B1 _]. rewrite Forall_forall in B1.
  destruct (B1 _ Hin) as [[]|Hb]. by apply Hb.
Qed.

(** X29. [removeImage] during the probing loop acts on the array the
    loop is walking.  Taking out an image the loop has passed, the one
    being probed included, moves the images behind it one place down,
    and the loop skips the image it would have taken next; taking out
    an image the loop has not reached removes just that one from what
    the loop still takes up.  The suspended [startOcr] itself is not
    touched. *)
Theorem removeImage_during_probe s k f img it itp cached i j x :
  reachable s →
  frames s !! k = Some f →
  (f_pc f = AtHash img it itp cached ∨
   ∃ h key, f_pc f = AtResize img h key it itp cached) →
  iterated it = Live →
  list_find (λ img, id img = i) (images s) = Some (j, x) →
  step (RemoveImage i) s = Some (removeImage i s) ∧
  frames (removeImage i s) = frames s ∧
  images (removeImage i s) = delete j (images s) ∧
  toWalk s (f_pc f) = drop (nextIndex it) (images s) ∧
  (j < nextIndex it →
   toWalk (removeImage i s) (f_pc f) = drop 1 (toWalk s (f_pc f))) ∧
  (nextIndex it ≤ j →
   toWalk (removeImage i s) (f_pc f) = delete (j - nextIndex it) (toWalk s (f_pc f))).
Proof.
  intros R F P Hl Hf.
  assert (removeImage i s = set_images (delete j (images s)) s) as Er.
  { unfold removeImage. by rewrite Hf. }
  assert (∀ s0, toWalk s0 (f_pc f) = drop (nextIndex it) (images s0)) as Ht.
  { intros s0. destruct P as [-> |(h & key & ->)]; simpl; by rewrite Hl. }
  split_and!.
  - done.
  - by rewrite Er.
  - by rewrite Er.
  - apply Ht.
  - intros. rewrite !Ht, Er. simpl. by apply drop_delete_passed.
  - intros. rewrite !Ht, Er. simpl. by apply drop_delete_ahead.
Qed.

End Proofs.

(** * Sample runs *)

Ltac reached acts := exists (Some 8), acts; vm_compute; reflexivity.
Ltac evaluated := vm_compute; reflexivity.

Lemma startOcr_guarded_witness :
  isProcessing (after Concurrent onePageSubmitted) = true ∧
  step sampleDigest Concurrent (StartOcr "kor" true) (after Concurrent onePageSubmitted)
    = Some (after Concurrent onePageSubmitted).
Proof.
  split; [evaluated|].
  apply (startOcr_guarded sampleDigest Concurrent
           (after Concurrent onePageSubmitted) "kor" true).
  - reached onePageSubmitted.
  - right. evaluated.
Defined.

Lemma hits_before_misses_witness :
  trace (after Sequential secondBatchDone) !! 7 = Some (EvAppend 1 1 true) ∧
  trace (after Sequential secondBatchDone) !! 8 = Some (EvAppend 1 2 false) ∧
  7 < 8.
Proof.
  split; [evaluated|]. split; [evaluated|].
  apply (hits_before_misses sampleDigest Sequential
           (after Sequential secondBatchDone) 7 8 1 1 (EvAppend 1 2 false)).
  - reached secondBatchDone.
  - evaluated.
  - evaluated.
  - reflexivity.
Defined.

Lemma batch_results_exactly_once_witness :
  f_failed settledFrame = ["img-1"] ∧
  resultIds (after Sequential (twoPagesOneRejected ++ [BatchSettled 0]))
    = [JsStr "img-2"] ∧
  f_images settledFrame = images (after Sequential twoPagesAdded) ∧
  f_dropped settledFrame = [] ∧
  resultIds (after Sequential (twoPagesOneRejected ++ [BatchSettled 0]))
    ++ map JsStr (f_failed settledFrame)
    ≡ₚ idVals (images (after Sequential twoPagesAdded)) ∧
  length (results (after Sequential (twoPagesOneRejected ++ [BatchSettled 0])))
    + length (f_failed settledFrame)
    = length (images (after Sequential twoPagesAdded)).
Proof.
  split; [reflexivity|]. split; [evaluated|].
  refine (proj2 (batch_results_exactly_once sampleDigest Sequential
                   (after Sequential twoPagesAdded) twoPagesBatch
                   (after Sequential twoPagesOneRejected) (BatchSettled 0)
                   (after Sequential (twoPagesOneRejected ++ [BatchSettled 0]))
                   0 settledFrame _ _ _ _ _ _ _ _) _).
  - reached twoPagesAdded.
  - evaluated.
  - evaluated.
  - evaluated.
  - evaluated.
  - evaluated.
  - intros k' failAt [=].
  - intros k' [=].
  - repeat constructor.
Defined.

Lemma cache_write_discipline_witness :
  trace (after Concurrent refined) !! 4
    = Some (EvCacheSet 0 0 "01_eng_ai" (JsStr "done")) ∧
  trace (after Concurrent refined) !! 3 = Some (EvStatus 0 0 "done") ∧
  field 0 "aiStatus" (after Concurrent refined) = JsStr "done" ∧
  (0 ∉ map t_entry (tasks (after Concurrent refined))) ∧
  ∃ img lang useAI,
    entry_of (after Concurrent refined) 0 0 img lang useAI ∧
    "01_eng_ai" = keyOf sampleDigest img lang useAI.
Proof.
  assert (trace (after Concurrent refined) !! 4
          = Some (EvCacheSet 0 0 "01_eng_ai" (JsStr "done"))) as E by evaluated.
  split; [exact E|]. split; [evaluated|].
  assert (reachable sampleDigest Concurrent (after Concurrent refined)) as R
    by reached refined.
  destruct (cache_write_discipline sampleDigest Concurrent _ R) as (_ & H & _).
  destruct (H 4 0 0 "01_eng_ai" (JsStr "done") E) as (_ & Hs & Ht & Ho).
  split; [exact Hs|]. split; [exact Ht|exact Ho].
Defined.

Lemma vision_adopted_when_primary_empty_witness :
  field 0 "ocrText" (after Concurrent (refining readsNothing)) = JsStr "" ∧
  (∃ s', step sampleDigest Concurrent (VisionSettled 0 (VisionResponse (Some "XYZ")))
           (after Concurrent (refining readsNothing)) = Some s' ∧
         field 0 "text" s' = JsStr "XYZ" ∧
         field 0 "mergedText" s' = JsStr "XYZ" ∧
         field 0 "aiStatus" s' = JsStr "done" ∧
         0 ∉ map t_entry (tasks s')) ∧
  (∃ s', step sampleDigest Concurrent (JobSettled 0 0 (JobRejected "boom"))
           (after Concurrent submittedForRefinement) = Some s' ∧
         heap s' = heap (after Concurrent submittedForRefinement) ∧
         results s' = results (after Concurrent submittedForRefinement) ∧
         tasks s' = tasks (after Concurrent submittedForRefinement) ∧
         trace s' = trace (after Concurrent submittedForRefinement) ∧
         resultCache s' = resultCache (after Concurrent submittedForRefinement)).
Proof.
  split; [evaluated|]. split.
  - refine (proj1 (vision_adopted_when_primary_empty sampleDigest Concurrent
                     (after Concurrent (refining readsNothing)) _)
              0 refinementOfA (VisionResponse (Some "XYZ")) "XYZ" _ _ _ _ _).
    + reached (refining readsNothing).
    + evaluated.
    + reflexivity.
    + evaluated.
    + reflexivity.
    + discriminate.
  - refine (proj2 (vision_adopted_when_primary_empty sampleDigest Concurrent
                     (after Concurrent submittedForRefinement) _)
              0 (recognizingFrame true) [metaOfA true]
              (launchVision true [metaOfA true]) [0] 0 0 (JobRejected "boom") "boom"
              _ _ _ _).
    + reached submittedForRefinement.
    + evaluated.
    + reflexivity.
    + constructor.
    + evaluated.
Defined.

Lemma primary_kept_when_secondary_fails_witness :
  field 0 "ocrText" (after Concurrent (refining readsABC)) = JsStr "ABC" ∧
  ∃ s', step sampleDigest Concurrent (VisionSettled 0 VisionRejected)
          (after Concurrent (refining readsABC)) = Some s' ∧
        field 0 "text" s' = JsStr "ABC" ∧
        field 0 "ocrText" s' = JsStr "ABC" ∧
        field 0 "aiStatus" s' = JsStr "failed" ∧
        0 ∉ map t_entry (tasks s').
Proof.
  split; [evaluated|].
  apply (primary_kept_when_secondary_fails sampleDigest Concurrent
           (after Concurrent (refining readsABC)) 0 refinementOfA "ABC"
           (VisionSettled 0 VisionRejected)).
  - reached (refining readsABC).
  - evaluated.
  - evaluated.
  - discriminate.
  - left. split; [reflexivity|]. exists VisionRejected. split; reflexivity.
Defined.

Lemma cache_hit_relabelled_witness :
  resultCache (after Sequential copyProbing) !! "01_eng_ocr"
    = Some (primaryCacheEntry (resultObject readsABC)) ∧
  cachedEntry (primaryCacheEntry (resultObject readsABC)) imageA' !! "id"
    = Some (JsStr "img-2") ∧
  cachedEntry (primaryCacheEntry (resultObject readsABC)) imageA' !! "filename"
    = Some (JsStr "copy.png") ∧
  cachedEntry (primaryCacheEntry (resultObject readsABC)) imageA' !! "text"
    = primaryCacheEntry (resultObject readsABC) !! "text" ∧
  ∃ s', step sampleDigest Sequential (HashSettled 0) (after Sequential copyProbing)
          = Some s' ∧
        heap s' = heap (after Sequential copyProbing)
                  ++ [cachedEntry (primaryCacheEntry (resultObject readsABC)) imageA'] ∧
        results s' = [1] ∧
        trace s' = trace (after Sequential copyProbing) ++ [EvAppend 1 1 true].
Proof.
  assert (resultCache (after Sequential copyProbing) !! "01_eng_ocr"
          = Some (primaryCacheEntry (resultObject readsABC))) as E by evaluated.
  split; [exact E|].
  destruct (cache_hit_relabelled sampleDigest Sequential
              (after Sequential copyProbing) 0 (probingFrame false imageA')
              imageA' (mkIter Live 1) [] []
              (primaryCacheEntry (resultObject readsABC)) "text")
    as (Hstep & Hid & Hname & Htext & _ & _ & Hend & _).
  - reached copyProbing.
  - evaluated.
  - reflexivity.
  - exact E.
  - discriminate.
  - discriminate.
  - split; [exact Hid|]. split; [exact Hname|]. split; [exact Htext|].
    eexists. split; [exact Hstep|]. apply Hend. evaluated.
Defined.

Lemma resubmission_replays_cached_witness :
  ∃ l cached,
    last_write "01_eng_ocr" (trace (after Sequential secondBatchProbing)) = Some l ∧
    resultCache (after Sequential secondBatchProbing) !! "01_eng_ocr" = Some cached ∧
    get (cachedEntry cached imageA) "text"
      = field l "text" (after Sequential secondBatchProbing) ∧
    field l "text" (after Sequential secondBatchProbing) = JsStr "ABC".
Proof.
  destruct (resubmission_replays_cached sampleDigest Sequential
              (after Sequential secondBatchProbing) 0
              (probingFrame false imageA) imageA (mkIter Live 1) [] [])
    as (_ & H & _).
  - reached secondBatchProbing.
  - evaluated.
  - reflexivity.
  - destruct (H 0 0 (JsStr "disabled")) as (l & cached & Hl & Hc & _ & Ht & _).
    + assert (trace (after Sequential secondBatchProbing) !! 3
              = Some (EvCacheSet 0 0 "01_eng_ocr" (JsStr "disabled"))) as E
        by evaluated.
      exact (list_elem_of_lookup_2 _ _ _ E).
    + exists l, cached. split; [exact Hl|]. split; [exact Hc|]. split; [exact Ht|].
      assert (Some l = Some 0) as [= ->] by (rewrite <- Hl; evaluated).
      evaluated.
Defined.

Lemma per_job_failures_captured_witness :
  (recognizeBatchConc logStart logComplete logProgress (readyEngine Concurrent)
     firstRejects twoJobs [1; 0] []).1
  = Some [failureEntry (mkJob pageA "img-1") "boom";
          successEntry (mkJob pageB "img-2") (resultObject readsABC)].
Proof.
  destruct (per_job_failures_captured logStart logComplete logProgress
              (readyEngine Concurrent) firstRejects twoJobs [1; 0] [] [])
    as (H & _).
  - apply perm_swap.
  - rewrite H. evaluated.
Defined.

(** C1 as stated fails: a batch of one image whose recognition job
    rejects returns with an empty result list, the [if (result)] guard
    of [onImageComplete] having skipped the image. *)
Lemma rejected_job_leaves_no_entry :
  ∃ s, run sampleDigest Sequential (onePageRejected ++ [BatchSettled 0])
         (initialState (Some 8)) = Some s ∧
       frames s = [] ∧ isProcessing s = false ∧ tasks s = [] ∧
       map id (images s) = ["img-1"] ∧
       results s = [] ∧ heap s = [].
Proof. exists (after Sequential (onePageRejected ++ [BatchSettled 0])). split_and!; evaluated. Qed.

(** C3 as stated fails for an image whose recognition fails.  In AI
    mode the vision read of the page is launched, but when the
    recognition job rejects [onImageComplete] gets [null], makes no
    entry and starts no refinement; the batch returns with an empty
    result list, and the vision transcript [XYZ] of the page has no
    entry to go to. *)
Lemma recognition_failure_not_refined :
  (∃ f itp vp unsettled completed,
     frames (after Concurrent submittedForRefinement) = [f] ∧
     f_pc f = AtRecognizeBatch itp vp unsettled completed ∧
     vp !! "img-1" = Some pageA) ∧
  ∃ s, run sampleDigest Concurrent recognitionFailed (initialState (Some 8)) = Some s ∧
       frames s = [] ∧ isProcessing s = false ∧
       results s = [] ∧ heap s = [] ∧ tasks s = [] ∧
       step sampleDigest Concurrent
         (VisionSettled 0 (VisionResponse (Some "XYZ"))) s = None.
Proof.
  split.
  - do 5 eexists. split_and!; evaluated.
  - exists (after Concurrent recognitionFailed). split_and!; evaluated.
Qed.

(** C2 as stated fails twice.  An entry whose refinement ends [failed]
    is not written to the cache at all; and two files with the same
    contents in one batch are both misses, and are both written, under
    one key. *)
Lemma cache_write_not_as_specified :
  (∃ s, run sampleDigest Concurrent refinementFailed (initialState (Some 8)) = Some s ∧
        frames s = [] ∧ tasks s = [] ∧
        field 0 "aiStatus" s = JsStr "failed" ∧
        trace s = [EvStart 0 [imageA] "eng" true; EvTake 0 imageA;
                   EvAppend 0 0 false; EvStatus 0 0 "failed"] ∧
        resultCache s = ∅) ∧
  (∃ s, run sampleDigest Concurrent twoCopies (initialState (Some 8)) = Some s ∧
        trace s = [EvStart 0 [imageA; imageA'] "eng" false;
                   EvTake 0 imageA; EvTake 0 imageA';
                   EvAppend 0 0 false;
                   EvCacheSet 0 0 "01_eng_ocr" (JsStr "disabled");
                   EvAppend 0 1 false;
                   EvCacheSet 0 1 "01_eng_ocr" (JsStr "disabled")]).
Proof.
  split.
  - exists (after Concurrent refinementFailed). split_and!; evaluated.
  - exists (after Concurrent twoCopies). split_and!; evaluated.
Qed.

(** C4 as stated fails: after a batch in which the refinement of the
    page failed, nothing is cached for it, and submitting the same page
    again with the same language and mode is a cache miss: the page goes
    on to be resized and recognized anew. *)
Lemma resubmission_after_failure_misses :
  ∃ s, run sampleDigest Concurrent resubmittedAfterFailure (initialState (Some 8))
         = Some s ∧
       field 0 "aiStatus" s = JsStr "failed" ∧
       frames s = [probingFrame true imageA] ∧
       resultCache s !! keyOf sampleDigest imageA "eng" true = None ∧
       step sampleDigest Concurrent (HashSettled 0) s =
         Some (set_frames
                 [mkFrame "eng" true
                    (AtResize imageA "01" "01_eng_ai" (mkIter Live 1) [] [])
                    1 [imageA] [] []] s).
Proof.
  exists (after Concurrent resubmittedAfterFailure). split_and!; evaluated.
Qed.


(** An image can end up without an entry for other reasons than a
    rejected job.  When the gallery is cleared between two job
    completions the batch returns with one entry for its two images;
    when the first page is removed while it is probed the loop never
    takes up the second page, which stays in the gallery without an
    entry; and when a fingerprint cannot be computed the batch returns
    with nothing shown, the cache hit found before included. *)
Lemma edits_during_batch :
  (∃ s, run sampleDigest Sequential clearedMidBatch (initialState (Some 8)) = Some s ∧
        frames s = [] ∧ images s = [] ∧ results s = [1] ∧ length (heap s) = 2) ∧
  (∃ s, run sampleDigest Sequential removedWhileProbing (initialState (Some 8)) = Some s ∧
        frames s = [] ∧ images s = [imageB] ∧ resultIds s = [JsStr "img-1"] ∧
        trace s = [EvStart 0 [imageA; imageB] "eng" false; EvTake 0 imageA;
                   EvAppend 0 0 false;
                   EvCacheSet 0 0 "01_eng_ocr" (JsStr "disabled")]) ∧
  (∃ s, run sampleDigest Sequential fingerprintFailed (initialState (Some 8)) = Some s ∧
        frames s = [] ∧ isProcessing s = false ∧ images s = [imageA; imageB] ∧
        results s = [] ∧ length (heap s) = 1).
Proof.
  split_and!.
  - exists (after Sequential clearedMidBatch). split_and!; evaluated.
  - exists (after Sequential removedWhileProbing). split_and!; evaluated.
  - exists (after Sequential fingerprintFailed). split_and!; evaluated.
Qed.

(** * More sample runs *)

Lemma cacheKey_inj_witness :
  sampleDigest (bytes (file imageA)) = sampleDigest (bytes (file imageA')) ∧
  "eng" = "eng" ∧ false = false.
Proof.
  apply (cacheKey_inj sampleDigest imageA imageA' "eng" "eng" false false).
  evaluated.
Defined.

Lemma initialize_reuses_pool_witness :
  isReady (readyEngine Sequential) = true ∧
  currentLang (readyEngine Sequential) = "eng" ∧
  ∀ failAt', initialize Sequential "eng" failAt' (readyEngine Sequential)
             = (readyEngine Sequential, [], true).
Proof.
  eapply (initialize_reuses_pool Sequential "eng" None (newOcrEngine (Some 8))).
  reflexivity.
Defined.

Lemma initialize_failure_witness :
  ∃ e' progress,
    initialize Concurrent "eng" (Some 1) (newOcrEngine (Some 8))
      = (e', progress, false) ∧
    isReady e' = false ∧ currentLang e' = "eng" ∧
    scheduler e' = Some (replicate 1 "eng") ∧
    (∀ o, recognizeImage e' o = inr notInitialized) ∧
    ∃ e'' progress',
      initialize Concurrent "eng" None e' = (e'', progress', true) ∧
      isReady e'' = true ∧
      scheduler e'' =
        Some (replicate (poolSize Concurrent (newOcrEngine (Some 8)) "eng") "eng").
Proof.
  apply (initialize_failure Concurrent "eng" 1 (newOcrEngine (Some 8))).
  - reflexivity.
  - vm_compute. lia.
Defined.

Lemma initialize_progress_witness :
  ∃ e' progress,
    initialize Concurrent "eng" (Some 1) (newOcrEngine (Some 8))
      = (e', progress, false) ∧
    poolSize Concurrent (newOcrEngine (Some 8)) "eng" = 4 ∧
    progress = [0%Q; 1 # 5; 2 # 5] ∧
    (∀ i j p q, i < j → progress !! i = Some p → progress !! j = Some q →
                (p < q)%Q ∧ (0 <= p)%Q ∧ (q <= 1)%Q) ∧
    (progress ≠ [] → head progress = Some 0%Q ∧
                     (false = true ↔ last progress = Some 1%Q)).
Proof.
  eexists _, _. split; [reflexivity|]. split; [reflexivity|].
  destruct (initialize_progress Concurrent "eng" (Some 1) (newOcrEngine (Some 8))
              _ _ false eq_refl) as (Hinc & _ & Hends & Hvals).
  destruct (Hvals eq_refl) as (Hp & _ & _).
  split; [exact Hp|]. split; [exact Hinc|exact Hends].
Defined.

Lemma concurrent_hook_calls_witness :
  ∃ rest,
    (recognizeBatchConc logStart logComplete logProgress (readyEngine Concurrent)
       firstRejects twoJobs [1; 0] []).2 =
      [] ++ imap (λ i j, CallStart (j_id j) i (length twoJobs)) twoJobs ++ rest ∧
    Forall (λ c, isStart c = false) rest ∧
    progressCalls rest =
      map (λ k, fraction (k + 1) (length twoJobs)) (seq 0 (length twoJobs)).
Proof.
  apply (concurrent_hook_calls (readyEngine Concurrent) firstRejects twoJobs [1; 0] []).
  apply perm_swap.
Defined.

Lemma recognizeBatch_not_ready_witness :
  (recognizeBatchSeq logStart logComplete logProgress (newOcrEngine (Some 8))
     firstRejects twoJobs []).1
    = map (λ j, failureEntry j notInitialized) twoJobs ∧
  (recognizeBatchConc logStart logComplete logProgress (newOcrEngine (Some 8))
     firstRejects twoJobs [1; 0] []).1
    = Some (map (λ j, failureEntry j notInitialized) twoJobs) ∧
  completions
    (recognizeBatchSeq logStart logComplete logProgress (newOcrEngine (Some 8))
       firstRejects twoJobs []).2
    = [(0, "img-1", None); (1, "img-2", None)] ∧
  completions
    (recognizeBatchConc logStart logComplete logProgress (newOcrEngine (Some 8))
       firstRejects twoJobs [1; 0] []).2
    = [(1, "img-2", None); (0, "img-1", None)].
Proof.
  destruct (recognizeBatch_not_ready (newOcrEngine (Some 8)) firstRejects twoJobs
              [1; 0] []) as (H1 & H2 & H3 & H4 & _).
  - left. reflexivity.
  - apply perm_swap.
  - split; [exact H1|]. split; [exact H2|]. split; [exact H3|exact H4].
Defined.

Lemma removeImage_removes_witness :
  removeImage "img-1" (after Sequential secondBatchDone)
    = set_images (filter (λ img, id img ≠ "img-1")
                    (images (after Sequential secondBatchDone)))
        (after Sequential secondBatchDone) ∧
  ("img-1" ∉ map id (images (removeImage "img-1" (after Sequential secondBatchDone)))) ∧
  ("img-1" ∉ map id (images (after Sequential secondBatchDone)) →
   removeImage "img-1" (after Sequential secondBatchDone)
     = after Sequential secondBatchDone).
Proof.
  apply (removeImage_removes sampleDigest Sequential
           (after Sequential secondBatchDone) "img-1").
  reached secondBatchDone.
Defined.

Lemma image_ids_never_reused_witness :
  isProcessing (after Sequential onePageSubmitted) = true ∧
  NoDup (map id (images (after Sequential onePageSubmitted))) ∧
  Forall (λ img, ∃ n, 1 ≤ n ≤ imageIdCounter (after Sequential onePageSubmitted) ∧
                      id img = imageId n)
         (images (after Sequential onePageSubmitted)) ∧
  imageIdCounter (after Sequential onePageSubmitted)
    ≤ imageIdCounter (after Sequential (onePageSubmitted ++ [AddImages [pageB]])) ∧
  Forall (λ img, img ∈ images (after Sequential onePageSubmitted) ∨
                 ∃ n, imageIdCounter (after Sequential onePageSubmitted) < n
                        ≤ imageIdCounter
                            (after Sequential (onePageSubmitted ++ [AddImages [pageB]])) ∧
                      id img = imageId n)
         (images (after Sequential (onePageSubmitted ++ [AddImages [pageB]]))).
Proof.
  split; [evaluated|].
  apply (image_ids_never_reused sampleDigest Sequential
           (after Sequential onePageSubmitted) (AddImages [pageB])
           (after Sequential (onePageSubmitted ++ [AddImages [pageB]]))).
  - reached onePageSubmitted.
  - evaluated.
Defined.

Lemma settled_entry_is_final_witness :
  heap (after Sequential secondBatchDone) !! 0 = Some entryOfA ∧
  (0 ∉ map t_entry (tasks (after Sequential secondBatchDone))).
Proof.
  apply (settled_entry_is_final sampleDigest Sequential
           (after Sequential onePageRead) 0 entryOfA secondBatch
           (after Sequential secondBatchDone)).
  - reached onePageRead.
  - evaluated.
  - vm_compute. discriminate.
  - evaluated.
Defined.

Lemma cache_never_evicts_witness :
  is_Some (resultCache (after Sequential (onePageRead ++ [ClearAllImages]))
             !! "01_eng_ocr").
Proof.
  apply (cache_never_evicts sampleDigest Sequential [ClearAllImages]
           (after Sequential onePageRead)
           (after Sequential (onePageRead ++ [ClearAllImages])) "01_eng_ocr").
  - evaluated.
  - exists (primaryCacheEntry (resultObject readsABC)). evaluated.
Defined.

Lemma cache_holds_same_content_witness :
  ∃ b l img1,
    entry_of (after Sequential onePageRead) b l img1 "eng" false ∧
    sampleDigest (bytes (file img1)) = sampleDigest (bytes (file imageA')) ∧
    get (primaryCacheEntry (resultObject readsABC)) "text"
      = field l "text" (after Sequential onePageRead) ∧
    (field l "aiStatus" (after Sequential onePageRead) = JsStr "done" ∨
     field l "aiStatus" (after Sequential onePageRead) = JsStr "disabled") ∧
    (l ∉ map t_entry (tasks (after Sequential onePageRead))).
Proof.
  apply (cache_holds_same_content sampleDigest Sequential
           (after Sequential onePageRead) imageA' "eng" false
           (primaryCacheEntry (resultObject readsABC))).
  - reached onePageRead.
  - evaluated.
Defined.

Lemma merge_result_adopted_witness :
  ∃ s' key m,
    step sampleDigest Concurrent (MergeSettled 0 (MergeResponse (Some "ABX")))
      (after Concurrent visionRead) = Some s' ∧
    m = (if String.eqb "ABX" "" then JsStr "ABC" else JsStr "ABX") ∧
    field (t_entry mergeOfA) "text" s' = m ∧
    field (t_entry mergeOfA) "mergedText" s' = m ∧
    field (t_entry mergeOfA) "ocrText" s' = JsStr "ABC" ∧
    field (t_entry mergeOfA) "ocrText" (after Concurrent visionRead) = JsStr "ABC" ∧
    field (t_entry mergeOfA) "visionText" s' = JsStr "ABD" ∧
    field (t_entry mergeOfA) "aiStatus" s' = JsStr "done" ∧
    (t_entry mergeOfA ∉ map t_entry (tasks s')) ∧
    t_cacheKey mergeOfA = JsStr key ∧
    ∃ c, resultCache s' !! key = Some c ∧
         get c "text" = m ∧ get c "mergedText" = m ∧
         get c "ocrText" = JsStr "ABC" ∧
         get c "visionText" = JsStr "ABD" ∧ get c "aiStatus" = JsStr "done".
Proof.
  apply (merge_result_adopted sampleDigest Concurrent
           (after Concurrent visionRead) 0 mergeOfA (JsStr "ABC") "ABD" (Some "ABX")).
  - reached visionRead.
  - evaluated.
  - reflexivity.
Defined.

Lemma both_transcripts_go_to_merge_witness :
  ∃ s', step sampleDigest Concurrent (VisionSettled 0 (VisionResponse (Some "ABD")))
          (after Concurrent (refining readsABC)) = Some s' ∧
        tasks s' = <[0 := with_stage (AwaitMerge (JsStr "ABC") "ABD") refinementOfA]>
                     (tasks (after Concurrent (refining readsABC))) ∧
        field (t_entry refinementOfA) "visionText" s' = JsStr "ABD" ∧
        field (t_entry refinementOfA) "text" s' = JsStr "ABC" ∧
        field (t_entry refinementOfA) "ocrText" s' = JsStr "ABC" ∧
        field (t_entry refinementOfA) "aiStatus" s' = JsStr "pending" ∧
        trace s' = trace (after Concurrent (refining readsABC)) ∧
        resultCache s' = resultCache (after Concurrent (refining readsABC)) ∧
        results s' = results (after Concurrent (refining readsABC)).
Proof.
  apply (both_transcripts_go_to_merge sampleDigest Concurrent
           (after Concurrent (refining readsABC)) 0 refinementOfA
           (VisionResponse (Some "ABD")) "ABC" "ABD").
  - reached (refining readsABC).
  - evaluated.
  - reflexivity.
  - evaluated.
  - discriminate.
  - reflexivity.
  - discriminate.
Defined.

Lemma failed_initialize_ends_batch_witness :
  ∃ s', step sampleDigest Concurrent (InitializeSettled 0 (Some 0))
          (after Concurrent onePageStarted) = Some s' ∧
        frames s' = [] ∧ isProcessing s' = false ∧
        results s' = [] ∧ heap s' = heap (after Concurrent onePageStarted) ∧
        trace s' = trace (after Concurrent onePageStarted) ∧
        resultCache s' = resultCache (after Concurrent onePageStarted) ∧
        tasks s' = tasks (after Concurrent onePageStarted) ∧
        images s' = images (after Concurrent onePageStarted) ∧
        isReady (ocrEngine s') = false ∧
        (images (after Concurrent onePageStarted) ≠ [] →
         ∃ f', frames (startOcr "eng" false s') = [f'] ∧
               f_pc f' = AtInitialize ∧ f_lang f' = "eng" ∧
               isProcessing (startOcr "eng" false s') = true ∧
               trace (startOcr "eng" false s') =
                 trace (after Concurrent onePageStarted)
                 ++ [EvStart (batches (after Concurrent onePageStarted))
                       (images (after Concurrent onePageStarted)) "eng"
                       (aiEnabled (after Concurrent onePageStarted) && false)]) ∧
        (images (after Concurrent onePageStarted) = [] →
         startOcr "eng" false s' = s').
Proof.
  apply (failed_initialize_ends_batch sampleDigest Concurrent
           (after Concurrent onePageStarted) 0 startedFrame (Some 0) "eng" false).
  - reached onePageStarted.
  - evaluated.
  - reflexivity.
  - evaluated.
Defined.

Lemma resolved_job_makes_entry_witness :
  ∃ s' img d entry,
    step sampleDigest Sequential (JobSettled 0 0 (JobResolved readsABC))
      (after Sequential onePageSubmitted) = Some s' ∧
    img ∈ f_images (recognizingFrame false) ∧
    [metaOfA false] !! 0 = Some d ∧ i_id d = id img ∧
    heap s' = heap (after Sequential onePageSubmitted) ++ [entry] ∧
    results s' = results (after Sequential onePageSubmitted)
                 ++ [length (heap (after Sequential onePageSubmitted))] ∧
    get entry "id" = JsStr (id img) ∧
    get entry "filename" =
      (if String.eqb (name (file img)) "" then JsStr "unknown"
       else JsStr (name (file img))) ∧
    get entry "text" = get (resultObject readsABC) "text" ∧
    get entry "ocrText" = get (resultObject readsABC) "text" ∧
    get entry "visionText" = JsNull ∧ get entry "mergedText" = JsNull ∧
    if f_useAI (recognizingFrame false) then
      get entry "aiStatus" = JsStr "pending" ∧
      tasks s' = tasks (after Sequential onePageSubmitted) ++
        [mkTask (length (heap (after Sequential onePageSubmitted)))
           (f_lang (recognizingFrame false))
           (JsStr (keyOf sampleDigest img (f_lang (recognizingFrame false)) true))
           AwaitVision (f_batch (recognizingFrame false))] ∧
      resultCache s' = resultCache (after Sequential onePageSubmitted)
    else
      get entry "aiStatus" = JsStr "disabled" ∧
      tasks s' = tasks (after Sequential onePageSubmitted) ∧
      resultCache s' =
        <[keyOf sampleDigest img (f_lang (recognizingFrame false)) false :=
            primaryCacheEntry (resultObject readsABC)]>
          (resultCache (after Sequential onePageSubmitted)).
Proof.
  apply (resolved_job_makes_entry sampleDigest Sequential
           (after Sequential onePageSubmitted) 0 (recognizingFrame false)
           [metaOfA false] (launchVision false [metaOfA false]) [0] 0 0
           (JobResolved readsABC) (resultObject readsABC)).
  - reached onePageSubmitted.
  - evaluated.
  - reflexivity.
  - constructor.
  - evaluated.
Defined.


Lemma shown_once_refined_once_witness :
  appendLocs (trace (after Concurrent refined))
    = seq 0 (length (heap (after Concurrent refined))) ∧
  NoDup (statusLocs (trace (after Concurrent refined))) ∧
  ∀ i b l st, trace (after Concurrent refined) !! i = Some (EvStatus b l st) →
    field l "aiStatus" (after Concurrent refined) = JsStr st ∧
    (st = "done" ∨ st = "failed") ∧
    (l ∉ map t_entry (tasks (after Concurrent refined))).
Proof.
  apply (shown_once_refined_once sampleDigest Concurrent (after Concurrent refined)).
  reached refined.
Defined.

Lemma batch_runs_on_ready_engine_witness :
  isReady (ocrEngine (after Sequential onePageSubmitted)) = true ∧
  currentLang (ocrEngine (after Sequential onePageSubmitted))
    = f_lang (recognizingFrame false) ∧
  (∃ workers, scheduler (ocrEngine (after Sequential onePageSubmitted)) = Some workers) ∧
  (∀ d, recognizeImage (ocrEngine (after Sequential onePageSubmitted)) (JobResolved d)
        = inl (resultObject d)) ∧
  (∀ m, recognizeImage (ocrEngine (after Sequential onePageSubmitted)) (JobRejected m)
        = inr m).
Proof.
  apply (batch_runs_on_ready_engine sampleDigest Sequential
           (after Sequential onePageSubmitted) 0 (recognizingFrame false)).
  - reached onePageSubmitted.
  - evaluated.
  - discriminate.
Defined.

Lemma vision_reads_original_witness :
  (f_useAI (recognizingFrame true) = false →
   launchVision true [metaOfA true] = ∅) ∧
  (f_useAI (recognizingFrame true) = true →
   (∀ d, d ∈ [metaOfA true] →
      ∃ img, img ∈ f_images (recognizingFrame true) ∧ id img = i_id d ∧
             launchVision true [metaOfA true] !! i_id d = Some (file img)) ∧
   (∀ i x, launchVision true [metaOfA true] !! i = Some x →
      ∃ img d, img ∈ f_images (recognizingFrame true) ∧ d ∈ [metaOfA true] ∧
               id img = i ∧ i_id d = i ∧ x = file img)).
Proof.
  apply (vision_reads_original sampleDigest Concurrent
           (after Concurrent submittedForRefinement) 0 (recognizingFrame true)
           [metaOfA true] (launchVision true [metaOfA true]) [0] 0).
  - reached submittedForRefinement.
  - evaluated.
  - reflexivity.
Defined.

Lemma clearAllImages_during_batch_witness :
  ∃ s' f',
    step sampleDigest Sequential ClearAllImages (after Sequential firstPageRead)
      = Some s' ∧
    images s' = [] ∧ results s' = [] ∧ isProcessing s' = true ∧
    frames s' = [f'] ∧ f_images f' = [imageA; imageB] ∧
    f_dropped f' = [JsStr "img-1"] ∧
    f_pc f' = f_pc firstReadFrame.
Proof.
  destruct (clearAllImages_during_batch sampleDigest Sequential
              (after Sequential firstPageRead) 0 firstReadFrame)
    as (s' & f' & Hs & Hi & Hr & _ & _ & _ & _ & Hp & Hf & _ & _ & _ & Him & _ & Hd & _ & Hpc).
  - reached firstPageRead.
  - evaluated.
  - exists s', f'. split; [exact Hs|]. split; [exact Hi|]. split; [exact Hr|].
    split; [exact Hp|]. split; [exact Hf|]. split; [exact Him|].
    split; [rewrite Hd; evaluated|exact Hpc].
Defined.

Lemma fingerprint_failure_ends_batch_witness :
  ∃ s', step sampleDigest Sequential (HashRejected 0)
          (after Sequential secondPageProbing) = Some s' ∧
        frames s' = [] ∧ isProcessing s' = false ∧
        results s' = [] ∧ heap s' = heap (after Sequential secondPageProbing) ∧
        trace s' = trace (after Sequential secondPageProbing) ∧
        resultCache s' = resultCache (after Sequential secondPageProbing) ∧
        tasks s' = tasks (after Sequential secondPageProbing) ∧
        images s' = images (after Sequential secondPageProbing) ∧
        ∀ l, EvAppend (f_batch secondPageFrame) l true ∉ trace s'.
Proof.
  apply (fingerprint_failure_ends_batch sampleDigest Sequential
           (after Sequential secondPageProbing) 0 secondPageFrame imageB
           (mkIter Live 2) []
           [cachedEntry (primaryCacheEntry (resultObject readsABC)) imageA]).
  - reached secondPageProbing.
  - evaluated.
  - reflexivity.
Defined.

Lemma removeImage_during_probe_witness :
  toWalk (after Sequential twoPagesProbing) (f_pc firstProbingFrame) = [imageB] ∧
  toWalk (removeImage "img-1" (after Sequential twoPagesProbing))
    (f_pc firstProbingFrame) = [] ∧
  images (removeImage "img-1" (after Sequential twoPagesProbing)) = [imageB].
Proof.
  destruct (removeImage_during_probe sampleDigest Sequential
              (after Sequential twoPagesProbing) 0 firstProbingFrame imageA
              (mkIter Live 1) [] [] "img-1" 0 imageA)
    as (_ & _ & Him & Hw & Hskip & _).
  - reached twoPagesProbing.
  - evaluated.
  - left. reflexivity.
  - reflexivity.
  - evaluated.
  - split; [rewrite Hw; evaluated|].
    split; [rewrite (Hskip (Nat.lt_0_succ 0)), Hw; evaluated|rewrite Him; evaluated].
Defined.
